(** * Targeter: the payload-drop targeting engine of the aircraft firmware

    A shallow embedding of [Targeter.cpp] and the properties of its
    natural-language specification.

    The C++ code computes on [double]s.  The embedding is written once,
    over an interface [Arith] of the arithmetic the source uses, and is
    read in two ways:

    - [ieee fmt]: IEEE-754 binary floating point as specified by the
      Standard Library's [SpecFloat] (round to nearest even, signed zeros,
      infinities, NaN).  A [double] has 64 bits on the ARM boards and 32
      bits on the AVR boards, so the format is a parameter ([Binary64] or
      [Binary32]).  All definitions compute in this reading.
    - [Exact.real]: exact arithmetic on the real numbers, where order
      properties of the formulas are first proved free of rounding.

    The order properties are then proved on floats, from the fact that
    rounding to nearest keeps the order of products, quotients and square
    roots ([RoundingFacts]).

    The functions of the C math library whose results are not fixed by
    IEEE-754 ([cos], [sin], [tan], [atan], [log], [pow]) are an interface
    of their own, [Libm].

    The caller of the targeter, [Communicator.cpp], is embedded in [Comm]:
    its functions are statements on a world made of the object, the two
    serial links, the pins and the clock, and what the file takes from
    headers that are not among the sources is an interface. *)

From Stdlib Require Import ZArith Bool List Sorted Ascii String Lia.
From Stdlib Require Import SpecFloat.
From Stdlib Require Reals Lra.
Import ListNotations.

Local Open Scope Z_scope.

(** ** The arithmetic of the source *)

Class Arith : Type := {
  double : Type;
  dadd : double -> double -> double;      (* x + y *)
  dsub : double -> double -> double;      (* x - y *)
  dmul : double -> double -> double;      (* x * y *)
  ddiv : double -> double -> double;      (* x / y *)
  dneg : double -> double;                (* -x *)
  dlt : double -> double -> bool;         (* x < y *)
  dle : double -> double -> bool;         (* x <= y *)
  sqrt : double -> double;
  floor : double -> double;
  of_int : Z -> double;                   (* int, long -> double *)
  to_int : double -> Z;                   (* (int) x, (long) x *)
  dec : Z -> Z -> double                  (* the decimal literal m * 10^k *)
}.

Class Libm (A : Arith) : Type := {
  cos : double -> double;
  sin : double -> double;
  tan : double -> double;
  atan : double -> double;
  log : double -> double;
  pow : double -> double -> double
}.

Declare Scope double_scope.
Delimit Scope double_scope with D.
Bind Scope double_scope with double.
Infix "+" := dadd : double_scope.
Infix "-" := dsub : double_scope.
Infix "*" := dmul : double_scope.
Infix "/" := ddiv : double_scope.
Notation "- x" := (dneg x) : double_scope.
Infix "<?" := dlt : double_scope.
Infix "<=?" := dle : double_scope.
Notation "x >? y" := (dlt y x) (only parsing) : double_scope.
Notation "x >=? y" := (dle y x) (only parsing) : double_scope.

(** ** IEEE-754 binary floating point *)

Variant format : Set := Binary32 | Binary64.

Definition prec (fmt : format) : Z :=
  match fmt with Binary32 => 24 | Binary64 => 53 end.

Definition emax (fmt : format) : Z :=
  match fmt with Binary32 => 128 | Binary64 => 1024 end.

Module IEEE.

(** An integer as an unrounded float: mantissa [n], exponent 0. *)
Definition raw (n : Z) : spec_float :=
  match n with
  | Z0 => S754_zero false
  | Zpos p => S754_finite false p 0
  | Zneg p => S754_finite true p 0
  end.

(** Largest integer below, and integer part of, a finite float
    [(-1)^s * m * 2^e].  C leaves the conversion of a NaN or an infinity
    to an integer undefined; they are sent to 0 here. *)
Definition Zfloor (x : spec_float) : Z :=
  match x with
  | S754_finite s m e => Z.shiftl (cond_Zopp s (Zpos m)) e
  | _ => 0
  end.

Definition Zceil (x : spec_float) : Z :=
  match x with
  | S754_finite s m e => - Z.shiftl (cond_Zopp (negb s) (Zpos m)) e
  | _ => 0
  end.

Definition Ztrunc (x : spec_float) : Z :=
  match x with
  | S754_finite s m e => cond_Zopp s (Z.shiftl (Zpos m) e)
  | _ => 0
  end.

Section Format.
Variable fmt : format.

Definition of_Z (n : Z) : spec_float :=
  binary_normalize (prec fmt) (emax fmt) n 0 false.

Definition SFfloor (x : spec_float) : spec_float :=
  match x with
  | S754_finite s _ _ =>
      match Zfloor x with
      | Z0 => S754_zero s
      | n => of_Z n
      end
  | _ => x
  end.

(** A decimal literal is rounded once, from its exact value. *)
Definition SFdec (m k : Z) : spec_float :=
  match k with
  | Zneg p => SFdiv (prec fmt) (emax fmt) (raw m) (raw (Z.pow_pos 10 p))
  | _ => of_Z (m * 10 ^ k)
  end.

Definition arith : Arith := {|
  double := spec_float;
  dadd := SFadd (prec fmt) (emax fmt);
  dsub := SFsub (prec fmt) (emax fmt);
  dmul := SFmul (prec fmt) (emax fmt);
  ddiv := SFdiv (prec fmt) (emax fmt);
  dneg := SFopp;
  dlt := SFltb;
  dle := SFleb;
  sqrt := SFsqrt (prec fmt) (emax fmt);
  floor := SFfloor;
  of_int := of_Z;
  to_int := Ztrunc;
  dec := SFdec
|}.
End Format.

(** *** Classes of values *)

Definition is_nan (x : spec_float) : bool :=
  match x with S754_nan => true | _ => false end.

Definition is_zero (x : spec_float) : bool :=
  match x with S754_zero _ => true | _ => false end.

(** A number: neither a NaN nor an infinity. *)
Definition is_finite (x : spec_float) : bool :=
  match x with S754_zero _ | S754_finite _ _ _ => true | _ => false end.

(** [x] is a NaN or has sign bit [s]. *)
Definition has_sign (s : bool) (x : spec_float) : Prop :=
  match x with
  | S754_nan => True
  | S754_zero s' | S754_infinity s' | S754_finite s' _ _ => s' = s
  end.

(** [x] is a NaN, a zero of either sign, or positive. *)
Definition not_negative (x : spec_float) : Prop :=
  match x with
  | S754_nan | S754_zero _ => True
  | S754_infinity s | S754_finite s _ _ => s = false
  end.

(** [x] is a value of the format: a mantissa and an exponent in range. *)
Definition is_value (fmt : format) (x : spec_float) : bool :=
  valid_binary (prec fmt) (emax fmt) x.

End IEEE.

Definition ieee : format -> Arith := IEEE.arith.

(** ** The exact reading: arithmetic on the real numbers *)

Module Exact.
Import Rdefinitions.

Definition Rltb (x y : R) : bool := if RIneq.Rlt_dec x y then true else false.
Definition Rleb (x y : R) : bool := if RIneq.Rle_dec x y then true else false.

Definition Rtrunc (x : R) : Z :=
  if RIneq.Rle_dec (IZR 0) x then R_Ifp.Int_part x
  else - R_Ifp.Int_part (Ropp x).

Definition Rdec (m k : Z) : R :=
  match k with
  | Zneg p => Rdiv (IZR m) (IZR (Z.pow_pos 10 p))
  | _ => IZR (m * 10 ^ k)
  end.

Definition real : Arith := {|
  double := R;
  dadd := Rplus;
  dsub := Rminus;
  dmul := Rmult;
  ddiv := Rdiv;
  dneg := Ropp;
  dlt := Rltb;
  dle := Rleb;
  sqrt := R_sqrt.sqrt;
  floor := fun x => IZR (R_Ifp.Int_part x);
  of_int := IZR;
  to_int := Rtrunc;
  dec := Rdec
|}.
End Exact.

(** ** The program *)

Section Program.
Context {A : Arith} {L : Libm A}.
Local Open Scope double_scope.

(** Integer constants of the source, converted where they meet a [double]. *)
Local Notation "# n" := (of_int n) (at level 1, format "# n").

(** *** Macros of [Arduino.h] *)

(** [#define PI 3.1415926535897932384626433832795] *)
Definition PI : double := dec 31415926535897932384626433832795 (-31).

(** [#define abs(x) ((x)>0?(x):-(x))] *)
Definition abs (x : double) : double :=
  if x >? #0 then x else - x.

(** [#define round(x) ((x)>=0?(long)((x)+0.5):(long)((x)-0.5))] *)
Definition round (x : double) : Z :=
  if x >=? #0 then to_int (x + dec 5 (-1)) else to_int (x - dec 5 (-1)).

(** *** The object

    The fields are declared in [Targeter.h]; each one is a [double], the
    type of the setters' parameters and of the getters' results. *)
Record Targeter : Type := mkTargeter {
  currentLatitude : double;
  currentLongitude : double;
  currentAltitude : double;
  currentVelocity : double;
  currentHeading : double;
  currentDataAge : double;
  targetLatitude : double;
  targetLongitude : double;
  targetAltitude : double;
  targetRaduis : double;
  lateralError : double;
  timeToDrop : double
}.

(** *** Conversions *)

Definition convertHeadingToMathAngle (heading : double) : double :=
  let angle := #(-1) * (heading - #90) in
  if angle <? #0 then #360 + angle else angle.

Definition convertDecimalDegMinToDegree (decimalDegreeMin : double) : double :=
  let baseDegree : Z := to_int (decimalDegreeMin / dec 1000 (-1)) in
  let baseDegMins := decimalDegreeMin - #(100 * baseDegree) in
  #baseDegree + baseDegMins / dec 600 (-1).

(** [int utmZone = (int) floor(lon / 6 + 31)] *)
Definition utmZone (lon : double) : Z :=
  to_int (floor (lon / #6 + #31)).

(** The ladder of comparisons that picks the latitude band. *)
Definition utmLetter (lat : double) : ascii :=
  if lat <? #(-72) then "C"
  else if lat <? #(-64) then "D"
  else if lat <? #(-56) then "E"
  else if lat <? #(-48) then "F"
  else if lat <? #(-40) then "G"
  else if lat <? #(-32) then "H"
  else if lat <? #(-24) then "J"
  else if lat <? #(-16) then "K"
  else if lat <? #(-8) then "L"
  else if lat <? #0 then "M"
  else if lat <? #8 then "N"
  else if lat <? #16 then "P"
  else if lat <? #24 then "Q"
  else if lat <? #32 then "R"
  else if lat <? #40 then "S"
  else if lat <? #48 then "T"
  else if lat <? #56 then "U"
  else if lat <? #64 then "V"
  else if lat <? #72 then "W"
  else "X".

(** [c1 < c2] on [char]s. *)
Definition char_lt (c1 c2 : ascii) : bool :=
  (N_of_ascii c1 <? N_of_ascii c2)%N.

(** The value assigned to [utmEasting] before it is rounded. *)
Definition utmEasting_raw (lat lon : double) : double :=
  let latr := lat * PI / #180 in
  let dl := lon * PI / #180 - #(6 * utmZone lon - 183) * PI / #180 in
  let a := (#1 + cos latr * sin dl) / (#1 - cos latr * sin dl) in
  dec 5 (-1) * log a * dec 9996 (-4) * dec 639959362 (-2)
    / pow (#1 + pow (dec 820944379 (-10)) #2 * pow (cos latr) #2) (dec 5 (-1))
    * (#1 + pow (dec 820944379 (-10)) #2 / #2
              * pow (dec 5 (-1) * log a) #2 * pow (cos latr) #2 / #3)
  + #500000.

(** The value assigned to [utmNorthing] before the false northing. *)
Definition utmNorthing_raw (lat lon : double) : double :=
  let latr := lat * PI / #180 in
  let dl := lon * PI / #180 - #(6 * utmZone lon - 183) * PI / #180 in
  let a := (#1 + cos latr * sin dl) / (#1 - cos latr * sin dl) in
  let s2 := sin (#2 * lat * PI / #180) in
  let c2 := pow (cos latr) #2 in
  let j2 := latr + s2 / #2 in
  let j4 := #3 * j2 + s2 * c2 in
  (atan (tan latr / cos dl) - latr) * dec 9996 (-4) * dec 6399593625 (-3)
    / sqrt (#1 + dec 6739496742 (-12) * c2)
    * (#1 + dec 6739496742 (-12) / #2 * pow (dec 5 (-1) * log a) #2 * c2)
  + dec 9996 (-4) * dec 6399593625 (-3)
    * (latr - dec 5054622556 (-12) * j2
       + dec 4258201531 (-14) * j4 / #4
       - dec 1674057895 (-16) * (#5 * j4 / #4 + s2 * c2 * c2) / #3).

(** The two reference parameters are returned as a pair
    [(utmEasting, utmNorthing)]. *)
Definition convertDeg2UTM (lat lon : double) : double * double :=
  let utmEasting := utmEasting_raw lat lon in
  let utmEasting := #(round (utmEasting * #100)) * dec 1 (-2) in
  let utmNorthing := utmNorthing_raw lat lon in
  let utmNorthing :=
    if char_lt (utmLetter lat) "M" then utmNorthing + #10000000
    else utmNorthing in
  let utmNorthing := #(round (utmNorthing * #100)) * dec 1 (-2) in
  (utmEasting, utmNorthing).

(** *** Physical calculations *)

Definition currentUTM (t : Targeter) : double * double :=
  convertDeg2UTM (convertDecimalDegMinToDegree (currentLatitude t))
                 (convertDecimalDegMinToDegree (currentLongitude t)).

Definition targetUTM (t : Targeter) : double * double :=
  convertDeg2UTM (convertDecimalDegMinToDegree (targetLatitude t))
                 (convertDecimalDegMinToDegree (targetLongitude t)).

(** Step 1 *)
Definition calculateLateralError (t : Targeter) : double :=
  let '(currentEasting, currentNorthing) := currentUTM t in
  let '(targetEasting, targetNorthing) := targetUTM t in
  let currentHeadingMathAngle := convertHeadingToMathAngle (currentHeading t) in
  let x1 := currentEasting + cos (currentHeadingMathAngle / #180 * PI) * #2000 in
  let y1 := currentNorthing + sin (currentHeadingMathAngle / #180 * PI) * #2000 in
  let x2 := currentEasting in
  let y2 := currentNorthing in
  let x0 := targetEasting in
  let y0 := targetNorthing in
  let numerator := (y2 - y1) * x0 in
  let numerator := numerator - (x2 - x1) * y0 in
  let numerator := numerator + x2 * y1 in
  let numerator := numerator - y2 * x1 in
  let numerator := abs numerator in
  let denominator := pow (y2 - y1) (dec 20 (-1)) in
  let denominator := denominator + pow (x2 - x1) (dec 20 (-1)) in
  let denominator := sqrt denominator in
  numerator / denominator.

(** Step 2 *)
Definition calculateDirectDistanceToTarget (t : Targeter) : double :=
  let '(currentEasting, currentNorthing) := currentUTM t in
  let '(targetEasting, targetNorthing) := targetUTM t in
  sqrt (pow (targetEasting - currentEasting) #2
        + pow (targetNorthing - currentNorthing) #2).

(** Step 3 *)
Definition calculatePathDistanceToTarget (t : Targeter) : double :=
  sqrt (pow (calculateDirectDistanceToTarget t) #2 - pow (lateralError t) #2).

(** Step 4 *)
Definition CORRECTION_FACTOR : double := dec 9 (-1).

Definition calculateDropDistance (t : Targeter) : double :=
  let heightm := currentAltitude t - targetAltitude t in
  let heightm := if heightm <? #0 then #0 else heightm in
  let fallTime := sqrt (#2 * heightm / dec 9807 (-3)) in
  currentVelocity t * fallTime * CORRECTION_FACTOR.

Definition dropDistanceToTarget (t : Targeter) : double :=
  calculatePathDistanceToTarget t - calculateDropDistance t.

(** Step 5; [millis] is the value [millis()] returns at the call. *)
Definition calculateTimeToDrop (millis : Z) (t : Targeter) : double :=
  let distRemaining := dropDistanceToTarget t in
  (distRemaining - currentVelocity t * ((#millis - currentDataAge t) / #1000))
  / currentVelocity t.

(** *** Methods that change the object

    A method runs on the object with the value [millis()] has at the
    call, and returns its result with the object as it leaves it. *)
Definition method (R : Type) : Type := Z -> Targeter -> R * Targeter.

Definition ret {R : Type} (r : R) : method R := fun _ t => (r, t).

Definition bind {R S : Type} (m : method R) (k : R -> method S) : method S :=
  fun millis t => let (r, t') := m millis t in k r millis t'.

(** A call of a method that only reads the object. *)
Definition call {R : Type} (f : Targeter -> R) : method R :=
  fun _ t => (f t, t).

(** The same, for the one method that reads the clock. *)
Definition call_at_millis {R : Type} (f : Z -> Targeter -> R) : method R :=
  fun millis t => (f millis t, t).

(** An assignment to a field. *)
Definition assign (upd : Targeter -> Targeter) : method unit :=
  fun _ t => (tt, upd t).

Definition run {R : Type} (m : method R) (millis : Z) (t : Targeter) : R * Targeter :=
  m millis t.

Local Notation "x <- m ;; k" := (bind m (fun x => k))
  (at level 61, m at next level, right associativity).
Local Notation "m ;; k" := (bind m (fun _ => k))
  (at level 61, right associativity).

Definition set_currentLatitude (v : double) (t : Targeter) : Targeter :=
  mkTargeter v (currentLongitude t) (currentAltitude t) (currentVelocity t)
    (currentHeading t) (currentDataAge t) (targetLatitude t) (targetLongitude t)
    (targetAltitude t) (targetRaduis t) (lateralError t) (timeToDrop t).

Definition set_currentLongitude (v : double) (t : Targeter) : Targeter :=
  mkTargeter (currentLatitude t) v (currentAltitude t) (currentVelocity t)
    (currentHeading t) (currentDataAge t) (targetLatitude t) (targetLongitude t)
    (targetAltitude t) (targetRaduis t) (lateralError t) (timeToDrop t).

Definition set_currentAltitude (v : double) (t : Targeter) : Targeter :=
  mkTargeter (currentLatitude t) (currentLongitude t) v (currentVelocity t)
    (currentHeading t) (currentDataAge t) (targetLatitude t) (targetLongitude t)
    (targetAltitude t) (targetRaduis t) (lateralError t) (timeToDrop t).

Definition set_currentVelocity (v : double) (t : Targeter) : Targeter :=
  mkTargeter (currentLatitude t) (currentLongitude t) (currentAltitude t) v
    (currentHeading t) (currentDataAge t) (targetLatitude t) (targetLongitude t)
    (targetAltitude t) (targetRaduis t) (lateralError t) (timeToDrop t).

Definition set_currentHeading (v : double) (t : Targeter) : Targeter :=
  mkTargeter (currentLatitude t) (currentLongitude t) (currentAltitude t)
    (currentVelocity t) v (currentDataAge t) (targetLatitude t) (targetLongitude t)
    (targetAltitude t) (targetRaduis t) (lateralError t) (timeToDrop t).

Definition set_currentDataAge (v : double) (t : Targeter) : Targeter :=
  mkTargeter (currentLatitude t) (currentLongitude t) (currentAltitude t)
    (currentVelocity t) (currentHeading t) v (targetLatitude t) (targetLongitude t)
    (targetAltitude t) (targetRaduis t) (lateralError t) (timeToDrop t).

Definition set_targetLatitude (v : double) (t : Targeter) : Targeter :=
  mkTargeter (currentLatitude t) (currentLongitude t) (currentAltitude t)
    (currentVelocity t) (currentHeading t) (currentDataAge t) v (targetLongitude t)
    (targetAltitude t) (targetRaduis t) (lateralError t) (timeToDrop t).

Definition set_targetLongitude (v : double) (t : Targeter) : Targeter :=
  mkTargeter (currentLatitude t) (currentLongitude t) (currentAltitude t)
    (currentVelocity t) (currentHeading t) (currentDataAge t) (targetLatitude t) v
    (targetAltitude t) (targetRaduis t) (lateralError t) (timeToDrop t).

Definition set_targetAltitude (v : double) (t : Targeter) : Targeter :=
  mkTargeter (currentLatitude t) (currentLongitude t) (currentAltitude t)
    (currentVelocity t) (currentHeading t) (currentDataAge t) (targetLatitude t)
    (targetLongitude t) v (targetRaduis t) (lateralError t) (timeToDrop t).

(** Getters *)

Definition recalculate : method bool :=
  call calculateLateralError ;;
  call_at_millis calculateTimeToDrop ;;
  d <- call dropDistanceToTarget ;;
  r <- call targetRaduis ;;
  ret (d <? r).

Definition getLateralError : method double := call lateralError.

Definition getTimeToDrop : method double := call timeToDrop.

(** Setters *)

Definition setCurrentData
    (_currentLatitude _currentLongitude _currentAltitude _currentVelocity
     _currentHeading _currentDataAge : double) : method bool :=
  assign (set_currentLatitude _currentLatitude) ;;
  assign (set_currentLongitude _currentLongitude) ;;
  assign (set_currentAltitude _currentAltitude) ;;
  assign (set_currentVelocity _currentVelocity) ;;
  assign (set_currentHeading _currentHeading) ;;
  assign (set_currentDataAge _currentDataAge) ;;
  call calculateLateralError ;;
  call_at_millis calculateTimeToDrop ;;
  d <- call dropDistanceToTarget ;;
  r <- call targetRaduis ;;
  ret (d <? r).

Definition setTargetData
    (_targetLatitude _targetLongitude _targetAltitude : double) : method unit :=
  assign (set_targetLatitude _targetLatitude) ;;
  assign (set_targetLongitude _targetLongitude) ;;
  assign (set_targetAltitude _targetAltitude) ;;
  call calculateLateralError ;;
  call_at_millis calculateTimeToDrop ;;
  ret tt.

End Program.

Arguments Targeter : clear implicits.
Arguments method : clear implicits.

(** ** Definitions the properties are stated with *)

Section Reading.
Context {A : Arith} {L : Libm A}.
Local Open Scope double_scope.
Local Notation "# n" := (of_int n) (at level 1, format "# n").

(** The object after [setCurrentData]. *)
Definition with_current (lat lon alt vel hdg age : double) (t : Targeter A) : Targeter A :=
  mkTargeter lat lon alt vel hdg age
    (targetLatitude t) (targetLongitude t) (targetAltitude t)
    (targetRaduis t) (lateralError t) (timeToDrop t).

(** The object after [setTargetData]. *)
Definition with_target (lat lon alt : double) (t : Targeter A) : Targeter A :=
  mkTargeter (currentLatitude t) (currentLongitude t) (currentAltitude t)
    (currentVelocity t) (currentHeading t) (currentDataAge t)
    lat lon alt
    (targetRaduis t) (lateralError t) (timeToDrop t).

(** The comparison both entry points end with. *)
Definition decision (t : Targeter A) : bool :=
  dropDistanceToTarget t <? targetRaduis t.

(** The height the payload falls, before it is clamped. *)
Definition heightDelta (t : Targeter A) : double :=
  currentAltitude t - targetAltitude t.

(** [std::max], the maximum the specification writes [max]. *)
Definition dmax (x y : double) : double := if x <? y then y else x.

(** The latitude bands as a table: the bounds the ladder compares with,
    and the letters it assigns. *)
Definition band_bounds : list Z :=
  [-72; -64; -56; -48; -40; -32; -24; -16; -8; 0; 8; 16; 24; 32; 40; 48; 56; 64; 72].

Definition band_letters : list ascii :=
  ["C"; "D"; "E"; "F"; "G"; "H"; "J"; "K"; "L"; "M";
   "N"; "P"; "Q"; "R"; "S"; "T"; "U"; "V"; "W"; "X"]%char.

(** The number of bounds, from the south, that [lat] is not below. *)
Fixpoint band_index (bounds : list Z) (lat : double) : nat :=
  match bounds with
  | [] => O
  | b :: bs => if lat <? #b then O else S (band_index bs lat)
  end.

End Reading.

Section FloatReading.
Variable fmt : format.
Local Open Scope double_scope.
Local Notation "# n" := (@of_int (ieee fmt) n) (at level 1, format "# n").

(** The formula of the specification for a packed value:
    [floor(V/100) + (V - 100*floor(V/100))/60]. *)
Definition convertDecimalDegMinToDegree_floor (V : @double (ieee fmt)) : @double (ieee fmt) :=
  let f := IEEE.Zfloor (V / dec 1000 (-1)) in
  #f + (V - #(100 * f)) / dec 600 (-1).

(** The order of two integer bounds once they are converted. *)
Definition bound_lt (a b : Z) : Prop := (#a <? #b) = true.

(** Every field of the object holds a value of the format. *)
Definition fields (t : Targeter (ieee fmt)) : list spec_float :=
  [currentLatitude t; currentLongitude t; currentAltitude t;
   currentVelocity t; currentHeading t; currentDataAge t;
   targetLatitude t; targetLongitude t; targetAltitude t;
   targetRaduis t; lateralError t; timeToDrop t].

Definition is_object (t : Targeter (ieee fmt)) : bool :=
  forallb (IEEE.is_value fmt) (fields t).

End FloatReading.

Section ExactReading.
Import Rdefinitions.
Local Open Scope R_scope.

(** The clamp and the drop distance, written on the reals. *)
Definition clampR (h : R) : R := if Exact.Rltb h 0 then 0 else h.

Definition dropR (v h : R) : R :=
  v * R_sqrt.sqrt (2 * clampR h / (9807 / 1000)) * (9 / 10).

End ExactReading.

(** ** Rounding to nearest, for the order properties

    What [binary_round_aux] computes, stated with real numbers: the
    definitions the facts on the order of rounded products, quotients
    and square roots are stated with. *)

Module Rounding.
Import Rdefinitions.

(** [2^e] as a real. *)
Definition bpow (e : Z) : R := Rfunctions.powerRZ (IZR 2) e.

(** A shift record [(m, r, s)] as one integer: the mantissa, then the round
    bit, then the sticky bit. *)
Definition code (mrs : shr_record) : Z :=
  4 * shr_m mrs + (if shr_r mrs then 2 else 0) + (if shr_s mrs then 1 else 0).

(** The position of a location within its unit. *)
Definition loc_code (l : location) : Z :=
  match l with
  | loc_Exact => 0
  | loc_Inexact Lt => 1
  | loc_Inexact Eq => 2
  | loc_Inexact Gt => 3
  end.

(** One shift to the right, on codes. *)
Definition shift_code (k : Z) : Z :=
  2 * (k / 4) + (if k mod 4 =? 0 then 0 else 1).

(** Rounding to nearest, ties to even, on codes. *)
Definition round_code (k : Z) : Z :=
  let m := k / 4 in
  let c := k mod 4 in
  if c <? 2 then m
  else if c =? 2 then (if Z.even m then m else m + 1)
  else m + 1.

(** The code [k] locates the real [y]: [k / 4] is its integer part, and
    [k mod 4] tells whether it is that integer, below the half, the half,
    or above the half. *)
Definition locates (k : Z) (y : R) : Prop :=
  let m := IZR (k / 4) in
  match k mod 4 with
  | 0 => y = m
  | 1 => (m < y < m + / 2)%R
  | 2 => y = (m + / 2)%R
  | _ => (m + / 2 < y < m + 1)%R
  end.

(** The real a positive finite float stands for. *)
Definition F2R (m : positive) (e : Z) : R := Rmult (IZR (Zpos m)) (bpow e).

(** A number that is not negative: a zero, a positive float or [+oo]. *)
Definition nonneg (x : spec_float) : Prop :=
  match x with
  | S754_nan => False
  | S754_zero _ => True
  | S754_infinity s | S754_finite s _ _ => s = false
  end.

Definition not_nan (x : spec_float) : Prop := x <> S754_nan.

(** The clamp at zero that precedes the square root. *)
Definition clamp (h : spec_float) : spec_float :=
  if SFltb h (S754_zero false) then S754_zero false else h.

Section Format.
Variables prec emax : Z.

(** The float made of a rounded mantissa [Q <= 2^prec] at exponent [T]. *)
Definition finish (s : bool) (Q T : Z) : spec_float :=
  if Q =? 0 then S754_zero s
  else if Q =? 2 ^ prec then
    (if T + 1 <=? emax - prec
     then S754_finite s (Z.to_pos (2 ^ (prec - 1))) (T + 1)
     else S754_infinity s)
  else
    (if T <=? emax - prec
     then S754_finite s (Z.to_pos Q) T
     else S754_infinity s).

(** [Q] is the mantissa, at exponent [T], of the positive real [x] rounded:
    [T] is the exponent the format gives to [x], and [Q] is [x / 2^T]
    rounded to nearest even. *)
Definition rounds (x : R) (Q T : Z) : Prop :=
  SpecFloat.emin prec emax <= T
  /\ (x < bpow (T + prec))%R
  /\ (SpecFloat.emin prec emax < T -> (bpow (T + prec - 1) <= x)%R)
  /\ exists k : Z, locates k (x / bpow T) /\ Q = round_code k.

(** The fall time and the drop distance as the code computes them from a
    velocity [v] and a height [h], with the constants 2, 9.807 and 0.9 as
    parameters. *)
Definition fall (two g h : spec_float) : spec_float :=
  SFsqrt prec emax (SFdiv prec emax (SFmul prec emax two (clamp h)) g).

Definition drop (two g c v h : spec_float) : spec_float :=
  SFmul prec emax (SFmul prec emax v (fall two g h)) c.

End Format.

End Rounding.

(** ** The real number a float stands for *)

Module Values.
Import Rdefinitions.

(** The value of a finite float; 0 for an infinity or a NaN. *)
Definition B2R (x : spec_float) : R :=
  match x with
  | S754_finite s m e =>
      if s then Ropp (Rounding.F2R m e) else Rounding.F2R m e
  | _ => IZR 0
  end.

Section Format.
Variables prec emax : Z.

(** [z] is the real [r] rounded to the format: a zero for 0, and
    otherwise the float of the sign of [r] that the rounding of [|r|]
    makes. *)
Definition rounded (r : R) (z : spec_float) : Prop :=
  (r = IZR 0 /\ exists s : bool, z = S754_zero s)
  \/ (Rlt (IZR 0) r
      /\ exists Q T : Z, Rounding.rounds prec emax r Q T
                         /\ z = Rounding.finish prec emax false Q T)
  \/ (Rlt r (IZR 0)
      /\ exists Q T : Z, Rounding.rounds prec emax (Ropp r) Q T
                         /\ z = Rounding.finish prec emax true Q T).

End Format.

End Values.

(** ** Further definitions the properties are stated with *)

(** The same number: equal, or zeros of either sign. *)
Definition same_number (x y : spec_float) : Prop :=
  x = y \/ (IEEE.is_zero x = true /\ IEEE.is_zero y = true).

(** ** The object the program holds *)

Section Reach.
Context {A : Arith} {L : Libm A}.
Local Open Scope double_scope.
Local Notation "# n" := (of_int n) (at level 1, format "# n").

(** The object with [e] stored as its lateral error: the store that
    step 3 relies on and no method makes. *)
Definition with_lateralError (e : double) (t : Targeter A) : Targeter A :=
  mkTargeter (currentLatitude t) (currentLongitude t) (currentAltitude t)
    (currentVelocity t) (currentHeading t) (currentDataAge t)
    (targetLatitude t) (targetLongitude t) (targetAltitude t)
    (targetRaduis t) e (timeToDrop t).

(** The decision as the specification has it: the path distance is taken
    from the lateral error of the state the object holds. *)
Definition decision_of_state (t : Targeter A) : bool :=
  decision (with_lateralError (calculateLateralError t) t).



End Reach.

(** ** Numbers within a power of two *)

Module Bounds.
Import Rdefinitions.

(** The float [2^k]. *)
Definition pow2 (prec k : Z) : spec_float :=
  S754_finite false (Z.to_pos (2 ^ (prec - 1))) (k - prec + 1).

(** [x] is a number of the format and [|x| <= 2^k]. *)
Definition within (prec emax k : Z) (x : spec_float) : Prop :=
  valid_binary prec emax x = true
  /\ IEEE.is_finite x = true
  /\ Rle (Ropp (Rounding.bpow k)) (Values.B2R x)
  /\ Rle (Values.B2R x) (Rounding.bpow k).

End Bounds.

(** ** The states on which the lateral error is a number *)

Section Centimetres.
Context {A : Arith} {L : Libm A}.
Local Open Scope double_scope.
Local Notation "# n" := (of_int n) (at level 1, format "# n").

(** The two integers [round] makes in [convertDeg2UTM]: the easting and
    the northing in centimetres. *)
Definition utm_centimetres (lat lon : double) : Z * Z :=
  (round (utmEasting_raw lat lon * #100),
   round ((if char_lt (utmLetter lat) "M"
           then utmNorthing_raw lat lon + #10000000
           else utmNorthing_raw lat lon) * #100)).

(** [n] is a value of [long], the type [round] casts to. *)
Definition fits_long (n : Z) : Prop := - 2 ^ 31 <= n < 2 ^ 31.

(** The centimetres of the aircraft's and of the target's position are
    values of [long]. *)
Definition positions_fit_long (t : Targeter A) : Prop :=
  let c := utm_centimetres (convertDecimalDegMinToDegree (currentLatitude t))
                           (convertDecimalDegMinToDegree (currentLongitude t)) in
  let g := utm_centimetres (convertDecimalDegMinToDegree (targetLatitude t))
                           (convertDecimalDegMinToDegree (targetLongitude t)) in
  fits_long (fst c) /\ fits_long (snd c) /\ fits_long (fst g) /\ fits_long (snd g).

End Centimetres.

Section Direction.
Variable fmt : format.
Context {L : Libm (ieee fmt)}.
Local Open Scope double_scope.
Local Notation "# n" := (@of_int (ieee fmt) n) (at level 1, format "# n").

(** [x] is a number of the format, and [lo <= x <= hi]. *)
Definition between (lo hi x : @double (ieee fmt)) : Prop :=
  IEEE.is_value fmt x = true /\ (lo <=? x) = true /\ (x <=? hi) = true.

(** A cosine and a sine that give a direction: numbers between -2 and 2
    (1 in magnitude at most, but for the error of the library), one of
    them at least 0.5 in magnitude. *)
Definition direction (c s : @double (ieee fmt)) : Prop :=
  between #(-2) #2 c /\ between #(-2) #2 s
  /\ ((c <=? - dec 5 (-1)) || (dec 5 (-1) <=? c)
      || (s <=? - dec 5 (-1)) || (dec 5 (-1) <=? s)) = true.

(** The heading is defined: the math library gives a direction for its
    angle. *)
Definition heading_defined (t : Targeter (ieee fmt)) : Prop :=
  let a := convertHeadingToMathAngle (currentHeading t) / #180 * PI in
  direction (cos a) (sin a).

(** What the proofs take from [pow(x, 2)] for a number [x]: a value of
    the format that is not below 0, at most [4^k] when [|x| <= 2^k] and
    at least [4^k] when [|x| >= 2^k]. *)
Definition squares : Prop :=
  forall (x : @double (ieee fmt)) (k : Z),
    IEEE.is_value fmt x = true -> IEEE.is_finite x = true -> 0 <= k <= 31 ->
    IEEE.is_value fmt (pow x #2) = true
    /\ (#0 <=? pow x #2) = true
    /\ ((- #(2 ^ k) <=? x) = true -> (x <=? #(2 ^ k)) = true ->
        (pow x #2 <=? #(4 ^ k)) = true)
    /\ ((x <=? - #(2 ^ k)) = true \/ (#(2 ^ k) <=? x) = true ->
        (#(4 ^ k) <=? pow x #2) = true).

End Direction.

(** ** The communicator

    [Communicator.cpp]: the serial links, the drop bay and the calls of
    the targeter.  A [double] is a float of the format [fmt]; a [float]
    has 32 bits. *)

Module Comm.

(** *** Bytes and floats on the wire *)

Definition byte : Type := ascii.

Definition NUL : byte := "000"%char.
Definition LF : byte := "010"%char.   (* '\n' *)
Definition CR : byte := "013"%char.   (* '\r' *)

(** The [n] low bytes of [z], lowest first: the boards are little-endian. *)
Fixpoint bytes_le (n : nat) (z : Z) : list byte :=
  match n with
  | O => []
  | S n' => ascii_of_N (Z.to_N (z mod 256)) :: bytes_le n' (z / 256)
  end.

(** [(float) x]: a double rounded to 32 bits. *)
Definition to_float (x : spec_float) : spec_float :=
  match x with
  | S754_finite s m e => binary_round 24 128 s m e
  | _ => x
  end.

(** A [float] passed where a [double] is expected. *)
Definition of_float (fmt : format) (x : spec_float) : spec_float :=
  match x with
  | S754_finite s m e => binary_round (prec fmt) (emax fmt) s m e
  | _ => x
  end.

(** The 32 bits of a [float]: sign, biased exponent, fraction.  A NaN is
    taken as the quiet NaN [7FC00000]. *)
Definition float_bits (x : spec_float) : Z :=
  let sign (s : bool) := if s then 2 ^ 31 else 0 in
  match x with
  | S754_zero s => sign s
  | S754_infinity s => sign s + 255 * 2 ^ 23
  | S754_nan => 255 * 2 ^ 23 + 2 ^ 22
  | S754_finite s m e =>
      if Z.pos m <? 2 ^ 23 then sign s + Z.pos m
      else sign s + (e + 150) * 2 ^ 23 + (Z.pos m - 2 ^ 23)
  end.

(** *** What the file refers to and does not define

    [Adafruit_GPS] is a class of the repository whose code is not among
    the sources; the fields are those [Communicator.cpp] reads, with the
    types of the send functions they are passed to. *)
Record Adafruit_GPS : Type := mkGPS {
  latitude : spec_float;       (* float *)
  longitude : spec_float;      (* float *)
  speed : spec_float;          (* float *)
  angle : spec_float;          (* float *)
  milliseconds : Z;            (* uint16_t *)
  seconds : Z                  (* uint8_t *)
}.

(** The constants of [plane.h], [Adafruit_GPS::parse], the clock and the
    radio at the other end of the link.  [DEBUG_PRINT] and
    [DEBUG_PRINTLN], also of [plane.h], write to the debug console; the
    model does not record what they print. *)
Class Firmware : Type := {
  (** [#ifdef Targeter_Test] *)
  Targeter_Test : bool;
  (** compared with a difference of [unsigned long]s *)
  closeDropBayTimeout : Z;
  STATUS_LED_PIN : Z;
  (** [GPS.parse(nmeaBuf)]: the sentence, and the object before; the
      result, and the object after *)
  GPS_parse : list byte -> Adafruit_GPS -> bool * Adafruit_GPS;
  (** the value the [k]-th call of [millis()] returns *)
  millis_at : nat -> Z
}.

(** What [initialize] refers to and the file does not define: two pins
    of [plane.h], [Adafruit_GPS::init], the five configuration sentences
    of the GPS, and the radio at the other end of the link. *)
Class Startup : Type := {
  TX_TO_DISCONNECT : Z;
  RX_TO_DISCONNECT : Z;
  (** [GPS.init()]: the object before, and after *)
  GPS_init : Adafruit_GPS -> Adafruit_GPS;
  PMTK_SET_NMEA_OUTPUT_RMCONLY : list byte;
  SET_NMEA_UPDATE_RATE_5HZ : list byte;
  PMTK_API_SET_FIX_CTL_5HZ : list byte;
  ENABLE_SBAB_SATELLITES : list byte;
  ENABLE_USING_WAAS_WITH_SBSB_SATS : list byte;
  (** the bytes that arrive from the radio while the board waits, up to
      [timeout] ms, after all of [sent] was written to it *)
  XBEE_answer : forall (sent : list byte) (timeout : Z), list byte
}.

(** *** Constants of [Communicator.h] *)

Definition INCOME_AUTO_ON : byte := "a"%char.
Definition INCOME_AUTO_OFF : byte := "n"%char.
Definition INCOME_RESET : byte := "r"%char.
Definition INCOME_RESTART : byte := "q"%char.
Definition INCOME_DROP_ALT : byte := "g"%char.
Definition INCOME_DROP_OPEN : byte := "o"%char.
Definition INCOME_DROP_CLOSE : byte := "c"%char.

Definition DATA_PACKET : byte := "p"%char.
Definition MESSAGE_DROP_OPEN : byte := "o"%char.
Definition MESSAGE_DROP_CLOSE : byte := "c"%char.
Definition MESSAGE_AUTO_ON : byte := "b"%char.
Definition MESSAGE_AUTO_OFF : byte := "d"%char.

Definition DROP_PIN : Z := 10.
Definition DROP_BAY_CLOSED : Z := 1500.
Definition DROP_BAY_OPEN : Z := 2100.
Definition MAXLINELENGTH : Z := 120.

(** [unsigned long] has 32 bits on the boards. *)
Definition ulong (z : Z) : Z := z mod 2 ^ 32.

Section Code.
Variable fmt : format.
Context {L : Libm (ieee fmt)} {F : Firmware} {SU : Startup}.

(** *** The state

    The fields of the object that [Communicator.cpp] uses. *)

Record Communicator : Type := mkCommunicator {
  altitude : spec_float;             (* double *)
  roll : spec_float;                 (* double *)
  pitch : spec_float;                (* double *)
  altitudeAtDrop : spec_float;       (* double *)
  timeAtDrop : Z;                    (* unsigned long *)
  dropBayServoPos : Z;               (* int *)
  autoDrop : bool;
  reset : bool;
  restart : bool;
  nmeaBuf : list byte;               (* char [MAXLINELENGTH] *)
  nmeaBufInd : Z;                    (* int *)
  newParsedData : bool;
  currentTargeterDataPoint : Z       (* int *)
}.

(** What the program does to the pins and the servo. *)
Variant Mode : Type := INPUT | OUTPUT.

Variant Output : Type :=
| pinMode (pin : Z) (mode : Mode)
| attach (pin : Z)
| digitalWrite (pin : Z) (high : bool)
| writeMicroseconds (us : Z).

(** The object, the two globals of the file, the serial ports, the pins
    and the number of calls of [millis()] so far. *)
Record World : Type := mkWorld {
  this : Communicator;
  targeter : Targeter (ieee fmt);
  GPS : Adafruit_GPS;
  XBEE_received : list byte;     (* waiting in [XBEE_SERIAL], oldest first *)
  XBEE_sent : list byte;         (* written to [XBEE_SERIAL], oldest first *)
  GPS_received : list byte;      (* waiting in [GPS_SERIAL], oldest first *)
  GPS_sent : list byte;          (* written to [GPS_SERIAL], oldest first *)
  outputs : list Output;         (* oldest first *)
  millis_calls : nat
}.

Definition set_this (f : Communicator -> Communicator) (w : World) : World :=
  mkWorld (f (this w)) (targeter w) (GPS w) (XBEE_received w) (XBEE_sent w)
    (GPS_received w) (GPS_sent w) (outputs w) (millis_calls w).

Definition set_targeter (t : Targeter (ieee fmt)) (w : World) : World :=
  mkWorld (this w) t (GPS w) (XBEE_received w) (XBEE_sent w) (GPS_received w)
    (GPS_sent w) (outputs w) (millis_calls w).

Definition set_GPS (g : Adafruit_GPS) (w : World) : World :=
  mkWorld (this w) (targeter w) g (XBEE_received w) (XBEE_sent w) (GPS_received w)
    (GPS_sent w) (outputs w) (millis_calls w).

Definition set_XBEE_received (l : list byte) (w : World) : World :=
  mkWorld (this w) (targeter w) (GPS w) l (XBEE_sent w) (GPS_received w)
    (GPS_sent w) (outputs w) (millis_calls w).

Definition set_XBEE_sent (l : list byte) (w : World) : World :=
  mkWorld (this w) (targeter w) (GPS w) (XBEE_received w) l (GPS_received w)
    (GPS_sent w) (outputs w) (millis_calls w).

Definition set_GPS_received (l : list byte) (w : World) : World :=
  mkWorld (this w) (targeter w) (GPS w) (XBEE_received w) (XBEE_sent w) l
    (GPS_sent w) (outputs w) (millis_calls w).

Definition set_GPS_sent (l : list byte) (w : World) : World :=
  mkWorld (this w) (targeter w) (GPS w) (XBEE_received w) (XBEE_sent w)
    (GPS_received w) l (outputs w) (millis_calls w).

Definition set_outputs (l : list Output) (w : World) : World :=
  mkWorld (this w) (targeter w) (GPS w) (XBEE_received w) (XBEE_sent w)
    (GPS_received w) (GPS_sent w) l (millis_calls w).

Definition set_millis_calls (n : nat) (w : World) : World :=
  mkWorld (this w) (targeter w) (GPS w) (XBEE_received w) (XBEE_sent w)
    (GPS_received w) (GPS_sent w) (outputs w) n.

Definition set_altitude (v : spec_float) (c : Communicator) : Communicator :=
  mkCommunicator v (roll c) (pitch c) (altitudeAtDrop c) (timeAtDrop c)
    (dropBayServoPos c) (autoDrop c) (reset c) (restart c) (nmeaBuf c)
    (nmeaBufInd c) (newParsedData c) (currentTargeterDataPoint c).

Definition set_roll (v : spec_float) (c : Communicator) : Communicator :=
  mkCommunicator (altitude c) v (pitch c) (altitudeAtDrop c) (timeAtDrop c)
    (dropBayServoPos c) (autoDrop c) (reset c) (restart c) (nmeaBuf c)
    (nmeaBufInd c) (newParsedData c) (currentTargeterDataPoint c).

Definition set_pitch (v : spec_float) (c : Communicator) : Communicator :=
  mkCommunicator (altitude c) (roll c) v (altitudeAtDrop c) (timeAtDrop c)
    (dropBayServoPos c) (autoDrop c) (reset c) (restart c) (nmeaBuf c)
    (nmeaBufInd c) (newParsedData c) (currentTargeterDataPoint c).

Definition set_altitudeAtDrop (v : spec_float) (c : Communicator) : Communicator :=
  mkCommunicator (altitude c) (roll c) (pitch c) v (timeAtDrop c)
    (dropBayServoPos c) (autoDrop c) (reset c) (restart c) (nmeaBuf c)
    (nmeaBufInd c) (newParsedData c) (currentTargeterDataPoint c).

Definition set_timeAtDrop (v : Z) (c : Communicator) : Communicator :=
  mkCommunicator (altitude c) (roll c) (pitch c) (altitudeAtDrop c) v
    (dropBayServoPos c) (autoDrop c) (reset c) (restart c) (nmeaBuf c)
    (nmeaBufInd c) (newParsedData c) (currentTargeterDataPoint c).

Definition set_dropBayServoPos (v : Z) (c : Communicator) : Communicator :=
  mkCommunicator (altitude c) (roll c) (pitch c) (altitudeAtDrop c) (timeAtDrop c) v
    (autoDrop c) (reset c) (restart c) (nmeaBuf c) (nmeaBufInd c) (newParsedData c)
    (currentTargeterDataPoint c).

Definition set_autoDrop (v : bool) (c : Communicator) : Communicator :=
  mkCommunicator (altitude c) (roll c) (pitch c) (altitudeAtDrop c) (timeAtDrop c)
    (dropBayServoPos c) v (reset c) (restart c) (nmeaBuf c) (nmeaBufInd c)
    (newParsedData c) (currentTargeterDataPoint c).

Definition set_reset (v : bool) (c : Communicator) : Communicator :=
  mkCommunicator (altitude c) (roll c) (pitch c) (altitudeAtDrop c) (timeAtDrop c)
    (dropBayServoPos c) (autoDrop c) v (restart c) (nmeaBuf c) (nmeaBufInd c)
    (newParsedData c) (currentTargeterDataPoint c).

Definition set_restart (v : bool) (c : Communicator) : Communicator :=
  mkCommunicator (altitude c) (roll c) (pitch c) (altitudeAtDrop c) (timeAtDrop c)
    (dropBayServoPos c) (autoDrop c) (reset c) v (nmeaBuf c) (nmeaBufInd c)
    (newParsedData c) (currentTargeterDataPoint c).

Definition set_nmeaBuf (v : list byte) (c : Communicator) : Communicator :=
  mkCommunicator (altitude c) (roll c) (pitch c) (altitudeAtDrop c) (timeAtDrop c)
    (dropBayServoPos c) (autoDrop c) (reset c) (restart c) v (nmeaBufInd c)
    (newParsedData c) (currentTargeterDataPoint c).

Definition set_nmeaBufInd (v : Z) (c : Communicator) : Communicator :=
  mkCommunicator (altitude c) (roll c) (pitch c) (altitudeAtDrop c) (timeAtDrop c)
    (dropBayServoPos c) (autoDrop c) (reset c) (restart c) (nmeaBuf c) v
    (newParsedData c) (currentTargeterDataPoint c).

Definition set_newParsedData (v : bool) (c : Communicator) : Communicator :=
  mkCommunicator (altitude c) (roll c) (pitch c) (altitudeAtDrop c) (timeAtDrop c)
    (dropBayServoPos c) (autoDrop c) (reset c) (restart c) (nmeaBuf c)
    (nmeaBufInd c) v (currentTargeterDataPoint c).

Definition set_currentTargeterDataPoint (v : Z) (c : Communicator) : Communicator :=
  mkCommunicator (altitude c) (roll c) (pitch c) (altitudeAtDrop c) (timeAtDrop c)
    (dropBayServoPos c) (autoDrop c) (reset c) (restart c) (nmeaBuf c)
    (nmeaBufInd c) (newParsedData c) v.

(** *** Statements

    A statement runs on a world and leaves a result and a world, or
    nothing when it reads or writes an array outside its bounds. *)
Definition stmt (R : Type) : Type := World -> option (R * World).

Definition ret {R : Type} (r : R) : stmt R := fun w => Some (r, w).

Definition bind {R S : Type} (m : stmt R) (k : R -> stmt S) : stmt S :=
  fun w => match m w with
           | Some (r, w') => k r w'
           | None => None
           end.

Definition out_of_bounds {R : Type} : stmt R := fun _ => None.

Local Notation "x <- m ;; k" := (bind m (fun x => k))
  (at level 61, m at next level, right associativity).
Local Notation "m ;; k" := (bind m (fun _ => k))
  (at level 61, right associativity).

(** The value of a field of the object, and an assignment to one. *)
Definition get {R : Type} (field : Communicator -> R) : stmt R :=
  fun w => Some (field (this w), w).

Definition put (upd : Communicator -> Communicator) : stmt unit :=
  fun w => Some (tt, set_this upd w).

Definition read {R : Type} (field : World -> R) : stmt R :=
  fun w => Some (field w, w).

Definition write (upd : World -> World) : stmt unit :=
  fun w => Some (tt, upd w).

Definition when (c : bool) (m : stmt unit) : stmt unit :=
  if c then m else ret tt.

(** [millis()] *)
Definition millis : stmt Z :=
  fun w => Some (ulong (millis_at (millis_calls w)),
                 set_millis_calls (S (millis_calls w)) w).

(** A call of a method of the global [targeter].  Each of the two methods
    called, [setCurrentData] and [recalculate], calls [millis()] once. *)
Definition call_targeter {R : Type} (m : method (ieee fmt) R) : stmt R :=
  now <- millis ;;
  t <- read targeter ;;
  let (r, t') := run m now t in
  write (set_targeter t') ;;
  ret r.

(** [XBEE_SERIAL.print] and [XBEE_SERIAL.write] *)
Definition XBEE_write (data : list byte) : stmt unit :=
  w <- read XBEE_sent ;; write (set_XBEE_sent (w ++ data)).

Definition output (o : Output) : stmt unit :=
  l <- read outputs ;; write (set_outputs (l ++ [o])).

(** *** Sending *)

Definition sendMessage (message : byte) : stmt unit :=
  XBEE_write ["*"%char] ;;
  XBEE_write [message] ;;
  XBEE_write ["e"; "e"]%char.

Definition sendUint8_t (toSend : Z) : stmt unit :=
  XBEE_write (bytes_le 1 toSend).

Definition sendUint16_t (toSend : Z) : stmt unit :=
  XBEE_write (bytes_le 2 toSend).

Definition sendFloat (toSend : spec_float) : stmt unit :=
  XBEE_write (bytes_le 4 (float_bits toSend)).

Definition sendData : stmt unit :=
  XBEE_write ["*"%char] ;;
  XBEE_write [DATA_PACKET] ;;
  a <- get altitude ;;
  g <- read GPS ;;
  sendFloat (to_float a) ;;
  sendFloat (speed g) ;;
  sendFloat (latitude g) ;;
  sendFloat (longitude g) ;;
  sendFloat (angle g) ;;
  sendUint16_t (milliseconds g) ;;
  sendUint8_t (seconds g) ;;
  XBEE_write ["e"; "e"]%char.

(** *** The drop bay *)

Definition dropNow (src state : Z) : stmt unit :=
  auto <- get autoDrop ;;
  if (src =? 1) && Bool.eqb auto false && (state =? 1) then ret tt
  else
    (if state =? 0 then
       output (digitalWrite STATUS_LED_PIN false) ;;
       put (set_dropBayServoPos DROP_BAY_CLOSED) ;;
       sendMessage MESSAGE_DROP_CLOSE
     else
       output (digitalWrite STATUS_LED_PIN true) ;;
       put (set_dropBayServoPos DROP_BAY_OPEN) ;;
       a <- get altitude ;;
       put (set_altitudeAtDrop a) ;;
       now <- millis ;;
       put (set_timeAtDrop now) ;;
       sendMessage MESSAGE_DROP_OPEN) ;;
    pos <- get dropBayServoPos ;;
    output (writeMicroseconds pos).

Definition checkToCloseDropBay : stmt unit :=
  pos <- get dropBayServoPos ;;
  if pos =? DROP_BAY_OPEN then
    currentMillis <- millis ;;
    at_drop <- get timeAtDrop ;;
    if (ulong (currentMillis - at_drop) >=? ulong closeDropBayTimeout)
       && (ulong (currentMillis - at_drop) <? ulong (closeDropBayTimeout + 10000))
    then dropNow 0 0
    else ret tt
  else ret tt.

(** *** The calls of the targeter *)

(** The test data of the debug build: arrays of [float], initialised
    with the constants [m * 10^k]. *)
Definition test_float (m k : Z) : spec_float := to_float (IEEE.SFdec fmt m k).

Definition GPSLatitudes : list spec_float :=
  [test_float 4413546 (-3); test_float 4413574 (-3); test_float 4413610 (-3);
   test_float 4413636 (-3); test_float 4413688 (-3)].

Definition GPSLongitudes : list spec_float :=
  [test_float (-7629504) (-3); test_float (-7629507) (-3);
   test_float (-7629509) (-3); test_float (-7629513) (-3);
   test_float (-7629518) (-3)].

Definition altitudes : list spec_float :=
  [test_float 100 0; test_float 100 0; test_float 100 0; test_float 100 0;
   test_float 100 0].

Definition velocities : list spec_float :=
  [test_float 10 0; test_float 20 0; test_float 30 0; test_float 40 0;
   test_float 50 0].

Definition headings : list spec_float :=
  [test_float 360 0; test_float 360 0; test_float 360 0; test_float 360 0;
   test_float 360 0].

Definition NUM_TARGETER_DATAPTS : Z := Z.of_nat (List.length GPSLatitudes).

(** [array[i]] *)
Definition element {R : Type} (array : list R) (i : Z) : stmt R :=
  if (0 <=? i) && (i <? Z.of_nat (List.length array)) then
    match nth_error array (Z.to_nat i) with
    | Some x => ret x
    | None => out_of_bounds
    end
  else out_of_bounds.

Definition recalculateTargettingNow (withNewData : bool) : stmt unit :=
  when Targeter_Test
    (i <- get currentTargeterDataPoint ;;
     put (set_currentTargeterDataPoint (i + 1)) ;;
     i <- get currentTargeterDataPoint ;;
     when (i =? NUM_TARGETER_DATAPTS) (put (set_currentTargeterDataPoint 0))) ;;
  isReadyToDrop <-
    (if withNewData then
       if Targeter_Test then
         i <- get currentTargeterDataPoint ;;
         lat <- element GPSLatitudes i ;;
         lon <- element GPSLongitudes i ;;
         alt <- element altitudes i ;;
         vel <- element velocities i ;;
         hdg <- element headings i ;;
         now <- millis ;;
         ready <- call_targeter
                    (@setCurrentData (ieee fmt) L
                       (of_float fmt lat) (of_float fmt lon) (of_float fmt alt)
                       (of_float fmt vel) (of_float fmt hdg)
                       (@of_int (ieee fmt) now)) ;;
         pos <- get dropBayServoPos ;;
         ret (if pos =? DROP_BAY_OPEN then false else ready)
       else
         g <- read GPS ;;
         alt <- get altitude ;;
         now <- millis ;;
         call_targeter
           (@setCurrentData (ieee fmt) L
              (of_float fmt (latitude g)) (of_float fmt (longitude g)) alt
              (of_float fmt (speed g)) (of_float fmt (angle g))
              (@of_int (ieee fmt) now))
     else call_targeter (@recalculate (ieee fmt) L)) ;;
  auto <- get autoDrop ;;
  when (isReadyToDrop && auto) (dropNow 1 1).

(** *** Commands from the ground station *)

Definition recieveCommands : stmt unit :=
  waiting <- read XBEE_received ;;
  match waiting with
  | [] => ret tt
  | incomingByte :: rest =>
      write (set_XBEE_received rest) ;;
      (if Ascii.eqb incomingByte INCOME_DROP_OPEN then dropNow 0 1
       else when (Ascii.eqb incomingByte INCOME_DROP_CLOSE) (dropNow 0 0)) ;;
      when (Ascii.eqb incomingByte INCOME_AUTO_ON)
        (put (set_autoDrop true) ;; sendMessage MESSAGE_AUTO_ON) ;;
      when (Ascii.eqb incomingByte INCOME_AUTO_OFF)
        (put (set_autoDrop false) ;; sendMessage MESSAGE_AUTO_OFF) ;;
      when (Ascii.eqb incomingByte INCOME_RESET)
        (sendData ;; put (set_reset true)) ;;
      when (Ascii.eqb incomingByte INCOME_RESTART)
        (sendData ;; put (set_restart true) ;; dropNow 0 0) ;;
      when (Ascii.eqb incomingByte INCOME_DROP_ALT)
        (XBEE_write ["*"; "a"]%char ;;
         a <- get altitude ;;
         sendFloat (to_float a) ;;
         XBEE_write ["e"; "e"]%char)
  end.

(** *** Sentences from the GPS *)

(** [array[i] = c] *)
Definition store (array : list byte) (i : Z) (c : byte) : option (list byte) :=
  if (0 <=? i) && (i <? Z.of_nat (List.length array)) then
    Some (firstn (Z.to_nat i) array ++ c :: skipn (S (Z.to_nat i)) array)
  else None.

Definition store_nmeaBuf (i : Z) (c : byte) : stmt unit :=
  buf <- get nmeaBuf ;;
  match store buf i c with
  | Some buf' => put (set_nmeaBuf buf')
  | None => out_of_bounds
  end.

(** The string a [char *] points to: the bytes before the first NUL. *)
Fixpoint c_string (array : list byte) : list byte :=
  match array with
  | [] => []
  | c :: rest => if Ascii.eqb c NUL then [] else c :: c_string rest
  end.

(** One turn of the loop of [getSerialDataFromGPS], on the byte that
    [GPS_SERIAL.read()] returns. *)
Definition getSerialDataFromGPS_body (c : byte) : stmt unit :=
  i <- get nmeaBufInd ;;
  store_nmeaBuf i c ;;
  i <- get nmeaBufInd ;;
  buf <- get nmeaBuf ;;
  current <- element buf i ;;
  put (set_nmeaBufInd (i + 1)) ;;
  when (Ascii.eqb current LF)
    (i <- get nmeaBufInd ;;
     store_nmeaBuf (i - 1) NUL ;;
     buf <- get nmeaBuf ;;
     g <- read GPS ;;
     let (parsed, g') := GPS_parse (c_string buf) g in
     write (set_GPS g') ;;
     put (set_newParsedData parsed) ;;
     put (set_nmeaBufInd 0) ;;
     recalculateTargettingNow true) ;;
  i <- get nmeaBufInd ;;
  when (i >=? MAXLINELENGTH) (put (set_nmeaBufInd 0)).

(** [while (GPS_SERIAL.available())]: one turn for each byte that is
    waiting; the body adds none. *)
Fixpoint getSerialDataFromGPS_loop (turns : nat) : stmt unit :=
  match turns with
  | O => ret tt
  | S turns' =>
      waiting <- read GPS_received ;;
      match waiting with
      | [] => ret tt
      | c :: rest =>
          write (set_GPS_received rest) ;;
          getSerialDataFromGPS_body c ;;
          getSerialDataFromGPS_loop turns'
      end
  end.

Definition getSerialDataFromGPS : stmt unit :=
  waiting <- read GPS_received ;;
  getSerialDataFromGPS_loop (List.length waiting).

(** *** Start-up *)

(** [XBEE_SERIAL.readStringUntil('\r')] on the bytes that arrive: the
    string read, without the terminator, and the bytes left waiting. *)
Fixpoint readStringUntil_CR (arrived : list byte) : list byte * list byte :=
  match arrived with
  | [] => ([], [])
  | c :: rest =>
      if Ascii.eqb c CR then ([], rest)
      else let (response, left) := readStringUntil_CR rest in (c :: response, left)
  end.

(** [response.endsWith(suffix)] *)
Definition endsWith (response suffix : list byte) : bool :=
  (List.length suffix <=? List.length response)%nat
  && if list_eq_dec ascii_dec
          (skipn (List.length response - List.length suffix) response) suffix
     then true else false.

Definition sendCmdAndWaitForOK (cmd : list byte) (timeout : Z) : stmt bool :=
  write (set_XBEE_received []) ;;           (* while (XBEE_SERIAL.read() != -1); *)
  XBEE_write cmd ;;
  sent <- read XBEE_sent ;;
  let (response, left) := readStringUntil_CR (XBEE_answer sent timeout) in
  write (set_XBEE_received left) ;;
  if endsWith response ["O"; "K"]%char then ret true else ret false.

Definition initXBee : stmt bool :=
  ok <- sendCmdAndWaitForOK ["+"; "+"; "+"]%char 3000 ;;
  if negb ok then ret false
  else
    ok <- sendCmdAndWaitForOK ["A"; "T"; "A"; "P"; "0"; CR]%char 3000 ;;
    if negb ok then ret false
    else
      ok <- sendCmdAndWaitForOK ["A"; "T"; "C"; "N"; CR]%char 3000 ;;
      if negb ok then ret false else ret true.

(** [GPS_SERIAL.println] *)
Definition GPS_println (sentence : list byte) : stmt unit :=
  l <- read GPS_sent ;; write (set_GPS_sent (l ++ sentence ++ [CR; LF])).

Definition setupGPS : stmt unit :=
  g <- read GPS ;;
  write (set_GPS (GPS_init g)) ;;
  GPS_println PMTK_SET_NMEA_OUTPUT_RMCONLY ;;
  GPS_println SET_NMEA_UPDATE_RATE_5HZ ;;
  GPS_println PMTK_API_SET_FIX_CTL_5HZ ;;
  GPS_println ENABLE_SBAB_SATELLITES ;;
  GPS_println ENABLE_USING_WAAS_WITH_SBSB_SATS ;;
  write (set_GPS_received []).              (* while (GPS_SERIAL.available()) read *)

(** [while (!initXBee() && ++numTries <= maxTries);] with [turns] turns
    at most: a statement that needs more does not return. *)
Fixpoint initialize_loop (turns : nat) (maxTries numTries : Z) : stmt unit :=
  match turns with
  | O => out_of_bounds
  | S turns' =>
      ok <- initXBee ;;
      if negb ok then
        let numTries := numTries + 1 in
        if numTries <=? maxTries then initialize_loop turns' maxTries numTries
        else ret tt
      else ret tt
  end.

Definition initialize (turns : nat) : stmt unit :=
  output (pinMode TX_TO_DISCONNECT INPUT) ;;
  output (pinMode RX_TO_DISCONNECT INPUT) ;;
  put (set_altitude (IEEE.SFdec fmt 1 (-1))) ;;
  put (set_roll (IEEE.SFdec fmt 1 (-1))) ;;
  put (set_pitch (IEEE.SFdec fmt 1 (-1))) ;;
  put (set_altitudeAtDrop (@of_int (ieee fmt) 0)) ;;
  put (set_timeAtDrop 0) ;;
  output (attach DROP_PIN) ;;
  put (set_dropBayServoPos DROP_BAY_CLOSED) ;;
  pos <- get dropBayServoPos ;;
  output (writeMicroseconds pos) ;;
  let maxTries := 3 in
  let numTries := 0 in
  initialize_loop turns maxTries numTries ;;
  setupGPS.

(** *** What the properties are stated with *)

(** [m], run on [w], returns and leaves a result and a world for which
    [Q] holds; where it runs out of bounds, [out] is asked for. *)
Definition wp {R : Type} (out : Prop) (m : stmt R) (Q : R -> World -> Prop)
    (w : World) : Prop :=
  match m w with
  | Some (r, w') => Q r w'
  | None => out
  end.

(** The pulse last written to the servo, and the level last written to
    a pin. *)
Fixpoint last_pulse (l : list Output) : option Z :=
  match l with
  | [] => None
  | o :: rest =>
      match last_pulse rest, o with
      | Some us, _ => Some us
      | None, writeMicroseconds us => Some us
      | None, _ => None
      end
  end.

Fixpoint last_level (pin : Z) (l : list Output) : option bool :=
  match l with
  | [] => None
  | o :: rest =>
      match last_level pin rest, o with
      | Some high, _ => Some high
      | None, digitalWrite p high => if p =? pin then Some high else None
      | None, _ => None
      end
  end.

(** The servo and the LED show the position the object holds: the
    position is one of the two, the last pulse is that position, and the
    LED, once written, is on exactly when the bay is open. *)
Definition bay_in_step (w : World) : Prop :=
  let pos := dropBayServoPos (this w) in
  (pos = DROP_BAY_OPEN \/ pos = DROP_BAY_CLOSED)
  /\ last_pulse (outputs w) = Some pos
  /\ match last_level STATUS_LED_PIN (outputs w) with
     | Some high => high = (pos =? DROP_BAY_OPEN)
     | None => pos = DROP_BAY_CLOSED
     end.

(** The buffer has its declared size and the index is inside it. *)
Definition buffer_in_bounds (w : World) : Prop :=
  Z.of_nat (List.length (nmeaBuf (this w))) = MAXLINELENGTH
  /\ 0 <= nmeaBufInd (this w) < MAXLINELENGTH.

(** In the debug build the index of the test data is -1, its initial
    value, or the index of an element. *)
Definition test_point_in_bounds (w : World) : Prop :=
  Targeter_Test = true ->
  -1 <= currentTargeterDataPoint (this w) < NUM_TARGETER_DATAPTS.

(** The radio answers what was [sent] with a string that ends in "OK",
    within the three seconds [initXBee] waits. *)
Definition answered_OK (sent : list byte) : bool :=
  endsWith (fst (readStringUntil_CR (XBEE_answer sent 3000))) ["O"; "K"]%char.

(** The three together: what every function of the main loop finds and
    leaves. *)
Definition in_order (w : World) : Prop :=
  bay_in_step w /\ buffer_in_bounds w /\ test_point_in_bounds w.

(** [m] returns from every world with [P], and leaves one with [P]. *)
Definition keeps {R : Type} (P : World -> Prop) (m : stmt R) : Prop :=
  forall w : World, P w -> wp False m (fun _ w' => P w') w.

End Code.

Arguments in_order {fmt F} w.
Arguments answered_OK {SU} sent.
Arguments keeps {fmt R} P m.
Arguments this {fmt} w.
Arguments targeter {fmt} w.
Arguments GPS {fmt} w.
Arguments XBEE_received {fmt} w.
Arguments XBEE_sent {fmt} w.
Arguments GPS_received {fmt} w.
Arguments GPS_sent {fmt} w.
Arguments outputs {fmt} w.
Arguments millis_calls {fmt} w.
Arguments set_this {fmt} f w.
Arguments set_targeter {fmt} t w.
Arguments set_GPS {fmt} g w.
Arguments set_XBEE_received {fmt} l w.
Arguments set_XBEE_sent {fmt} l w.
Arguments set_GPS_received {fmt} l w.
Arguments set_GPS_sent {fmt} l w.
Arguments set_outputs {fmt} l w.
Arguments set_millis_calls {fmt} n w.
Arguments ret {fmt R} r.
Arguments bind {fmt R S} m k.
Arguments out_of_bounds {fmt R}.
Arguments get {fmt R} field.
Arguments put {fmt} upd.
Arguments read {fmt R} field.
Arguments write {fmt} upd.
Arguments when {fmt} c m.
Arguments millis {fmt F}.
Arguments call_targeter {fmt F R} m.
Arguments XBEE_write {fmt} data.
Arguments output {fmt} o.
Arguments sendMessage {fmt} message.
Arguments sendUint8_t {fmt} toSend.
Arguments sendUint16_t {fmt} toSend.
Arguments sendFloat {fmt} toSend.
Arguments sendData {fmt}.
Arguments dropNow {fmt F} src state.
Arguments checkToCloseDropBay {fmt F}.
Arguments element {fmt R} array i.
Arguments recalculateTargettingNow {fmt L F} withNewData.
Arguments recieveCommands {fmt F}.
Arguments store_nmeaBuf {fmt} i c.
Arguments getSerialDataFromGPS_body {fmt L F} c.
Arguments getSerialDataFromGPS_loop {fmt L F} turns.
Arguments getSerialDataFromGPS {fmt L F}.
Arguments sendCmdAndWaitForOK {fmt SU} cmd timeout.
Arguments initXBee {fmt SU}.
Arguments GPS_println {fmt} sentence.
Arguments setupGPS {fmt SU}.
Arguments initialize_loop {fmt SU} turns maxTries numTries.
Arguments initialize {fmt SU} turns.
Arguments wp {fmt R} out m Q w.
Arguments bay_in_step {fmt F} w.
Arguments buffer_in_bounds {fmt} w.
Arguments test_point_in_bounds {fmt F} w.

End Comm.

(** ** A math library to run the model

  Series expansions written with the arithmetic of [Arith].  They serve to
  run the definitions on concrete inputs; no theorem depends on how
  accurate they are. *)

Module SampleLibm.
Section Series.
Context {A : Arith}.
Local Open Scope double_scope.
Local Notation "# n" := (of_int n) (at level 1, format "# n").

Definition deq (x y : double) : bool := (x <=? y) && (y <=? x).

(** [acc + t1 + t2 + ...] with [t(i+1) = ti * x2 / ((k+1) * (k+2))],
    signs alternating when [alt] is set. *)
Fixpoint factorial_series (n : nat) (alt : bool) (k : Z) (x2 term acc : double) : double :=
  match n with
  | O => acc
  | S n' =>
      let t := term * x2 / #((k + 1) * (k + 2)) in
      let t := if alt then - t else t in
      factorial_series n' alt (k + 2) x2 t (acc + t)
  end.

Definition s_sin (x : double) : double := factorial_series 24 true 1 (x * x) x x.

Definition s_cos (x : double) : double := factorial_series 24 true 0 (x * x) #1 #1.

Definition s_tan (x : double) : double := s_sin x / s_cos x.

(** [z + z^3/3 + z^5/5 + ...], signs alternating when [alt] is set. *)
Fixpoint odd_series (n : nat) (alt : bool) (k : Z) (z2 power acc : double) : double :=
  match n with
  | O => acc
  | S n' =>
      let p := power * z2 in
      let p := if alt then - p else p in
      odd_series n' alt (k + 2) z2 p (acc + p / #(k + 2))
  end.

Definition halve_angle (x : double) : double := x / (#1 + sqrt (#1 + x * x)).

Definition s_atan (x : double) : double :=
  let y := halve_angle (halve_angle (halve_angle x)) in
  #8 * odd_series 24 true 1 (y * y) y y.

Definition s_log (x : double) : double :=
  if x <? #0 then #0 / #0
  else if x <=? #0 then #(-1) / #0
  else
    let y := sqrt (sqrt (sqrt (sqrt x))) in
    let z := (y - #1) / (y + #1) in
    #32 * odd_series 40 false 1 (z * z) z z.

Definition s_exp (x : double) : double :=
  let y := x / #1024 in
  let e := factorial_series 12 false 0 (y * y) #1 #1
           + factorial_series 12 false 1 (y * y) y y in
  let sq (v : double) := v * v in
  sq (sq (sq (sq (sq (sq (sq (sq (sq (sq e))))))))).

Definition s_pow (x y : double) : double :=
  if deq y #2 then x * x
  else if deq y (dec 5 (-1)) then sqrt x
  else s_exp (y * s_log x).

Definition libm : Libm A := {|
  cos := s_cos; sin := s_sin; tan := s_tan;
  atan := s_atan; log := s_log; pow := s_pow
|}.
End Series.
End SampleLibm.

(** ** Concrete objects *)

Module Examples.

Definition A64 : Arith := ieee Binary64.
Definition L64 : Libm A64 := SampleLibm.libm.

(** A decimal constant of the 64-bit format. *)
Definition d (m k : Z) : spec_float := IEEE.SFdec Binary64 m k.

(** The object at start-up: a global, so every field is zero.  The
    acceptance radius is given (5 m in the specification's scenario). *)
Definition fresh (radius : spec_float) : Targeter A64 :=
  @mkTargeter A64 (d 0 0) (d 0 0) (d 0 0) (d 0 0) (d 0 0) (d 0 0)
    (d 0 0) (d 0 0) (d 0 0) radius (d 0 0) (d 0 0).

(** The scenario of the specification: target at 4413.688 N, 7629.518 W,
    altitude 0; aircraft at 4413.546 N, 7629.504 W, altitude 100 m,
    10 m/s, heading 360. *)
Definition targeted : Targeter A64 :=
  snd (run (@setTargetData A64 L64 (d 4413688 (-3)) (d (-7629518) (-3)) (d 0 0))
           0 (fresh (d 5 0))).

Definition scenario : Targeter A64 :=
  snd (run (@setCurrentData A64 L64 (d 4413546 (-3)) (d (-7629504) (-3))
              (d 100 0) (d 10 0) (d 360 0) (d 0 0))
           0 targeted).

(** The scenario with another acceptance radius and the aircraft at
    another latitude: the call of [setCurrentData] that brings it there,
    on the object [setTargetData] left, with what the call returns. *)
Definition approach (radius lat : spec_float) : bool * Targeter A64 :=
  run (@setCurrentData A64 L64 lat (d (-7629504) (-3))
         (d 100 0) (d 10 0) (d 360 0) (d 0 0))
      0
      (snd (run (@setTargetData A64 L64 (d 4413688 (-3)) (d (-7629518) (-3)) (d 0 0))
                0 (fresh radius))).

(** The aircraft at 4413.6644 N with a radius of 5 m, and at 4413.667 N
    with a radius of 0. *)
Definition closing_in : Targeter A64 :=
  snd (approach (d 5 0) (d 44136644 (-4))).

Definition closing_in_zero : Targeter A64 :=
  snd (approach (d 0 0) (d 4413667 (-3))).

(** The aircraft exactly at the target, with a stored lateral error of 1 m. *)
Definition over_target : Targeter A64 :=
  @mkTargeter A64 (d 4413688 (-3)) (d (-7629518) (-3)) (d 100 0) (d 10 0)
    (d 360 0) (d 0 0) (d 4413688 (-3)) (d (-7629518) (-3)) (d 0 0) (d 5 0)
    (d 1 0) (d 0 0).

(** The scenario with the aircraft at rest. *)
Definition at_rest : Targeter A64 :=
  @set_currentVelocity A64 (d 0 0) scenario.

(** An object with the given velocity and altitude over a target at the
    given altitude; the other fields as at start-up. *)
Definition flying (vel alt target_alt : spec_float) : Targeter A64 :=
  @set_targetAltitude A64 target_alt
    (@set_currentAltitude A64 alt
       (@set_currentVelocity A64 vel (fresh (d 5 0)))).

(** At 10 m/s, 100 m below the target. *)
Definition below_target : Targeter A64 := flying (d 10 0) (d 100 0) (d 200 0).

(** At -10 m/s, at the target's altitude and 100 m above it. *)
Definition backing_low : Targeter A64 := flying (d (-10) 0) (d 0 0) (d 0 0).

Definition backing_high : Targeter A64 := flying (d (-10) 0) (d 100 0) (d 0 0).

(** At 10 m/s, 50 m and 100 m above the target, and at 20 m/s, 100 m
    above it. *)
Definition gliding_low : Targeter A64 := flying (d 10 0) (d 50 0) (d 0 0).

Definition gliding_high : Targeter A64 := flying (d 10 0) (d 100 0) (d 0 0).

Definition gliding_fast : Targeter A64 := flying (d 20 0) (d 100 0) (d 0 0).

(** An object of the exact reading with the given velocity and altitude
    over a target at altitude 0. *)
Definition exact_object (vel alt : Rdefinitions.R) : Targeter Exact.real :=
  let z := Rdefinitions.IZR 0 in
  @mkTargeter Exact.real z z alt vel z z z z z (Rdefinitions.IZR 5) z z.

End Examples.

(** ** Concrete worlds *)

Module CommExamples.
Import Comm.

(** The build that flies, with the bay closing 10 s after a drop, the LED
    on pin 13, a clock read every 12 s and a parser that accepts every
    sentence that is not empty. *)
Definition flight : Firmware := {|
  Targeter_Test := false;
  closeDropBayTimeout := 10000;
  STATUS_LED_PIN := 13;
  GPS_parse := fun sentence g =>
                 (match sentence with [] => false | _ :: _ => true end, g);
  millis_at := fun k => 12000 * Z.of_nat k
|}.

(** The same with [Targeter_Test] defined. *)
Definition bench : Firmware := {|
  Targeter_Test := true;
  closeDropBayTimeout := 10000;
  STATUS_LED_PIN := 13;
  GPS_parse := fun sentence g =>
                 (match sentence with [] => false | _ :: _ => true end, g);
  millis_at := fun k => 12000 * Z.of_nat k
|}.

(** The object in the main loop: the bay closed, [autoDrop] on, the
    buffer empty and the test data not started. *)
Definition initialized : Communicator :=
  mkCommunicator (Examples.d 1 (-1)) (Examples.d 1 (-1)) (Examples.d 1 (-1))
    (Examples.d 0 0) 0 DROP_BAY_CLOSED true false false (repeat NUL 120) 0
    false (-1).

Definition position : Adafruit_GPS :=
  mkGPS (to_float (Examples.d 4413546 (-3))) (to_float (Examples.d (-7629504) (-3)))
    (to_float (Examples.d 10 0)) (to_float (Examples.d 360 0)) 0 0.

(** A world of the main loop: the servo has the pulse of the closed bay,
    nothing is waiting and nothing was sent. *)
Definition started : World Binary64 :=
  mkWorld Binary64 initialized Examples.targeted position [] [] [] []
    [writeMicroseconds DROP_BAY_CLOSED] 0.

(** The operator has sent [command]. *)
Definition commanded (command : byte) : World Binary64 :=
  set_XBEE_received [command] started.

(** The GPS has sent [chars]. *)
Definition hearing (chars : list byte) : World Binary64 :=
  set_GPS_received chars started.

(** The bay opened by the operator at the first reading of the clock. *)
Definition opened : World Binary64 :=
  match @dropNow Binary64 flight 0 1 started with
  | Some (_, w) => w
  | None => started
  end.

(** [autoDrop] turned off. *)
Definition held : World Binary64 := set_this (set_autoDrop false) started.

(** A radio that answers every command with "OK", and one that never
    answers; the pins and the sentences of the configuration are the
    same. *)
Definition radio (answer : list byte) : Startup := {|
  TX_TO_DISCONNECT := 14;
  RX_TO_DISCONNECT := 15;
  GPS_init := fun _ => mkGPS (S754_zero false) (S754_zero false)
                         (S754_zero false) (S754_zero false) 0 0;
  PMTK_SET_NMEA_OUTPUT_RMCONLY := ["$"; "1"]%char;
  SET_NMEA_UPDATE_RATE_5HZ := ["$"; "2"]%char;
  PMTK_API_SET_FIX_CTL_5HZ := ["$"; "3"]%char;
  ENABLE_SBAB_SATELLITES := ["$"; "4"]%char;
  ENABLE_USING_WAAS_WITH_SBSB_SATS := ["$"; "5"]%char;
  XBEE_answer := fun _ _ => answer
|}.

Definition answering : Startup := radio ["O"; "K"; CR]%char.
Definition silent : Startup := radio [].

(** The world at power-up: the fields with an initialiser in the header
    have that value, the others are zero, and nothing was written. *)
Definition power_up : World Binary64 :=
  mkWorld Binary64
    (mkCommunicator (Examples.d 0 0) (Examples.d 0 0) (Examples.d 0 0)
       (Examples.d 0 0) 0 0 true false false (repeat NUL 120) 0 false (-1))
    (Examples.fresh (Examples.d 0 0)) position [] [] [] [] [] 0.

End CommExamples.

(** * Properties *)

(** ** Facts of IEEE-754 arithmetic *)

Module IEEEFacts.
Import IEEE.

Lemma has_sign_not_negative (x : spec_float) :
  has_sign false x -> not_negative x.
Proof. destruct x; simpl; auto. Qed.

Lemma not_negative_ltb (x : spec_float) :
  not_negative x -> SFltb x (S754_zero false) = false.
Proof. destruct x as [s|s| |s m e]; simpl; intros H; try subst s; reflexivity. Qed.

Lemma not_negative_leb (x : spec_float) :
  not_negative x -> is_nan x = false -> SFleb (S754_zero false) x = true.
Proof.
  destruct x as [s|s| |s m e]; simpl; intros H N; try subst s;
    try reflexivity; discriminate.
Qed.

Section Ops.
Variables p emx : Z.

Lemma binary_round_aux_has_sign (s : bool) (m e : Z) (l : location) :
  has_sign s (binary_round_aux p emx s m e l).
Proof.
  unfold binary_round_aux.
  destruct (shr_fexp p emx m e l) as [mrs' e'].
  destruct (shr_fexp p emx _ e' loc_Exact) as [mrs'' e''].
  destruct (shr_m mrs''); simpl; auto.
  destruct (e'' <=? emx - p); simpl; auto.
Qed.

Lemma binary_round_has_sign (s : bool) (m : positive) (e : Z) :
  has_sign s (binary_round p emx s m e).
Proof.
  unfold binary_round.
  destruct (shl_align m e _) as [mz ez].
  apply binary_round_aux_has_sign.
Qed.


Lemma SFdiv_has_sign (x y : spec_float) (sx sy : bool) :
  has_sign sx x -> has_sign sy y -> has_sign (xorb sx sy) (SFdiv p emx x y).
Proof.
  destruct x as [s1|s1| |s1 m1 e1], y as [s2|s2| |s2 m2 e2]; simpl;
    intros; subst; auto.
  destruct (SFdiv_core_binary p emx _ e1 _ e2) as [[mz ez] lz].
  apply binary_round_aux_has_sign.
Qed.

Lemma SFadd_has_sign (x y : spec_float) :
  has_sign false x -> has_sign false y -> has_sign false (SFadd p emx x y).
Proof.
  destruct x as [s1|s1| |s1 m1 e1], y as [s2|s2| |s2 m2 e2]; simpl;
    intros; subst; simpl; auto.
  apply binary_round_has_sign.
Qed.

Lemma SFsqrt_has_sign (x : spec_float) :
  has_sign false x -> has_sign false (SFsqrt p emx x).
Proof.
  destruct x as [s|s| |s m e]; simpl; intros; subst; simpl; auto.
  destruct (SFsqrt_core_binary p emx _ e) as [[mz ez] lz].
  apply binary_round_aux_has_sign.
Qed.

(** The square root of a negative number is a NaN. *)
Lemma SFsqrt_negative (x : spec_float) :
  SFltb x (S754_zero false) = true -> SFsqrt p emx x = S754_nan.
Proof.
  destruct x as [s|s| |s m e]; simpl; try discriminate;
    destruct s; simpl; try discriminate; reflexivity.
Qed.

(** A quotient by zero is an infinity or a NaN. *)
Lemma SFdiv_by_zero (x y : spec_float) :
  is_zero y = true -> is_finite (SFdiv p emx x y) = false.
Proof.
  destruct y; try discriminate; intros _.
  destruct x; reflexivity.
Qed.

Lemma SFdiv_not_negative (x y : spec_float) :
  not_negative x -> has_sign false y -> not_negative (SFdiv p emx x y).
Proof.
  destruct x as [s1|s1| |s1 m1 e1], y as [s2|s2| |s2 m2 e2]; simpl;
    intros; subst; simpl; auto.
  destruct (SFdiv_core_binary p emx _ e1 _ e2) as [[mz ez] lz].
  apply has_sign_not_negative, (binary_round_aux_has_sign false).
Qed.

(** A product with a zero: a number times zero is a zero. *)
Lemma SFmul_zero_r (x y : spec_float) :
  is_finite x = true -> is_zero y = true -> is_zero (SFmul p emx x y) = true.
Proof. destruct x, y; simpl; try discriminate; reflexivity. Qed.

Lemma SFmul_zero_l (x y : spec_float) :
  is_zero x = true -> is_finite y = true -> is_zero (SFmul p emx x y) = true.
Proof. destruct x, y; simpl; try discriminate; reflexivity. Qed.
End Ops.

(** [<] on floats is transitive. *)
Lemma SFltb_trans (x y z : spec_float) :
  SFltb x y = true -> SFltb y z = true -> SFltb x z = true.
Proof.
  unfold SFltb.
  destruct x as [s1|s1| |s1 m1 e1], y as [s2|s2| |s2 m2 e2],
           z as [s3|s3| |s3 m3 e3]; simpl;
    try destruct s1; try destruct s2; try destruct s3;
    try discriminate; try reflexivity;
    change (Pos.compare_cont Eq) with Pos.compare;
    destruct (Z.compare_spec e1 e2), (Z.compare_spec e2 e3),
             (Z.compare_spec e1 e3);
    try discriminate; try reflexivity; try lia; subst;
    destruct (Pos.compare_spec m1 m2), (Pos.compare_spec m2 m3),
             (Pos.compare_spec m1 m3);
    simpl; try discriminate; try reflexivity; lia.
Qed.

Lemma of_Z_0 (fmt : format) : of_Z fmt 0 = S754_zero false.
Proof. reflexivity. Qed.

(** The macro [abs] never yields a negative number. *)
Lemma abs_not_negative (fmt : format) (x : spec_float) :
  not_negative (@abs (ieee fmt) x).
Proof.
  unfold abs; cbn [dlt dneg of_int ieee arith]. rewrite of_Z_0.
  destruct x as [s|s| |s m e]; simpl; auto; destruct s; simpl; auto.
Qed.

End IEEEFacts.

(** ** The order of rounded results *)

Module RoundingFacts.
Import Rdefinitions RIneq Rfunctions R_sqrt Lra.
Import Rounding.

(** *** Powers of two *)

Lemma bpow_pos (e : Z) : (0 < bpow e)%R.
Proof. apply powerRZ_lt. lra. Qed.

Lemma bpow_add (a b : Z) : bpow (a + b) = (bpow a * bpow b)%R.
Proof. apply powerRZ_add. lra. Qed.

Lemma bpow_0 : bpow 0 = 1%R.
Proof. reflexivity. Qed.

Lemma bpow_1 : bpow 1 = 2%R.
Proof. unfold bpow. simpl. lra. Qed.

Lemma bpow_opp (a : Z) : bpow (- a) = (/ bpow a)%R.
Proof. apply powerRZ_neg'. Qed.

Lemma bpow_sub (a b : Z) : bpow (a - b) = (bpow a / bpow b)%R.
Proof.
  unfold Z.sub. rewrite bpow_add, bpow_opp. reflexivity.
Qed.

Lemma bpow_IZR (n : Z) : 0 <= n -> bpow n = IZR (2 ^ n).
Proof.
  intros Hn. unfold bpow.
  rewrite <- (Z2Nat.id n Hn) at 1.
  rewrite <- pow_powerRZ, pow_IZR, Z2Nat.id by exact Hn. reflexivity.
Qed.

Lemma bpow_succ (a : Z) : bpow (a + 1) = (2 * bpow a)%R.
Proof. rewrite bpow_add, bpow_1. lra. Qed.

Lemma bpow_le (a b : Z) : a <= b -> (bpow a <= bpow b)%R.
Proof.
  intros H. replace b with (a + (b - a)) by lia.
  rewrite bpow_add, (bpow_IZR (b - a)) by lia.
  assert (1 <= 2 ^ (b - a)) by (apply Z.lt_pred_le, Z.pow_pos_nonneg; lia).
  apply IZR_le in H0. pose proof (bpow_pos a). nra.
Qed.

Lemma bpow_lt (a b : Z) : a < b -> (bpow a < bpow b)%R.
Proof.
  intros H. pose proof (bpow_le (a + 1) b ltac:(lia)) as H1.
  rewrite bpow_succ in H1. pose proof (bpow_pos a). lra.
Qed.

Lemma bpow_lt_inv (a b : Z) : (bpow a < bpow b)%R -> a < b.
Proof.
  intros H. destruct (Z.lt_ge_cases a b) as [|G]; [assumption|].
  apply bpow_le in G. lra.
Qed.

(** *** Codes and the reals they locate *)

Lemma code_cases (k : Z) :
  k mod 4 = 0 \/ k mod 4 = 1 \/ k mod 4 = 2 \/ k mod 4 = 3.
Proof. pose proof (Z.mod_pos_bound k 4 ltac:(lia)). lia. Qed.

Lemma locates_bounds (k : Z) (y : R) :
  locates k y -> (IZR (k / 4) <= y < IZR (k / 4) + 1)%R.
Proof.
  unfold locates.
  destruct (code_cases k) as [E|[E|[E|E]]]; rewrite E; simpl; lra.
Qed.

Lemma locates_mono (k1 k2 : Z) (y1 y2 : R) :
  locates k1 y1 -> locates k2 y2 -> (y1 <= y2)%R -> k1 <= k2.
Proof.
  intros H1 H2 Hy.
  pose proof (locates_bounds _ _ H1) as B1.
  pose proof (locates_bounds _ _ H2) as B2.
  assert (Hm : k1 / 4 <= k2 / 4).
  { apply Z.lt_succ_r, lt_IZR. rewrite succ_IZR. lra. }
  pose proof (Z.div_mod k1 4 ltac:(lia)) as D1.
  pose proof (Z.div_mod k2 4 ltac:(lia)) as D2.
  pose proof (Z.mod_pos_bound k1 4 ltac:(lia)).
  pose proof (Z.mod_pos_bound k2 4 ltac:(lia)).
  destruct (Z.eq_dec (k1 / 4) (k2 / 4)) as [E|N]; [|lia].
  unfold locates in H1, H2. rewrite E in *.
  destruct (code_cases k1) as [E1|[E1|[E1|E1]]];
    destruct (code_cases k2) as [E2|[E2|[E2|E2]]];
    rewrite E1 in *; rewrite E2 in *; simpl in H1, H2; try lia; lra.
Qed.

Lemma shift_code_div_mod (k : Z) :
  shift_code k / 4 = k / 4 / 2
  /\ shift_code k mod 4
     = 2 * (k / 4 mod 2) + (if k mod 4 =? 0 then 0 else 1).
Proof.
  unfold shift_code.
  pose proof (Z.div_mod (k / 4) 2 ltac:(lia)) as D.
  pose proof (Z.mod_pos_bound (k / 4) 2 ltac:(lia)) as B.
  assert (C : 0 <= (if k mod 4 =? 0 then 0 else 1) < 2)
    by (destruct (k mod 4 =? 0); lia).
  set (c := if k mod 4 =? 0 then 0 else 1) in *.
  assert (U : 2 * (k / 4) + c = 4 * (k / 4 / 2) + (2 * (k / 4 mod 2) + c)) by lia.
  split.
  - symmetry. apply (Z.div_unique _ 4 _ (2 * (k / 4 mod 2) + c)); [lia | exact U].
  - symmetry. apply (Z.mod_unique _ 4 (k / 4 / 2)); [lia | exact U].
Qed.

Lemma locates_shift (k : Z) (y : R) :
  locates k y -> locates (shift_code k) (y / 2).
Proof.
  intros H. unfold locates.
  destruct (shift_code_div_mod k) as [Ed Em]. rewrite Ed, Em.
  pose proof (Z.div_mod (k / 4) 2 ltac:(lia)) as D.
  assert (Dr : IZR (k / 4) = (2 * IZR (k / 4 / 2) + IZR (k / 4 mod 2))%R).
  { rewrite D at 1. rewrite plus_IZR, mult_IZR. reflexivity. }
  unfold locates in H.
  pose proof (Z.mod_pos_bound (k / 4) 2 ltac:(lia)) as B.
  assert (P : k / 4 mod 2 = 0 \/ k / 4 mod 2 = 1) by lia.
  destruct (code_cases k) as [E|[E|[E|E]]]; rewrite E in *; simpl in H;
    destruct P as [P|P]; rewrite P in *; simpl; simpl in Dr; lra.
Qed.

Lemma round_code_mono (k1 k2 : Z) : k1 <= k2 -> round_code k1 <= round_code k2.
Proof.
  intros H. unfold round_code.
  pose proof (Z.div_mod k1 4 ltac:(lia)) as D1.
  pose proof (Z.div_mod k2 4 ltac:(lia)) as D2.
  pose proof (Z.mod_pos_bound k1 4 ltac:(lia)).
  pose proof (Z.mod_pos_bound k2 4 ltac:(lia)).
  assert (Hm : k1 / 4 <= k2 / 4) by (apply Z.div_le_mono; lia).
  destruct (Z.eq_dec (k1 / 4) (k2 / 4)) as [E|N].
  - rewrite E in *.
    destruct (k1 mod 4 <? 2) eqn:A1, (k2 mod 4 <? 2) eqn:A2,
             (k1 mod 4 =? 2) eqn:B1, (k2 mod 4 =? 2) eqn:B2,
             (Z.even (k2 / 4)); lia.
  - destruct (k1 mod 4 <? 2), (k2 mod 4 <? 2), (k1 mod 4 =? 2), (k2 mod 4 =? 2),
             (Z.even (k1 / 4)), (Z.even (k2 / 4)); lia.
Qed.

Lemma round_code_bounds (k : Z) : k / 4 <= round_code k <= k / 4 + 1.
Proof.
  unfold round_code.
  destruct (k mod 4 <? 2), (k mod 4 =? 2), (Z.even (k / 4)); lia.
Qed.

Lemma round_code_below (k B : Z) (y : R) :
  locates k y -> (y < IZR B)%R -> round_code k <= B.
Proof.
  intros H Hy. pose proof (locates_bounds _ _ H).
  assert (k / 4 < B) by (apply lt_IZR; lra).
  pose proof (round_code_bounds k). lia.
Qed.

Lemma round_code_above (k B : Z) (y : R) :
  locates k y -> (IZR B <= y)%R -> B <= round_code k.
Proof.
  intros H Hy. pose proof (locates_bounds _ _ H).
  assert (B < k / 4 + 1) by (apply lt_IZR; rewrite plus_IZR; lra).
  pose proof (round_code_bounds k). lia.
Qed.

(** *** Shifting a record *)

Lemma shr_1_code (mrs : shr_record) :
  0 <= shr_m mrs ->
  code (shr_1 mrs) = shift_code (code mrs) /\ shr_m (shr_1 mrs) = shr_m mrs / 2.
Proof.
  destruct mrs as [m r s]. unfold code, shift_code.
  cbn [shr_m shr_r shr_s]. intros Hm.
  assert (Hd : (4 * m + (if r then 2 else 0) + (if s then 1 else 0)) / 4 = m).
  { symmetry. apply (Z.div_unique _ 4 _ ((if r then 2 else 0) + (if s then 1 else 0)));
      destruct r, s; lia. }
  assert (Hr : (4 * m + (if r then 2 else 0) + (if s then 1 else 0)) mod 4
               = (if r then 2 else 0) + (if s then 1 else 0)).
  { symmetry. apply (Z.mod_unique _ 4 m); destruct r, s; lia. }
  rewrite Hd, Hr. unfold shr_1.
  assert (H2 : forall a b : Z, 0 <= b < 2 -> a = (2 * a + b) / 2).
  { intros a b Hb. apply (Z.div_unique _ 2 _ b); lia. }
  destruct m as [|p|p]; [| |lia].
  - destruct r, s; cbn; split; reflexivity.
  - destruct p as [p|p|]; cbn [shr_m shr_r shr_s]; split;
      try (destruct r, s; cbn [orb]; simpl (_ =? _); lia).
    + replace (Z.pos p~1) with (2 * Z.pos p + 1) by lia. apply H2. lia.
    + replace (Z.pos p~0) with (2 * Z.pos p + 0) by lia. apply H2. lia.
    + reflexivity.
Qed.

Lemma iter_shr_1 (n : positive) :
  forall (mrs : shr_record) (y : R),
    0 <= shr_m mrs -> locates (code mrs) y ->
    locates (code (SpecFloat.iter_pos shr_1 n mrs)) (y / bpow (Zpos n))
    /\ shr_m (SpecFloat.iter_pos shr_1 n mrs) = shr_m mrs / 2 ^ Zpos n.
Proof.
  assert (Step : forall (mrs : shr_record) (y : R),
             0 <= shr_m mrs -> locates (code mrs) y ->
             locates (code (shr_1 mrs)) (y / 2)
             /\ shr_m (shr_1 mrs) = shr_m mrs / 2
             /\ 0 <= shr_m (shr_1 mrs)).
  { intros mrs y Hm Hl. destruct (shr_1_code mrs Hm) as [Ec Em].
    rewrite Ec, Em. split; [apply locates_shift, Hl|].
    split; [reflexivity | apply Z.div_pos; lia]. }
  induction n as [n IH|n IH|]; intros mrs y Hm Hl; cbn [SpecFloat.iter_pos].
  - destruct (Step mrs y Hm Hl) as (L1 & M1 & P1).
    destruct (IH _ _ P1 L1) as (L2 & M2).
    assert (P2 : 0 <= shr_m (SpecFloat.iter_pos shr_1 n (shr_1 mrs)))
      by (rewrite M2; apply Z.div_pos; [lia | apply Z.pow_pos_nonneg; lia]).
    destruct (IH _ _ P2 L2) as (L3 & M3).
    split.
    + replace (y / bpow (Z.pos n~1))%R with (y / 2 / bpow (Z.pos n) / bpow (Z.pos n))%R;
        [exact L3|].
      replace (Z.pos n~1) with (Z.pos n + Z.pos n + 1) by lia.
      rewrite bpow_succ, bpow_add. pose proof (bpow_pos (Z.pos n)). field. lra.
    + rewrite M3, M2, M1, !Z.div_div by (try apply Z.pow_pos_nonneg; lia).
      replace (2 ^ Z.pos n~1) with (2 * (2 ^ Z.pos n * 2 ^ Z.pos n)); [reflexivity|].
      replace (Z.pos n~1) with (1 + (Z.pos n + Z.pos n)) by lia.
      rewrite !Z.pow_add_r by lia. reflexivity.
  - destruct (IH _ _ Hm Hl) as (L2 & M2).
    assert (P2 : 0 <= shr_m (SpecFloat.iter_pos shr_1 n mrs))
      by (rewrite M2; apply Z.div_pos; [lia | apply Z.pow_pos_nonneg; lia]).
    destruct (IH _ _ P2 L2) as (L3 & M3).
    split.
    + replace (y / bpow (Z.pos n~0))%R with (y / bpow (Z.pos n) / bpow (Z.pos n))%R;
        [exact L3|].
      replace (Z.pos n~0) with (Z.pos n + Z.pos n) by lia.
      rewrite bpow_add. pose proof (bpow_pos (Z.pos n)). field. lra.
    + rewrite M3, M2, !Z.div_div by (try apply Z.pow_pos_nonneg; lia).
      replace (2 ^ Z.pos n~0) with (2 ^ Z.pos n * 2 ^ Z.pos n); [reflexivity|].
      replace (Z.pos n~0) with (Z.pos n + Z.pos n) by lia.
      rewrite !Z.pow_add_r by lia. reflexivity.
  - destruct (Step mrs y Hm Hl) as (L1 & M1 & P1).
    split; [rewrite bpow_1; exact L1 | rewrite M1; reflexivity].
Qed.

Lemma code_of_loc (m : Z) (l : location) :
  code (shr_record_of_loc m l) = 4 * m + loc_code l
  /\ shr_m (shr_record_of_loc m l) = m.
Proof. destruct l as [|[ | | ]]; unfold code; cbn; split; lia. Qed.

Lemma code_div_mod (mrs : shr_record) :
  code mrs / 4 = shr_m mrs
  /\ code mrs mod 4 = (if shr_r mrs then 2 else 0) + (if shr_s mrs then 1 else 0).
Proof.
  unfold code. destruct mrs as [m r s]. cbn [shr_m shr_r shr_s].
  split; symmetry.
  - apply (Z.div_unique _ 4 _ ((if r then 2 else 0) + (if s then 1 else 0)));
      destruct r, s; lia.
  - apply (Z.mod_unique _ 4 m); destruct r, s; lia.
Qed.

Lemma round_record (mrs : shr_record) :
  round_nearest_even (shr_m mrs) (loc_of_shr_record mrs) = round_code (code mrs).
Proof.
  unfold round_code. destruct (code_div_mod mrs) as [Ed Em]. rewrite Ed, Em.
  destruct mrs as [m r s]. cbn [shr_m shr_r shr_s].
  destruct r, s; reflexivity.
Qed.

(** *** Digits *)

Lemma digits2_pos_spec (p : positive) :
  2 ^ (Zpos (digits2_pos p) - 1) <= Zpos p < 2 ^ Zpos (digits2_pos p).
Proof.
  induction p as [p IH|p IH|]; cbn [digits2_pos].
  - rewrite Pos2Z.inj_succ.
    replace (Z.succ (Z.pos (digits2_pos p)) - 1) with (Z.succ (Z.pos (digits2_pos p) - 1)) by lia.
    rewrite !Z.pow_succ_r by lia. lia.
  - rewrite Pos2Z.inj_succ.
    replace (Z.succ (Z.pos (digits2_pos p)) - 1) with (Z.succ (Z.pos (digits2_pos p) - 1)) by lia.
    rewrite !Z.pow_succ_r by lia. lia.
  - simpl. lia.
Qed.

Lemma Zdigits2_spec (q : Z) :
  0 < q -> 0 < Zdigits2 q /\ 2 ^ (Zdigits2 q - 1) <= q < 2 ^ Zdigits2 q.
Proof.
  destruct q as [|p|p]; try lia. intros _. cbn [Zdigits2].
  split; [lia | apply digits2_pos_spec].
Qed.

Lemma Zdigits2_le (q d : Z) : 0 <= d -> 0 <= q < 2 ^ d -> Zdigits2 q <= d.
Proof.
  intros Hd Hq. destruct (Z.eq_dec q 0) as [->|N]; [simpl; lia|].
  destruct (Zdigits2_spec q ltac:(lia)) as (P & L & _).
  apply Z.lt_succ_r. replace (Z.succ d) with (d + 1) by lia.
  apply (Z.pow_lt_mono_r_iff 2); [lia | lia|].
  replace (Zdigits2 q) with (Z.succ (Zdigits2 q - 1)) by lia.
  rewrite Z.pow_succ_r by lia.
  replace (d + 1) with (Z.succ d) by lia. rewrite Z.pow_succ_r by lia. lia.
Qed.

Lemma Zdigits2_ge (q d : Z) : 2 ^ d <= q -> d < Zdigits2 q.
Proof.
  intros Hq.
  destruct (Z.lt_ge_cases d 0) as [Hd|Hd].
  - rewrite Z.pow_neg_r in Hq by lia. destruct q as [|p|p]; simpl; lia.
  - assert (0 < q) by (pose proof (Z.pow_pos_nonneg 2 d ltac:(lia) Hd); lia).
    destruct (Zdigits2_spec q H) as (P & _ & U).
    apply (Z.pow_lt_mono_r_iff 2); [lia | lia | lia].
Qed.

Lemma Zdigits2_pow2 (d : Z) : 0 <= d -> Zdigits2 (2 ^ d) = d + 1.
Proof.
  intros Hd. apply Z.le_antisymm.
  - apply Zdigits2_le; [lia|]. split; [apply Z.pow_nonneg; lia|].
    apply Z.pow_lt_mono_r; lia.
  - pose proof (Zdigits2_ge (2 ^ d) d ltac:(lia)). lia.
Qed.

(** *** The rounding of [binary_round_aux] *)

Section Format.
Variables prec emax : Z.
Hypothesis Hprec : 0 < prec.
Hypothesis Hemax : prec < emax.

Local Abbreviation emin := (SpecFloat.emin prec emax).
Local Abbreviation fexp := (SpecFloat.fexp prec emax).
Local Abbreviation finish := (Rounding.finish prec emax).
Local Abbreviation rounds := (Rounding.rounds prec emax).

Lemma fexp_ge_emin (e : Z) : emin <= fexp e.
Proof. unfold SpecFloat.fexp. lia. Qed.

Lemma fexp_mono (a b : Z) : a <= b -> fexp a <= fexp b.
Proof. unfold SpecFloat.fexp. lia. Qed.

Lemma shr_fexp_spec (q e : Z) (l : location) (y : R) :
  0 <= q -> locates (4 * q + loc_code l) y ->
  e <= fexp (Zdigits2 q + e) ->
  exists mrs : shr_record,
    shr_fexp prec emax q e l = (mrs, fexp (Zdigits2 q + e))
    /\ locates (code mrs) (y * bpow (e - fexp (Zdigits2 q + e)))
    /\ shr_m mrs = q / 2 ^ (fexp (Zdigits2 q + e) - e).
Proof.
  intros Hq Hl He. unfold shr_fexp, shr.
  set (T := fexp (Zdigits2 q + e)) in *.
  destruct (code_of_loc q l) as [Ec Em].
  destruct (T - e) as [|n|n] eqn:En; [| |lia].
  - exists (shr_record_of_loc q l).
    replace T with e by lia. rewrite Ec, Em, Z.sub_diag, bpow_0, Z.pow_0_r, Z.div_1_r.
    split; [reflexivity|]. split; [|reflexivity].
    replace (y * 1)%R with y by lra. exact Hl.
  - rewrite <- Ec in Hl.
    destruct (iter_shr_1 n (shr_record_of_loc q l) y) as [L M];
      [rewrite Em; exact Hq | exact Hl |].
    exists (SpecFloat.iter_pos shr_1 n (shr_record_of_loc q l)).
    split; [f_equal; lia|]. split.
    + replace (e - T) with (- Z.pos n) by lia. rewrite bpow_opp. exact L.
    + rewrite M, Em. reflexivity.
Qed.

(** What [binary_round_aux] returns, when the mantissa it is given is at
    least as fine as the format asks. *)
Lemma binary_round_aux_spec (q e : Z) (l : location) (y : R) :
  0 <= q -> locates (4 * q + loc_code l) y ->
  e <= fexp (Zdigits2 q + e) ->
  exists k : Z,
    locates k (y * bpow (e - fexp (Zdigits2 q + e)))
    /\ 0 <= round_code k <= 2 ^ prec
    /\ forall s : bool,
         binary_round_aux prec emax s q e l
         = finish s (round_code k) (fexp (Zdigits2 q + e)).
Proof.
  intros Hq Hl He.
  destruct (shr_fexp_spec q e l y Hq Hl He) as (mrs & E1 & L1 & M1).
  set (T := fexp (Zdigits2 q + e)) in *.
  exists (code mrs). split; [exact L1|].
  set (Q := round_code (code mrs)).
  assert (HT : emin <= T) by apply fexp_ge_emin.
  assert (Hm : 0 <= shr_m mrs < 2 ^ prec).
  { rewrite M1. split; [apply Z.div_pos; [lia | apply Z.pow_pos_nonneg; lia]|].
    apply Z.div_lt_upper_bound; [apply Z.pow_pos_nonneg; lia|].
    rewrite <- Z.pow_add_r by lia.
    destruct (Z.eq_dec q 0) as [->|N]; [apply Z.pow_pos_nonneg; lia|].
    destruct (Zdigits2_spec q ltac:(lia)) as (_ & _ & U).
    eapply Z.lt_le_trans; [exact U|].
    apply Z.pow_le_mono_r; [lia|].
    unfold T, SpecFloat.fexp. lia. }
  assert (HQ : 0 <= Q <= 2 ^ prec).
  { pose proof (round_code_bounds (code mrs)) as B.
    destruct (code_div_mod mrs) as [Ed _]. rewrite Ed in B. unfold Q. lia. }
  split; [exact HQ|]. intros s.
  unfold binary_round_aux. rewrite E1, round_record. fold Q.
  unfold Rounding.finish, shr_fexp, shr.
  assert (P2 : 0 < 2 ^ (prec - 1)) by (apply Z.pow_pos_nonneg; lia).
  assert (E2 : 2 ^ prec = 2 * 2 ^ (prec - 1)).
  { replace prec with (Z.succ (prec - 1)) at 1 by lia.
    rewrite Z.pow_succ_r by lia. reflexivity. }
  destruct (Z.eqb_spec Q 0) as [Z0|NZ].
  - rewrite Z0. cbn [Zdigits2 Z.add].
    assert (N : fexp T - T <= 0) by (unfold SpecFloat.fexp; lia).
    destruct (fexp T - T) as [|n|n]; [| lia |]; reflexivity.
  - destruct (Z.eqb_spec Q (2 ^ prec)) as [Ep|Np].
    + rewrite Ep, Zdigits2_pow2 by lia.
      replace (fexp (prec + 1 + T) - T) with 1 by (unfold SpecFloat.fexp; lia).
      cbn [SpecFloat.iter_pos shr_record_of_loc].
      destruct (shr_1_code (Build_shr_record (2 ^ prec) false false)) as [_ M];
        [cbn [shr_m]; lia|].
      cbn [shr_m] in M. rewrite M, E2.
      replace (2 * 2 ^ (prec - 1) / 2) with (2 ^ (prec - 1))
        by (apply (Z.div_unique _ 2 _ 0); lia).
      destruct (2 ^ (prec - 1)) as [|m|m] eqn:Em; try lia.
      replace (T + Z.pos 1) with (T + 1) by lia. reflexivity.
    + assert (D : Zdigits2 Q <= prec) by (apply Zdigits2_le; lia).
      assert (N : fexp (Zdigits2 Q + T) - T <= 0) by (unfold SpecFloat.fexp; lia).
      destruct (fexp (Zdigits2 Q + T) - T) as [|n|n]; [| lia |];
        cbn [shr_record_of_loc shr_m fst snd];
        destruct Q as [|m|m]; try lia; reflexivity.
Qed.

Lemma rounds_of_aux (q e : Z) (l : location) (y : R) :
  0 <= q -> locates (4 * q + loc_code l) y ->
  e <= fexp (Zdigits2 q + e) ->
  exists Q : Z,
    rounds (y * bpow e) Q (fexp (Zdigits2 q + e))
    /\ forall s : bool,
         binary_round_aux prec emax s q e l = finish s Q (fexp (Zdigits2 q + e)).
Proof.
  intros Hq Hl He.
  destruct (binary_round_aux_spec q e l y Hq Hl He) as (k & Lk & _ & E).
  exists (round_code k). split; [|exact E].
  set (T := fexp (Zdigits2 q + e)) in *.
  pose proof (locates_bounds _ _ Hl) as B.
  replace ((4 * q + loc_code l) / 4) with q in B.
  2:{ apply (Z.div_unique _ 4 _ (loc_code l)); [|lia].
      destruct l as [|[ | | ]]; simpl; lia. }
  pose proof (bpow_pos e) as Pe.
  split; [apply fexp_ge_emin|]. split; [|split].
  - destruct (Z.eq_dec q 0) as [->|N].
    + apply Rlt_le_trans with (bpow e); [simpl in B; nra|].
      apply bpow_le. lia.
    + destruct (Zdigits2_spec q ltac:(lia)) as (Pd & _ & U).
      apply Rlt_le_trans with (bpow (Zdigits2 q + e)).
      * rewrite bpow_add, (bpow_IZR (Zdigits2 q)) by lia.
        apply Rmult_lt_compat_r; [exact Pe|].
        apply Rlt_le_trans with (IZR q + 1)%R; [lra|].
        rewrite <- plus_IZR. apply IZR_le. lia.
      * apply bpow_le. unfold T, SpecFloat.fexp. lia.
  - intros HT.
    assert (Nq : q <> 0).
    { intros ->. unfold T, SpecFloat.fexp in *. cbn [Zdigits2 Z.add] in *. lia. }
    destruct (Zdigits2_spec q ltac:(lia)) as (Pd & Lq & _).
    replace (T + prec - 1) with (Zdigits2 q - 1 + e)
      by (unfold T, SpecFloat.fexp in *; lia).
    rewrite bpow_add, (bpow_IZR (Zdigits2 q - 1)) by lia.
    apply Rmult_le_compat_r; [lra|].
    apply Rle_trans with (IZR q); [apply IZR_le; exact Lq | lra].
  - exists k. split; [|reflexivity].
    replace (y * bpow e / bpow T)%R with (y * bpow (e - T))%R; [exact Lk|].
    rewrite bpow_sub. pose proof (bpow_pos T). field. lra.
Qed.

Lemma rounds_bounds (x : R) (Q T : Z) :
  (0 <= x)%R -> rounds x Q T ->
  0 <= Q <= 2 ^ prec /\ (emin < T -> 2 ^ (prec - 1) <= Q).
Proof.
  intros Hx (HT & U & Lo & k & Lk & ->).
  pose proof (bpow_pos T) as PT.
  assert (Ux : (x / bpow T < IZR (2 ^ prec))%R).
  { rewrite <- bpow_IZR by lia. apply Rmult_lt_reg_r with (bpow T); [exact PT|].
    rewrite <- bpow_add. replace (prec + T) with (T + prec) by lia.
    replace (x / bpow T * bpow T)%R with x by (field; lra). exact U. }
  split; [split|].
  - apply (round_code_above k 0 _ Lk).
    apply Rmult_le_pos; [exact Hx | apply Rlt_le, Rinv_0_lt_compat, PT].
  - apply (round_code_below k _ _ Lk Ux).
  - intros HT'. apply (round_code_above k _ _ Lk).
    rewrite <- bpow_IZR by lia. apply Rmult_le_reg_r with (bpow T); [exact PT|].
    rewrite <- bpow_add. replace (prec - 1 + T) with (T + prec - 1) by lia.
    replace (x / bpow T * bpow T)%R with x by (field; lra). apply Lo, HT'.
Qed.

Lemma rounds_exponent_mono (x1 x2 : R) (Q1 Q2 T1 T2 : Z) :
  rounds x1 Q1 T1 -> rounds x2 Q2 T2 -> (x1 <= x2)%R ->
  T1 <= T2 /\ (T1 = T2 -> Q1 <= Q2).
Proof.
  intros (HT1 & U1 & Lo1 & k1 & Lk1 & ->) (HT2 & U2 & Lo2 & k2 & Lk2 & ->) Hx.
  assert (HT : T1 <= T2).
  { destruct (Z.le_gt_cases T1 T2) as [|G]; [assumption|].
    specialize (Lo1 ltac:(lia)).
    assert (bpow (T1 + prec - 1) < bpow (T2 + prec))%R by lra.
    apply bpow_lt_inv in H. lia. }
  split; [exact HT|]. intros <-.
  apply round_code_mono, (locates_mono _ _ _ _ Lk1 Lk2).
  pose proof (bpow_pos T1) as PT.
  apply Rmult_le_compat_r; [apply Rlt_le, Rinv_0_lt_compat, PT | exact Hx].
Qed.

(** Rounding keeps the order of positive reals. *)
Lemma finish_mono (x1 x2 : R) (Q1 Q2 T1 T2 : Z) :
  rounds x1 Q1 T1 -> rounds x2 Q2 T2 -> (0 <= x1 <= x2)%R ->
  SFleb (finish false Q1 T1) (finish false Q2 T2) = true.
Proof.
  intros R1 R2 Hx.
  destruct (rounds_bounds x1 Q1 T1 ltac:(lra) R1) as [B1 N1].
  destruct (rounds_bounds x2 Q2 T2 ltac:(lra) R2) as [B2 N2].
  destruct (rounds_exponent_mono _ _ _ _ _ _ R1 R2 ltac:(lra)) as [HT HQ].
  assert (E1 : emin <= T1) by apply R1.
  assert (P2 : 0 < 2 ^ (prec - 1)) by (apply Z.pow_pos_nonneg; lia).
  assert (E2 : 2 ^ prec = 2 * 2 ^ (prec - 1)).
  { replace prec with (Z.succ (prec - 1)) at 1 by lia.
    rewrite Z.pow_succ_r by lia. reflexivity. }
  clear R1 R2 Hx.
  unfold Rounding.finish, SFleb, SFcompare.
  set (P := 2 ^ prec) in *. set (H := 2 ^ (prec - 1)) in *.
  assert (Hh : Z.pos (Z.to_pos H) = H) by (apply Z2Pos.id; lia).
  destruct (Z.eqb_spec Q1 0) as [Z1|Z1]; destruct (Z.eqb_spec Q2 0) as [Z2|Z2];
    destruct (Z.eqb_spec Q1 P) as [C1|C1]; destruct (Z.eqb_spec Q2 P) as [C2|C2];
    destruct (Z.leb_spec (T1 + 1) (emax - prec));
    destruct (Z.leb_spec (T2 + 1) (emax - prec));
    destruct (Z.leb_spec T1 (emax - prec));
    destruct (Z.leb_spec T2 (emax - prec));
    try reflexivity; try lia;
    change (Pos.compare_cont Eq) with Pos.compare;
    try (assert (Hq1 : Z.pos (Z.to_pos Q1) = Q1) by (apply Z2Pos.id; lia));
    try (assert (Hq2 : Z.pos (Z.to_pos Q2) = Q2) by (apply Z2Pos.id; lia));
    match goal with
    | |- context [Z.compare ?a ?b] => destruct (Z.compare_spec a b)
    end; try reflexivity; try lia;
    match goal with
    | |- context [Pos.compare ?a ?b] => destruct (Pos.compare_spec a b)
    end; try reflexivity; lia.
Qed.

(** *** Valid floats *)

Lemma F2R_pos (m : positive) (e : Z) : (0 < F2R m e)%R.
Proof.
  unfold F2R. apply Rmult_lt_0_compat; [apply IZR_lt; lia | apply bpow_pos].
Qed.

Lemma emin_le_0 : emin <= 0.
Proof. unfold SpecFloat.emin. lia. Qed.

Lemma bounded_spec (m : positive) (e : Z) :
  bounded prec emax m e = true ->
  e = fexp (Zpos (digits2_pos m) + e) /\ e <= emax - prec.
Proof.
  unfold bounded, canonical_mantissa. intros H.
  apply andb_true_iff in H. destruct H as [H1 H2].
  apply Z.eqb_eq in H1. apply Z.leb_le in H2. split; [symmetry; exact H1 | exact H2].
Qed.

(** The order of valid floats is the order of the reals they stand for. *)
Lemma leb_F2R (m1 m2 : positive) (e1 e2 : Z) :
  bounded prec emax m1 e1 = true -> bounded prec emax m2 e2 = true ->
  SFleb (S754_finite false m1 e1) (S754_finite false m2 e2) = true ->
  (F2R m1 e1 <= F2R m2 e2)%R.
Proof.
  intros V1 V2 H.
  destruct (bounded_spec _ _ V1) as [C1 _]. destruct (bounded_spec _ _ V2) as [C2 _].
  pose proof (digits2_pos_spec m1) as [L1 U1].
  pose proof (digits2_pos_spec m2) as [L2 U2].
  unfold SFleb, SFcompare in H. change (Pos.compare_cont Eq) with Pos.compare in H.
  unfold F2R.
  destruct (Z.compare_spec e1 e2) as [E|E|E].
  - subst e2. destruct (Pos.compare_spec m1 m2) as [M|M|M]; try discriminate.
    + subst. lra.
    + apply Rmult_le_compat_r; [apply Rlt_le, bpow_pos | apply IZR_le; lia].
  - unfold SpecFloat.fexp in C1, C2.
    assert (D2 : Z.pos (digits2_pos m2) = prec) by (pose proof emin_le_0; lia).
    assert (D1 : Z.pos (digits2_pos m1) <= prec) by lia.
    apply Rle_trans with (bpow (prec + e1)).
    + rewrite bpow_add, (bpow_IZR prec) by lia.
      apply Rmult_le_compat_r; [apply Rlt_le, bpow_pos|].
      apply IZR_le. apply Z.lt_le_incl, (Z.lt_le_trans _ _ _ U1).
      apply Z.pow_le_mono_r; lia.
    + apply Rle_trans with (bpow (prec - 1 + e2)); [apply bpow_le; lia|].
      rewrite bpow_add, (bpow_IZR (prec - 1)) by lia.
      apply Rmult_le_compat_r; [apply Rlt_le, bpow_pos|].
      apply IZR_le. rewrite D2 in L2. exact L2.
  - discriminate.
Qed.

Lemma finish_valid (s : bool) (x : R) (Q T : Z) :
  (0 <= x)%R -> rounds x Q T -> valid_binary prec emax (finish s Q T) = true.
Proof.
  intros Hx Rd. destruct (rounds_bounds x Q T Hx Rd) as [B N].
  assert (E1 : emin <= T) by apply Rd. clear Rd.
  assert (P2 : 0 < 2 ^ (prec - 1)) by (apply Z.pow_pos_nonneg; lia).
  assert (E2 : 2 ^ prec = 2 * 2 ^ (prec - 1)).
  { replace prec with (Z.succ (prec - 1)) at 1 by lia.
    rewrite Z.pow_succ_r by lia. reflexivity. }
  unfold Rounding.finish.
  destruct (Z.eqb_spec Q 0) as [Z0|NZ]; [reflexivity|].
  destruct (Z.eqb_spec Q (2 ^ prec)) as [C|C].
  - destruct (Z.leb_spec (T + 1) (emax - prec)) as [Le|Gt]; [|reflexivity].
    cbn [valid_binary]. unfold bounded, canonical_mantissa.
    apply andb_true_iff. split; [|apply Z.leb_le; exact Le].
    apply Z.eqb_eq.
    change (Z.pos (digits2_pos (Z.to_pos (2 ^ (prec - 1)))))
      with (Zdigits2 (Z.pos (Z.to_pos (2 ^ (prec - 1))))).
    rewrite Z2Pos.id, Zdigits2_pow2 by lia.
    unfold SpecFloat.fexp. lia.
  - destruct (Z.leb_spec T (emax - prec)) as [Le|Gt]; [|reflexivity].
    cbn [valid_binary]. unfold bounded, canonical_mantissa.
    apply andb_true_iff. split; [|apply Z.leb_le; exact Le].
    apply Z.eqb_eq.
    change (Z.pos (digits2_pos (Z.to_pos Q))) with (Zdigits2 (Z.pos (Z.to_pos Q))).
    rewrite Z2Pos.id by lia.
    assert (D : Zdigits2 Q <= prec) by (apply Zdigits2_le; lia).
    destruct (Z.eq_dec T emin) as [Em|Nm].
    + unfold SpecFloat.fexp. lia.
    + pose proof (Zdigits2_ge Q (prec - 1) ltac:(lia)).
      unfold SpecFloat.fexp. lia.
Qed.

(** *** Products *)

Lemma locates_exact (q : Z) : locates (4 * q + loc_code loc_Exact) (IZR q).
Proof.
  unfold locates. cbn [loc_code].
  replace ((4 * q + 0) mod 4) with 0
    by (apply (Z.mod_unique _ 4 q); lia).
  replace ((4 * q + 0) / 4) with q
    by (apply (Z.div_unique _ 4 _ 0); lia).
  reflexivity.
Qed.

Lemma digits_mul (m1 m2 : positive) :
  Z.pos (digits2_pos m1) + Z.pos (digits2_pos m2) - 1
  <= Z.pos (digits2_pos (m1 * m2)).
Proof.
  pose proof (digits2_pos_spec m1) as [L1 _].
  pose proof (digits2_pos_spec m2) as [L2 _].
  change (Z.pos (digits2_pos (m1 * m2))) with (Zdigits2 (Z.pos (m1 * m2))).
  pose proof (Zdigits2_ge (Z.pos (m1 * m2))
                (Z.pos (digits2_pos m1) - 1 + (Z.pos (digits2_pos m2) - 1))) as G.
  rewrite Z.pow_add_r in G by lia.
  rewrite Pos2Z.inj_mul in G.
  assert (2 ^ (Z.pos (digits2_pos m1) - 1) * 2 ^ (Z.pos (digits2_pos m2) - 1)
          <= Z.pos m1 * Z.pos m2).
  { apply Z.mul_le_mono_nonneg; try lia; apply Z.pow_nonneg; lia. }
  rewrite Pos2Z.inj_mul. lia.
Qed.

Lemma SFmul_rounds (mx my : positive) (ex ey : Z) :
  bounded prec emax mx ex = true -> bounded prec emax my ey = true ->
  exists Q T : Z,
    rounds (F2R mx ex * F2R my ey) Q T
    /\ forall sx sy : bool,
         SFmul prec emax (S754_finite sx mx ex) (S754_finite sy my ey)
         = finish (xorb sx sy) Q T.
Proof.
  intros Vx Vy.
  destruct (bounded_spec _ _ Vx) as [Cx _]. destruct (bounded_spec _ _ Vy) as [Cy _].
  pose proof (digits_mul mx my) as D. pose proof emin_le_0 as E0.
  destruct (rounds_of_aux (Z.pos (mx * my)) (ex + ey) loc_Exact
              (IZR (Z.pos (mx * my)))) as (Q & Rd & E).
  - lia.
  - apply locates_exact.
  - cbn [Zdigits2]. unfold SpecFloat.fexp in *. lia.
  - exists Q, (fexp (Zdigits2 (Z.pos (mx * my)) + (ex + ey))).
    split; [|intros sx sy; apply E].
    replace (F2R mx ex * F2R my ey)%R
      with (IZR (Z.pos (mx * my)) * bpow (ex + ey))%R; [exact Rd|].
    unfold F2R. rewrite Pos2Z.inj_mul, mult_IZR, bpow_add. ring.
Qed.

(** The product by a positive float keeps the order of positive floats. *)
Lemma SFmul_mono_pos (m1 m2 my : positive) (e1 e2 ey : Z) :
  bounded prec emax m1 e1 = true -> bounded prec emax m2 e2 = true ->
  bounded prec emax my ey = true ->
  SFleb (S754_finite false m1 e1) (S754_finite false m2 e2) = true ->
  SFleb (SFmul prec emax (S754_finite false m1 e1) (S754_finite false my ey))
        (SFmul prec emax (S754_finite false m2 e2) (S754_finite false my ey)) = true.
Proof.
  intros V1 V2 Vy H.
  destruct (SFmul_rounds m1 my e1 ey V1 Vy) as (Q1 & T1 & R1 & E1).
  destruct (SFmul_rounds m2 my e2 ey V2 Vy) as (Q2 & T2 & R2 & E2).
  rewrite E1, E2. cbn [xorb].
  apply (finish_mono _ _ _ _ _ _ R1 R2).
  pose proof (leb_F2R _ _ _ _ V1 V2 H).
  pose proof (F2R_pos m1 e1). pose proof (F2R_pos my ey). nra.
Qed.

(** *** Quotients *)

Lemma locates_intro (q c : Z) (y : R) :
  0 <= c < 4 ->
  match c with
  | 0 => y = IZR q
  | 1 => (IZR q < y < IZR q + / 2)%R
  | 2 => y = (IZR q + / 2)%R
  | _ => (IZR q + / 2 < y < IZR q + 1)%R
  end ->
  locates (4 * q + c) y.
Proof.
  intros Hc H. unfold locates.
  replace ((4 * q + c) mod 4) with c by (apply (Z.mod_unique _ 4 q); lia).
  replace ((4 * q + c) / 4) with q by (apply (Z.div_unique _ 4 _ c); lia).
  exact H.
Qed.

Lemma new_location_locates (nb r q : Z) :
  0 < nb -> 0 <= r < nb ->
  locates (4 * q + loc_code (new_location nb r)) (IZR q + IZR r / IZR nb).
Proof.
  intros Hnb Hr.
  assert (Pn : (0 < IZR nb)%R) by (apply IZR_lt; lia).
  assert (Er : (IZR r / IZR nb * IZR nb = IZR r)%R) by (field; lra).
  set (rho := (IZR r / IZR nb)%R) in *.
  assert (Lt_half : 2 * r < nb -> (rho < / 2)%R).
  { intros H. apply IZR_lt in H. rewrite mult_IZR in H. nra. }
  assert (Gt_half : nb < 2 * r -> (/ 2 < rho)%R).
  { intros H. apply IZR_lt in H. rewrite mult_IZR in H. nra. }
  assert (Eq_half : 2 * r = nb -> (rho = / 2)%R).
  { intros H. apply (f_equal IZR) in H. rewrite mult_IZR in H. nra. }
  assert (Pos_rho : 0 < r -> (0 < rho)%R).
  { intros H. apply IZR_lt in H. nra. }
  assert (Lt_one : (rho < 1)%R).
  { assert (H : r < nb) by lia. apply IZR_lt in H. nra. }
  unfold new_location, new_location_even, new_location_odd.
  destruct (Z.even nb) eqn:Ev; destruct (Z.eqb_spec r 0) as [Z0|NZ].
  - apply locates_intro; [simpl; lia|]. cbn [loc_code].
    subst r. unfold rho. replace (0 / IZR nb)%R with 0%R by (field; lra). lra.
  - destruct (Z.compare_spec (2 * r) nb) as [E|L|G]; apply locates_intro;
      cbn [loc_code]; try lia.
    + specialize (Eq_half E). lra.
    + specialize (Lt_half L). specialize (Pos_rho ltac:(lia)). lra.
    + specialize (Gt_half G). lra.
  - apply locates_intro; [simpl; lia|]. cbn [loc_code].
    subst r. unfold rho. replace (0 / IZR nb)%R with 0%R by (field; lra). lra.
  - assert (Odd : nb <> 2 * r).
    { intros ->. rewrite Z.even_mul in Ev. discriminate Ev. }
    destruct (Z.compare_spec (2 * r + 1) nb) as [E|L|G]; apply locates_intro;
      cbn [loc_code]; try lia.
    + specialize (Lt_half ltac:(lia)). specialize (Pos_rho ltac:(lia)). lra.
    + specialize (Lt_half ltac:(lia)). specialize (Pos_rho ltac:(lia)). lra.
    + specialize (Gt_half ltac:(lia)). lra.
Qed.

Lemma SFdiv_rounds (mx my : positive) (ex ey : Z) :
  exists Q T : Z,
    rounds (F2R mx ex / F2R my ey) Q T
    /\ forall sx sy : bool,
         SFdiv prec emax (S754_finite sx mx ex) (S754_finite sy my ey)
         = finish (xorb sx sy) Q T.
Proof.
  cbn [SFdiv]. unfold SFdiv_core_binary.
  set (d1 := Zdigits2 (Z.pos mx)). set (d2 := Zdigits2 (Z.pos my)).
  set (e' := Z.min (fexp (d1 + ex - (d2 + ey))) (ex - ey)).
  set (sh := ex - ey - e').
  assert (Hs : 0 <= sh) by (unfold sh, e'; lia).
  set (m' := match sh with
             | 0 => Z.pos mx
             | Z.pos _ => Z.shiftl (Z.pos mx) sh
             | Z.neg _ => 0
             end).
  assert (Em : m' = Z.pos mx * 2 ^ sh).
  { unfold m'. destruct sh as [|n|n] eqn:E; [simpl; lia | | lia].
    rewrite Z.shiftl_mul_pow2 by lia. reflexivity. }
  pose proof (Z_div_mod m' (Z.pos my) ltac:(lia)) as Hdm.
  destruct (Z.div_eucl m' (Z.pos my)) as [q r]. destruct Hdm as [Eq Hr].
  assert (P2 : 0 < 2 ^ sh) by (apply Z.pow_pos_nonneg; lia).
  assert (Hq : 0 <= q) by nia.
  assert (Py : (0 < IZR (Z.pos my))%R) by (apply IZR_lt; lia).
  destruct (Zdigits2_spec (Z.pos mx) ltac:(lia)) as (Pd1 & L1 & _).
  destruct (Zdigits2_spec (Z.pos my) ltac:(lia)) as (Pd2 & _ & U2).
  fold d1 in Pd1, L1. fold d2 in Pd2, U2.
  assert (G : 0 <= d1 - 1 + sh - d2 -> d1 - 1 + sh - d2 < Zdigits2 q).
  { intros Hg. apply Zdigits2_ge.
    assert (2 ^ (d1 - 1 + sh) <= m').
    { rewrite Em, Z.pow_add_r by lia. apply Z.mul_le_mono_nonneg_r; lia. }
    replace (d1 - 1 + sh) with (d1 - 1 + sh - d2 + d2) in H by lia.
    rewrite Z.pow_add_r in H by lia.
    assert (0 < 2 ^ (d1 - 1 + sh - d2)) by (apply Z.pow_pos_nonneg; lia).
    nia. }
  destruct (rounds_of_aux q e' (new_location (Z.pos my) r)
              (IZR q + IZR r / IZR (Z.pos my))) as (Q & Rd & E).
  - exact Hq.
  - apply new_location_locates; lia.
  - pose proof emin_le_0. unfold e', sh, SpecFloat.fexp in *. lia.
  - exists Q, (fexp (Zdigits2 q + e')). split; [|intros sx sy; apply E].
    replace (F2R mx ex / F2R my ey)%R
      with ((IZR q + IZR r / IZR (Z.pos my)) * bpow e')%R; [exact Rd|].
    unfold F2R.
    replace (IZR q + IZR r / IZR (Z.pos my))%R with (IZR m' / IZR (Z.pos my))%R.
    2:{ rewrite Eq, plus_IZR, mult_IZR. field. lra. }
    rewrite Em, mult_IZR, <- (bpow_IZR sh) by lia.
    replace (bpow ex) with (bpow e' * bpow sh * bpow ey)%R
      by (rewrite <- !bpow_add; f_equal; unfold sh; lia).
    pose proof (bpow_pos e'). pose proof (bpow_pos sh). pose proof (bpow_pos ey).
    field. lra.
Qed.

(** The quotient by a positive float keeps the order of positive floats. *)
Lemma SFdiv_mono_pos (m1 m2 my : positive) (e1 e2 ey : Z) :
  bounded prec emax m1 e1 = true -> bounded prec emax m2 e2 = true ->
  SFleb (S754_finite false m1 e1) (S754_finite false m2 e2) = true ->
  SFleb (SFdiv prec emax (S754_finite false m1 e1) (S754_finite false my ey))
        (SFdiv prec emax (S754_finite false m2 e2) (S754_finite false my ey)) = true.
Proof.
  intros V1 V2 H.
  destruct (SFdiv_rounds m1 my e1 ey) as (Q1 & T1 & R1 & E1).
  destruct (SFdiv_rounds m2 my e2 ey) as (Q2 & T2 & R2 & E2).
  rewrite E1, E2. cbn [xorb].
  apply (finish_mono _ _ _ _ _ _ R1 R2).
  pose proof (leb_F2R _ _ _ _ V1 V2 H).
  pose proof (F2R_pos m1 e1). pose proof (F2R_pos my ey).
  split.
  - apply Rlt_le, Rdiv_lt_0_compat; assumption.
  - apply Rmult_le_compat_r; [apply Rlt_le, Rinv_0_lt_compat; assumption | assumption].
Qed.

(** *** Square roots *)

Lemma sqrt_locates (n q r : Z) :
  0 <= q -> n = q * q + r -> 0 <= r <= 2 * q ->
  locates (4 * q + loc_code (if r =? 0 then loc_Exact
                             else loc_Inexact (if r <=? q then Lt else Gt)))
          (sqrt (IZR n)).
Proof.
  intros Hq En Hr.
  assert (Pq : (0 <= IZR q)%R) by (apply IZR_le; lia).
  assert (Sq : sqrt (IZR q * IZR q) = IZR q) by (apply sqrt_square; exact Pq).
  assert (En' : IZR n = (IZR q * IZR q + IZR r)%R)
    by (rewrite En, plus_IZR, mult_IZR; reflexivity).
  assert (Below : forall b : R, (0 <= b)%R -> (IZR n < b * b)%R -> (sqrt (IZR n) < b)%R).
  { intros b Hb H. rewrite <- (sqrt_square b Hb). apply sqrt_lt_1_alt.
    split; [apply IZR_le; nia | exact H]. }
  assert (Above : forall b : R, (0 <= b)%R -> (b * b < IZR n)%R -> (b < sqrt (IZR n))%R).
  { intros b Hb H. rewrite <- (sqrt_square b Hb) at 1. apply sqrt_lt_1_alt.
    split; [nra | exact H]. }
  destruct (Z.eqb_spec r 0) as [Z0|NZ].
  - apply locates_intro; [simpl; lia|]. cbn [loc_code].
    rewrite En', Z0. replace (IZR q * IZR q + 0)%R with (IZR q * IZR q)%R by lra.
    exact Sq.
  - assert (Pr : (1 <= IZR r)%R) by (apply IZR_le; lia).
    destruct (Z.leb_spec r q) as [Le|Gt]; apply locates_intro; cbn [loc_code]; try lia.
    + apply IZR_le in Le. split.
      * apply Above; [exact Pq | lra].
      * apply Below; [lra | nra].
    + assert (G : (IZR q + 1 <= IZR r)%R) by (rewrite <- plus_IZR; apply IZR_le; lia).
      assert (U : (IZR r <= 2 * IZR q)%R) by (rewrite <- mult_IZR; apply IZR_le; lia).
      split.
      * apply Above; [lra | nra].
      * apply Below; [lra | nra].
Qed.

Lemma SFsqrt_rounds (mx : positive) (ex : Z) :
  exists Q T : Z,
    rounds (sqrt (F2R mx ex)) Q T
    /\ SFsqrt prec emax (S754_finite false mx ex) = finish false Q T.
Proof.
  cbn [SFsqrt]. unfold SFsqrt_core_binary.
  set (d := Zdigits2 (Z.pos mx)).
  set (e' := Z.min (fexp (Z.div2 (d + ex + 1))) (Z.div2 ex)).
  set (sh := ex - 2 * e').
  assert (Hs : 0 <= sh).
  { unfold sh, e'. rewrite !Z.div2_div. Z.div_mod_to_equations. lia. }
  set (m' := match sh with
             | 0 => Z.pos mx
             | Z.pos _ => Z.shiftl (Z.pos mx) sh
             | Z.neg _ => 0
             end).
  assert (Em : m' = Z.pos mx * 2 ^ sh).
  { unfold m'. destruct sh as [|n|n] eqn:E; [simpl; lia | | lia].
    rewrite Z.shiftl_mul_pow2 by lia. reflexivity. }
  assert (P2 : 0 < 2 ^ sh) by (apply Z.pow_pos_nonneg; lia).
  pose proof (Z.sqrtrem_spec m' ltac:(nia)) as Hsr.
  destruct (Z.sqrtrem m') as [q r]. destruct Hsr as [Eq Hr].
  assert (Hq : 0 <= q) by lia.
  destruct (Zdigits2_spec (Z.pos mx) ltac:(lia)) as (Pd & L1 & _).
  fold d in Pd, L1.
  assert (G : (d - 1 + sh) / 2 < Zdigits2 q).
  { apply Zdigits2_ge.
    assert (Hh : 0 <= (d - 1 + sh) / 2) by (apply Z.div_pos; lia).
    assert (2 ^ ((d - 1 + sh) / 2) * 2 ^ ((d - 1 + sh) / 2) <= m').
    { rewrite <- Z.pow_add_r by lia.
      apply Z.le_trans with (2 ^ (d - 1 + sh)).
      - apply Z.pow_le_mono_r; [lia|]. Z.div_mod_to_equations. lia.
      - rewrite Em, Z.pow_add_r by lia. apply Z.mul_le_mono_nonneg_r; lia. }
    assert (0 < 2 ^ ((d - 1 + sh) / 2)) by (apply Z.pow_pos_nonneg; lia).
    nia. }
  destruct (rounds_of_aux q e'
              (if r =? 0 then loc_Exact else loc_Inexact (if r <=? q then Lt else Gt))
              (sqrt (IZR m'))) as (Q & Rd & E).
  - exact Hq.
  - apply sqrt_locates; assumption.
  - assert (Ha : Z.div2 (d + ex + 1) - 1 - e' < Zdigits2 q).
    { unfold sh in G. rewrite Z.div2_div. Z.div_mod_to_equations. lia. }
    assert (He : e' <= fexp (Z.div2 (d + ex + 1))) by (unfold e'; lia).
    unfold SpecFloat.fexp in *. lia.
  - exists Q, (fexp (Zdigits2 q + e')). split; [|apply E].
    replace (sqrt (F2R mx ex)) with (sqrt (IZR m') * bpow e')%R; [exact Rd|].
    unfold F2R.
    replace (bpow ex) with (bpow sh * (bpow e' * bpow e'))%R
      by (rewrite <- !bpow_add; f_equal; unfold sh; lia).
    rewrite Em, mult_IZR, <- (bpow_IZR sh) by lia.
    pose proof (bpow_pos e'). pose proof (bpow_pos sh).
    assert (0 < IZR (Z.pos mx))%R by (apply IZR_lt; lia).
    symmetry. rewrite <- Rmult_assoc.
    rewrite (sqrt_mult_alt (IZR (Z.pos mx) * bpow sh) (bpow e' * bpow e')) by nra.
    rewrite (sqrt_square (bpow e')) by lra. reflexivity.
Qed.

(** The square root keeps the order of positive floats. *)
Lemma SFsqrt_mono_pos (m1 m2 : positive) (e1 e2 : Z) :
  bounded prec emax m1 e1 = true -> bounded prec emax m2 e2 = true ->
  SFleb (S754_finite false m1 e1) (S754_finite false m2 e2) = true ->
  SFleb (SFsqrt prec emax (S754_finite false m1 e1))
        (SFsqrt prec emax (S754_finite false m2 e2)) = true.
Proof.
  intros V1 V2 H.
  destruct (SFsqrt_rounds m1 e1) as (Q1 & T1 & R1 & E1).
  destruct (SFsqrt_rounds m2 e2) as (Q2 & T2 & R2 & E2).
  rewrite E1, E2.
  apply (finish_mono _ _ _ _ _ _ R1 R2).
  pose proof (leb_F2R _ _ _ _ V1 V2 H).
  split; [apply sqrt_pos | apply sqrt_le_1_alt; assumption].
Qed.

(** *** All floats: signs, zeros and infinities *)

Lemma finish_cases (s : bool) (Q T : Z) :
  finish s Q T = S754_zero s \/ finish s Q T = S754_infinity s
  \/ exists (m : positive) (e : Z), finish s Q T = S754_finite s m e.
Proof.
  unfold Rounding.finish.
  destruct (Q =? 0); [left; reflexivity|].
  destruct (Q =? 2 ^ prec).
  - destruct (T + 1 <=? emax - prec); [right; right; eauto | right; left; reflexivity].
  - destruct (T <=? emax - prec); [right; right; eauto | right; left; reflexivity].
Qed.

Lemma finish_opp (s : bool) (Q T : Z) :
  SFopp (finish s Q T) = finish (negb s) Q T.
Proof.
  unfold Rounding.finish.
  destruct (Q =? 0); [reflexivity|].
  destruct (Q =? 2 ^ prec); [destruct (T + 1 <=? emax - prec) | destruct (T <=? emax - prec)];
    reflexivity.
Qed.

Lemma finish_nonneg (Q T : Z) : nonneg (finish false Q T).
Proof.
  destruct (finish_cases false Q T) as [E|[E|(m & e & E)]]; rewrite E; simpl; auto.
Qed.

Lemma SFleb_opp (a b : spec_float) : SFleb (SFopp a) (SFopp b) = SFleb b a.
Proof.
  unfold SFleb.
  destruct a as [s1|s1| |s1 m1 e1], b as [s2|s2| |s2 m2 e2]; simpl;
    try destruct s1; try destruct s2; try reflexivity;
    change (Pos.compare_cont Eq) with Pos.compare;
    rewrite (Z.compare_antisym e1 e2), (Pos.compare_antisym m1 m2);
    destruct (e1 ?= e2); simpl; try reflexivity;
    destruct (m1 ?= m2)%positive; reflexivity.
Qed.

Lemma SFleb_zero_nonneg (s : bool) (x : spec_float) :
  nonneg x -> SFleb (S754_zero s) x = true.
Proof. destruct x as [s'|s'| |s' m e]; simpl; intros H; try subst s'; tauto || reflexivity. Qed.

Lemma SFleb_nonneg_trans (a b : spec_float) :
  nonneg a -> SFleb a b = true -> nonneg b.
Proof.
  destruct a as [s1|s1| |s1 m1 e1], b as [s2|s2| |s2 m2 e2]; simpl;
    intros H L; try subst s1; try destruct s2; try discriminate; auto.
Qed.

Lemma SFleb_nonneg_inf (x : spec_float) :
  not_nan x -> SFleb x (S754_infinity false) = true.
Proof.
  destruct x as [s|s| |s m e]; intros H; try destruct s; try reflexivity.
  exfalso. apply H. reflexivity.
Qed.

(** A value of clear sign is above a value of set sign. *)
Lemma SFleb_finish_signs (Q1 T1 Q2 T2 : Z) :
  SFleb (finish true Q1 T1) (finish false Q2 T2) = true.
Proof.
  destruct (finish_cases true Q1 T1) as [E1|[E1|(m1 & e1 & E1)]];
    destruct (finish_cases false Q2 T2) as [E2|[E2|(m2 & e2 & E2)]];
    rewrite E1, E2; reflexivity.
Qed.

Lemma SFleb_finish_zero (s : bool) (Q T : Z) :
  SFleb (finish true Q T) (S754_zero s) = true.
Proof.
  destruct (finish_cases true Q T) as [E|[E|(m & e & E)]]; rewrite E; reflexivity.
Qed.

Lemma finish_mono_neg (x1 x2 : R) (Q1 Q2 T1 T2 : Z) :
  rounds x1 Q1 T1 -> rounds x2 Q2 T2 -> (0 <= x1 <= x2)%R ->
  SFleb (finish true Q2 T2) (finish true Q1 T1) = true.
Proof.
  intros R1 R2 Hx.
  change true with (negb false) at 1 2.
  rewrite <- !finish_opp, SFleb_opp. apply (finish_mono _ _ _ _ _ _ R1 R2 Hx).
Qed.

Lemma SFleb_neg_finite (m1 m2 : positive) (e1 e2 : Z) :
  SFleb (S754_finite true m1 e1) (S754_finite true m2 e2)
  = SFleb (S754_finite false m2 e2) (S754_finite false m1 e1).
Proof. apply (SFleb_opp (S754_finite false m1 e1) (S754_finite false m2 e2)). Qed.

(** **** Products *)

Lemma SFmul_finite_mono (sa sb : bool) (m1 m2 my : positive) (e1 e2 ey : Z) :
  bounded prec emax m1 e1 = true -> bounded prec emax m2 e2 = true ->
  bounded prec emax my ey = true ->
  SFleb (S754_finite sa m1 e1) (S754_finite sb m2 e2) = true ->
  SFleb (SFmul prec emax (S754_finite sa m1 e1) (S754_finite false my ey))
        (SFmul prec emax (S754_finite sb m2 e2) (S754_finite false my ey)) = true.
Proof.
  intros V1 V2 Vy H.
  destruct (SFmul_rounds m1 my e1 ey V1 Vy) as (Q1 & T1 & R1 & E1).
  destruct (SFmul_rounds m2 my e2 ey V2 Vy) as (Q2 & T2 & R2 & E2).
  rewrite E1, E2, !xorb_false_r.
  pose proof (F2R_pos m1 e1). pose proof (F2R_pos m2 e2). pose proof (F2R_pos my ey).
  destruct sa, sb.
  - rewrite SFleb_neg_finite in H. pose proof (leb_F2R _ _ _ _ V2 V1 H).
    apply (finish_mono_neg _ _ _ _ _ _ R2 R1). nra.
  - apply SFleb_finish_signs.
  - discriminate H.
  - pose proof (leb_F2R _ _ _ _ V1 V2 H).
    apply (finish_mono _ _ _ _ _ _ R1 R2). nra.
Qed.

Lemma SFmul_is_finish (sa : bool) (m my : positive) (e ey : Z) :
  bounded prec emax m e = true -> bounded prec emax my ey = true ->
  exists Q T : Z,
    SFmul prec emax (S754_finite sa m e) (S754_finite false my ey) = finish sa Q T
    /\ valid_binary prec emax (finish sa Q T) = true.
Proof.
  intros V Vy.
  destruct (SFmul_rounds m my e ey V Vy) as (Q & T & Rd & E).
  exists Q, T. rewrite E, xorb_false_r. split; [reflexivity|].
  apply (finish_valid sa _ Q T) with (2 := Rd).
  pose proof (F2R_pos m e). pose proof (F2R_pos my ey). nra.
Qed.

(** The product by a number that is not negative keeps the order, as long
    as no NaN arises. *)
Lemma SFmul_mono (a b y : spec_float) :
  valid_binary prec emax a = true -> valid_binary prec emax b = true ->
  valid_binary prec emax y = true -> nonneg y ->
  SFleb a b = true ->
  not_nan (SFmul prec emax a y) -> not_nan (SFmul prec emax b y) ->
  SFleb (SFmul prec emax a y) (SFmul prec emax b y) = true.
Proof.
  intros Va Vb Vy Ny H Na Nb.
  destruct y as [sy|sy| |sy my ey]; cbn [nonneg] in Ny; try subst sy; try tauto.
  - destruct a as [s1|s1| |s1 m1 e1], b as [s2|s2| |s2 m2 e2];
      try reflexivity; try discriminate H;
      exfalso; (apply Na; reflexivity) || (apply Nb; reflexivity).
  - destruct a as [s1|s1| |s1 m1 e1], b as [s2|s2| |s2 m2 e2];
      try discriminate H;
      try (exfalso; (apply Na; reflexivity) || (apply Nb; reflexivity));
      destruct s1, s2; try reflexivity; discriminate H.
  - destruct a as [s1|s1| |s1 m1 e1], b as [s2|s2| |s2 m2 e2];
      try discriminate H; cbn [valid_binary] in Va, Vb, Vy.
    + reflexivity.
    + destruct s2; [discriminate H | reflexivity].
    + destruct s2; [discriminate H|].
      destruct (SFmul_is_finish false m2 my e2 ey Vb Vy) as (Q & T & E & _).
      rewrite E. apply SFleb_zero_nonneg, finish_nonneg.
    + destruct s1; [reflexivity | discriminate H].
    + destruct s1, s2; try reflexivity; discriminate H.
    + destruct s1; [|discriminate H].
      destruct (SFmul_is_finish s2 m2 my e2 ey Vb Vy) as (Q & T & E & _).
      rewrite E. cbn [SFmul xorb].
      destruct (finish_cases s2 Q T) as [F|[F|(m & e & F)]]; rewrite F;
        destruct s2; reflexivity.
    + destruct s1; [|discriminate H].
      destruct (SFmul_is_finish true m1 my e1 ey Va Vy) as (Q & T & E & _).
      rewrite E. apply SFleb_finish_zero.
    + destruct s2; [destruct s1; discriminate H|].
      destruct (SFmul_is_finish s1 m1 my e1 ey Va Vy) as (Q & T & E & _).
      rewrite E. cbn [SFmul xorb].
      destruct (finish_cases s1 Q T) as [F|[F|(m & e & F)]]; rewrite F;
        destruct s1; reflexivity.
    + apply SFmul_finite_mono; assumption.
Qed.

Lemma SFmul_valid (a y : spec_float) :
  valid_binary prec emax a = true -> valid_binary prec emax y = true ->
  valid_binary prec emax (SFmul prec emax a y) = true.
Proof.
  intros Va Vy.
  destruct a as [s1|s1| |s1 m1 e1], y as [s2|s2| |s2 m2 e2]; try reflexivity.
  cbn [valid_binary] in Va, Vy.
  destruct (SFmul_rounds m1 m2 e1 e2 Va Vy) as (Q & T & Rd & E).
  rewrite E. apply (finish_valid _ _ Q T) with (2 := Rd).
  pose proof (F2R_pos m1 e1). pose proof (F2R_pos m2 e2). nra.
Qed.

Lemma SFmul_nonneg (a y : spec_float) :
  valid_binary prec emax a = true -> valid_binary prec emax y = true ->
  nonneg a -> nonneg y -> not_nan (SFmul prec emax a y) ->
  nonneg (SFmul prec emax a y).
Proof.
  intros Va Vy Na Ny N.
  destruct a as [s1|s1| |s1 m1 e1], y as [s2|s2| |s2 m2 e2];
    cbn [nonneg] in Na, Ny; try subst s1; try subst s2; try tauto;
    try exact I; try reflexivity; try (exfalso; apply N; reflexivity).
  cbn [valid_binary] in Va, Vy.
  destruct (SFmul_rounds m1 m2 e1 e2 Va Vy) as (Q & T & Rd & E).
  rewrite E. apply finish_nonneg.
Qed.

Lemma SFmul_comm (x y : spec_float) : SFmul prec emax x y = SFmul prec emax y x.
Proof.
  destruct x as [s1|s1| |s1 m1 e1], y as [s2|s2| |s2 m2 e2]; cbn [SFmul];
    rewrite ?(xorb_comm s1 s2); try reflexivity.
  rewrite (Pos.mul_comm m1 m2), (Z.add_comm e1 e2). reflexivity.
Qed.

Lemma SFmul_by_finite_not_nan (x : spec_float) (s : bool) (m : positive) (e : Z) :
  valid_binary prec emax x = true -> bounded prec emax m e = true ->
  not_nan x -> not_nan (SFmul prec emax x (S754_finite s m e)).
Proof.
  intros Vx Vy N. destruct x as [s1|s1| |s1 m1 e1]; try discriminate.
  - exfalso. apply N. reflexivity.
  - cbn [valid_binary] in Vx.
    destruct (SFmul_rounds m1 m e1 e Vx Vy) as (Q & T & _ & E). rewrite E.
    destruct (finish_cases (xorb s1 s) Q T) as [F|[F|(m' & e' & F)]];
      rewrite F; discriminate.
Qed.

Lemma nonneg_not_nan (x : spec_float) : nonneg x -> not_nan x.
Proof. destruct x; simpl; intros H; try discriminate. destruct H. Qed.

Lemma not_nan_SFmul_l (x y : spec_float) :
  not_nan (SFmul prec emax x y) -> not_nan x.
Proof. destruct x; intros H; try discriminate. exfalso. apply H. reflexivity. Qed.

(** **** Quotients by a positive float *)

Lemma SFdiv_mono (a b : spec_float) (my : positive) (ey : Z) :
  valid_binary prec emax a = true -> valid_binary prec emax b = true ->
  nonneg a -> SFleb a b = true ->
  SFleb (SFdiv prec emax a (S754_finite false my ey))
        (SFdiv prec emax b (S754_finite false my ey)) = true.
Proof.
  intros Va Vb Na H. pose proof (SFleb_nonneg_trans a b Na H) as Nb.
  destruct a as [s1|s1| |s1 m1 e1], b as [s2|s2| |s2 m2 e2];
    cbn [nonneg] in Na, Nb; try subst s1; try subst s2; try tauto;
    try discriminate H; try reflexivity; cbn [valid_binary] in Va, Vb.
  - destruct (SFdiv_rounds m2 my e2 ey) as (Q & T & _ & E). rewrite E.
    apply SFleb_zero_nonneg, finish_nonneg.
  - destruct (SFdiv_rounds m1 my e1 ey) as (Q & T & _ & E). rewrite E.
    apply SFleb_nonneg_inf, nonneg_not_nan, finish_nonneg.
  - apply SFdiv_mono_pos; assumption.
Qed.

Lemma SFdiv_nonneg_valid (a : spec_float) (my : positive) (ey : Z) :
  nonneg a ->
  nonneg (SFdiv prec emax a (S754_finite false my ey))
  /\ valid_binary prec emax (SFdiv prec emax a (S754_finite false my ey)) = true.
Proof.
  intros Na.
  destruct a as [s1|s1| |s1 m1 e1]; cbn [nonneg] in Na; try subst s1; try tauto;
    try (split; [exact I || reflexivity | reflexivity]).
  destruct (SFdiv_rounds m1 my e1 ey) as (Q & T & Rd & E). rewrite E.
  split; [apply finish_nonneg|].
  apply (finish_valid _ _ Q T) with (2 := Rd).
  pose proof (F2R_pos m1 e1). pose proof (F2R_pos my ey).
  apply Rlt_le, Rdiv_lt_0_compat; assumption.
Qed.

(** **** Square roots *)

Lemma SFsqrt_mono (a b : spec_float) :
  valid_binary prec emax a = true -> valid_binary prec emax b = true ->
  nonneg a -> SFleb a b = true ->
  SFleb (SFsqrt prec emax a) (SFsqrt prec emax b) = true.
Proof.
  intros Va Vb Na H. pose proof (SFleb_nonneg_trans a b Na H) as Nb.
  destruct a as [s1|s1| |s1 m1 e1], b as [s2|s2| |s2 m2 e2];
    cbn [nonneg] in Na, Nb; try subst s1; try subst s2; try tauto;
    try discriminate H; try reflexivity; cbn [valid_binary] in Va, Vb.
  - destruct (SFsqrt_rounds m2 e2) as (Q & T & _ & E). rewrite E.
    apply SFleb_zero_nonneg, finish_nonneg.
  - destruct (SFsqrt_rounds m1 e1) as (Q & T & _ & E). rewrite E.
    apply SFleb_nonneg_inf, nonneg_not_nan, finish_nonneg.
  - apply SFsqrt_mono_pos; assumption.
Qed.

Lemma SFsqrt_nonneg_valid (a : spec_float) :
  nonneg a ->
  nonneg (SFsqrt prec emax a)
  /\ valid_binary prec emax (SFsqrt prec emax a) = true.
Proof.
  intros Na.
  destruct a as [s1|s1| |s1 m1 e1]; cbn [nonneg] in Na; try subst s1; try tauto;
    try (split; [exact I || reflexivity | reflexivity]).
  destruct (SFsqrt_rounds m1 e1) as (Q & T & Rd & E). rewrite E.
  split; [apply finish_nonneg|].
  apply (finish_valid _ _ Q T) with (2 := Rd). apply sqrt_pos.
Qed.

(** **** Differences *)

Lemma shl_align_spec (m : positive) (e e' : Z) :
  let '(mz, ez) := shl_align m e e' in
  F2R mz ez = F2R m e
  /\ ez <= e'
  /\ Z.pos (digits2_pos mz) + ez = Z.pos (digits2_pos m) + e.
Proof.
  unfold shl_align.
  destruct (e' - e) as [|d|d] eqn:E.
  - split; [reflexivity|]. split; lia.
  - split; [reflexivity|]. split; lia.
  - assert (Ez : Z.pos (Pos.iter xO m d) = Z.pos m * 2 ^ Z.pos d).
    { change (Pos.iter xO m d) with (Zpower.shift_pos d m).
      rewrite Zpower.shift_pos_correct. change (Zpower_pos 2 d) with (2 ^ Z.pos d). lia. }
    split; [|split; [lia|]].
    + unfold F2R. rewrite Ez, mult_IZR, <- (bpow_IZR (Z.pos d)) by lia.
      replace (bpow e) with (bpow (Z.pos d) * bpow e')%R
        by (rewrite <- bpow_add; f_equal; lia).
      ring.
    + change (Z.pos (digits2_pos (Pos.iter xO m d)))
        with (Zdigits2 (Z.pos (Pos.iter xO m d))).
      rewrite Ez.
      destruct (digits2_pos_spec m) as [L U].
      assert (P : 0 < 2 ^ Z.pos d) by (apply Z.pow_pos_nonneg; lia).
      assert (D : Zdigits2 (Z.pos m * 2 ^ Z.pos d) = Z.pos (digits2_pos m) + Z.pos d).
      { apply Z.le_antisymm.
        - apply Zdigits2_le; [lia|]. rewrite Z.pow_add_r by lia. nia.
        - pose proof (Zdigits2_ge (Z.pos m * 2 ^ Z.pos d)
                        (Z.pos (digits2_pos m) - 1 + Z.pos d)) as G.
          rewrite Z.pow_add_r in G by lia.
          assert (2 ^ (Z.pos (digits2_pos m) - 1) * 2 ^ Z.pos d
                  <= Z.pos m * 2 ^ Z.pos d) by nia.
          lia. }
      rewrite D. lia.
Qed.

Lemma binary_round_valid (s : bool) (m : positive) (e : Z) :
  valid_binary prec emax (binary_round prec emax s m e) = true.
Proof.
  unfold binary_round.
  pose proof (shl_align_spec m e (fexp (Z.pos (digits2_pos m) + e))) as H.
  destruct (shl_align m e (fexp (Z.pos (digits2_pos m) + e))) as [mz ez].
  destruct H as (Ev & Le & Eq).
  destruct (rounds_of_aux (Z.pos mz) ez loc_Exact (IZR (Z.pos mz))) as (Q & Rd & E).
  - lia.
  - apply locates_exact.
  - cbn [Zdigits2]. rewrite Eq. exact Le.
  - rewrite E. apply (finish_valid s _ Q _) with (2 := Rd).
    change (IZR (Z.pos mz) * bpow ez)%R with (F2R mz ez).
    apply Rlt_le, F2R_pos.
Qed.

Lemma binary_normalize_valid (m e : Z) (sz : bool) :
  valid_binary prec emax (binary_normalize prec emax m e sz) = true.
Proof.
  destruct m as [|p|p]; [reflexivity | apply binary_round_valid ..].
Qed.

(** A difference of valid floats is a valid float. *)
Lemma SFsub_valid (x y : spec_float) :
  valid_binary prec emax x = true -> valid_binary prec emax y = true ->
  valid_binary prec emax (SFsub prec emax x y) = true.
Proof.
  intros Vx Vy.
  destruct x as [s1|s1| |s1 m1 e1], y as [s2|s2| |s2 m2 e2]; cbn [SFsub];
    try destruct s1; try destruct s2; try reflexivity; try assumption;
    apply binary_normalize_valid.
Qed.

(** **** The clamp at zero *)

Lemma clamp_nonneg_valid (h : spec_float) :
  valid_binary prec emax h = true -> not_nan h ->
  nonneg (clamp h) /\ valid_binary prec emax (clamp h) = true.
Proof.
  intros V N. unfold clamp.
  destruct h as [s|s| |s m e]; try destruct s; simpl; auto.
Qed.

Lemma clamp_mono (h1 h2 : spec_float) :
  SFleb h1 h2 = true -> SFleb (clamp h1) (clamp h2) = true.
Proof.
  unfold clamp.
  destruct h1 as [s1|s1| |s1 m1 e1], h2 as [s2|s2| |s2 m2 e2];
    try destruct s1; try destruct s2; simpl; intros H;
    try reflexivity; try discriminate H; exact H.
Qed.

(** **** The formula of the drop distance *)

Section Drop.
Variables (two g c : spec_float).
Variables (mt mg mc : positive) (et eg ec : Z).
Hypothesis Htwo : two = S754_finite false mt et.
Hypothesis Hg : g = S754_finite false mg eg.
Hypothesis Hc : c = S754_finite false mc ec.
Hypothesis Vtwo : bounded prec emax mt et = true.
Hypothesis Vc : bounded prec emax mc ec = true.

Local Abbreviation fall := (Rounding.fall prec emax two g).
Local Abbreviation drop := (Rounding.drop prec emax two g c).

Lemma doubled_nonneg_valid (h : spec_float) :
  valid_binary prec emax h = true -> not_nan h ->
  nonneg (SFmul prec emax two (clamp h))
  /\ valid_binary prec emax (SFmul prec emax two (clamp h)) = true.
Proof.
  intros V N. destruct (clamp_nonneg_valid h V N) as [Nc Vc'].
  split.
  - apply SFmul_nonneg; try assumption.
    + rewrite Htwo. exact Vtwo.
    + rewrite Htwo. reflexivity.
    + rewrite SFmul_comm, Htwo.
      apply SFmul_by_finite_not_nan; [assumption | exact Vtwo |].
      apply nonneg_not_nan, Nc.
  - apply SFmul_valid; [rewrite Htwo; exact Vtwo | exact Vc'].
Qed.

Lemma fall_nonneg_valid (h : spec_float) :
  valid_binary prec emax h = true -> not_nan h ->
  nonneg (fall h) /\ valid_binary prec emax (fall h) = true.
Proof.
  intros V N. unfold Rounding.fall. rewrite Hg.
  destruct (doubled_nonneg_valid h V N) as [N2 V2].
  destruct (SFdiv_nonneg_valid _ mg eg N2) as [N3 V3].
  apply SFsqrt_nonneg_valid, N3.
Qed.

Lemma fall_mono (h1 h2 : spec_float) :
  valid_binary prec emax h1 = true -> valid_binary prec emax h2 = true ->
  SFleb h1 h2 = true -> SFleb (fall h1) (fall h2) = true.
Proof.
  intros V1 V2 H.
  assert (N1 : not_nan h1) by (intros ->; discriminate H).
  assert (N2 : not_nan h2) by (intros ->; destruct h1; discriminate H).
  destruct (clamp_nonneg_valid h1 V1 N1) as [Nc1 Vc1].
  destruct (clamp_nonneg_valid h2 V2 N2) as [Nc2 Vc2].
  destruct (doubled_nonneg_valid h1 V1 N1) as [Nd1 Vd1].
  destruct (doubled_nonneg_valid h2 V2 N2) as [Nd2 Vd2].
  destruct (SFdiv_nonneg_valid _ mg eg Nd1) as [Nq1 Vq1].
  destruct (SFdiv_nonneg_valid _ mg eg Nd2) as [Nq2 Vq2].
  unfold Rounding.fall. rewrite Hg.
  apply SFsqrt_mono; try assumption.
  apply SFdiv_mono; try assumption.
  rewrite !(SFmul_comm two).
  apply SFmul_mono; try assumption.
  - rewrite Htwo. exact Vtwo.
  - rewrite Htwo. reflexivity.
  - apply clamp_mono, H.
  - rewrite Htwo. apply SFmul_by_finite_not_nan; [assumption | exact Vtwo |].
    apply nonneg_not_nan, Nc1.
  - rewrite Htwo. apply SFmul_by_finite_not_nan; [assumption | exact Vtwo |].
    apply nonneg_not_nan, Nc2.
Qed.

Lemma fall_nan : fall S754_nan = S754_nan.
Proof. unfold Rounding.fall. rewrite Htwo, Hg. reflexivity. Qed.

(** The drop distance grows with the velocity. *)
Lemma drop_mono_velocity (v1 v2 h : spec_float) :
  valid_binary prec emax v1 = true -> valid_binary prec emax v2 = true ->
  valid_binary prec emax h = true ->
  SFleb v1 v2 = true ->
  not_nan (drop v1 h) -> not_nan (drop v2 h) ->
  SFleb (drop v1 h) (drop v2 h) = true.
Proof.
  intros V1 V2 Vh H N1 N2. unfold Rounding.drop in *.
  pose proof (not_nan_SFmul_l _ _ N1) as N1'.
  pose proof (not_nan_SFmul_l _ _ N2) as N2'.
  assert (Nh : not_nan h).
  { intros ->. apply N1'. rewrite fall_nan. destruct v1; reflexivity. }
  destruct (fall_nonneg_valid h Vh Nh) as [Nf Vf].
  apply SFmul_mono; try assumption.
  - apply SFmul_valid; assumption.
  - apply SFmul_valid; assumption.
  - rewrite Hc. exact Vc.
  - rewrite Hc. reflexivity.
  - apply SFmul_mono; assumption.
Qed.

(** The drop distance grows with the height, when the velocity is not
    negative. *)
Lemma drop_mono_height (v h1 h2 : spec_float) :
  valid_binary prec emax v = true ->
  valid_binary prec emax h1 = true -> valid_binary prec emax h2 = true ->
  nonneg v -> SFleb h1 h2 = true ->
  not_nan (drop v h1) -> not_nan (drop v h2) ->
  SFleb (drop v h1) (drop v h2) = true.
Proof.
  intros Vv V1 V2 Nv H N1 N2. unfold Rounding.drop in *.
  pose proof (not_nan_SFmul_l _ _ N1) as N1'.
  pose proof (not_nan_SFmul_l _ _ N2) as N2'.
  assert (Nh1 : not_nan h1) by (intros ->; discriminate H).
  assert (Nh2 : not_nan h2) by (intros ->; destruct h1; discriminate H).
  destruct (fall_nonneg_valid h1 V1 Nh1) as [Nf1 Vf1].
  destruct (fall_nonneg_valid h2 V2 Nh2) as [Nf2 Vf2].
  apply SFmul_mono; try assumption.
  - apply SFmul_valid; assumption.
  - apply SFmul_valid; assumption.
  - rewrite Hc. exact Vc.
  - rewrite Hc. reflexivity.
  - rewrite !(SFmul_comm v).
    apply SFmul_mono; try assumption.
    + apply fall_mono; assumption.
    + rewrite SFmul_comm. exact N1'.
    + rewrite SFmul_comm. exact N2'.
Qed.

End Drop.

End Format.

End RoundingFacts.

(** ** Floats and the reals they stand for *)

Module ValueFacts.
Import Rdefinitions RIneq Rfunctions R_sqrt Lra.
Import Rounding RoundingFacts Values.

Section Format.
Variables prec emax : Z.
Hypothesis Hprec : 0 < prec.
Hypothesis Hemax : prec < emax.

Local Abbreviation rounds := (Rounding.rounds prec emax).
Local Abbreviation finish := (Rounding.finish prec emax).
Local Abbreviation rounded := (Values.rounded prec emax).
Local Abbreviation valid := (valid_binary prec emax).

(** Rounding keeps the order. *)
Lemma rounded_mono (r1 r2 : R) (z1 z2 : spec_float) :
  (r1 <= r2)%R -> rounded r1 z1 -> rounded r2 z2 -> SFleb z1 z2 = true.
Proof.
  intros Le [[E1 [s1 ->]]|[[P1 (Q1 & T1 & R1 & ->)]|[N1 (Q1 & T1 & R1 & ->)]]]
            [[E2 [s2 ->]]|[[P2 (Q2 & T2 & R2 & ->)]|[N2 (Q2 & T2 & R2 & ->)]]];
    try lra.
  - reflexivity.
  - apply SFleb_zero_nonneg, finish_nonneg.
  - apply (finish_mono prec emax Hprec r1 r2); [assumption..|lra].
  - apply SFleb_finish_zero.
  - apply SFleb_finish_signs.
  - apply (finish_mono_neg prec emax Hprec (- r2) (- r1)); [assumption..|lra].
Qed.

Lemma rounded_valid (r : R) (z : spec_float) : rounded r z -> valid z = true.
Proof.
  intros [[E [s ->]]|[[P (Q & T & Rd & ->)]|[N (Q & T & Rd & ->)]]].
  - reflexivity.
  - apply (finish_valid prec emax Hprec false r); [lra | exact Rd].
  - apply (finish_valid prec emax Hprec true (- r)); [lra | exact Rd].
Qed.

Lemma rounded_not_nan (r : R) (z : spec_float) : rounded r z -> z <> S754_nan.
Proof.
  intros [[E [s ->]]|[[P (Q & T & Rd & ->)]|[N (Q & T & Rd & ->)]]];
    try discriminate;
    match goal with
    | |- Rounding.finish _ _ ?s ?Q ?T <> _ =>
        destruct (finish_cases prec emax s Q T) as [->|[->|(m & e & ->)]]; discriminate
    end.
Qed.

(** A float of the format is the rounding of its own value. *)
Lemma rounds_exact (m : positive) (e : Z) :
  bounded prec emax m e = true ->
  rounds (F2R m e) (Z.pos m) e
  /\ forall s : bool, finish s (Z.pos m) e = S754_finite s m e.
Proof.
  intros V. destruct (bounded_spec _ _ _ _ V) as [C Le].
  pose proof (digits2_pos_spec m) as [L U].
  pose proof (bpow_pos e) as Pe.
  unfold SpecFloat.fexp in C.
  assert (D : Z.pos (digits2_pos m) <= prec) by lia.
  assert (M : Z.pos m < 2 ^ prec).
  { eapply Z.lt_le_trans; [exact U|]. apply Z.pow_le_mono_r; lia. }
  split.
  - split; [unfold SpecFloat.emin in *; lia|]. split; [|split].
    + unfold F2R. rewrite Z.add_comm, bpow_add, (bpow_IZR prec) by lia.
      apply Rmult_lt_compat_r; [exact Pe | apply IZR_lt; exact M].
    + intros Gt. assert (E : Z.pos (digits2_pos m) = prec)
        by (unfold SpecFloat.emin in *; lia).
      unfold F2R. replace (e + prec - 1) with (prec - 1 + e) by lia.
      rewrite bpow_add, (bpow_IZR (prec - 1)) by lia.
      apply Rmult_le_compat_r; [lra | apply IZR_le; rewrite E in L; exact L].
    + exists (4 * Z.pos m + loc_code loc_Exact). split.
      * replace (F2R m e / bpow e)%R with (IZR (Z.pos m))
          by (unfold F2R; field; lra).
        apply locates_exact.
      * unfold round_code, loc_code.
        replace ((4 * Z.pos m + 0) / 4) with (Z.pos m)
          by (apply (Z.div_unique _ 4 _ 0); lia).
        replace ((4 * Z.pos m + 0) mod 4) with 0
          by (apply (Z.mod_unique _ 4 (Z.pos m)); lia).
        reflexivity.
  - intros s. unfold Rounding.finish.
    destruct (Z.eqb_spec (Z.pos m) 0) as [F|_]; [lia|].
    destruct (Z.eqb_spec (Z.pos m) (2 ^ prec)) as [F|_]; [lia|].
    destruct (Z.leb_spec e (emax - prec)) as [_|F]; [|lia].
    reflexivity.
Qed.

Lemma rounded_exact (x : spec_float) :
  valid x = true -> IEEE.is_finite x = true -> rounded (B2R x) x.
Proof.
  destruct x as [s|s| |s m e]; try discriminate; intros V _.
  - left. split; [reflexivity | exists s; reflexivity].
  - destruct (rounds_exact m e V) as [Rd E].
    pose proof (F2R_pos m e) as P.
    destruct s; cbn [B2R].
    + right; right. split; [lra|]. exists (Z.pos m), e.
      rewrite Ropp_involutive, E. split; [exact Rd | reflexivity].
    + right; left. split; [lra|]. exists (Z.pos m), e.
      rewrite E. split; [exact Rd | reflexivity].
Qed.

(** The order of the floats of the format is the order of their values. *)
Lemma B2R_le_SFleb (x y : spec_float) :
  valid x = true -> valid y = true ->
  IEEE.is_finite x = true -> IEEE.is_finite y = true ->
  (B2R x <= B2R y)%R -> SFleb x y = true.
Proof.
  intros Vx Vy Fx Fy Le.
  exact (rounded_mono _ _ _ _ Le (rounded_exact x Vx Fx) (rounded_exact y Vy Fy)).
Qed.

Lemma SFleb_B2R_le (x y : spec_float) :
  valid x = true -> valid y = true ->
  IEEE.is_finite x = true -> IEEE.is_finite y = true ->
  SFleb x y = true -> (B2R x <= B2R y)%R.
Proof.
  destruct x as [s1|s1| |s1 m1 e1], y as [s2|s2| |s2 m2 e2]; try discriminate;
    intros Vx Vy _ _ H; cbn [B2R].
  - lra.
  - pose proof (F2R_pos m2 e2). destruct s2; [discriminate H | lra].
  - pose proof (F2R_pos m1 e1). destruct s1; [lra | discriminate H].
  - pose proof (F2R_pos m1 e1). pose proof (F2R_pos m2 e2).
    destruct s1, s2; try lra.
    + rewrite SFleb_neg_finite in H.
      pose proof (leb_F2R prec emax Hprec Hemax _ _ _ _ Vy Vx H). lra.
    + discriminate H.
    + exact (leb_F2R prec emax Hprec Hemax _ _ _ _ Vx Vy H).
Qed.

(** What [binary_round] and [binary_normalize] compute. *)
Lemma binary_round_rounds (m : positive) (e : Z) :
  exists Q T : Z,
    rounds (F2R m e) Q T
    /\ forall s : bool, binary_round prec emax s m e = finish s Q T.
Proof.
  unfold binary_round.
  pose proof (shl_align_spec m e (SpecFloat.fexp prec emax (Z.pos (digits2_pos m) + e))) as H.
  destruct (shl_align m e _) as [mz ez].
  destruct H as (Ev & Le & Eq).
  destruct (rounds_of_aux prec emax Hprec (Z.pos mz) ez loc_Exact (IZR (Z.pos mz)))
    as (Q & Rd & E).
  - lia.
  - apply locates_exact.
  - cbn [Zdigits2]. rewrite Eq. exact Le.
  - exists Q, (SpecFloat.fexp prec emax (Zdigits2 (Z.pos mz) + ez)).
    split; [|exact E].
    rewrite <- Ev. exact Rd.
Qed.

Lemma binary_normalize_rounded (n e : Z) (sz : bool) :
  rounded (IZR n * bpow e) (binary_normalize prec emax n e sz).
Proof.
  destruct n as [|p|p]; cbn [binary_normalize].
  - left. split; [lra | exists sz; reflexivity].
  - destruct (binary_round_rounds p e) as (Q & T & Rd & E).
    right; left. split; [apply F2R_pos|].
    exists Q, T. split; [exact Rd | apply E].
  - destruct (binary_round_rounds p e) as (Q & T & Rd & E).
    pose proof (F2R_pos p e) as P.
    assert (Eo : (IZR (Z.neg p) * bpow e = - F2R p e)%R).
    { unfold F2R. change (Z.neg p) with (- Z.pos p). rewrite opp_IZR. ring. }
    right; right. rewrite Eo. split; [lra|].
    exists Q, T. rewrite Ropp_involutive. split; [exact Rd | apply E].
Qed.

Lemma shl_align_fst (m : positive) (e e' : Z) :
  e' <= e -> F2R (fst (shl_align m e e')) e' = F2R m e.
Proof.
  intros Le. pose proof (shl_align_spec m e e') as H.
  unfold shl_align in *.
  destruct (e' - e) as [|d|d] eqn:E; cbn [fst].
  - replace e' with e by lia. reflexivity.
  - lia.
  - apply H.
Qed.

Lemma B2R_cond_Zopp (s : bool) (m : positive) (e : Z) :
  (IZR (cond_Zopp s (Z.pos m)) * bpow e)%R = B2R (S754_finite s m e).
Proof.
  destruct s; cbn [cond_Zopp B2R]; unfold F2R; [|reflexivity].
  rewrite opp_IZR. ring.
Qed.

Lemma aligned_value (s : bool) (m : positive) (e e' : Z) :
  e' <= e ->
  (IZR (cond_Zopp s (Z.pos (fst (shl_align m e e')))) * bpow e')%R
  = B2R (S754_finite s m e).
Proof.
  intros Le. rewrite B2R_cond_Zopp. cbn [B2R].
  rewrite (shl_align_fst m e e' Le). reflexivity.
Qed.

Lemma valid_SFopp (x : spec_float) : valid (SFopp x) = valid x.
Proof. destruct x; reflexivity. Qed.

Lemma B2R_SFopp (x : spec_float) : B2R (SFopp x) = (- B2R x)%R.
Proof.
  destruct x as [s|s| |s m e]; cbn [SFopp B2R]; try lra.
  destruct s; cbn [negb]; lra.
Qed.

(** Sums, differences, products and quotients of numbers of the format
    are the exact results, rounded. *)
Lemma SFadd_rounded (x y : spec_float) :
  valid x = true -> valid y = true ->
  IEEE.is_finite x = true -> IEEE.is_finite y = true ->
  rounded (B2R x + B2R y) (SFadd prec emax x y).
Proof.
  destruct x as [s1|s1| |s1 m1 e1], y as [s2|s2| |s2 m2 e2]; try discriminate;
    intros Vx Vy _ _.
  - left. split; [cbn [B2R]; lra|]. destruct s1, s2; eexists; reflexivity.
  - replace (B2R (S754_zero s1) + B2R (S754_finite s2 m2 e2))%R
      with (B2R (S754_finite s2 m2 e2)) by (cbn [B2R]; lra).
    apply (rounded_exact _ Vy). reflexivity.
  - replace (B2R (S754_finite s1 m1 e1) + B2R (S754_zero s2))%R
      with (B2R (S754_finite s1 m1 e1)) by (cbn [B2R]; lra).
    apply (rounded_exact _ Vx). reflexivity.
  - cbn [SFadd].
    rewrite <- (aligned_value s1 m1 e1 (Z.min e1 e2)) by lia.
    rewrite <- (aligned_value s2 m2 e2 (Z.min e1 e2)) by lia.
    rewrite <- Rmult_plus_distr_r, <- plus_IZR.
    apply binary_normalize_rounded.
Qed.

Lemma SFsub_rounded (x y : spec_float) :
  valid x = true -> valid y = true ->
  IEEE.is_finite x = true -> IEEE.is_finite y = true ->
  rounded (B2R x - B2R y) (SFsub prec emax x y).
Proof.
  destruct x as [s1|s1| |s1 m1 e1], y as [s2|s2| |s2 m2 e2]; try discriminate;
    intros Vx Vy _ _.
  - left. split; [cbn [B2R]; lra|]. destruct s1, s2; eexists; reflexivity.
  - replace (B2R (S754_zero s1) - B2R (S754_finite s2 m2 e2))%R
      with (B2R (SFopp (S754_finite s2 m2 e2)))
      by (rewrite B2R_SFopp; cbn [B2R]; lra).
    apply rounded_exact; [exact Vy | reflexivity].
  - replace (B2R (S754_finite s1 m1 e1) - B2R (S754_zero s2))%R
      with (B2R (S754_finite s1 m1 e1)) by (cbn [B2R]; lra).
    apply (rounded_exact _ Vx). reflexivity.
  - cbn [SFsub].
    rewrite <- (aligned_value s1 m1 e1 (Z.min e1 e2)) by lia.
    rewrite <- (aligned_value s2 m2 e2 (Z.min e1 e2)) by lia.
    rewrite <- Rmult_minus_distr_r, <- minus_IZR.
    apply binary_normalize_rounded.
Qed.

Lemma SFmul_rounded (x y : spec_float) :
  valid x = true -> valid y = true ->
  IEEE.is_finite x = true -> IEEE.is_finite y = true ->
  rounded (B2R x * B2R y) (SFmul prec emax x y).
Proof.
  destruct x as [s1|s1| |s1 m1 e1], y as [s2|s2| |s2 m2 e2]; try discriminate;
    intros Vx Vy _ _;
    try (left; split; [cbn [B2R]; lra | eexists; reflexivity]).
  destruct (SFmul_rounds prec emax Hprec Hemax m1 m2 e1 e2 Vx Vy) as (Q & T & Rd & E).
  rewrite E.
  pose proof (F2R_pos m1 e1) as P1. pose proof (F2R_pos m2 e2) as P2.
  pose proof (Rmult_lt_0_compat _ _ P1 P2) as P.
  destruct s1, s2; cbn [B2R xorb].
  - right; left. split; [nra|]. exists Q, T. split; [|reflexivity].
    replace (- F2R m1 e1 * - F2R m2 e2)%R with (F2R m1 e1 * F2R m2 e2)%R by ring.
    exact Rd.
  - right; right. split; [nra|]. exists Q, T. split; [|reflexivity].
    replace (- (- F2R m1 e1 * F2R m2 e2))%R with (F2R m1 e1 * F2R m2 e2)%R by ring.
    exact Rd.
  - right; right. split; [nra|]. exists Q, T. split; [|reflexivity].
    replace (- (F2R m1 e1 * - F2R m2 e2))%R with (F2R m1 e1 * F2R m2 e2)%R by ring.
    exact Rd.
  - right; left. split; [nra|]. exists Q, T. split; [exact Rd | reflexivity].
Qed.

Lemma SFdiv_rounded (x y : spec_float) (s2 : bool) (m2 : positive) (e2 : Z) :
  y = S754_finite s2 m2 e2 ->
  valid x = true -> IEEE.is_finite x = true ->
  rounded (B2R x / B2R y) (SFdiv prec emax x y).
Proof.
  intros ->.
  pose proof (F2R_pos m2 e2) as P2.
  destruct x as [s1|s1| |s1 m1 e1]; try discriminate; intros Vx _.
  - left. split; [|eexists; reflexivity].
    cbn [B2R]. destruct s2; field; lra.
  - destruct (SFdiv_rounds prec emax Hprec Hemax m1 m2 e1 e2) as (Q & T & Rd & E).
    rewrite E.
    pose proof (F2R_pos m1 e1) as P1.
    assert (P : (0 < F2R m1 e1 / F2R m2 e2)%R)
      by (apply Rdiv_lt_0_compat; assumption).
    destruct s1, s2; cbn [B2R xorb].
    + right; left.
      replace (- F2R m1 e1 / - F2R m2 e2)%R with (F2R m1 e1 / F2R m2 e2)%R
        by (field; lra).
      split; [exact P|]. exists Q, T. split; [exact Rd | reflexivity].
    + right; right.
      replace (- F2R m1 e1 / F2R m2 e2)%R with (- (F2R m1 e1 / F2R m2 e2))%R
        by (field; lra).
      split; [lra|]. exists Q, T. rewrite Ropp_involutive.
      split; [exact Rd | reflexivity].
    + right; right.
      replace (F2R m1 e1 / - F2R m2 e2)%R with (- (F2R m1 e1 / F2R m2 e2))%R
        by (field; lra).
      split; [lra|]. exists Q, T. rewrite Ropp_involutive.
      split; [exact Rd | reflexivity].
    + right; left. split; [exact P|]. exists Q, T. split; [exact Rd | reflexivity].
Qed.

(** *** The order of sums, differences, products and quotients *)

Lemma SFleb_finite_between (lo hi x : spec_float) :
  IEEE.is_finite lo = true -> IEEE.is_finite hi = true ->
  SFleb lo x = true -> SFleb x hi = true -> IEEE.is_finite x = true.
Proof.
  destruct lo as [a|a| |a ma ea], hi as [b|b| |b mb eb], x as [s|s| |s m e];
    try discriminate; try reflexivity; intros _ _; destruct s; discriminate.
Qed.

Lemma SFadd_mono (a b c d : spec_float) :
  valid a = true -> valid b = true -> valid c = true -> valid d = true ->
  IEEE.is_finite a = true -> IEEE.is_finite b = true ->
  IEEE.is_finite c = true -> IEEE.is_finite d = true ->
  SFleb a b = true -> SFleb c d = true ->
  SFleb (SFadd prec emax a c) (SFadd prec emax b d) = true.
Proof.
  intros Va Vb Vc Vd Fa Fb Fc Fd L1 L2.
  pose proof (SFleb_B2R_le a b Va Vb Fa Fb L1).
  pose proof (SFleb_B2R_le c d Vc Vd Fc Fd L2).
  apply (rounded_mono (B2R a + B2R c) (B2R b + B2R d));
    [lra | apply SFadd_rounded; assumption ..].
Qed.

Lemma SFsub_mono (a b c d : spec_float) :
  valid a = true -> valid b = true -> valid c = true -> valid d = true ->
  IEEE.is_finite a = true -> IEEE.is_finite b = true ->
  IEEE.is_finite c = true -> IEEE.is_finite d = true ->
  SFleb a b = true -> SFleb d c = true ->
  SFleb (SFsub prec emax a c) (SFsub prec emax b d) = true.
Proof.
  intros Va Vb Vc Vd Fa Fb Fc Fd L1 L2.
  pose proof (SFleb_B2R_le a b Va Vb Fa Fb L1).
  pose proof (SFleb_B2R_le d c Vd Vc Fd Fc L2).
  apply (rounded_mono (B2R a - B2R c) (B2R b - B2R d));
    [lra | apply SFsub_rounded; assumption ..].
Qed.

(** A product with a negative number reverses the order. *)
Lemma SFmul_antitone (k a b : spec_float) :
  valid k = true -> valid a = true -> valid b = true ->
  IEEE.is_finite k = true -> IEEE.is_finite a = true -> IEEE.is_finite b = true ->
  (B2R k <= 0)%R -> SFleb a b = true ->
  SFleb (SFmul prec emax k b) (SFmul prec emax k a) = true.
Proof.
  intros Vk Va Vb Fk Fa Fb Nk L.
  pose proof (SFleb_B2R_le a b Va Vb Fa Fb L).
  apply (rounded_mono (B2R k * B2R b) (B2R k * B2R a));
    [nra | apply SFmul_rounded; assumption ..].
Qed.

Lemma SFmul_monotone (k a b : spec_float) :
  valid k = true -> valid a = true -> valid b = true ->
  IEEE.is_finite k = true -> IEEE.is_finite a = true -> IEEE.is_finite b = true ->
  (0 <= B2R k)%R -> SFleb a b = true ->
  SFleb (SFmul prec emax k a) (SFmul prec emax k b) = true.
Proof.
  intros Vk Va Vb Fk Fa Fb Nk L.
  pose proof (SFleb_B2R_le a b Va Vb Fa Fb L).
  apply (rounded_mono (B2R k * B2R a) (B2R k * B2R b));
    [nra | apply SFmul_rounded; assumption ..].
Qed.

(** A quotient by a positive number keeps the order. *)
Lemma SFdiv_monotone (a b : spec_float) (m : positive) (e : Z) :
  valid a = true -> valid b = true ->
  IEEE.is_finite a = true -> IEEE.is_finite b = true ->
  SFleb a b = true ->
  SFleb (SFdiv prec emax a (S754_finite false m e))
        (SFdiv prec emax b (S754_finite false m e)) = true.
Proof.
  intros Va Vb Fa Fb L.
  pose proof (SFleb_B2R_le a b Va Vb Fa Fb L).
  pose proof (F2R_pos m e) as P.
  apply (rounded_mono (B2R a / B2R (S754_finite false m e))
                      (B2R b / B2R (S754_finite false m e))).
  - cbn [B2R]. unfold Rdiv.
    apply Rmult_le_compat_r; [apply Rlt_le, Rinv_0_lt_compat; exact P | assumption].
  - apply (SFdiv_rounded a _ false m e); [reflexivity | assumption ..].
  - apply (SFdiv_rounded b _ false m e); [reflexivity | assumption ..].
Qed.

Lemma SFleb_trans (a b c : spec_float) :
  valid a = true -> valid b = true -> valid c = true ->
  IEEE.is_finite a = true -> IEEE.is_finite b = true -> IEEE.is_finite c = true ->
  SFleb a b = true -> SFleb b c = true -> SFleb a c = true.
Proof.
  intros Va Vb Vc Fa Fb Fc L1 L2.
  pose proof (SFleb_B2R_le a b Va Vb Fa Fb L1).
  pose proof (SFleb_B2R_le b c Vb Vc Fb Fc L2).
  apply B2R_le_SFleb; try assumption. lra.
Qed.

(** *** The integer below a float *)

Lemma Zfloor_spec (x : spec_float) :
  (IZR (IEEE.Zfloor x) <= B2R x < IZR (IEEE.Zfloor x) + 1)%R.
Proof.
  destruct x as [s|s| |s m e]; cbn [IEEE.Zfloor B2R]; try lra.
  change (if s then (- F2R m e)%R else F2R m e) with (B2R (S754_finite s m e)).
  rewrite <- B2R_cond_Zopp.
  set (a := cond_Zopp s (Z.pos m)).
  destruct (Z.le_gt_cases 0 e) as [Pe|Ne].
  - rewrite Z.shiftl_mul_pow2, mult_IZR, <- bpow_IZR by lia. lra.
  - assert (Es : Z.shiftl a e = a / 2 ^ (- e)).
    { replace e with (- - e) at 1 by lia.
      rewrite Z.shiftl_opp_r, Z.shiftr_div_pow2 by lia. reflexivity. }
    rewrite Es.
    assert (P : 0 < 2 ^ (- e)) by (apply Z.pow_pos_nonneg; lia).
    pose proof (Z.div_mod a (2 ^ (- e)) ltac:(lia)) as D.
    pose proof (Z.mod_pos_bound a (2 ^ (- e)) P) as B.
    set (q := a / 2 ^ (- e)) in *. set (r := a mod 2 ^ (- e)) in *.
    assert (Eb : bpow e = (/ IZR (2 ^ (- e)))%R).
    { replace e with (- - e) at 1 by lia.
      rewrite (bpow_opp (- e)), (bpow_IZR (- e)) by lia. reflexivity. }
    rewrite Eb.
    assert (PR : (0 < IZR (2 ^ (- e)))%R) by (apply IZR_lt; lia).
    rewrite D at 1 2. rewrite plus_IZR, mult_IZR.
    assert (B0 : (0 <= IZR r)%R) by (apply IZR_le; lia).
    assert (B1 : (IZR r < IZR (2 ^ (- e)))%R) by (apply IZR_lt; lia).
    set (w := IZR (2 ^ (- e))) in *.
    replace ((w * IZR q + IZR r) * / w)%R with (IZR q + IZR r * / w)%R
      by (field; lra).
    assert (I0 : (0 <= IZR r * / w)%R)
      by (apply Rmult_le_pos; [exact B0 | apply Rlt_le, Rinv_0_lt_compat; exact PR]).
    assert (I1 : (IZR r * / w < 1)%R).
    { apply Rmult_lt_reg_r with w; [exact PR|].
      replace (IZR r * / w * w)%R with (IZR r) by (field; lra). lra. }
    lra.
Qed.

Lemma Zfloor_mono (x y : spec_float) :
  valid x = true -> valid y = true ->
  IEEE.is_finite x = true -> IEEE.is_finite y = true ->
  SFleb x y = true -> IEEE.Zfloor x <= IEEE.Zfloor y.
Proof.
  intros Vx Vy Fx Fy L.
  pose proof (SFleb_B2R_le x y Vx Vy Fx Fy L).
  pose proof (Zfloor_spec x). pose proof (Zfloor_spec y).
  assert (IZR (IEEE.Zfloor x) < IZR (IEEE.Zfloor y + 1))%R
    by (rewrite plus_IZR; lra).
  apply lt_IZR in H2. lia.
Qed.

End Format.

Lemma SFltb_SFleb (x y : spec_float) : SFltb x y = true -> SFleb x y = true.
Proof. unfold SFltb, SFleb. destruct (SFcompare x y) as [[]|]; congruence. Qed.

Lemma SFltb_zero_false (x : spec_float) :
  x <> S754_nan -> SFltb x (S754_zero false) = false ->
  SFleb (S754_zero false) x = true.
Proof.
  destruct x as [s|s| |s m e]; try destruct s; intros N H;
    try reflexivity; try discriminate H. contradiction.
Qed.

End ValueFacts.

(** ** What the setters and [recalculate] do to the object *)

Section Methods.
Context {A : Arith} {L : Libm A}.
Local Open Scope double_scope.
Local Notation "# n" := (of_int n) (at level 1, format "# n").

Lemma run_setCurrentData (lat lon alt vel hdg age : double) (millis : Z) (t : Targeter A) :
  run (setCurrentData lat lon alt vel hdg age) millis t
  = (decision (with_current lat lon alt vel hdg age t),
     with_current lat lon alt vel hdg age t).
Proof. reflexivity. Qed.

Lemma run_setTargetData (lat lon alt : double) (millis : Z) (t : Targeter A) :
  run (setTargetData lat lon alt) millis t = (tt, with_target lat lon alt t).
Proof. reflexivity. Qed.

Lemma run_recalculate (millis : Z) (t : Targeter A) :
  run recalculate millis t = (decision t, t).
Proof. reflexivity. Qed.

(** C10. The clock does not reach the decision: for a given object (and
    given arguments of [setCurrentData]) the boolean returned, and the
    object left behind, are the same whatever [millis()] returns. *)
Theorem decision_independent_of_clock
    (t : Targeter A) (millis1 millis2 : Z) (lat lon alt vel hdg age : double) :
  run recalculate millis1 t = run recalculate millis2 t
  /\ run (setCurrentData lat lon alt vel hdg age) millis1 t
     = run (setCurrentData lat lon alt vel hdg age) millis2 t.
Proof.
  split.
  - rewrite !run_recalculate. reflexivity.
  - rewrite !run_setCurrentData. reflexivity.
Qed.

(** The ladder of [utmLetter] is a scan of the table of bands. *)
Lemma utmLetter_band (lat : double) :
  utmLetter lat = nth (band_index band_bounds lat) band_letters "X"%char.
Proof.
  unfold utmLetter, band_index, band_bounds.
  repeat match goal with
         | |- context [if ?c then _ else _] => destruct c
         end; reflexivity.
Qed.

Lemma band_index_le (bounds : list Z) (lat : double) :
  (band_index bounds lat <= List.length bounds)%nat.
Proof.
  induction bounds as [|b bs IH]; cbn [band_index List.length]; [lia|].
  destruct (lat <? #b); lia.
Qed.


End Methods.

(** C1. The setters call [calculateLateralError] and [calculateTimeToDrop]
    and drop what they return: after [setCurrentData] or [setTargetData]
    the getters return what the fields held before the call, and the path
    distance is computed from that old lateral error.  In the
    specification's scenario, starting from the object at start-up,
    [getLateralError] returns 0 after both setters have run, while
    [calculateLateralError] yields 13.86 m for the stored state. *)
Theorem setters_leave_diagnostics_stale :
  (forall (A : Arith) (L : Libm A) (t : Targeter A) (millis : Z)
          (lat lon alt vel hdg age tlat tlon talt : double),
      let t1 := snd (run (setCurrentData lat lon alt vel hdg age) millis t) in
      let t2 := snd (run (setTargetData tlat tlon talt) millis t) in
      fst (run getLateralError millis t1) = lateralError t
      /\ fst (run getTimeToDrop millis t1) = timeToDrop t
      /\ fst (run getLateralError millis t2) = lateralError t
      /\ fst (run getTimeToDrop millis t2) = timeToDrop t
      /\ calculatePathDistanceToTarget t1
         = sqrt (dsub (pow (calculateDirectDistanceToTarget t1) (of_int 2))
                      (pow (lateralError t) (of_int 2))))
  /\ (let t := Examples.scenario in
      fst (run (@getLateralError Examples.A64) 0 t) = S754_zero false
      /\ @calculateLateralError Examples.A64 Examples.L64 t
         = S754_finite false 7802486354419384 (-49)
      /\ fst (run (@getLateralError Examples.A64) 0 t)
         <> @calculateLateralError Examples.A64 Examples.L64 t).
Proof.
  split.
  - intros. subst t1 t2. repeat split.
  - cbv zeta.
    assert (E1 : fst (run (@getLateralError Examples.A64) 0 Examples.scenario)
                 = S754_zero false) by (vm_compute; reflexivity).
    assert (E2 : @calculateLateralError Examples.A64 Examples.L64 Examples.scenario
                 = S754_finite false 7802486354419384 (-49))
      by (vm_compute; reflexivity).
    rewrite E1, E2. repeat split. discriminate.
Qed.

(** C4. Both entry points return [pathDistance - dropLeadDistance <
    targetRaduis]: [setCurrentData] for the object with the six values
    stored, [recalculate] for the object as it is; [setTargetData] stores
    the three target values and returns nothing.  But no call recomputes
    the diagnostics: [lateralError] and [timeToDrop] are left as they
    were, and the path distance of the decision is taken from that old
    lateral error, not from the lateral error of the state just stored.
    Starting from the object at start-up, with the target of the
    scenario set and the aircraft brought to 4413.6644 N (radius 5 m) or
    to 4413.667 N (radius 0): the field holds 0, the lateral error of
    the stored state is 17.85 m (17.93 m), both entry points return
    [false], and
    the comparison made with the lateral error of the stored state is
    [true]. *)
Theorem release_decision_on_stale_lateral_error :
  (forall (A : Arith) (L : Libm A) (t : Targeter A) (millis : Z)
          (lat lon alt vel hdg age tlat tlon talt : double),
      let t1 := with_current lat lon alt vel hdg age t in
      let t2 := with_target tlat tlon talt t in
      run (setCurrentData lat lon alt vel hdg age) millis t = (decision t1, t1)
      /\ run recalculate millis t = (decision t, t)
      /\ run (setTargetData tlat tlon talt) millis t = (tt, t2)
      /\ (forall u : Targeter A,
            decision u
            = dlt (dsub (sqrt (dsub (pow (calculateDirectDistanceToTarget u) (of_int 2))
                                    (pow (lateralError u) (of_int 2))))
                        (calculateDropDistance u))
                  (targetRaduis u))
      /\ (currentLatitude t1, currentLongitude t1, currentAltitude t1,
          currentVelocity t1, currentHeading t1, currentDataAge t1)
         = (lat, lon, alt, vel, hdg, age)
      /\ (targetLatitude t2, targetLongitude t2, targetAltitude t2)
         = (tlat, tlon, talt)
      /\ lateralError t1 = lateralError t /\ timeToDrop t1 = timeToDrop t
      /\ lateralError t2 = lateralError t /\ timeToDrop t2 = timeToDrop t)
  /\ (let t := Examples.closing_in in
      lateralError t = S754_zero false
      /\ @calculateLateralError Examples.A64 Examples.L64 t
         = S754_finite false 5024328334285210 (-48)
      /\ fst (Examples.approach (Examples.d 5 0) (Examples.d 44136644 (-4))) = false
      /\ fst (run (@recalculate Examples.A64 Examples.L64) 0 t) = false
      /\ @decision_of_state Examples.A64 Examples.L64 t = true)
  /\ (let t := Examples.closing_in_zero in
      lateralError t = S754_zero false
      /\ @calculateLateralError Examples.A64 Examples.L64 t
         = S754_finite false 5046846332422062 (-48)
      /\ fst (Examples.approach (Examples.d 0 0) (Examples.d 4413667 (-3))) = false
      /\ fst (run (@recalculate Examples.A64 Examples.L64) 0 t) = false
      /\ @decision_of_state Examples.A64 Examples.L64 t = true).
Proof.
  split; [|split].
  - intros. subst t1 t2.
    split; [reflexivity|]. split; [reflexivity|]. split; [reflexivity|].
    split; [intros u; reflexivity|]. repeat split.
  - cbv zeta.
    split; [vm_compute; reflexivity|].
    split; [vm_compute; reflexivity|].
    split; [vm_compute; reflexivity|].
    split; vm_compute; reflexivity.
  - cbv zeta.
    split; [vm_compute; reflexivity|].
    split; [vm_compute; reflexivity|].
    split; [vm_compute; reflexivity|].
    split; vm_compute; reflexivity.
Qed.

(** ** Properties of the floating-point arithmetic alone *)

Section FloatArith.
Import IEEE IEEEFacts.
Variable fmt : format.
Local Open Scope double_scope.
Local Notation "# n" := (@of_int (ieee fmt) n) (at level 1, format "# n").

Lemma dec_20 : @dec (ieee fmt) 20 (-1) = #2.
Proof. destruct fmt; vm_compute; reflexivity. Qed.

(** *** Latitude bands *)

Lemma band_bounds_sorted : StronglySorted (bound_lt fmt) band_bounds.
Proof.
  unfold band_bounds, bound_lt.
  repeat (constructor; [| repeat constructor; destruct fmt; vm_compute; reflexivity]).
  constructor.
Qed.

Lemma band_index_spec (bounds : list Z) (lat : spec_float) :
  StronglySorted (bound_lt fmt) bounds ->
  forall j : nat, (j < List.length bounds)%nat ->
    (@dlt (ieee fmt) lat #(nth j bounds 0) = true
     <-> (@band_index (ieee fmt) bounds lat <= j)%nat).
Proof.
  induction 1 as [|b bs Hs IH Hb]; intros j Hj;
    cbn [band_index nth List.length] in *; [lia|].
  destruct (@dlt (ieee fmt) lat #b) eqn:E.
  - split; [lia | intros _].
    destruct j as [|j]; [exact E|].
    apply (SFltb_trans lat #b); [exact E|].
    rewrite Forall_forall in Hb. apply Hb, nth_In. lia.
  - destruct j as [|j].
    + split; [intros H'; congruence | lia].
    + rewrite IH by lia. lia.
Qed.

Lemma band_letter_before_M (k : nat) :
  (k <= 19)%nat ->
  (char_lt (nth k band_letters "X"%char) "M" = true <-> (k <= 8)%nat).
Proof.
  intros Hk.
  do 20 (destruct k as [|k];
         [vm_compute; split; intros; (reflexivity || discriminate || lia)|]).
  lia.
Qed.

(** *** The cast of a floor *)

Lemma Ztrunc_of_Z_small (n : Z) :
  (-200 <= n <= 200)%Z -> Ztrunc (of_Z fmt n) = n.
Proof.
  intros Hn.
  assert (H : forallb (fun k => Ztrunc (of_Z fmt k) =? k)
                (map (fun i => (Z.of_nat i - 200)%Z) (seq 0 401)) = true)
    by (destruct fmt; vm_compute; reflexivity).
  rewrite forallb_forall in H. apply Z.eqb_eq, H.
  apply in_map_iff. exists (Z.to_nat (n + 200)%Z). split; [lia|].
  apply in_seq. lia.
Qed.

Lemma Ztrunc_SFfloor (x : spec_float) :
  (-200 <= Zfloor x <= 200)%Z -> Ztrunc (SFfloor fmt x) = Zfloor x.
Proof.
  intros Hx. destruct x as [s|s| |s m e]; try reflexivity.
  unfold SFfloor. destruct (Zfloor (S754_finite s m e)) eqn:E; try reflexivity;
    apply Ztrunc_of_Z_small; exact Hx.
Qed.

(** *** Packed degrees and minutes *)

Lemma Ztrunc_floor_or_ceil (q : spec_float) :
  Ztrunc q = if SFltb q (S754_zero false) then Zceil q else Zfloor q.
Proof. destruct q as [s|s| |s m e]; try destruct s; reflexivity. Qed.

Lemma Ztrunc_floor (q : spec_float) :
  has_sign false q -> Ztrunc q = Zfloor q.
Proof. destruct q as [s|s| |s m e]; simpl; intros; subst; reflexivity. Qed.

Lemma hundred_positive : has_sign false (@dec (ieee fmt) 1000 (-1)).
Proof. destruct fmt; vm_compute; reflexivity. Qed.

(** C3, as the code has it.  The cast [(int)] rounds toward zero:
    [convertDecimalDegMinToDegree(V)] is [t + (V - 100*t)/60] with
    [t = floor(V/100)] when [V/100] is not negative and
    [t = ceil(V/100)] when it is; the formula with [floor] holds for
    every [V] that is not negative. *)
Theorem degrees_of_packed_minutes (V : @double (ieee fmt)) :
  (let q := V / dec 1000 (-1) in
   let t := if q <? #0 then Zceil q else Zfloor q in
   convertDecimalDegMinToDegree V = #t + (V - #(100 * t)) / dec 600 (-1))
  /\ ((V <? #0) = false ->
      convertDecimalDegMinToDegree V = convertDecimalDegMinToDegree_floor fmt V).
Proof.
  split.
  - cbv zeta. unfold convertDecimalDegMinToDegree.
    cbn [to_int ieee arith]. rewrite Ztrunc_floor_or_ceil. reflexivity.
  - intros H. unfold convertDecimalDegMinToDegree, convertDecimalDegMinToDegree_floor.
    cbn [to_int ieee arith].
    assert (E : Ztrunc (V / dec 1000 (-1)) = Zfloor (V / dec 1000 (-1))).
    { pose proof hundred_positive as Hp.
      destruct V as [s|s| |s m e].
      - destruct (@dec (ieee fmt) 1000 (-1)); reflexivity.
      - destruct (@dec (ieee fmt) 1000 (-1)); reflexivity.
      - reflexivity.
      - destruct s; [discriminate H|].
        apply Ztrunc_floor.
        apply (SFdiv_has_sign (prec fmt) (emax fmt) _ _ false false);
          [reflexivity | exact Hp]. }
    rewrite E. reflexivity.
Qed.

(** *** Drop distance *)

Lemma fall_time_of_zero :
  @sqrt (ieee fmt) (#2 * #0 / dec 9807 (-3)) = S754_zero false.
Proof. destruct fmt; vm_compute; reflexivity. Qed.

Lemma correction_factor_finite : is_finite (@CORRECTION_FACTOR (ieee fmt)) = true.
Proof. destruct fmt; vm_compute; reflexivity. Qed.

(** C6. [calculateDropDistance] returns
    [currentVelocity * sqrt(2 * max(heightDelta, 0) / 9.807) * 0.9];
    when the height delta is negative and the velocity is a number, the
    result is a zero, not a NaN. *)
Theorem drop_distance_formula (t : Targeter (ieee fmt)) :
  calculateDropDistance t
  = currentVelocity t
    * sqrt (#2 * dmax (currentAltitude t - targetAltitude t) #0 / dec 9807 (-3))
    * dec 9 (-1)
  /\ ((currentAltitude t - targetAltitude t <? #0) = true ->
      is_finite (currentVelocity t) = true ->
      is_zero (calculateDropDistance t) = true
      /\ is_nan (calculateDropDistance t) = false).
Proof.
  split; [reflexivity|].
  intros Hh Hv. unfold calculateDropDistance. rewrite Hh, fall_time_of_zero.
  assert (Z : is_zero (currentVelocity t * S754_zero false * CORRECTION_FACTOR) = true).
  { apply (SFmul_zero_l (prec fmt) (emax fmt)); [|apply correction_factor_finite].
    apply (SFmul_zero_r (prec fmt) (emax fmt)); [exact Hv | reflexivity]. }
  split; [exact Z|].
  destruct (currentVelocity t * S754_zero false * CORRECTION_FACTOR);
    try reflexivity; discriminate Z.
Qed.

End FloatArith.

(** ** Properties of the targeting calculations on floats *)

Section FloatLibm.
Import IEEE IEEEFacts.
Variable fmt : format.
Context {L : Libm (ieee fmt)}.
Local Open Scope double_scope.
Local Notation "# n" := (@of_int (ieee fmt) n) (at level 1, format "# n").


(** C5. With a velocity of zero, [calculateTimeToDrop] divides by zero
    without a guard: its result is an infinity or a NaN, whatever the
    rest of the object and the clock are. *)
Theorem time_to_drop_at_zero_velocity (t : Targeter (ieee fmt)) (millis : Z) :
  is_zero (currentVelocity t) = true ->
  is_finite (calculateTimeToDrop millis t) = false.
Proof.
  intros H. unfold calculateTimeToDrop.
  apply (SFdiv_by_zero (prec fmt) (emax fmt)). exact H.
Qed.

(** On every state, whatever the heading and the positions are, the
    result of [calculateLateralError] is not below zero: it is a NaN or
    at least zero, when [pow(x, 2)] has its sign bit clear. *)
Lemma lateral_error_never_below_zero (t : Targeter (ieee fmt)) :
  (forall x : @double (ieee fmt), has_sign false (pow x #2)) ->
  (calculateLateralError t <? #0) = false
  /\ (is_nan (calculateLateralError t) = true
      \/ (#0 <=? calculateLateralError t) = true).
Proof.
  intros Hpow.
  assert (N : not_negative (calculateLateralError t)).
  { unfold calculateLateralError.
    destruct (currentUTM t) as [cE cN], (targetUTM t) as [tE tN].
    cbv zeta. rewrite dec_20.
    apply (SFdiv_not_negative (prec fmt) (emax fmt)).
    - apply abs_not_negative.
    - apply SFsqrt_has_sign, SFadd_has_sign; apply Hpow. }
  split.
  - apply not_negative_ltb, N.
  - destruct (is_nan (calculateLateralError t)) eqn:E; [left; reflexivity|].
    right. apply not_negative_leb; assumption.
Qed.

(** C7. [convertDeg2UTM] takes the zone as [(int) floor(lon / 6 + 31)],
    which is the largest integer not above the double [lon / 6 + 31]
    (shown for zones of at most three digits, where [int] holds them).
    The band letter is the [k]-th of C..X without I and O, where [k]
    counts the multiples of 8 from -72 to 72 that the latitude is not
    below: the latitude is below the [j]-th of them exactly when
    [k <= j], so the bands do not overlap.  The letter precedes 'M'
    exactly when the latitude is below -8, and exactly then 10,000,000
    is added to the northing before it is rounded to the centimetre. *)
Theorem utm_zone_band_and_false_northing (lat lon : @double (ieee fmt)) :
  utmZone lon = to_int (floor (lon / #6 + #31))
  /\ ((-200 <= Zfloor (lon / #6 + #31)%D <= 200)%Z ->
      utmZone lon = Zfloor (lon / #6 + #31))
  /\ band_bounds = map (fun i => (8 * (Z.of_nat i - 9))%Z) (seq 0 19)
  /\ band_letters
     = filter (fun c => negb (Ascii.eqb c "I") && negb (Ascii.eqb c "O"))
              (map ascii_of_nat (seq 67 22))
  /\ (let k := band_index band_bounds lat in
      (k <= 19)%nat
      /\ utmLetter lat = nth k band_letters "X"%char
      /\ forall j : nat, (j < 19)%nat ->
           ((lat <? #(8 * (Z.of_nat j - 9))) = true <-> (k <= j)%nat))
  /\ (char_lt (utmLetter lat) "M" = true <-> (lat <? #(-8)) = true)
  /\ snd (convertDeg2UTM lat lon)
     = #(round ((if char_lt (utmLetter lat) "M"
                 then utmNorthing_raw lat lon + #10000000
                 else utmNorthing_raw lat lon) * #100)) * dec 1 (-2).
Proof.
  assert (Hk : (@band_index (ieee fmt) band_bounds lat <= 19)%nat)
    by apply (@band_index_le (ieee fmt)).
  assert (Hj : forall j : nat, (j < 19)%nat ->
             ((lat <? #(8 * (Z.of_nat j - 9))) = true
              <-> (@band_index (ieee fmt) band_bounds lat <= j)%nat)).
  { intros j Hj.
    rewrite <- (band_index_spec fmt band_bounds lat (band_bounds_sorted fmt) j Hj).
    replace (nth j band_bounds 0%Z) with (8 * (Z.of_nat j - 9))%Z; [reflexivity|].
    do 19 (destruct j as [|j]; [reflexivity|]). lia. }
  split; [reflexivity|]. split; [apply (Ztrunc_SFfloor fmt)|].
  split; [reflexivity|]. split; [reflexivity|].
  split; [|split].
  - cbv zeta. split; [exact Hk|]. split; [apply utmLetter_band | exact Hj].
  - rewrite utmLetter_band, (band_letter_before_M _ Hk).
    symmetry. apply (Hj 8%nat). lia.
  - reflexivity.
Qed.

End FloatLibm.

(** ** The order of drop distances, in exact arithmetic *)

Section ExactOrder.
Import Rdefinitions RIneq R_sqrt Lra.
Local Open Scope R_scope.

Lemma calculateDropDistance_real (t : Targeter Exact.real) :
  @calculateDropDistance Exact.real t
  = dropR (@currentVelocity Exact.real t) (@heightDelta Exact.real t).
Proof. reflexivity. Qed.

Lemma clampR_le (h1 h2 : R) : h1 <= h2 -> clampR h1 <= clampR h2.
Proof.
  unfold clampR, Exact.Rltb. intros H.
  destruct (Rlt_dec h1 0), (Rlt_dec h2 0); lra.
Qed.

Lemma fall_time_nonneg (h : R) : 0 <= sqrt (2 * clampR h / (9807 / 1000)).
Proof. apply sqrt_pos. Qed.

Lemma fall_time_le (h1 h2 : R) :
  h1 <= h2 ->
  sqrt (2 * clampR h1 / (9807 / 1000)) <= sqrt (2 * clampR h2 / (9807 / 1000)).
Proof.
  intros H. apply sqrt_le_1_alt.
  pose proof (clampR_le h1 h2 H). lra.
Qed.

(** The order of drop distances in exact arithmetic: of two objects with
    the same height delta, the one with the larger velocity has a drop
    distance at least as large; of two objects with the same velocity,
    which is not negative, the one with the larger height delta has a
    drop distance at least as large. *)
Lemma exact_drop_order (t1 t2 : Targeter Exact.real) :
  (@heightDelta Exact.real t1 = @heightDelta Exact.real t2 ->
   @currentVelocity Exact.real t1 <= @currentVelocity Exact.real t2 ->
   @calculateDropDistance Exact.real t1 <= @calculateDropDistance Exact.real t2)
  /\ (@currentVelocity Exact.real t1 = @currentVelocity Exact.real t2 ->
      0 <= @currentVelocity Exact.real t1 ->
      @heightDelta Exact.real t1 <= @heightDelta Exact.real t2 ->
      @calculateDropDistance Exact.real t1 <= @calculateDropDistance Exact.real t2).
Proof.
  rewrite !calculateDropDistance_real. unfold dropR. split.
  - intros Hh Hv. rewrite Hh.
    pose proof (fall_time_nonneg (@heightDelta Exact.real t2)).
    apply Rmult_le_compat_r; [lra|].
    apply Rmult_le_compat_r; assumption.
  - intros Hv Hpos Hh. rewrite <- Hv.
    pose proof (fall_time_le _ _ Hh).
    apply Rmult_le_compat_r; [lra|].
    apply Rmult_le_compat_l; assumption.
Qed.

Lemma exact_drop_order_example :
  @calculateDropDistance Exact.real (Examples.exact_object 10 50)
  <= @calculateDropDistance Exact.real (Examples.exact_object 10 100).
Proof.
  apply (proj2 (exact_drop_order (Examples.exact_object 10 50)
                                 (Examples.exact_object 10 100))).
  - reflexivity.
  - cbn. lra.
  - cbn. lra.
Qed.

(** With a negative velocity the order is reversed: at -1 m/s the drop
    distance is 0 at height 0 and -0.9 m at height 4.9035 m. *)
Lemma exact_drop_backing :
  ~ (forall t1 t2 : Targeter Exact.real,
        @currentVelocity Exact.real t1 = @currentVelocity Exact.real t2 ->
        @heightDelta Exact.real t1 <= @heightDelta Exact.real t2 ->
        @calculateDropDistance Exact.real t1 <= @calculateDropDistance Exact.real t2).
Proof.
  intros H.
  specialize (H (Examples.exact_object (-1) 0)
                (Examples.exact_object (-1) (9807 / 2000)) eq_refl).
  rewrite !calculateDropDistance_real in H.
  cbn [heightDelta currentVelocity currentAltitude targetAltitude
       Examples.exact_object dsub Exact.real] in H.
  unfold dropR, clampR, Exact.Rltb in H.
  destruct (Rlt_dec (0 - 0) 0) as [F|_]; [lra|].
  destruct (Rlt_dec (9807 / 2000 - 0) 0) as [F|_]; [lra|].
  replace (2 * (0 - 0) / (9807 / 1000)) with 0 in H by lra.
  replace (2 * (9807 / 2000 - 0) / (9807 / 1000)) with 1 in H by lra.
  rewrite sqrt_0, sqrt_1 in H. lra.
Qed.

End ExactOrder.

(** ** The order of drop distances, on floats *)

Section FloatOrder.
Import IEEE IEEEFacts.
Variable fmt : format.
Local Open Scope double_scope.
Local Notation "# n" := (@of_int (ieee fmt) n) (at level 1, format "# n").

Lemma prec_positive : (0 < prec fmt)%Z.
Proof. destruct fmt; reflexivity. Qed.

Lemma prec_below_emax : (prec fmt < emax fmt)%Z.
Proof. destruct fmt; reflexivity. Qed.

(** The drop distance is the rounded formula, with the constants of the
    code. *)
Lemma calculateDropDistance_rounded (t : Targeter (ieee fmt)) :
  calculateDropDistance t
  = Rounding.drop (prec fmt) (emax fmt)
      #2 (@dec (ieee fmt) 9807 (-3)) (@CORRECTION_FACTOR (ieee fmt))
      (currentVelocity t) (heightDelta t).
Proof. reflexivity. Qed.

(** The constants 2, 9.807 and 0.9 are positive numbers of the format. *)
Lemma drop_constants :
  exists (mt mg mc : positive) (et eg ec : Z),
    #2 = S754_finite false mt et
    /\ @dec (ieee fmt) 9807 (-3) = S754_finite false mg eg
    /\ @CORRECTION_FACTOR (ieee fmt) = S754_finite false mc ec
    /\ bounded (prec fmt) (emax fmt) mt et = true
    /\ bounded (prec fmt) (emax fmt) mc ec = true.
Proof.
  destruct fmt; do 6 eexists;
    (split; [vm_compute; reflexivity|]);
    (split; [vm_compute; reflexivity|]);
    (split; [vm_compute; reflexivity|]);
    split; vm_compute; reflexivity.
Qed.

Lemma is_object_fields (t : Targeter (ieee fmt)) :
  is_object fmt t = true ->
  is_value fmt (currentVelocity t) = true
  /\ is_value fmt (heightDelta t) = true.
Proof.
  unfold is_object, fields. cbn [forallb].
  rewrite !andb_true_iff. intros H. split; [tauto|].
  apply RoundingFacts.SFsub_valid; [apply prec_positive| |];
    unfold is_value in H; tauto.
Qed.

Lemma is_nan_not_nan (x : spec_float) : is_nan x = false -> Rounding.not_nan x.
Proof. intros H E. rewrite E in H. discriminate H. Qed.

Lemma zero_le_nonneg (x : spec_float) :
  SFleb (S754_zero false) x = true -> Rounding.nonneg x.
Proof.
  destruct x as [s|s| |s m e]; try destruct s; simpl; intros H;
    try exact I; try reflexivity; discriminate H.
Qed.

(** C8, as the code has it.  For objects whose fields hold values of the
    format and whose drop distances are not NaN: of two objects with the
    same height delta, the one with the larger velocity has a drop
    distance at least as large; of two objects with the same velocity,
    which is not negative, the one with the larger height delta has a
    drop distance at least as large. *)
Theorem drop_distance_monotone (t1 t2 : Targeter (ieee fmt)) :
  is_object fmt t1 = true -> is_object fmt t2 = true ->
  is_nan (calculateDropDistance t1) = false ->
  is_nan (calculateDropDistance t2) = false ->
  (heightDelta t1 = heightDelta t2 ->
   (currentVelocity t1 <=? currentVelocity t2) = true ->
   (calculateDropDistance t1 <=? calculateDropDistance t2) = true)
  /\ (currentVelocity t1 = currentVelocity t2 ->
      (#0 <=? currentVelocity t1) = true ->
      (heightDelta t1 <=? heightDelta t2) = true ->
      (calculateDropDistance t1 <=? calculateDropDistance t2) = true).
Proof.
  intros O1 O2 N1 N2.
  destruct (is_object_fields t1 O1) as [Vv1 Vh1].
  destruct (is_object_fields t2 O2) as [Vv2 Vh2].
  apply is_nan_not_nan in N1, N2.
  rewrite !calculateDropDistance_rounded in *.
  destruct drop_constants as (mt & mg & mc & et & eg & ec & Ht & Hg & Hc & Bt & Bc).
  split.
  - intros Eh Lv. rewrite Eh in *.
    exact (RoundingFacts.drop_mono_velocity _ _ prec_positive prec_below_emax
             _ _ _ _ _ _ _ _ _ Ht Hg Hc Bt Bc _ _ _ Vv1 Vv2 Vh2 Lv N1 N2).
  - intros Ev Pv Lh. rewrite <- Ev in *.
    apply zero_le_nonneg in Pv.
    exact (RoundingFacts.drop_mono_height _ _ prec_positive prec_below_emax
             _ _ _ _ _ _ _ _ _ Ht Hg Hc Bt Bc _ _ _ Vv1 Vh1 Vh2 Pv Lh N1 N2).
Qed.

End FloatOrder.

(** ** Witnesses and counterexamples on floats *)

Lemma drop_distance_monotone_witness :
  @dle Examples.A64 (calculateDropDistance Examples.gliding_high)
                    (calculateDropDistance Examples.gliding_fast) = true
  /\ @dle Examples.A64 (calculateDropDistance Examples.gliding_low)
                       (calculateDropDistance Examples.gliding_high) = true.
Proof.
  split.
  - refine (proj1 (drop_distance_monotone Binary64
                     Examples.gliding_high Examples.gliding_fast _ _ _ _) _ _);
      vm_compute; reflexivity.
  - refine (proj2 (drop_distance_monotone Binary64
                     Examples.gliding_low Examples.gliding_high _ _ _ _) _ _ _);
      vm_compute; reflexivity.
Defined.

(** C8, as the specification states it, fails when the velocity is
    negative, on objects whose fields are values of the format and whose
    drop distances are not NaN: at -10 m/s the drop distance is -0 at
    height 0 and -40.64 m at height 100 m. *)
Lemma drop_distance_decreases_when_backing :
  ~ (forall t1 t2 : Targeter Examples.A64,
        is_object Binary64 t1 = true -> is_object Binary64 t2 = true ->
        IEEE.is_nan (calculateDropDistance t1) = false ->
        IEEE.is_nan (calculateDropDistance t2) = false ->
        currentVelocity t1 = currentVelocity t2 ->
        @dle Examples.A64 (heightDelta t1) (heightDelta t2) = true ->
        @dle Examples.A64 (calculateDropDistance t1)
                          (calculateDropDistance t2) = true).
Proof.
  intros H.
  specialize (H Examples.backing_low Examples.backing_high).
  vm_compute in H.
  specialize (H eq_refl eq_refl eq_refl eq_refl eq_refl eq_refl).
  discriminate H.
Qed.




Lemma time_to_drop_at_zero_velocity_witness :
  IEEE.is_finite
    (@calculateTimeToDrop Examples.A64 Examples.L64 1000 Examples.at_rest) = false.
Proof.
  apply (time_to_drop_at_zero_velocity Binary64 (L := Examples.L64)
           Examples.at_rest 1000).
  vm_compute. reflexivity.
Defined.

(** The aircraft of the scenario, at 44.2258 N, 76.4917 W, is in zone 18
    and band T. *)
Lemma utm_zone_band_and_false_northing_witness :
  @utmZone Examples.A64
    (@convertDecimalDegMinToDegree Examples.A64 (Examples.d (-7629504) (-3))) = 18
  /\ @utmLetter Examples.A64
       (@convertDecimalDegMinToDegree Examples.A64 (Examples.d 4413546 (-3)))
     = "T"%char.
Proof.
  destruct (utm_zone_band_and_false_northing Binary64 (L := Examples.L64)
              (@convertDecimalDegMinToDegree Examples.A64 (Examples.d 4413546 (-3)))
              (@convertDecimalDegMinToDegree Examples.A64 (Examples.d (-7629504) (-3))))
    as (_ & Hz & _ & _ & (_ & Hl & _) & _).
  split.
  - etransitivity; [apply Hz; vm_compute; split; discriminate|].
    vm_compute. reflexivity.
  - etransitivity; [apply Hl|]. vm_compute. reflexivity.
Defined.

Lemma drop_distance_formula_witness :
  IEEE.is_zero (@calculateDropDistance Examples.A64 Examples.below_target) = true
  /\ IEEE.is_nan (@calculateDropDistance Examples.A64 Examples.below_target) = false.
Proof.
  apply (proj2 (drop_distance_formula Binary64 Examples.below_target));
    vm_compute; reflexivity.
Defined.

Lemma degrees_of_packed_minutes_witness :
  @convertDecimalDegMinToDegree Examples.A64 (Examples.d 4413546 (-3))
  = convertDecimalDegMinToDegree_floor Binary64 (Examples.d 4413546 (-3)).
Proof.
  apply (proj2 (degrees_of_packed_minutes Binary64 (Examples.d 4413546 (-3)))).
  vm_compute. reflexivity.
Defined.

(** C3, as the specification states it, fails for a west longitude: for
    7629.504 W, packed as -7629.504, the code returns -76.4917 degrees
    and the formula with [floor] gives -75.8251. *)
Lemma degrees_of_packed_minutes_floor_fails :
  @convertDecimalDegMinToDegree Examples.A64 (Examples.d (-7629504) (-3))
  = S754_finite true 5382627214639427 (-46)
  /\ convertDecimalDegMinToDegree_floor Binary64 (Examples.d (-7629504) (-3))
     = S754_finite true 5335714718520985 (-46)
  /\ @convertDecimalDegMinToDegree Examples.A64 (Examples.d (-7629504) (-3))
     <> convertDecimalDegMinToDegree_floor Binary64 (Examples.d (-7629504) (-3)).
Proof.
  assert (E1 : @convertDecimalDegMinToDegree Examples.A64 (Examples.d (-7629504) (-3))
               = S754_finite true 5382627214639427 (-46)) by (vm_compute; reflexivity).
  assert (E2 : convertDecimalDegMinToDegree_floor Binary64 (Examples.d (-7629504) (-3))
               = S754_finite true 5335714718520985 (-46)) by (vm_compute; reflexivity).
  rewrite E1, E2. repeat split. discriminate.
Qed.

(** ** Bounds that survive the rounding *)

Module BoundFacts.
Import Rdefinitions RIneq Rfunctions Lra.
Import Rounding RoundingFacts Values ValueFacts Bounds.

Section Format.
Variables prec emax : Z.
Hypothesis Hprec : 24 <= prec.
Hypothesis Hemax : prec + 100 <= emax.

Local Abbreviation rounds := (Rounding.rounds prec emax).
Local Abbreviation finish := (Rounding.finish prec emax).
Local Abbreviation rounded := (Values.rounded prec emax).
Local Abbreviation valid := (valid_binary prec emax).
Local Abbreviation within := (Bounds.within prec emax).
Local Abbreviation pow2 := (Bounds.pow2 prec).
Local Abbreviation emin := (SpecFloat.emin prec emax).

Let Hp : 0 < prec.
Proof. lia. Qed.

Let He : prec < emax.
Proof. lia. Qed.

(** *** Powers of two *)

Lemma pow2_mantissa : Z.pos (Z.to_pos (2 ^ (prec - 1))) = 2 ^ (prec - 1).
Proof. apply Z2Pos.id, Z.pow_pos_nonneg; lia. Qed.

Lemma pow2_valid (k : Z) : -100 <= k <= 100 -> valid (pow2 k) = true.
Proof.
  intros Hk. unfold Bounds.pow2. cbn [valid_binary].
  unfold bounded, canonical_mantissa.
  apply andb_true_iff. split.
  - apply Z.eqb_eq.
    change (Z.pos (digits2_pos (Z.to_pos (2 ^ (prec - 1)))))
      with (Zdigits2 (Z.pos (Z.to_pos (2 ^ (prec - 1))))).
    rewrite pow2_mantissa, Zdigits2_pow2 by lia.
    unfold SpecFloat.fexp, SpecFloat.emin. lia.
  - apply Z.leb_le. lia.
Qed.

Lemma B2R_pow2 (k : Z) : B2R (pow2 k) = bpow k.
Proof.
  unfold Bounds.pow2. cbn [B2R]. unfold F2R.
  rewrite pow2_mantissa, <- bpow_IZR, <- bpow_add by lia.
  f_equal. lia.
Qed.

Lemma B2R_opp_pow2 (k : Z) : B2R (SFopp (pow2 k)) = (- bpow k)%R.
Proof. rewrite B2R_SFopp, B2R_pow2. reflexivity. Qed.

Lemma rounded_pow2 (k : Z) : -100 <= k <= 100 -> rounded (bpow k) (pow2 k).
Proof.
  intros Hk. rewrite <- B2R_pow2.
  apply (rounded_exact prec emax Hp); [apply pow2_valid, Hk | reflexivity].
Qed.

Lemma rounded_opp_pow2 (k : Z) :
  -100 <= k <= 100 -> rounded (- bpow k) (SFopp (pow2 k)).
Proof.
  intros Hk. rewrite <- B2R_opp_pow2.
  apply (rounded_exact prec emax Hp); [|reflexivity].
  rewrite valid_SFopp. apply pow2_valid, Hk.
Qed.

(** *** A rounded real keeps its bounds by powers of two *)

Lemma rounded_within (r : R) (z : spec_float) (k : Z) :
  rounded r z -> (- bpow k <= r <= bpow k)%R -> -100 <= k <= 100 ->
  within k z.
Proof.
  intros Rd [Lo Hi] Hk.
  pose proof (rounded_mono prec emax Hp _ _ _ _ Hi Rd (rounded_pow2 k Hk)) as U.
  pose proof (rounded_mono prec emax Hp _ _ _ _ Lo (rounded_opp_pow2 k Hk) Rd) as D.
  pose proof (rounded_valid prec emax Hp _ _ Rd) as V.
  assert (F : IEEE.is_finite z = true)
    by (apply (SFleb_finite_between (SFopp (pow2 k)) (pow2 k)); trivial).
  split; [exact V|]. split; [exact F|]. split.
  - rewrite <- B2R_opp_pow2.
    apply (SFleb_B2R_le prec emax Hp He); trivial.
    rewrite valid_SFopp. apply pow2_valid, Hk.
  - rewrite <- B2R_pow2.
    apply (SFleb_B2R_le prec emax Hp He); trivial. apply pow2_valid, Hk.
Qed.

Lemma rounded_above (r : R) (z : spec_float) (j : Z) :
  rounded r z -> IEEE.is_finite z = true ->
  (bpow j <= r)%R -> -100 <= j <= 100 -> (bpow j <= B2R z)%R.
Proof.
  intros Rd F Lo Hj.
  pose proof (rounded_mono prec emax Hp _ _ _ _ Lo (rounded_pow2 j Hj) Rd) as D.
  rewrite <- B2R_pow2.
  apply (SFleb_B2R_le prec emax Hp He); trivial.
  - apply pow2_valid, Hj.
  - apply (rounded_valid prec emax Hp _ _ Rd).
Qed.

Lemma rounded_below (r : R) (z : spec_float) (j : Z) :
  rounded r z -> IEEE.is_finite z = true ->
  (r <= - bpow j)%R -> -100 <= j <= 100 -> (B2R z <= - bpow j)%R.
Proof.
  intros Rd F Hi Hj.
  pose proof (rounded_mono prec emax Hp _ _ _ _ Hi Rd (rounded_opp_pow2 j Hj)) as D.
  rewrite <- B2R_opp_pow2.
  apply (SFleb_B2R_le prec emax Hp He); trivial.
  - apply (rounded_valid prec emax Hp _ _ Rd).
  - rewrite valid_SFopp. apply pow2_valid, Hj.
Qed.

Lemma rounded_nonneg (r : R) (z : spec_float) :
  rounded r z -> IEEE.is_finite z = true -> (0 <= r)%R -> (0 <= B2R z)%R.
Proof.
  intros Rd F Lo.
  assert (Z0 : rounded 0 (S754_zero false))
    by (left; split; [reflexivity | exists false; reflexivity]).
  pose proof (rounded_mono prec emax Hp _ _ _ _ Lo Z0 Rd) as D.
  change 0%R with (B2R (S754_zero false)).
  apply (SFleb_B2R_le prec emax Hp He); trivial.
  apply (rounded_valid prec emax Hp _ _ Rd).
Qed.

Lemma within_le (j k : Z) (x : spec_float) : j <= k -> within j x -> within k x.
Proof.
  intros Le (V & F & Lo & Hi). pose proof (bpow_le j k Le).
  repeat split; trivial; lra.
Qed.

(** *** Sums, differences and products *)

Lemma within_add (k : Z) (x y : spec_float) :
  within k x -> within k y -> -100 <= k < 100 ->
  within (k + 1) (SFadd prec emax x y).
Proof.
  intros (Vx & Fx & Lx & Ux) (Vy & Fy & Ly & Uy) Hk.
  apply (rounded_within (B2R x + B2R y)); [|rewrite bpow_succ; lra | lia].
  apply (SFadd_rounded prec emax Hp); assumption.
Qed.

Lemma within_sub (k : Z) (x y : spec_float) :
  within k x -> within k y -> -100 <= k < 100 ->
  within (k + 1) (SFsub prec emax x y).
Proof.
  intros (Vx & Fx & Lx & Ux) (Vy & Fy & Ly & Uy) Hk.
  apply (rounded_within (B2R x - B2R y)); [|rewrite bpow_succ; lra | lia].
  apply (SFsub_rounded prec emax Hp); assumption.
Qed.

Lemma within_mul (a b : Z) (x y : spec_float) :
  within a x -> within b y -> -100 <= a + b <= 100 ->
  within (a + b) (SFmul prec emax x y).
Proof.
  intros (Vx & Fx & Lx & Ux) (Vy & Fy & Ly & Uy) Hk.
  apply (rounded_within (B2R x * B2R y)); [| |lia].
  - apply (SFmul_rounded prec emax Hp He); assumption.
  - rewrite bpow_add. pose proof (bpow_pos a). pose proof (bpow_pos b).
    split; nra.
Qed.

Lemma within_opp (k : Z) (x : spec_float) : within k x -> within k (SFopp x).
Proof.
  intros (V & F & Lo & Hi). unfold Bounds.within.
  rewrite valid_SFopp, B2R_SFopp.
  repeat split; trivial; [destruct x; trivial | lra | lra].
Qed.

(** *** Reals that the format holds *)

Lemma locates_integer (k q : Z) : locates k (IZR q) -> k / 4 = q /\ k mod 4 = 0.
Proof.
  intros H. pose proof (locates_bounds k _ H) as [Lo Hi].
  assert (E : k / 4 = q).
  { apply le_IZR in Lo. rewrite <- (plus_IZR _ 1) in Hi. apply lt_IZR in Hi. lia. }
  split; [exact E|].
  unfold locates in H. rewrite E in H.
  destruct (code_cases k) as [C|[C|[C|C]]]; rewrite C in H; cbv zeta in H;
    [exact C | lra ..].
Qed.

Lemma rounds_grid (r : R) (Q T n e : Z) (s : bool) :
  rounds r Q T -> (0 < r)%R -> r = (IZR n * bpow e)%R -> n < 2 ^ prec ->
  emin <= e <= emax - prec ->
  finish s Q T = S754_finite s (Z.to_pos Q) T /\ F2R (Z.to_pos Q) T = r.
Proof.
  intros (HT & U & Lo & k & Lk & ->) Pr Er Hn Hr.
  pose proof (bpow_pos e) as Pe. pose proof (bpow_pos T) as PT.
  assert (Pn : 0 < n).
  { apply lt_IZR. rewrite Er in Pr. nra. }
  assert (Un : (IZR n < bpow prec)%R).
  { rewrite bpow_IZR by lia. apply IZR_lt, Hn. }
  assert (LT : T <= e).
  { destruct (Z.eq_dec T emin) as [->|NE]; [lia|].
    specialize (Lo ltac:(lia)).
    assert (B : (bpow (T + prec - 1) < bpow (prec + e))%R).
    { rewrite (bpow_add prec e). nra. }
    apply bpow_lt_inv in B. lia. }
  set (q := n * 2 ^ (e - T)).
  assert (Eq : (r / bpow T = IZR q)%R).
  { unfold q. rewrite mult_IZR, <- bpow_IZR by lia.
    replace (bpow e) with (bpow (e - T) * bpow T)%R in Er
      by (rewrite <- bpow_add; f_equal; lia).
    rewrite Er. field. lra. }
  rewrite Eq in Lk. destruct (locates_integer k q Lk) as [E1 E2].
  assert (EQ : round_code k = q).
  { unfold round_code. rewrite E1, E2. reflexivity. }
  rewrite EQ.
  assert (Pq : 0 < q).
  { unfold q. apply Z.mul_pos_pos; [exact Pn | apply Z.pow_pos_nonneg; lia]. }
  assert (Uq : q < 2 ^ prec).
  { apply lt_IZR. rewrite <- bpow_IZR by lia.
    rewrite (bpow_add T prec) in U.
    assert (Er' : r = (IZR q * bpow T)%R) by (rewrite <- Eq; field; lra).
    rewrite Er' in U. nra. }
  split.
  - unfold Rounding.finish.
    destruct (Z.eqb_spec q 0) as [F|_]; [lia|].
    destruct (Z.eqb_spec q (2 ^ prec)) as [F|_]; [lia|].
    destruct (Z.leb_spec T (emax - prec)) as [_|F]; [reflexivity | lia].
  - unfold F2R. rewrite Z2Pos.id by exact Pq. rewrite <- Eq. field. lra.
Qed.

Lemma rounded_grid (r : R) (z : spec_float) (n e : Z) :
  rounded r z -> r = (IZR n * bpow e)%R -> - 2 ^ prec < n < 2 ^ prec ->
  emin <= e <= emax - prec ->
  IEEE.is_finite z = true /\ B2R z = r.
Proof.
  intros [[E [s ->]]|[[P (Q & T & Rd & ->)]|[N (Q & T & Rd & ->)]]] Er Hn Hr.
  - split; [reflexivity | cbn [B2R]; lra].
  - destruct (rounds_grid r Q T n e false Rd P Er ltac:(lia) Hr) as [-> E].
    split; [reflexivity | exact E].
  - assert (Er' : (- r = IZR (- n) * bpow e)%R) by (rewrite opp_IZR, Er; ring).
    destruct (rounds_grid (- r) Q T (- n) e true Rd ltac:(lra) Er' ltac:(lia) Hr)
      as [-> E].
    split; [reflexivity | cbn [B2R]; lra].
Qed.

Lemma emin_grid : emin <= 0 /\ emin <= 3 /\ 3 <= emax - prec.
Proof. unfold SpecFloat.emin. lia. Qed.

(** An integer of less than [prec] bits, times [2^e]. *)
Lemma binary_normalize_exact (n e : Z) :
  - 2 ^ prec < n < 2 ^ prec -> 0 <= e <= 100 ->
  let z := binary_normalize prec emax n e false in
  valid z = true /\ IEEE.is_finite z = true /\ B2R z = (IZR n * bpow e)%R.
Proof.
  intros Hn Hr z.
  pose proof (binary_normalize_rounded prec emax Hp n e false) as Rd.
  destruct (rounded_grid _ _ n e Rd eq_refl Hn) as [F E].
  - unfold SpecFloat.emin. lia.
  - split; [apply (rounded_valid prec emax Hp _ _ Rd)|]. split; assumption.
Qed.

Lemma pow_prec_24 : 2 ^ 24 <= 2 ^ prec.
Proof. apply Z.pow_le_mono_r; lia. Qed.

Lemma of_Z_exact (n : Z) :
  - 2 ^ 24 < n < 2 ^ 24 ->
  let z := binary_normalize prec emax n 0 false in
  valid z = true /\ IEEE.is_finite z = true /\ B2R z = IZR n.
Proof.
  intros Hn z. pose proof pow_prec_24.
  destruct (binary_normalize_exact n 0 ltac:(lia) ltac:(lia)) as (V & F & E).
  rewrite bpow_0, Rmult_1_r in E. repeat split; assumption.
Qed.

Lemma of_Z_pow2 (k : Z) :
  0 <= k <= 100 ->
  let z := binary_normalize prec emax (2 ^ k) 0 false in
  valid z = true /\ IEEE.is_finite z = true /\ B2R z = bpow k.
Proof.
  intros Hk z.
  pose proof (binary_normalize_rounded prec emax Hp (2 ^ k) 0 false) as Rd.
  assert (E : (IZR (2 ^ k) * bpow 0 = IZR 1 * bpow k)%R).
  { rewrite bpow_0, <- bpow_IZR by lia. ring. }
  pose proof pow_prec_24.
  destruct (rounded_grid _ _ 1 k Rd E ltac:(lia)) as [F B].
  - unfold SpecFloat.emin. lia.
  - split; [apply (rounded_valid prec emax Hp _ _ Rd)|]. split; [exact F|].
    fold z in B. rewrite B, bpow_0, <- bpow_IZR by lia. ring.
Qed.

(** Any rounded integer is within the power of two that bounds it. *)
Lemma of_Z_within (n k : Z) :
  - 2 ^ k <= n <= 2 ^ k -> 0 <= k <= 100 ->
  within k (binary_normalize prec emax n 0 false).
Proof.
  intros Hn Hk.
  apply (rounded_within (IZR n * bpow 0)); [| |lia].
  - apply (binary_normalize_rounded prec emax Hp).
  - rewrite bpow_0, Rmult_1_r, bpow_IZR, <- opp_IZR by lia.
    split; apply IZR_le; lia.
Qed.

(** *** A sum that moves away

    Adding at least 512 (and at most 4096) to a number of at most [2^25]
    in magnitude moves it by at least 8, whatever the rounding: a multiple of 8 lies in
    between, and the format holds it. *)

Lemma Zfloor_within (x : spec_float) :
  within 25 x -> - 2 ^ 25 <= IEEE.Zfloor x <= 2 ^ 25.
Proof.
  intros (_ & _ & Lo & Hi). pose proof (Zfloor_spec x) as [L U].
  rewrite bpow_IZR in Lo, Hi by lia.
  split.
  - rewrite <- opp_IZR, <- (plus_IZR _ 1) in *.
    assert (B : (IZR (- 2 ^ 25) < IZR (IEEE.Zfloor x + 1))%R) by lra.
    apply lt_IZR in B. lia.
  - apply le_IZR. lra.
Qed.

Lemma multiple_of_8 (n : Z) :
  - 2 ^ 23 < n < 2 ^ 23 ->
  exists G : spec_float,
    valid G = true /\ IEEE.is_finite G = true /\ B2R G = IZR (8 * n).
Proof.
  intros Hn. pose proof pow_prec_24.
  destruct (binary_normalize_exact n 3 ltac:(lia) ltac:(lia)) as (V & F & E).
  eexists. split; [exact V|]. split; [exact F|].
  rewrite E, (bpow_IZR 3), mult_IZR by lia. change (2 ^ 3) with 8. ring.
Qed.

Lemma sum_moves_up (x c : spec_float) :
  within 25 x -> within 12 c -> (bpow 9 <= B2R c)%R ->
  (B2R x + 8 <= B2R (SFadd prec emax x c))%R.
Proof.
  intros Wx Wc Lc.
  pose proof (Zfloor_within x Wx) as HN. pose proof (Zfloor_spec x) as [L U].
  set (N := IEEE.Zfloor x) in *.
  pose proof (Z.div_mod N 8 ltac:(lia)) as D.
  pose proof (Z.mod_pos_bound N 8 ltac:(lia)) as B.
  change (2 ^ 25) with 33554432 in HN.
  destruct (multiple_of_8 (N / 8 + 2)) as (G & VG & FG & EG).
  { change (2 ^ 23) with 8388608. lia. }
  assert (G1 : (IZR N + 9 <= B2R G)%R).
  { rewrite EG, <- (plus_IZR _ 9). apply IZR_le. lia. }
  assert (G2 : (B2R G <= IZR N + 16)%R).
  { rewrite EG, <- (plus_IZR _ 16). apply IZR_le. lia. }
  rewrite (bpow_IZR 9) in Lc by lia. change (2 ^ 9) with 512 in Lc.
  pose proof (within_add 25 x c Wx (within_le 12 25 c ltac:(lia) Wc) ltac:(lia))
    as (Vs & Fs & _).
  destruct Wx as (Vx & Fx & _). destruct Wc as (Vc & Fc & _).
  assert (Le : SFleb G (SFadd prec emax x c) = true).
  { apply (rounded_mono prec emax Hp (B2R G) (B2R x + B2R c)); [lra| |].
    - apply (rounded_exact prec emax Hp); assumption.
    - apply (SFadd_rounded prec emax Hp); assumption. }
  pose proof (SFleb_B2R_le prec emax Hp He _ _ VG Vs FG Fs Le). lra.
Qed.

Lemma sum_moves_down (x c : spec_float) :
  within 25 x -> within 12 c -> (B2R c <= - bpow 9)%R ->
  (B2R (SFadd prec emax x c) <= B2R x - 8)%R.
Proof.
  intros Wx Wc Lc.
  pose proof (Zfloor_within x Wx) as HN. pose proof (Zfloor_spec x) as [L U].
  set (N := IEEE.Zfloor x) in *.
  pose proof (Z.div_mod N 8 ltac:(lia)) as D.
  pose proof (Z.mod_pos_bound N 8 ltac:(lia)) as B.
  change (2 ^ 25) with 33554432 in HN.
  destruct (multiple_of_8 (N / 8 - 2)) as (G & VG & FG & EG).
  { change (2 ^ 23) with 8388608. lia. }
  assert (G1 : (IZR N - 23 <= B2R G)%R).
  { rewrite EG, <- (minus_IZR _ 23). apply IZR_le. lia. }
  assert (G2 : (B2R G <= IZR N - 16)%R).
  { rewrite EG, <- (minus_IZR _ 16). apply IZR_le. lia. }
  rewrite (bpow_IZR 9) in Lc by lia. change (2 ^ 9) with 512 in Lc.
  pose proof (within_add 25 x c Wx (within_le 12 25 c ltac:(lia) Wc) ltac:(lia))
    as (Vs & Fs & _).
  destruct Wx as (Vx & Fx & _). destruct Wc as (Vc & Fc & _).
  assert (Le : SFleb (SFadd prec emax x c) G = true).
  { apply (rounded_mono prec emax Hp (B2R x + B2R c) (B2R G)); [lra| |].
    - apply (SFadd_rounded prec emax Hp); assumption.
    - apply (rounded_exact prec emax Hp); assumption. }
  pose proof (SFleb_B2R_le prec emax Hp He _ _ Vs VG Fs FG Le). lra.
Qed.

(** *** A quotient by a number that is at least 1 *)

Lemma within_div (k : Z) (n d : spec_float) :
  within k n -> valid d = true -> IEEE.is_finite d = true ->
  (1 <= B2R d)%R -> -100 <= k <= 100 ->
  within k (SFdiv prec emax n d)
  /\ ((0 <= B2R n)%R -> (0 <= B2R (SFdiv prec emax n d))%R).
Proof.
  intros (Vn & Fn & Ln & Un) Vd Fd Ld Hk.
  pose proof (bpow_pos k) as Pk.
  assert (I : (0 < / B2R d <= 1)%R).
  { split; [apply Rinv_0_lt_compat; lra|].
    rewrite <- Rinv_1. apply Rinv_le_contravar; lra. }
  assert (Rd : rounded (B2R n / B2R d) (SFdiv prec emax n d)).
  { destruct d as [s|s| |s m e]; try discriminate Fd.
    - cbn [B2R] in Ld. lra.
    - apply (SFdiv_rounded prec emax Hp He n _ s m e); trivial. }
  assert (W : within k (SFdiv prec emax n d)).
  { apply (rounded_within _ _ k Rd); [|exact Hk]. unfold Rdiv. split; nra. }
  split; [exact W|].
  intros Pn. apply (rounded_nonneg _ _ Rd); [apply W|].
  unfold Rdiv. nra.
Qed.

End Format.
End BoundFacts.

(** ** The lateral error is a number that is not negative *)

Section LateralError.
Import Rdefinitions Lra.
Import Rounding RoundingFacts Values ValueFacts Bounds BoundFacts.
Variable fmt : format.
Local Open Scope double_scope.
Local Notation "# n" := (@of_int (ieee fmt) n) (at level 1, format "# n").
Local Abbreviation within := (Bounds.within (prec fmt) (emax fmt)).
Local Abbreviation valid := (valid_binary (prec fmt) (emax fmt)).

Lemma prec_24 : 24 <= prec fmt.
Proof. destruct fmt; discriminate. Qed.

Lemma emax_100 : prec fmt + 100 <= emax fmt.
Proof. destruct fmt; discriminate. Qed.

Let prec_0 : 0 < prec fmt := prec_positive fmt.

Let prec_emax : prec fmt < emax fmt := prec_below_emax fmt.

(** *** The constants *)

Lemma small_integer (n : Z) :
  - 2 ^ 24 < n < 2 ^ 24 ->
  valid #n = true /\ IEEE.is_finite #n = true /\ B2R #n = IZR n.
Proof. apply (of_Z_exact (prec fmt) (emax fmt) prec_24 emax_100). Qed.

Lemma power_of_two (k : Z) :
  0 <= k <= 100 ->
  valid #(2 ^ k) = true /\ IEEE.is_finite #(2 ^ k) = true /\ B2R #(2 ^ k) = bpow k.
Proof. apply (of_Z_pow2 (prec fmt) (emax fmt) prec_24 emax_100). Qed.

Lemma half_pow2 : @dec (ieee fmt) 5 (-1) = Bounds.pow2 (prec fmt) (-1).
Proof. destruct fmt; vm_compute; reflexivity. Qed.

Lemma hundredth_within : within (-6) (@dec (ieee fmt) 1 (-2)).
Proof.
  assert (V : valid (@dec (ieee fmt) 1 (-2)) = true)
    by (destruct fmt; vm_compute; reflexivity).
  assert (F : IEEE.is_finite (@dec (ieee fmt) 1 (-2)) = true)
    by (destruct fmt; vm_compute; reflexivity).
  assert (U : SFleb (@dec (ieee fmt) 1 (-2)) (Bounds.pow2 (prec fmt) (-6)) = true)
    by (destruct fmt; vm_compute; reflexivity).
  assert (D : SFleb (SFopp (Bounds.pow2 (prec fmt) (-6))) (@dec (ieee fmt) 1 (-2)) = true)
    by (destruct fmt; vm_compute; reflexivity).
  pose proof (pow2_valid (prec fmt) (emax fmt) prec_24 emax_100 (-6) ltac:(lia)) as VP.
  split; [exact V|]. split; [exact F|]. split.
  - rewrite <- (B2R_opp_pow2 (prec fmt) prec_24).
    apply (SFleb_B2R_le _ _ prec_0 prec_emax); trivial;
      rewrite valid_SFopp; exact VP.
  - rewrite <- (B2R_pow2 (prec fmt) prec_24).
    apply (SFleb_B2R_le _ _ prec_0 prec_emax); trivial.
Qed.

(** *** Positions, directions and the far point *)

Lemma coordinate_within (n : Z) :
  fits_long n -> within 25 (#n * @dec (ieee fmt) 1 (-2)).
Proof.
  intros [Lo Hi].
  apply (within_mul (prec fmt) (emax fmt) prec_24 emax_100 31 (-6));
    [|apply hundredth_within | lia].
  apply (of_Z_within (prec fmt) (emax fmt) prec_24 emax_100); lia.
Qed.

Lemma between_within (c : @double (ieee fmt)) : between fmt #(-2) #2 c -> within 1 c.
Proof.
  intros (V & Lo & Hi).
  destruct (small_integer 2 ltac:(lia)) as (V1 & F1 & E1).
  destruct (small_integer (-2) ltac:(lia)) as (V2 & F2 & E2).
  assert (F : IEEE.is_finite c = true)
    by (apply (SFleb_finite_between #(-2) #2); assumption).
  pose proof (SFleb_B2R_le _ _ prec_0 prec_emax _ _ V2 V F2 F Lo) as B1.
  pose proof (SFleb_B2R_le _ _ prec_0 prec_emax _ _ V V1 F F1 Hi) as B2.
  rewrite E2 in B1. rewrite E1 in B2. unfold Bounds.within. rewrite bpow_1.
  split; [exact V|]. split; [exact F|]. split; lra.
Qed.

Lemma half_facts :
  let h := @dec (ieee fmt) 5 (-1) in
  valid h = true /\ IEEE.is_finite h = true /\ B2R h = bpow (-1)
  /\ valid (- h) = true /\ IEEE.is_finite (- h) = true /\ B2R (- h) = (- bpow (-1))%R.
Proof.
  cbv zeta. rewrite half_pow2.
  pose proof (pow2_valid (prec fmt) (emax fmt) prec_24 emax_100 (-1) ltac:(lia)) as V.
  split; [exact V|]. split; [reflexivity|].
  split; [apply (B2R_pow2 (prec fmt) prec_24)|].
  split; [exact V|]. split; [reflexivity|].
  apply (B2R_opp_pow2 (prec fmt) prec_24).
Qed.

Lemma direction_cases (c s : @double (ieee fmt)) :
  direction fmt c s ->
  within 1 c /\ within 1 s
  /\ ((B2R c <= - bpow (-1))%R \/ (bpow (-1) <= B2R c)%R
      \/ (B2R s <= - bpow (-1))%R \/ (bpow (-1) <= B2R s)%R).
Proof.
  intros (Bc & Bs & M).
  pose proof (between_within c Bc) as Wc. pose proof (between_within s Bs) as Ws.
  split; [exact Wc|]. split; [exact Ws|].
  destruct half_facts as (V & F & E & V' & F' & E').
  destruct Wc as (Vc & Fc & _), Ws as (Vs & Fs & _).
  apply orb_true_iff in M. destruct M as [M|M].
  - apply orb_true_iff in M. destruct M as [M|M].
    + apply orb_true_iff in M. destruct M as [M|M].
      * left. rewrite <- E'. apply (SFleb_B2R_le _ _ prec_0 prec_emax); assumption.
      * right; left. rewrite <- E. apply (SFleb_B2R_le _ _ prec_0 prec_emax); assumption.
    + right; right; left. rewrite <- E'.
      apply (SFleb_B2R_le _ _ prec_0 prec_emax); assumption.
  - right; right; right. rewrite <- E.
    apply (SFleb_B2R_le _ _ prec_0 prec_emax); assumption.
Qed.

Lemma bpow_m1 : bpow (-1) = (/ 2)%R.
Proof. rewrite <- bpow_1. apply (bpow_opp 1). Qed.

Lemma bpow_9 : bpow 9 = 512%R.
Proof. rewrite bpow_IZR by lia. reflexivity. Qed.

Lemma offset_bounds (c : @double (ieee fmt)) :
  within 1 c ->
  within 12 (c * #2000)
  /\ ((bpow (-1) <= B2R c)%R -> (bpow 9 <= B2R (c * #2000)%D)%R)
  /\ ((B2R c <= - bpow (-1))%R -> (B2R (c * #2000)%D <= - bpow 9)%R).
Proof.
  intros Wc.
  destruct (small_integer 2000 ltac:(lia)) as (V & F & E).
  assert (Wk : within 11 #2000)
    by (apply (of_Z_within (prec fmt) (emax fmt) prec_24 emax_100); lia).
  pose proof (within_mul (prec fmt) (emax fmt) prec_24 emax_100 1 11 _ _ Wc Wk
                ltac:(lia)) as W.
  destruct Wc as (Vc & Fc & Lc & Uc).
  pose proof (SFmul_rounded _ _ prec_0 prec_emax c #2000 Vc V Fc F) as Rd.
  rewrite E in Rd. rewrite bpow_m1, bpow_9.
  split; [exact W|]. split; intros H.
  - rewrite <- bpow_9.
    apply (rounded_above (prec fmt) (emax fmt) prec_24 emax_100 _ _ 9 Rd);
      [apply W | rewrite bpow_9; lra | lia].
  - rewrite <- bpow_9.
    apply (rounded_below (prec fmt) (emax fmt) prec_24 emax_100 _ _ 9 Rd);
      [apply W | rewrite bpow_9; lra | lia].
Qed.

(** The far point [x1] and the leg [x2 - x1] of one coordinate. *)
Lemma leg_bounds (x c : @double (ieee fmt)) :
  within 25 x -> within 1 c ->
  within 26 (x + c * #2000)
  /\ within 27 (x - (x + c * #2000))
  /\ ((bpow (-1) <= B2R c)%R -> (B2R (x - (x + c * #2000))%D <= - bpow 0)%R)
  /\ ((B2R c <= - bpow (-1))%R -> (bpow 0 <= B2R (x - (x + c * #2000))%D)%R).
Proof.
  intros Wx Wc.
  destruct (offset_bounds c Wc) as (Wo & Up & Dn).
  pose proof (within_add (prec fmt) (emax fmt) prec_24 emax_100 25 _ _ Wx
                (within_le (prec fmt) (emax fmt) 12 25 _ ltac:(lia) Wo) ltac:(lia))
    as W1.
  pose proof (within_sub (prec fmt) (emax fmt) prec_24 emax_100 26 _ _
                (within_le (prec fmt) (emax fmt) 25 26 _ ltac:(lia) Wx) W1 ltac:(lia))
    as Wd.
  split; [exact W1|]. split; [exact Wd|].
  assert (Rd : rounded (prec fmt) (emax fmt)
                 (B2R x - B2R (x + c * #2000)%D) (x - (x + c * #2000))).
  { apply (SFsub_rounded (prec fmt) (emax fmt) prec_0); [apply Wx | apply W1 | apply Wx | apply W1]. }
  cbn [dadd dsub dmul ieee IEEE.arith] in *.
  split; intros H.
  - pose proof (sum_moves_up (prec fmt) (emax fmt) prec_24 emax_100 x _ Wx Wo (Up H)).
    apply (rounded_below (prec fmt) (emax fmt) prec_24 emax_100 _ _ 0 Rd);
      [apply Wd | rewrite bpow_0; lra | lia].
  - pose proof (sum_moves_down (prec fmt) (emax fmt) prec_24 emax_100 x _ Wx Wo (Dn H)).
    apply (rounded_above (prec fmt) (emax fmt) prec_24 emax_100 _ _ 0 Rd);
      [apply Wd | rewrite bpow_0; lra | lia].
Qed.

(** *** The absolute value and the square root *)

Lemma zero_float : #0 = S754_zero false.
Proof. reflexivity. Qed.

Lemma is_finite_SFopp (x : spec_float) : IEEE.is_finite (SFopp x) = IEEE.is_finite x.
Proof. destruct x; reflexivity. Qed.

Lemma abs_bounds (k : Z) (x : @double (ieee fmt)) :
  within k x -> within k (abs x) /\ (0 <= B2R (abs x))%R.
Proof.
  intros W. unfold abs. cbn [dlt dneg ieee IEEE.arith].
  destruct (SFltb #0 x) eqn:E.
  - split; [exact W|]. destruct W as (V & F & _).
    change 0%R with (B2R #0).
    apply (SFleb_B2R_le _ _ prec_0 prec_emax); trivial.
    apply SFltb_SFleb, E.
  - split; [apply (within_opp (prec fmt) (emax fmt)), W|].
    rewrite B2R_SFopp. destruct W as (V & F & _).
    destruct x as [s|s| |s m e]; try discriminate F; cbn [B2R]; [lra|].
    pose proof (F2R_pos m e). destruct s; [lra | discriminate E].
Qed.

Lemma root_bounds (x : @double (ieee fmt)) :
  within 56 x -> (bpow 0 <= B2R x)%R ->
  valid (sqrt x) = true /\ IEEE.is_finite (sqrt x) = true
  /\ (1 <= B2R (sqrt x))%R.
Proof.
  intros (V & F & Lo & Hi) L1.
  pose proof (pow2_valid (prec fmt) (emax fmt) prec_24 emax_100 0 ltac:(lia)) as V0.
  pose proof (pow2_valid (prec fmt) (emax fmt) prec_24 emax_100 28 ltac:(lia)) as V28.
  pose proof (pow2_valid (prec fmt) (emax fmt) prec_24 emax_100 56 ltac:(lia)) as V56.
  assert (N : Rounding.nonneg x).
  { rewrite bpow_0 in L1.
    destruct x as [s|s| |s m e]; try discriminate F; cbn [B2R] in L1; [lra|].
    pose proof (F2R_pos m e). destruct s; [lra | reflexivity]. }
  assert (S0 : SFsqrt (prec fmt) (emax fmt) (Bounds.pow2 (prec fmt) 0)
               = Bounds.pow2 (prec fmt) 0)
    by (destruct fmt; vm_compute; reflexivity).
  assert (S56 : SFsqrt (prec fmt) (emax fmt) (Bounds.pow2 (prec fmt) 56)
                = Bounds.pow2 (prec fmt) 28)
    by (destruct fmt; vm_compute; reflexivity).
  assert (D : SFleb (Bounds.pow2 (prec fmt) 0) (sqrt x) = true).
  { rewrite <- S0. apply (SFsqrt_mono _ _ prec_0 prec_emax); trivial; [reflexivity|].
    apply (B2R_le_SFleb (prec fmt) (emax fmt) prec_0); trivial.
    rewrite (B2R_pow2 (prec fmt) prec_24). exact L1. }
  assert (U : SFleb (sqrt x) (Bounds.pow2 (prec fmt) 28) = true).
  { rewrite <- S56. apply (SFsqrt_mono _ _ prec_0 prec_emax); trivial.
    apply (B2R_le_SFleb (prec fmt) (emax fmt) prec_0); trivial.
    rewrite (B2R_pow2 (prec fmt) prec_24). exact Hi. }
  destruct (SFsqrt_nonneg_valid _ (emax fmt) prec_0 x N) as [_ Vs].
  assert (Fs : IEEE.is_finite (sqrt x) = true)
    by (apply (SFleb_finite_between (Bounds.pow2 (prec fmt) 0)
                 (Bounds.pow2 (prec fmt) 28)); trivial).
  split; [exact Vs|]. split; [exact Fs|].
  rewrite <- bpow_0, <- (B2R_pow2 (prec fmt) prec_24).
  apply (SFleb_B2R_le _ _ prec_0 prec_emax); trivial.
Qed.

(** *** Squares *)

Context {L : Libm (ieee fmt)}.

Lemma square_bounds (d : @double (ieee fmt)) :
  squares fmt -> within 27 d ->
  within 54 (pow d #2)
  /\ (0 <= B2R (pow d #2))%R
  /\ ((B2R d <= - bpow 0)%R \/ (bpow 0 <= B2R d)%R -> (bpow 0 <= B2R (pow d #2))%R).
Proof.
  intros Sq (V & F & Lo & Hi).
  destruct (Sq d 27 V F ltac:(lia)) as (Vp & P0 & Up & _).
  destruct (Sq d 0 V F ltac:(lia)) as (_ & _ & _ & Dn).
  change (4 ^ 27) with (2 ^ 54) in Up. change (4 ^ 0) with (2 ^ 0) in Dn.
  destruct (power_of_two 27 ltac:(lia)) as (V27 & F27 & E27).
  destruct (power_of_two 54 ltac:(lia)) as (V54 & F54 & E54).
  destruct (power_of_two 0 ltac:(lia)) as (V0 & F0 & E0).
  cbn [dle dneg ieee IEEE.arith] in *.
  assert (Fp : IEEE.is_finite (pow d #2) = true).
  { apply (SFleb_finite_between #0 #(2 ^ 54)); [reflexivity | exact F54 | exact P0|].
    apply Up; apply (B2R_le_SFleb (prec fmt) (emax fmt) prec_0);
      rewrite ?valid_SFopp, ?is_finite_SFopp, ?B2R_SFopp, ?E27; trivial. }
  assert (B0 : (0 <= B2R (pow d #2))%R).
  { change 0%R with (B2R #0).
    apply (SFleb_B2R_le _ _ prec_0 prec_emax); trivial. }
  assert (B1 : (B2R (pow d #2) <= bpow 54)%R).
  { rewrite <- E54. apply (SFleb_B2R_le _ _ prec_0 prec_emax); trivial.
    apply Up; apply (B2R_le_SFleb (prec fmt) (emax fmt) prec_0);
      rewrite ?valid_SFopp, ?is_finite_SFopp, ?B2R_SFopp, ?E27; trivial. }
  pose proof (bpow_pos 54).
  split; [|split].
  - split; [exact Vp|]. split; [exact Fp|]. split; lra.
  - exact B0.
  - intros M. rewrite <- E0.
    apply (SFleb_B2R_le _ _ prec_0 prec_emax); trivial.
    apply Dn. destruct M as [M|M]; [left | right];
      apply (B2R_le_SFleb (prec fmt) (emax fmt) prec_0);
      rewrite ?valid_SFopp, ?is_finite_SFopp, ?B2R_SFopp, ?E0; trivial.
Qed.

(** *** The lateral error *)

Lemma convertDeg2UTM_centimetres (lat lon : @double (ieee fmt)) :
  convertDeg2UTM lat lon
  = (#(fst (utm_centimetres lat lon)) * dec 1 (-2),
     #(snd (utm_centimetres lat lon)) * dec 1 (-2)).
Proof. reflexivity. Qed.

(** C9. On every state with a defined heading, whatever the velocity,
    [calculateLateralError] returns a number that is not negative: the
    result is neither a NaN nor an infinity, and it is at least zero.
    The heading is defined when the math library gives a direction for
    its angle: a cosine and a sine between -2 and 2, one of them at
    least 0.5 in magnitude.  The state is one on which the conversion
    to UTM is defined: the centimetres that [round] casts to [long] are
    values of [long].  Of [pow(x, 2)] the proof takes that it is a value
    of the format, not below 0, and in the order of [x] with the powers
    of two. *)
Theorem lateral_error_not_negative (t : Targeter (ieee fmt)) :
  squares fmt -> heading_defined fmt t -> positions_fit_long t ->
  IEEE.is_finite (calculateLateralError t) = true
  /\ (#0 <=? calculateLateralError t) = true.
Proof.
  intros Sq Hd (F1 & F2 & F3 & F4).
  unfold calculateLateralError, currentUTM, targetUTM.
  rewrite !convertDeg2UTM_centimetres. cbv beta iota zeta.
  rewrite (dec_20 fmt).
  pose proof (coordinate_within _ F1) as Wx2.
  pose proof (coordinate_within _ F2) as Wy2.
  pose proof (coordinate_within _ F3) as Wx0.
  pose proof (coordinate_within _ F4) as Wy0.
  destruct (direction_cases _ _ Hd) as (Wc & Ws & M).
  revert Wx2 Wy2 Wx0 Wy0 Wc Ws M.
  generalize (#(fst (utm_centimetres
                       (convertDecimalDegMinToDegree (currentLatitude t))
                       (convertDecimalDegMinToDegree (currentLongitude t))))
              * @dec (ieee fmt) 1 (-2)).
  generalize (#(snd (utm_centimetres
                       (convertDecimalDegMinToDegree (currentLatitude t))
                       (convertDecimalDegMinToDegree (currentLongitude t))))
              * @dec (ieee fmt) 1 (-2)).
  generalize (#(fst (utm_centimetres
                       (convertDecimalDegMinToDegree (targetLatitude t))
                       (convertDecimalDegMinToDegree (targetLongitude t))))
              * @dec (ieee fmt) 1 (-2)).
  generalize (#(snd (utm_centimetres
                       (convertDecimalDegMinToDegree (targetLatitude t))
                       (convertDecimalDegMinToDegree (targetLongitude t))))
              * @dec (ieee fmt) 1 (-2)).
  generalize (cos (convertHeadingToMathAngle (currentHeading t) / #180 * PI)).
  generalize (sin (convertHeadingToMathAngle (currentHeading t) / #180 * PI)).
  intros s c y0 x0 y2 x2 Wx2 Wy2 Wx0 Wy0 Wc Ws M.
  destruct (leg_bounds x2 c Wx2 Wc) as (Wx1 & Wdx & Ux & Dx).
  destruct (leg_bounds y2 s Wy2 Ws) as (Wy1 & Wdy & Uy & Dy).
  set (x1 := x2 + c * #2000) in *. set (y1 := y2 + s * #2000) in *.
  set (dx := x2 - x1) in *. set (dy := y2 - y1) in *.
  destruct (square_bounds dx Sq Wdx) as (Wpx & Px & Lx).
  destruct (square_bounds dy Sq Wdy) as (Wpy & Py & Ly).
  set (px := pow dx #2) in *. set (py := pow dy #2) in *.
  (* the denominator is at least 1 *)
  pose proof (within_add (prec fmt) (emax fmt) prec_24 emax_100 54 _ _ Wpy Wpx
                ltac:(lia)) as Wden.
  assert (Lden : (bpow 0 <= B2R (py + px)%D)%R).
  { apply (rounded_above (prec fmt) (emax fmt) prec_24 emax_100
             (B2R py + B2R px) _ 0); [|apply Wden| |lia].
    - apply (SFadd_rounded (prec fmt) (emax fmt) prec_0);
        [apply Wpy | apply Wpx | apply Wpy | apply Wpx].
    - destruct M as [M|[M|[M|M]]].
      + specialize (Lx (or_intror (Dx M))). lra.
      + specialize (Lx (or_introl (Ux M))). lra.
      + specialize (Ly (or_intror (Dy M))). lra.
      + specialize (Ly (or_introl (Uy M))). lra. }
  destruct (root_bounds (py + px)
              (within_le (prec fmt) (emax fmt) 55 56 _ ltac:(lia) Wden) Lden)
    as (Vr & Fr & Lr).
  (* the numerator is a number *)
  pose proof (within_mul (prec fmt) (emax fmt) prec_24 emax_100 27 25 _ _ Wdy Wx0
                ltac:(lia)) as W1.
  pose proof (within_mul (prec fmt) (emax fmt) prec_24 emax_100 27 25 _ _ Wdx Wy0
                ltac:(lia)) as W2.
  pose proof (within_mul (prec fmt) (emax fmt) prec_24 emax_100 25 26 _ _ Wx2 Wy1
                ltac:(lia)) as W3.
  pose proof (within_mul (prec fmt) (emax fmt) prec_24 emax_100 25 26 _ _ Wy2 Wx1
                ltac:(lia)) as W4.
  pose proof (within_sub (prec fmt) (emax fmt) prec_24 emax_100 52 _ _ W1 W2
                ltac:(lia)) as N2.
  pose proof (within_add (prec fmt) (emax fmt) prec_24 emax_100 53 _ _ N2
                (within_le (prec fmt) (emax fmt) 51 53 _ ltac:(lia) W3)
                ltac:(lia)) as N3.
  pose proof (within_sub (prec fmt) (emax fmt) prec_24 emax_100 54 _ _ N3
                (within_le (prec fmt) (emax fmt) 51 54 _ ltac:(lia) W4)
                ltac:(lia)) as N4.
  destruct (abs_bounds 55 (dy * x0 - dx * y0 + x2 * y1 - y2 * x1) N4) as (Wa & Pa).
  destruct (within_div (prec fmt) (emax fmt) prec_24 emax_100 55 _ _ Wa Vr Fr Lr
              ltac:(lia)) as (Wr & Pr).
  split; [apply Wr|].
  apply (B2R_le_SFleb (prec fmt) (emax fmt) prec_0);
    [reflexivity | apply Wr | reflexivity | apply Wr | apply Pr, Pa].
Qed.

End LateralError.

(** The sample library computes [pow(x, 2)] as [x * x], which has the
    bounds the theorem asks of squares. *)
Lemma sample_squares (fmt : format) : @squares fmt SampleLibm.libm.
Proof.
  intros x k V F Hk.
  change (@pow (ieee fmt) SampleLibm.libm x (@of_int (ieee fmt) 2))
    with (@SampleLibm.s_pow (ieee fmt) x (@of_int (ieee fmt) 2)).
  unfold SampleLibm.s_pow.
  replace (@SampleLibm.deq (ieee fmt) (of_int 2) (of_int 2)) with true
    by (destruct fmt; vm_compute; reflexivity).
  cbn [dmul dle dneg ieee IEEE.arith].
  pose proof (ValueFacts.SFmul_rounded _ _ (prec_positive fmt) (prec_below_emax fmt) x x V V F F)
    as Rd.
  assert (E4 : 4 ^ k = 2 ^ (2 * k)).
  { rewrite Z.pow_mul_r by lia. reflexivity. }
  destruct (power_of_two fmt k ltac:(lia)) as (Vk & Fk & Ek).
  destruct (power_of_two fmt (2 * k) ltac:(lia)) as (V2 & F2 & E2).
  rewrite <- E4 in V2, F2, E2.
  assert (Eb : Rounding.bpow (2 * k)
               = Rdefinitions.Rmult (Rounding.bpow k) (Rounding.bpow k)).
  { replace (2 * k) with (k + k) by lia. apply RoundingFacts.bpow_add. }
  pose proof (RoundingFacts.bpow_pos k) as Pk.
  pose proof (ValueFacts.rounded_exact _ (emax fmt) (prec_positive fmt) _ V2 F2) as R4.
  rewrite E2, Eb in R4.
  split; [apply (ValueFacts.rounded_valid _ _ (prec_positive fmt) _ _ Rd)|].
  split; [|split].
  - apply (ValueFacts.rounded_mono _ (emax fmt) (prec_positive fmt)
             (Rdefinitions.IZR 0) (Rdefinitions.Rmult (Values.B2R x) (Values.B2R x)));
      [Lra.nra | left; split; [reflexivity | exists false; reflexivity] | exact Rd].
  - intros Lo Hi.
    pose proof (ValueFacts.SFleb_B2R_le _ _ (prec_positive fmt) (prec_below_emax fmt) _ _
                  ltac:(rewrite ValueFacts.valid_SFopp; exact Vk) V
                  ltac:(rewrite is_finite_SFopp; exact Fk) F Lo) as B1.
    pose proof (ValueFacts.SFleb_B2R_le _ _ (prec_positive fmt) (prec_below_emax fmt) _ _
                  V Vk F Fk Hi) as B2.
    rewrite ValueFacts.B2R_SFopp, Ek in B1. rewrite Ek in B2.
    refine (ValueFacts.rounded_mono _ (emax fmt) (prec_positive fmt) _ _ _ _ _ Rd R4).
    Lra.nra.
  - intros [Hi|Lo].
    + pose proof (ValueFacts.SFleb_B2R_le _ _ (prec_positive fmt) (prec_below_emax fmt) _ _
                    V ltac:(rewrite ValueFacts.valid_SFopp; exact Vk)
                    F ltac:(rewrite is_finite_SFopp; exact Fk) Hi) as B1.
      rewrite ValueFacts.B2R_SFopp, Ek in B1.
      refine (ValueFacts.rounded_mono _ (emax fmt) (prec_positive fmt) _ _ _ _ _ R4 Rd).
      Lra.nra.
    + pose proof (ValueFacts.SFleb_B2R_le _ _ (prec_positive fmt) (prec_below_emax fmt) _ _
                    Vk V Fk F Lo) as B2.
      rewrite Ek in B2.
      refine (ValueFacts.rounded_mono _ (emax fmt) (prec_positive fmt) _ _ _ _ _ R4 Rd).
      Lra.nra.
Qed.

(** With the aircraft of the scenario at rest, the lateral error is a
    number that is not below zero. *)
Lemma lateral_error_not_negative_witness :
  IEEE.is_finite
    (@calculateLateralError Examples.A64 Examples.L64 Examples.at_rest) = true
  /\ @dle Examples.A64 (@of_int Examples.A64 0)
       (@calculateLateralError Examples.A64 Examples.L64 Examples.at_rest) = true.
Proof.
  apply (lateral_error_not_negative Binary64 (L := Examples.L64) Examples.at_rest).
  - apply (sample_squares Binary64).
  - vm_compute. repeat split.
  - vm_compute. repeat split; discriminate.
Defined.

(** ** The angle of a heading *)

Section HeadingRange.
Import IEEE IEEEFacts ValueFacts.
Variable fmt : format.
Local Open Scope double_scope.
Local Notation "# n" := (@of_int (ieee fmt) n) (at level 1, format "# n").

Lemma of_Z_value (n : Z) : is_value fmt (of_Z fmt n) = true.
Proof. apply RoundingFacts.binary_normalize_valid, prec_positive. Qed.

(** The constants of [convertHeadingToMathAngle], evaluated. *)
Lemma heading_constants :
  let k := #(-1) in
  let lo := #0 - #90 in
  let hi := #360 - #90 in
  (exists (m : positive) (e : Z), k = S754_finite true m e)
  /\ forallb is_finite [#0; #90; #360; k; lo; hi; k * lo; k * hi; #360 + k * hi] = true
  /\ (#90 <=? #90) = true
  /\ (#360 <=? #360) = true
  /\ (#0 <=? #360 + k * hi) = true
  /\ #360 + #0 = #360
  /\ (k * lo <=? #360) = true.
Proof.
  destruct fmt; (split; [do 2 eexists; vm_compute; reflexivity|]);
    vm_compute; repeat split.
Qed.

(** X1. A compass heading between 0 and 360 degrees is converted to a
    math angle between 0 and 360 degrees, both included, whatever the
    rounding does. *)
Theorem heading_angle_range (heading : @double (ieee fmt)) :
  is_value fmt heading = true ->
  (#0 <=? heading) = true -> (heading <=? #360) = true ->
  (#0 <=? convertHeadingToMathAngle heading) = true
  /\ (convertHeadingToMathAngle heading <=? #360) = true.
Proof.
  intros V L0 L360.
  pose proof (prec_positive fmt) as Hp. pose proof (prec_below_emax fmt) as He.
  destruct heading_constants as ((mk & ek & Ek) & F & L90 & L36 & Llo & E360 & Lhi).
  cbn [forallb] in F. rewrite !andb_true_iff in F.
  destruct F as (F0 & F90 & F360 & Fk & Flo & Fhi & Fklo & Fkhi & Fs & _).
  unfold convertHeadingToMathAngle.
  cbn [dmul dsub dadd dlt dle of_int ieee arith] in *.
  unfold is_value in V.
  pose proof (of_Z_value 0) as V0. pose proof (of_Z_value 90) as V90.
  pose proof (of_Z_value 360) as V360. pose proof (of_Z_value (-1)) as Vk.
  unfold is_value in V0, V90, V360, Vk.
  set (p := prec fmt) in *. set (em := emax fmt) in *.
  assert (Fh : is_finite heading = true)
    by exact (SFleb_finite_between _ _ _ F0 F360 L0 L360).
  set (d := SFsub p em heading (of_Z fmt 90)).
  set (lo := SFsub p em (of_Z fmt 0) (of_Z fmt 90)) in *.
  set (hi := SFsub p em (of_Z fmt 360) (of_Z fmt 90)) in *.
  assert (Vlo : valid_binary p em lo = true) by (apply RoundingFacts.SFsub_valid; assumption).
  assert (Vhi : valid_binary p em hi = true) by (apply RoundingFacts.SFsub_valid; assumption).
  assert (Vd : valid_binary p em d = true) by (apply RoundingFacts.SFsub_valid; assumption).
  assert (Ld1 : SFleb lo d = true)
    by (apply (SFsub_mono p em Hp He); assumption).
  assert (Ld2 : SFleb d hi = true)
    by (apply (SFsub_mono p em Hp He); assumption).
  assert (Fd : is_finite d = true)
    by exact (SFleb_finite_between _ _ _ Flo Fhi Ld1 Ld2).
  assert (Nk : Rdefinitions.Rle (Values.B2R (of_Z fmt (-1))) (Rdefinitions.IZR 0)).
  { rewrite Ek. cbn [Values.B2R]. pose proof (RoundingFacts.F2R_pos mk ek). Lra.lra. }
  set (k := of_Z fmt (-1)) in *.
  set (angle := SFmul p em k d).
  assert (Vklo : valid_binary p em (SFmul p em k lo) = true)
    by (eapply rounded_valid; [exact Hp | eapply SFmul_rounded; eassumption]).
  assert (Vkhi : valid_binary p em (SFmul p em k hi) = true)
    by (eapply rounded_valid; [exact Hp | eapply SFmul_rounded; eassumption]).
  assert (Va : valid_binary p em angle = true)
    by (eapply rounded_valid; [exact Hp | eapply SFmul_rounded; eassumption]).
  assert (La1 : SFleb (SFmul p em k hi) angle = true)
    by (apply (SFmul_antitone p em Hp He); assumption).
  assert (La2 : SFleb angle (SFmul p em k lo) = true)
    by (apply (SFmul_antitone p em Hp He); assumption).
  assert (Fa : is_finite angle = true)
    by exact (SFleb_finite_between _ _ _ Fkhi Fklo La1 La2).
  destruct (SFltb angle (of_Z fmt 0)) eqn:E.
  - apply SFltb_SFleb in E.
    assert (U : SFleb (SFadd p em (of_Z fmt 360) angle) (of_Z fmt 360) = true).
    { rewrite <- E360 at 2. apply (SFadd_mono p em Hp He); assumption. }
    assert (D : SFleb (SFadd p em (of_Z fmt 360) (SFmul p em k hi))
                      (SFadd p em (of_Z fmt 360) angle) = true)
      by (apply (SFadd_mono p em Hp He); assumption).
    split; [|exact U].
    assert (Vs : forall x, valid_binary p em x = true -> is_finite x = true ->
                   valid_binary p em (SFadd p em (of_Z fmt 360) x) = true).
    { intros x Vx Fx.
      eapply rounded_valid; [exact Hp | eapply SFadd_rounded; eassumption]. }
    apply (SFleb_trans p em Hp He _ (SFadd p em (of_Z fmt 360) (SFmul p em k hi)));
      try assumption; try (apply Vs; assumption).
    exact (SFleb_finite_between _ _ _ Fs F360 D U).
  - split.
    + rewrite of_Z_0 in *. apply SFltb_zero_false; [|exact E].
      intros N. rewrite N in Fa. discriminate Fa.
    + apply (SFleb_trans p em Hp He _ (SFmul p em k lo)); assumption.
Qed.

End HeadingRange.

(** ** The range of the zone *)

Section ZoneRange.
Import IEEE IEEEFacts ValueFacts.
Variable fmt : format.
Local Open Scope double_scope.
Local Notation "# n" := (@of_int (ieee fmt) n) (at level 1, format "# n").

(** The constants of the zone, evaluated. *)
Lemma zone_constants :
  let lo := #(-180) / #6 + #31 in
  let hi := #180 / #6 + #31 in
  (exists (m : positive) (e : Z), #6 = S754_finite false m e)
  /\ forallb is_finite [#(-180); #180; #31; #(-180) / #6; #180 / #6; lo; hi] = true
  /\ (#31 <=? #31) = true
  /\ Zfloor lo = 1%Z
  /\ Zfloor hi = 61%Z
  /\ @utmZone (ieee fmt) #(-180) = 1%Z
  /\ @utmZone (ieee fmt) #180 = 61%Z.
Proof.
  destruct fmt; (split; [do 2 eexists; vm_compute; reflexivity|]);
    vm_compute; repeat split.
Qed.

(** X2. For a longitude between -180 and 180 degrees the zone is
    between 1 and 61; it is 61 at 180 degrees. *)
Theorem utm_zone_range (lon : @double (ieee fmt)) :
  is_value fmt lon = true ->
  (#(-180) <=? lon) = true -> (lon <=? #180) = true ->
  (1 <= utmZone lon <= 61)%Z
  /\ @utmZone (ieee fmt) #(-180) = 1%Z
  /\ @utmZone (ieee fmt) #180 = 61%Z.
Proof.
  intros V Llo Lhi.
  pose proof (prec_positive fmt) as Hp.
  pose proof (prec_below_emax fmt) as He.
  destruct zone_constants as ((m6 & e6 & E6) & F & L31 & Zlo & Zhi & Z1 & Z61).
  split; [|split; assumption].
  cbn [forallb] in F. rewrite !andb_true_iff in F.
  destruct F as (Fa & Fb & F31 & Fqa & Fqb & Fya & Fyb & _).
  assert (B : (1 <= Zfloor (lon / #6 + #31)%D <= 61)%Z).
  {
  cbn [ddiv dadd dle of_int ieee arith] in *.
  unfold is_value in V.
  pose proof (of_Z_value fmt (-180)) as Va. pose proof (of_Z_value fmt 180) as Vb.
  pose proof (of_Z_value fmt 31) as V31.
  unfold is_value in Va, Vb, V31.
  set (p := prec fmt) in *. set (em := emax fmt) in *.
  assert (Fl : is_finite lon = true)
    by exact (SFleb_finite_between _ _ _ Fa Fb Llo Lhi).
  rewrite E6 in *.
  set (six := S754_finite false m6 e6) in *.
  assert (Vd : forall x, valid_binary p em x = true -> is_finite x = true ->
                 valid_binary p em (SFdiv p em x six) = true).
  { intros x Vx Fx. eapply rounded_valid; [exact Hp|].
    eapply (SFdiv_rounded p em Hp He x six false m6 e6); [reflexivity | assumption ..]. }
  assert (Vs : forall x, valid_binary p em x = true -> is_finite x = true ->
                 valid_binary p em (SFadd p em x (of_Z fmt 31)) = true).
  { intros x Vx Fx. eapply rounded_valid; [exact Hp|].
    eapply SFadd_rounded; eassumption. }
  assert (Lq1 : SFleb (SFdiv p em (of_Z fmt (-180)) six) (SFdiv p em lon six) = true)
    by (apply (SFdiv_monotone p em Hp He); assumption).
  assert (Lq2 : SFleb (SFdiv p em lon six) (SFdiv p em (of_Z fmt 180) six) = true)
    by (apply (SFdiv_monotone p em Hp He); assumption).
  assert (Fq : is_finite (SFdiv p em lon six) = true)
    by exact (SFleb_finite_between _ _ _ Fqa Fqb Lq1 Lq2).
  assert (Ly1 : SFleb (SFadd p em (SFdiv p em (of_Z fmt (-180)) six) (of_Z fmt 31))
                      (SFadd p em (SFdiv p em lon six) (of_Z fmt 31)) = true)
    by (apply (SFadd_mono p em Hp He); try assumption; apply Vd; assumption).
  assert (Ly2 : SFleb (SFadd p em (SFdiv p em lon six) (of_Z fmt 31))
                      (SFadd p em (SFdiv p em (of_Z fmt 180) six) (of_Z fmt 31)) = true)
    by (apply (SFadd_mono p em Hp He); try assumption; apply Vd; assumption).
  assert (Fy : is_finite (SFadd p em (SFdiv p em lon six) (of_Z fmt 31)) = true)
    by exact (SFleb_finite_between _ _ _ Fya Fyb Ly1 Ly2).
  rewrite <- Zlo at 1. rewrite <- Zhi. split.
  - apply (Zfloor_mono p em Hp He); try assumption; apply Vs; try assumption;
      apply Vd; assumption.
  - apply (Zfloor_mono p em Hp He); try assumption; apply Vs; try assumption;
      apply Vd; assumption. }
  unfold utmZone. cbn [to_int floor ieee arith].
  rewrite (Ztrunc_SFfloor fmt) by lia. exact B.
Qed.

End ZoneRange.

(** ** Negated coordinates *)

Section Negation.
Import IEEE IEEEFacts.
Variables p emx : Z.

Lemma same_number_refl (x : spec_float) : same_number x x.
Proof. left. reflexivity. Qed.

Lemma same_number_trans (x y z : spec_float) :
  same_number x y -> same_number y z -> same_number x z.
Proof.
  intros [->|[Zx Zy]] [->|[Zy' Zz]]; try (left; reflexivity);
    right; split; assumption.
Qed.

Lemma binary_round_aux_opp (s : bool) (m e : Z) (l : location) :
  binary_round_aux p emx (negb s) m e l = SFopp (binary_round_aux p emx s m e l).
Proof.
  unfold binary_round_aux.
  destruct (shr_fexp p emx m e l) as [mrs' e'].
  destruct (shr_fexp p emx _ e' loc_Exact) as [mrs'' e''].
  destruct (shr_m mrs''); try reflexivity.
  destruct (e'' <=? emx - p)%Z; reflexivity.
Qed.

Lemma binary_round_opp (s : bool) (m : positive) (e : Z) :
  binary_round p emx (negb s) m e = SFopp (binary_round p emx s m e).
Proof.
  unfold binary_round. destruct (shl_align m e _) as [mz ez].
  apply binary_round_aux_opp.
Qed.

Lemma binary_normalize_opp (n e : Z) :
  same_number (binary_normalize p emx (- n) e false)
              (SFopp (binary_normalize p emx n e false)).
Proof.
  destruct n as [|q|q]; cbn [Z.opp binary_normalize].
  - right. split; reflexivity.
  - left. apply (binary_round_opp false).
  - left. rewrite <- (binary_round_opp true). reflexivity.
Qed.

Lemma cond_Zopp_negb (s : bool) (n : Z) : cond_Zopp (negb s) n = (- cond_Zopp s n)%Z.
Proof. destruct s; cbn; lia. Qed.

Lemma SFdiv_opp_l (x y : spec_float) :
  SFdiv p emx (SFopp x) y = SFopp (SFdiv p emx x y).
Proof.
  destruct x as [s1|s1| |s1 m1 e1], y as [s2|s2| |s2 m2 e2]; cbn [SFdiv SFopp];
    try reflexivity; try (destruct s1, s2; reflexivity).
  destruct (SFdiv_core_binary p emx _ e1 _ e2) as [[mz ez] lz].
  replace (xorb (negb s1) s2) with (negb (xorb s1 s2)) by (destruct s1, s2; reflexivity).
  apply binary_round_aux_opp.
Qed.

Lemma SFsub_opp (x y : spec_float) :
  same_number (SFsub p emx (SFopp x) (SFopp y)) (SFopp (SFsub p emx x y)).
Proof.
  destruct x as [s1|s1| |s1 m1 e1], y as [s2|s2| |s2 m2 e2]; cbn [SFsub SFopp];
    try (left; reflexivity);
    try (destruct s1, s2; (left; reflexivity) || (right; split; reflexivity)).
  rewrite !cond_Zopp_negb.
  replace (- cond_Zopp s1 (Z.pos (fst (shl_align m1 e1 (Z.min e1 e2))))
           - - cond_Zopp s2 (Z.pos (fst (shl_align m2 e2 (Z.min e1 e2)))))%Z
    with (- (cond_Zopp s1 (Z.pos (fst (shl_align m1 e1 (Z.min e1 e2))))
             - cond_Zopp s2 (Z.pos (fst (shl_align m2 e2 (Z.min e1 e2))))))%Z by lia.
  apply binary_normalize_opp.
Qed.

Lemma SFadd_opp (x y : spec_float) :
  same_number (SFadd p emx (SFopp x) (SFopp y)) (SFopp (SFadd p emx x y)).
Proof.
  destruct x as [s1|s1| |s1 m1 e1], y as [s2|s2| |s2 m2 e2]; cbn [SFadd SFopp];
    try (left; reflexivity);
    try (destruct s1, s2; (left; reflexivity) || (right; split; reflexivity)).
  rewrite !cond_Zopp_negb.
  replace (- cond_Zopp s1 (Z.pos (fst (shl_align m1 e1 (Z.min e1 e2))))
           + - cond_Zopp s2 (Z.pos (fst (shl_align m2 e2 (Z.min e1 e2)))))%Z
    with (- (cond_Zopp s1 (Z.pos (fst (shl_align m1 e1 (Z.min e1 e2))))
             + cond_Zopp s2 (Z.pos (fst (shl_align m2 e2 (Z.min e1 e2))))))%Z by lia.
  apply binary_normalize_opp.
Qed.

(** The operations do not tell a zero from the other. *)
Lemma SFadd_same_number (x x' y y' : spec_float) :
  same_number x x' -> same_number y y' ->
  same_number (SFadd p emx x y) (SFadd p emx x' y').
Proof.
  intros [->|[Zx Zx']] [->|[Zy Zy']]; try (left; reflexivity).
  - destruct y as [s|s| |s m e], y' as [s'|s'| |s' m' e']; try discriminate.
    destruct x' as [s1|s1| |s1 m1 e1]; try (left; reflexivity).
    right. destruct s1, s, s'; split; reflexivity.
  - destruct x as [s|s| |s m e], x' as [s'|s'| |s' m' e']; try discriminate.
    destruct y' as [s1|s1| |s1 m1 e1]; try (left; reflexivity).
    right. destruct s1, s, s'; split; reflexivity.
  - destruct x as [s|s| |s m e], x' as [s'|s'| |s' m' e']; try discriminate.
    destruct y as [t|t| |t m e], y' as [t'|t'| |t' m' e']; try discriminate.
    right. destruct s, s', t, t'; split; reflexivity.
Qed.

Lemma SFsub_same_number (x x' y y' : spec_float) :
  same_number x x' -> same_number y y' ->
  same_number (SFsub p emx x y) (SFsub p emx x' y').
Proof.
  intros [->|[Zx Zx']] [->|[Zy Zy']]; try (left; reflexivity).
  - destruct y as [s|s| |s m e], y' as [s'|s'| |s' m' e']; try discriminate.
    destruct x' as [s1|s1| |s1 m1 e1]; try (left; reflexivity).
    right. destruct s1, s, s'; split; reflexivity.
  - destruct x as [s|s| |s m e], x' as [s'|s'| |s' m' e']; try discriminate.
    destruct y' as [s1|s1| |s1 m1 e1]; try (left; reflexivity).
    right. destruct s1, s, s'; split; reflexivity.
  - destruct x as [s|s| |s m e], x' as [s'|s'| |s' m' e']; try discriminate.
    destruct y as [t|t| |t m e], y' as [t'|t'| |t' m' e']; try discriminate.
    right. destruct s, s', t, t'; split; reflexivity.
Qed.

Lemma SFdiv_same_number_l (x x' : spec_float) (s : bool) (m : positive) (e : Z) :
  same_number x x' ->
  same_number (SFdiv p emx x (S754_finite s m e)) (SFdiv p emx x' (S754_finite s m e)).
Proof.
  intros [->|[Zx Zx']]; [left; reflexivity|].
  destruct x as [t|t| |t mx ex], x' as [t'|t'| |t' mx' ex']; try discriminate.
  right. split; reflexivity.
Qed.

Lemma same_number_opp (x y : spec_float) :
  same_number x y -> same_number (SFopp x) (SFopp y).
Proof.
  intros [->|[Zx Zy]]; [left; reflexivity|].
  destruct x, y; try discriminate. right. split; reflexivity.
Qed.

Lemma Ztrunc_opp (x : spec_float) : Ztrunc (SFopp x) = (- Ztrunc x)%Z.
Proof. destruct x as [s|s| |s m e]; try reflexivity. cbn. destruct s; cbn; lia. Qed.

End Negation.

Section PackedSign.
Import IEEE IEEEFacts.
Variable fmt : format.
Local Open Scope double_scope.
Local Notation "# n" := (@of_int (ieee fmt) n) (at level 1, format "# n").

Lemma of_Z_opp (n : Z) : same_number #(- n) (SFopp #n).
Proof. apply binary_normalize_opp. Qed.

Lemma sixty_finite :
  exists (m : positive) (e : Z), @dec (ieee fmt) 600 (-1) = S754_finite false m e.
Proof. destruct fmt; do 2 eexists; vm_compute; reflexivity. Qed.

(** X3. A packed value and its negative convert to opposite degrees: the
    cast toward zero makes [convertDecimalDegMinToDegree] an odd
    function, up to the sign of a zero. *)
Theorem degrees_of_negated_packed_minutes (V : @double (ieee fmt)) :
  same_number (convertDecimalDegMinToDegree (- V))
              (- convertDecimalDegMinToDegree V).
Proof.
  unfold convertDecimalDegMinToDegree.
  cbn [dadd dsub ddiv dneg to_int of_int ieee arith].
  destruct sixty_finite as (m60 & e60 & E60). rewrite E60.
  rewrite SFdiv_opp_l, Ztrunc_opp.
  set (t := Ztrunc (SFdiv (prec fmt) (emax fmt) V (@dec (ieee fmt) 1000 (-1)))).
  replace (100 * - t)%Z with (- (100 * t))%Z by lia.
  set (p := prec fmt). set (em := emax fmt).
  eapply same_number_trans; [|apply SFadd_opp].
  apply SFadd_same_number; [apply of_Z_opp|].
  rewrite <- SFdiv_opp_l. apply SFdiv_same_number_l.
  eapply same_number_trans; [|apply SFsub_opp].
  apply SFsub_same_number; [apply same_number_refl | apply of_Z_opp].
Qed.

End PackedSign.

(** ** Signs, zeros and NaNs of the targeting calculations *)

Section FloatSigns.
Import IEEE IEEEFacts.
Variable fmt : format.
Local Open Scope double_scope.
Local Notation "# n" := (@of_int (ieee fmt) n) (at level 1, format "# n").

Lemma SFsqrt_not_negative (p emx : Z) (x : spec_float) :
  not_negative (SFsqrt p emx x).
Proof.
  destruct x as [s|s| |s m e]; simpl; try exact I; destruct s; simpl; auto.
  destruct (SFsqrt_core_binary p emx _ e) as [[mz ez] lz].
  apply has_sign_not_negative, (binary_round_aux_has_sign p emx false).
Qed.

Lemma SFmul_not_negative (p emx : Z) (x y : spec_float) :
  not_negative x -> not_negative y -> not_negative (SFmul p emx x y).
Proof.
  destruct x as [s1|s1| |s1 m1 e1], y as [s2|s2| |s2 m2 e2]; simpl;
    intros; subst; simpl; auto.
  apply has_sign_not_negative, (binary_round_aux_has_sign p emx false).
Qed.

Lemma SFmul_not_positive (p emx : Z) (x y : spec_float) :
  not_negative (SFopp x) -> not_negative y -> not_negative (SFopp (SFmul p emx x y)).
Proof.
  destruct x as [s1|s1| |s1 m1 e1], y as [s2|s2| |s2 m2 e2]; simpl;
    intros H1 H2; subst; simpl; auto;
    try (destruct s1; try discriminate H1; reflexivity).
  destruct s1; try discriminate H1. cbn [xorb].
  pose proof (binary_round_aux_has_sign p emx true (Z.pos (m1 * m2)) (e1 + e2) loc_Exact) as H.
  destruct (binary_round_aux p emx true (Z.pos (m1 * m2)) (e1 + e2) loc_Exact);
    simpl in *; subst; auto.
Qed.

Lemma not_negative_nan_or_leb (x : spec_float) :
  not_negative x ->
  SFltb x (S754_zero false) = false
  /\ (is_nan x = false -> SFleb (S754_zero false) x = true).
Proof.
  intros H. split; [apply not_negative_ltb, H | apply not_negative_leb, H].
Qed.

Lemma correction_factor_positive : has_sign false (@CORRECTION_FACTOR (ieee fmt)).
Proof. destruct fmt; vm_compute; reflexivity. Qed.

(** X5. The drop distance has the sign of the velocity: it is not below
    zero when the velocity is not, and not above zero when the velocity
    is not. *)
Theorem drop_distance_sign (t : Targeter (ieee fmt)) :
  ((currentVelocity t <? #0) = false ->
   (calculateDropDistance t <? #0) = false)
  /\ ((#0 <? currentVelocity t) = false ->
      (#0 <? calculateDropDistance t) = false).
Proof.
  unfold calculateDropDistance.
  cbn [dlt dle dmul ddiv dsub sqrt of_int ieee arith]. rewrite !of_Z_0.
  set (fall := SFsqrt _ _ _).
  assert (Hf : not_negative fall) by apply SFsqrt_not_negative.
  pose proof (has_sign_not_negative _ correction_factor_positive) as Hc.
  split; intros Hv.
  - apply not_negative_ltb. apply SFmul_not_negative; [|exact Hc].
    apply SFmul_not_negative; [|exact Hf].
    destruct (currentVelocity t) as [s|s| |s m e]; simpl; auto;
      destruct s; try reflexivity; discriminate Hv.
  - assert (Hn : not_negative (SFopp (currentVelocity t))).
    { destruct (currentVelocity t) as [s|s| |s m e]; simpl; auto;
        destruct s; try reflexivity; discriminate Hv. }
    pose proof (SFmul_not_positive (prec fmt) (emax fmt) _ _
                  (SFmul_not_positive (prec fmt) (emax fmt) _ _ Hn Hf) Hc) as H.
    match goal with
    | |- SFltb _ ?x = false => destruct x as [s|s| |s m e]
    end; simpl in *; try reflexivity; destruct s; try reflexivity; discriminate H.
Qed.

Lemma SFsub_zero_ltb (p emx : Z) (x z r : spec_float) :
  is_zero z = true -> SFltb (SFsub p emx x z) r = SFltb x r.
Proof.
  destruct z as [sz|sz| |sz mz ez]; try discriminate; intros _.
  destruct x as [s|s| |s m e]; try reflexivity.
  destruct s, sz; reflexivity.
Qed.

End FloatSigns.

Section TargeterSigns.
Import IEEE IEEEFacts.
Variable fmt : format.
Context {L : Libm (ieee fmt)}.
Local Open Scope double_scope.
Local Notation "# n" := (@of_int (ieee fmt) n) (at level 1, format "# n").

(** X4. The two distances are square roots: whatever the math library
    returns, they are never negative. *)
Theorem distances_not_negative (t : Targeter (ieee fmt)) :
  ((calculateDirectDistanceToTarget t <? #0) = false
   /\ (is_nan (calculateDirectDistanceToTarget t) = false ->
       (#0 <=? calculateDirectDistanceToTarget t) = true))
  /\ ((calculatePathDistanceToTarget t <? #0) = false
      /\ (is_nan (calculatePathDistanceToTarget t) = false ->
          (#0 <=? calculatePathDistanceToTarget t) = true)).
Proof.
  split.
  - unfold calculateDirectDistanceToTarget.
    destruct (currentUTM t) as [ce cn], (targetUTM t) as [te tn].
    cbn [dlt dle sqrt of_int ieee arith]. rewrite of_Z_0.
    apply not_negative_nan_or_leb, SFsqrt_not_negative.
  - unfold calculatePathDistanceToTarget.
    cbn [dlt dle sqrt of_int ieee arith]. rewrite of_Z_0.
    apply not_negative_nan_or_leb, SFsqrt_not_negative.
Qed.

(** X6. When the drop distance is a zero, the decision is whether the
    path distance is inside the radius; so it is for an aircraft at rest
    whose drop distance is a number. *)
Theorem decision_without_lead (t : Targeter (ieee fmt)) (millis : Z) :
  (is_zero (calculateDropDistance t) = true ->
   fst (run recalculate millis t)
   = (calculatePathDistanceToTarget t <? targetRaduis t))
  /\ (is_zero (currentVelocity t) = true ->
      is_nan (calculateDropDistance t) = false ->
      is_zero (calculateDropDistance t) = true).
Proof.
  split.
  - intros Z. rewrite run_recalculate. cbn [fst]. unfold decision, dropDistanceToTarget.
    cbn [dlt dsub ieee arith]. apply SFsub_zero_ltb, Z.
  - unfold calculateDropDistance.
    cbn [dlt dle dmul ddiv dsub sqrt of_int ieee arith].
    set (fall := SFsqrt _ _ _).
    pose proof (correction_factor_finite fmt) as Fc.
    destruct (currentVelocity t) as [s|s| |s m e]; try discriminate; intros _.
    destruct fall as [s1|s1| |s1 m1 e1]; try discriminate;
      destruct (@CORRECTION_FACTOR (ieee fmt)) as [s2|s2| |s2 m2 e2];
      try discriminate; reflexivity.
Qed.

(** X7. A NaN among the distances or the radius, and so a negative
    radicand of the path distance, gives the decision [false]. *)
Theorem no_release_without_distance (t : Targeter (ieee fmt)) (millis : Z) :
  (is_nan (calculatePathDistanceToTarget t) = true
   \/ is_nan (calculateDropDistance t) = true
   \/ is_nan (targetRaduis t) = true
   \/ (pow (calculateDirectDistanceToTarget t) #2 - pow (lateralError t) #2 <? #0) = true) ->
  fst (run recalculate millis t) = false.
Proof.
  intros H. rewrite run_recalculate. cbn [fst].
  unfold decision, dropDistanceToTarget. cbn [dlt dsub ieee arith].
  assert (H' : is_nan (calculatePathDistanceToTarget t) = true
               \/ is_nan (calculateDropDistance t) = true
               \/ is_nan (targetRaduis t) = true).
  { destruct H as [H|[H|[H|H]]]; auto. left.
    unfold calculatePathDistanceToTarget. cbn [sqrt dsub dlt of_int ieee arith] in *.
    rewrite of_Z_0 in H. rewrite (SFsqrt_negative _ _ _ H). reflexivity. }
  clear H. destruct H' as [H|[H|H]].
  - destruct (calculatePathDistanceToTarget t); try discriminate H. reflexivity.
  - destruct (calculateDropDistance t); try discriminate H.
    destruct (calculatePathDistanceToTarget t); reflexivity.
  - destruct (targetRaduis t); try discriminate H.
    unfold SFltb, SFcompare.
    destruct (SFsub _ _ _ _) as [s|s| |s m e]; reflexivity.
Qed.

End TargeterSigns.

(** ** Sequences of calls *)

Section TargeterMethods.
Context {A : Arith} {L : Libm A}.

(** X8. How the methods compose: [recalculate] after [setCurrentData]
    or after itself repeats the decision and leaves the object as it is;
    of two calls of [setCurrentData] the second decides; the two setters
    leave the same object in either order. *)
Theorem methods_compose (t : Targeter A) (m1 m2 : Z)
    (lat lon alt vel hdg age lat' lon' alt' vel' hdg' age' tlat tlon talt : double) :
  let set := setCurrentData lat lon alt vel hdg age in
  let set' := setCurrentData lat' lon' alt' vel' hdg' age' in
  let target := setTargetData tlat tlon talt in
  run recalculate m2 (snd (run set m1 t)) = run set m1 t
  /\ run recalculate m2 (snd (run recalculate m1 t)) = run recalculate m1 t
  /\ run set' m2 (snd (run set m1 t)) = run set' m2 t
  /\ snd (run set m2 (snd (run target m1 t)))
     = snd (run target m2 (snd (run set m1 t))).
Proof.
  intros set set' target. subst set set' target.
  rewrite !run_setCurrentData, !run_recalculate, !run_setTargetData.
  cbn [snd]. repeat split.
Qed.

End TargeterMethods.

(** ** Witnesses of the further properties *)

Lemma heading_angle_range_witness :
  @dle Examples.A64 (of_int 0)
    (@convertHeadingToMathAngle Examples.A64 (Examples.d 135 0)) = true
  /\ @dle Examples.A64
       (@convertHeadingToMathAngle Examples.A64 (Examples.d 135 0)) (of_int 360) = true.
Proof.
  apply (heading_angle_range Binary64 (Examples.d 135 0)); vm_compute; reflexivity.
Defined.

Lemma utm_zone_range_witness :
  (1 <= @utmZone Examples.A64 (Examples.d (-7649) (-2)) <= 61)%Z
  /\ @utmZone Examples.A64 (of_int (-180)) = 1%Z
  /\ @utmZone Examples.A64 (of_int 180) = 61%Z.
Proof.
  apply (utm_zone_range Binary64 (Examples.d (-7649) (-2))); vm_compute; reflexivity.
Defined.

Lemma distances_not_negative_witness :
  @dle Examples.A64 (of_int 0)
    (@calculateDirectDistanceToTarget Examples.A64 Examples.L64 Examples.scenario) = true
  /\ @dle Examples.A64 (of_int 0)
       (@calculatePathDistanceToTarget Examples.A64 Examples.L64 Examples.scenario) = true.
Proof.
  destruct (distances_not_negative Binary64 (L := Examples.L64) Examples.scenario)
    as [[_ D] [_ P]].
  split; [apply D | apply P]; vm_compute; reflexivity.
Defined.

Lemma drop_distance_sign_witness :
  @dlt Examples.A64 (@calculateDropDistance Examples.A64 Examples.gliding_high)
    (of_int 0) = false
  /\ @dlt Examples.A64 (of_int 0)
       (@calculateDropDistance Examples.A64 Examples.backing_high) = false.
Proof.
  split.
  - apply (proj1 (drop_distance_sign Binary64 Examples.gliding_high)).
    vm_compute. reflexivity.
  - apply (proj2 (drop_distance_sign Binary64 Examples.backing_high)).
    vm_compute. reflexivity.
Defined.

Lemma decision_without_lead_witness :
  fst (run (@recalculate Examples.A64 Examples.L64) 0 Examples.at_rest)
  = @dlt Examples.A64
      (@calculatePathDistanceToTarget Examples.A64 Examples.L64 Examples.at_rest)
      (targetRaduis Examples.at_rest).
Proof.
  destruct (decision_without_lead Binary64 (L := Examples.L64) Examples.at_rest 0)
    as [D Z].
  apply D, Z; vm_compute; reflexivity.
Defined.

Lemma no_release_without_distance_witness :
  fst (run (@recalculate Examples.A64 Examples.L64) 0 Examples.over_target) = false.
Proof.
  apply (no_release_without_distance Binary64 (L := Examples.L64) Examples.over_target 0).
  right; right; right. vm_compute. reflexivity.
Defined.

(** ** The communicator *)

Section CommunicatorFacts.
Import Comm.
Variable fmt : format.
Context {L : Libm (ieee fmt)} {F : Firmware} {SU : Startup}.

Lemma app_nonempty_neq {T : Type} (l l' : list T) : l' <> [] -> l ++ l' <> l.
Proof.
  intros N E. apply (f_equal (@List.length T)) in E.
  rewrite length_app in E. destruct l'; [contradiction | cbn in E; lia].
Qed.

(** *** Running statements *)

Section Wp.
Variable out : Prop.
Context {R : Type}.
Variable Q : R -> World fmt -> Prop.
Variable w : World fmt.

Lemma wp_ret (r : R) : wp out (ret r) Q w = Q r w.
Proof. reflexivity. Qed.

Lemma wp_bind {S : Type} (m : stmt fmt S) (k : S -> stmt fmt R) :
  wp out (bind m k) Q w = wp out m (fun r w' => wp out (k r) Q w') w.
Proof. unfold wp, bind. destruct (m w) as [[r w']|]; reflexivity. Qed.

Lemma wp_get (field : Communicator -> R) :
  wp out (get field) Q w = Q (field (this w)) w.
Proof. reflexivity. Qed.

Lemma wp_read (field : World fmt -> R) : wp out (read field) Q w = Q (field w) w.
Proof. reflexivity. Qed.

Lemma wp_out_of_bounds : wp out out_of_bounds Q w = out.
Proof. reflexivity. Qed.

Lemma wp_if (c : bool) (m1 m2 : stmt fmt R) :
  wp out (if c then m1 else m2) Q w = if c then wp out m1 Q w else wp out m2 Q w.
Proof. destruct c; reflexivity. Qed.

Lemma wp_element (array : list R) (i : Z) (x : R) :
  nth_error array (Z.to_nat i) = Some x -> 0 <= i ->
  wp out (element array i) Q w = Q x w.
Proof.
  intros E Hi. unfold element.
  assert (Hl : i < Z.of_nat (List.length array)).
  { assert (Z.to_nat i < List.length array)%nat
      by (apply nth_error_Some; congruence). lia. }
  destruct (Z.leb_spec 0 i); [|lia]. destruct (Z.ltb_spec i (Z.of_nat (List.length array))); [|lia].
  cbn [andb]. rewrite E. reflexivity.
Qed.

Lemma wp_call_targeter (m : method (ieee fmt) R) :
  wp out (call_targeter m) Q w
  = Q (fst (run m (ulong (millis_at (millis_calls w))) (targeter w)))
      (set_targeter (snd (run m (ulong (millis_at (millis_calls w))) (targeter w)))
         (set_millis_calls (S (millis_calls w)) w)).
Proof.
  unfold wp, call_targeter, bind, millis, read. cbn.
  destruct (run m _ _) as [r t']. reflexivity.
Qed.

End Wp.

Section WpUnit.
Variable out : Prop.
Variable Q : unit -> World fmt -> Prop.
Variable w : World fmt.

Lemma wp_put (upd : Communicator -> Communicator) :
  wp out (put upd) Q w = Q tt (set_this upd w).
Proof. reflexivity. Qed.

Lemma wp_write (upd : World fmt -> World fmt) : wp out (write upd) Q w = Q tt (upd w).
Proof. reflexivity. Qed.

Lemma wp_when (c : bool) (m : stmt fmt unit) :
  wp out (when c m) Q w = if c then wp out m Q w else Q tt w.
Proof. destruct c; reflexivity. Qed.

Lemma wp_XBEE_write (data : list byte) :
  wp out (XBEE_write data) Q w = Q tt (set_XBEE_sent (XBEE_sent w ++ data) w).
Proof. reflexivity. Qed.

Lemma wp_output (o : Output) :
  wp out (output o) Q w = Q tt (set_outputs (outputs w ++ [o]) w).
Proof. reflexivity. Qed.

Lemma wp_sendMessage (message : byte) :
  wp out (sendMessage message) Q w
  = Q tt (set_XBEE_sent (XBEE_sent w ++ ["*"; message; "e"; "e"]%char) w).
Proof.
  unfold sendMessage, wp, bind, XBEE_write, read, write. cbn.
  rewrite <- !app_assoc. destruct w. reflexivity.
Qed.

End WpUnit.

Lemma wp_millis (out : Prop) (Q : Z -> World fmt -> Prop) (w : World fmt) :
  wp out millis Q w
  = Q (ulong (millis_at (millis_calls w))) (set_millis_calls (S (millis_calls w)) w).
Proof. reflexivity. Qed.

Lemma wp_conseq {R : Type} (out : Prop) (m : stmt fmt R)
    (Q Q' : R -> World fmt -> Prop) (w : World fmt) :
  (forall r w', Q r w' -> Q' r w') -> wp out m Q w -> wp out m Q' w.
Proof. unfold wp. destruct (m w) as [[r w']|]; auto. Qed.

Lemma wp_returns {R : Type} (m : stmt fmt R) (Q : R -> World fmt -> Prop)
    (w : World fmt) :
  wp False m Q w <-> exists r w', m w = Some (r, w') /\ Q r w'.
Proof.
  unfold wp. destruct (m w) as [[r w']|]; split.
  - intros H. exists r, w'. auto.
  - intros (r0 & w0 & E & H). injection E as -> ->. exact H.
  - contradiction.
  - intros (r0 & w0 & E & _). discriminate E.
Qed.

Lemma wp_partial {R : Type} (m : stmt fmt R) (Q : R -> World fmt -> Prop)
    (w : World fmt) :
  wp True m Q w <-> forall r w', m w = Some (r, w') -> Q r w'.
Proof.
  unfold wp. destruct (m w) as [[r w']|]; split.
  - intros H r0 w0 E. injection E as <- <-. exact H.
  - intros H. apply H. reflexivity.
  - intros _ r0 w0 E. discriminate E.
  - intros _. exact I.
Qed.

Lemma wp_weaken {R : Type} (m : stmt fmt R) (Q : R -> World fmt -> Prop)
    (w : World fmt) :
  wp False m Q w -> wp True m Q w.
Proof. unfold wp. destruct (m w) as [[r w']|]; auto. Qed.

Lemma wp_eq_run {R : Type} (m : stmt fmt R) (w : World fmt) (r1 : R)
    (w1 : World fmt) :
  (forall Q : R -> World fmt -> Prop, wp False m Q w = Q r1 w1) ->
  m w = Some (r1, w1).
Proof.
  intros H. specialize (H (fun r w' => Some (r, w') = Some (r1, w1))).
  unfold wp in H. destruct (m w) as [[r w']|].
  - rewrite H. reflexivity.
  - exfalso. rewrite H. reflexivity.
Qed.

Ltac simpl_world :=
  cbv beta iota delta
    [set_this set_targeter set_GPS set_XBEE_received set_XBEE_sent
     set_GPS_received set_GPS_sent set_outputs set_millis_calls
     set_altitude set_roll set_pitch
     set_altitudeAtDrop set_timeAtDrop set_dropBayServoPos set_autoDrop
     set_reset set_restart set_nmeaBuf set_nmeaBufInd set_newParsedData
     set_currentTargeterDataPoint
     this targeter GPS XBEE_received XBEE_sent GPS_received GPS_sent outputs
     millis_calls
     altitude roll pitch altitudeAtDrop timeAtDrop dropBayServoPos autoDrop
     reset restart nmeaBuf nmeaBufInd newParsedData currentTargeterDataPoint] in *.

Ltac wp_run :=
  repeat (first [ rewrite wp_bind | rewrite wp_ret | rewrite wp_get
                | rewrite wp_read | rewrite wp_put | rewrite wp_write
                | rewrite wp_when | rewrite wp_XBEE_write | rewrite wp_output
                | rewrite wp_sendMessage | rewrite wp_millis
                | rewrite wp_call_targeter | rewrite wp_out_of_bounds ];
          cbv beta).

(** The same, on a world given by its fields. *)
Ltac wp_go := wp_run; simpl_world.

Ltac open_world w :=
  let c := fresh "c" in
  destruct w as [c t g xr xs gr gs o n];
  destruct c as [alt rol pit aad tad pos auto rst rsr buf ind npd idx].

(** *** The drop bay *)

(** The world [dropNow] leaves when it closes the bay, and when it opens it. *)
Lemma wp_dropNow (out : Prop) (src state : Z) (Q : unit -> World fmt -> Prop)
    (w : World fmt) :
  wp out (dropNow src state) Q w
  = if (src =? 1) && Bool.eqb (autoDrop (this w)) false && (state =? 1)
    then Q tt w
    else if state =? 0
    then Q tt (set_outputs
                 (outputs w ++ [digitalWrite STATUS_LED_PIN false;
                                writeMicroseconds DROP_BAY_CLOSED])
                 (set_XBEE_sent (XBEE_sent w ++ ["*"; "c"; "e"; "e"]%char)
                    (set_this (set_dropBayServoPos DROP_BAY_CLOSED) w)))
    else Q tt (set_outputs
                 (outputs w ++ [digitalWrite STATUS_LED_PIN true;
                                writeMicroseconds DROP_BAY_OPEN])
                 (set_XBEE_sent (XBEE_sent w ++ ["*"; "o"; "e"; "e"]%char)
                    (set_millis_calls (S (millis_calls w))
                       (set_this
                          (fun c =>
                             set_timeAtDrop (ulong (millis_at (millis_calls w)))
                               (set_altitudeAtDrop (altitude c)
                                  (set_dropBayServoPos DROP_BAY_OPEN c))) w)))).
Proof.
  unfold dropNow. wp_run.
  destruct ((src =? 1) && Bool.eqb (autoDrop (this w)) false && (state =? 1));
    wp_run; [reflexivity|].
  destruct (state =? 0); wp_run; open_world w; cbn; rewrite <- !app_assoc; reflexivity.
Qed.

(** X9. [dropNow] always returns, and it leaves everything as it was in
    one case only: an automatic request (source 1) to open (state 1)
    while [autoDrop] is off.  Every other call writes the LED and then
    the servo and sends the message of the new position: low, the closed
    pulse and "*cee" for state 0; high, the open pulse and "*oee", with
    the altitude and the clock noted, for any other state. *)
Theorem dropNow_protection (w : World fmt) (src state : Z) :
  exists w' : World fmt,
    dropNow src state w = Some (tt, w')
    /\ (w' = w <-> src = 1 /\ state = 1 /\ autoDrop (this w) = false)
    /\ (~ (src = 1 /\ state = 1 /\ autoDrop (this w) = false) ->
        let open := negb (state =? 0) in
        outputs w'
        = outputs w
          ++ [digitalWrite STATUS_LED_PIN open;
              writeMicroseconds (if open then DROP_BAY_OPEN else DROP_BAY_CLOSED)]
        /\ XBEE_sent w'
           = XBEE_sent w
             ++ ["*"%char;
                 if open then MESSAGE_DROP_OPEN else MESSAGE_DROP_CLOSE;
                 "e"%char; "e"%char]
        /\ dropBayServoPos (this w')
           = (if open then DROP_BAY_OPEN else DROP_BAY_CLOSED)
        /\ (if open
            then altitudeAtDrop (this w') = altitude (this w)
                 /\ timeAtDrop (this w') = ulong (millis_at (millis_calls w))
                 /\ millis_calls w' = S (millis_calls w)
            else altitudeAtDrop (this w') = altitudeAtDrop (this w)
                 /\ timeAtDrop (this w') = timeAtDrop (this w)
                 /\ millis_calls w' = millis_calls w)).
Proof.
  assert (H : wp False (dropNow src state)
                (fun _ w' =>
                   (w' = w <-> src = 1 /\ state = 1 /\ autoDrop (this w) = false)
                   /\ (~ (src = 1 /\ state = 1 /\ autoDrop (this w) = false) ->
                       outputs w'
                       = outputs w
                         ++ [digitalWrite STATUS_LED_PIN (negb (state =? 0));
                             writeMicroseconds
                               (if negb (state =? 0)
                                then DROP_BAY_OPEN else DROP_BAY_CLOSED)]
                       /\ XBEE_sent w'
                          = XBEE_sent w
                            ++ ["*"%char;
                                if negb (state =? 0)
                                then MESSAGE_DROP_OPEN else MESSAGE_DROP_CLOSE;
                                "e"%char; "e"%char]
                       /\ dropBayServoPos (this w')
                          = (if negb (state =? 0)
                             then DROP_BAY_OPEN else DROP_BAY_CLOSED)
                       /\ (if negb (state =? 0)
                           then altitudeAtDrop (this w') = altitude (this w)
                                /\ timeAtDrop (this w')
                                   = ulong (millis_at (millis_calls w))
                                /\ millis_calls w' = S (millis_calls w)
                           else altitudeAtDrop (this w') = altitudeAtDrop (this w)
                                /\ timeAtDrop (this w') = timeAtDrop (this w)
                                /\ millis_calls w' = millis_calls w))) w).
  { rewrite wp_dropNow.
    assert (Moved : forall w' : World fmt,
               XBEE_sent w' <> XBEE_sent w ->
               ~ (src = 1 /\ state = 1 /\ autoDrop (this w) = false) ->
               (w' = w <-> src = 1 /\ state = 1 /\ autoDrop (this w) = false)).
    { intros w' D N. split; [intros ->; contradiction | intros G; contradiction]. }
    destruct ((src =? 1) && Bool.eqb (autoDrop (this w)) false && (state =? 1))
      eqn:G.
    - apply andb_true_iff in G. destruct G as [G G3].
      apply andb_true_iff in G. destruct G as [G1 G2].
      apply Z.eqb_eq in G1, G3. apply Bool.eqb_prop in G2.
      split; [tauto|]. intros N. exfalso. apply N. auto.
    - assert (N : ~ (src = 1 /\ state = 1 /\ autoDrop (this w) = false)).
      { intros (-> & -> & A). rewrite A in G. discriminate G. }
      destruct (state =? 0); cbn [negb].
      + split.
        * apply Moved; [|exact N]. open_world w. cbn.
          apply app_nonempty_neq. discriminate.
        * intros _. open_world w. cbn. rewrite <- ?app_assoc. repeat split; reflexivity.
      + split.
        * apply Moved; [|exact N]. open_world w. cbn.
          apply app_nonempty_neq. discriminate.
        * intros _. open_world w. cbn. rewrite <- ?app_assoc. repeat split; reflexivity. }
  apply wp_returns in H. destruct H as ([] & w' & E & H).
  exists w'. split; [exact E | exact H].
Qed.

Lemma last_pulse_app (l l' : list Output) :
  last_pulse (l ++ l')
  = match last_pulse l' with Some us => Some us | None => last_pulse l end.
Proof.
  induction l as [|o l IH]; cbn [app last_pulse].
  - destruct (last_pulse l'); reflexivity.
  - rewrite IH. destruct (last_pulse l'); reflexivity.
Qed.

Lemma last_level_app (pin : Z) (l l' : list Output) :
  last_level pin (l ++ l')
  = match last_level pin l' with Some h => Some h | None => last_level pin l end.
Proof.
  induction l as [|o l IH]; cbn [app last_level].
  - destruct (last_level pin l'); reflexivity.
  - rewrite IH. destruct (last_level pin l'); reflexivity.
Qed.

Lemma dropNow_in_step (out : Prop) (src state : Z) (w : World fmt) :
  bay_in_step w -> wp out (dropNow src state) (fun _ w' => bay_in_step w') w.
Proof.
  intros B. rewrite wp_dropNow.
  destruct ((src =? 1) && Bool.eqb (autoDrop (this w)) false && (state =? 1));
    [exact B|].
  destruct (state =? 0); open_world w; unfold bay_in_step; cbn;
    rewrite last_pulse_app, last_level_app; cbn; rewrite Z.eqb_refl; auto.
Qed.

Lemma bay_in_step_frame (w w' : World fmt) :
  dropBayServoPos (this w') = dropBayServoPos (this w) ->
  outputs w' = outputs w ->
  bay_in_step w -> bay_in_step w'.
Proof. unfold bay_in_step. intros -> ->. auto. Qed.

Lemma bay_in_step_after (w' : World fmt) (l : list Output) (p : Z) :
  dropBayServoPos (this w') = p ->
  outputs w' = l ++ [digitalWrite STATUS_LED_PIN (p =? DROP_BAY_OPEN);
                     writeMicroseconds p] ->
  p = DROP_BAY_OPEN \/ p = DROP_BAY_CLOSED ->
  bay_in_step w'.
Proof.
  unfold bay_in_step. intros -> -> H.
  rewrite last_pulse_app, last_level_app. cbn. rewrite Z.eqb_refl. auto.
Qed.

Lemma wp_element_intro {R : Type} (out : Prop) (array : list R) (i : Z)
    (Q : R -> World fmt -> Prop) (w : World fmt) :
  out \/ 0 <= i < Z.of_nat (List.length array) ->
  (forall x : R, nth_error array (Z.to_nat i) = Some x -> Q x w) ->
  wp out (element array i) Q w.
Proof.
  intros H K. unfold element.
  destruct (Z.leb_spec 0 i) as [L0|L0], (Z.ltb_spec i (Z.of_nat (List.length array))) as [L1|L1];
    cbn [andb]; try (destruct H as [H|H]; [exact H | lia]).
  destruct (nth_error array (Z.to_nat i)) as [x|] eqn:E.
  - apply K. reflexivity.
  - apply nth_error_None in E. lia.
Qed.

Ltac bay_step :=
  let B := fresh "B" in
  intros B; unfold bay_in_step in *; simpl_world;
  rewrite ?last_pulse_app, ?last_level_app; cbn; rewrite ?Z.eqb_refl; auto.

Ltac recalc_leaf :=
  repeat match goal with |- _ /\ _ => split end;
  try reflexivity;
  try solve [bay_step];
  try solve [intros; discriminate];
  try solve [let Hb := fresh "Hb" in
             intros Hb; specialize (Hb eq_refl);
             first [ match goal with
                     | |- 0 = ?a mod 5 => replace a with 5 by lia; reflexivity
                     end
                   | symmetry; apply Z.mod_small; lia ]];
  try solve [intros; repeat split; reflexivity].

(** What [recalculateTargettingNow] leaves as it was, and what it keeps. *)
Lemma recalculateTargettingNow_frame (out : Prop) (withNewData : bool) (w : World fmt) :
  out \/ test_point_in_bounds w ->
  wp out (recalculateTargettingNow withNewData)
    (fun _ w' =>
       (nmeaBuf (this w') = nmeaBuf (this w)
        /\ nmeaBufInd (this w') = nmeaBufInd (this w)
        /\ newParsedData (this w') = newParsedData (this w)
        /\ GPS w' = GPS w
        /\ GPS_received w' = GPS_received w
        /\ XBEE_received w' = XBEE_received w
        /\ altitude (this w') = altitude (this w)
        /\ autoDrop (this w') = autoDrop (this w)
        /\ reset (this w') = reset (this w)
        /\ restart (this w') = restart (this w))
       /\ (bay_in_step w -> bay_in_step w')
       /\ (if Targeter_Test
           then test_point_in_bounds w ->
                currentTargeterDataPoint (this w')
                = (currentTargeterDataPoint (this w) + 1) mod NUM_TARGETER_DATAPTS fmt
           else currentTargeterDataPoint (this w')
                = currentTargeterDataPoint (this w))
       /\ (autoDrop (this w) = false ->
           outputs w' = outputs w /\ XBEE_sent w' = XBEE_sent w
           /\ dropBayServoPos (this w') = dropBayServoPos (this w)
           /\ timeAtDrop (this w') = timeAtDrop (this w)
           /\ altitudeAtDrop (this w') = altitudeAtDrop (this w))) w.
Proof.
  intros H. unfold recalculateTargettingNow, test_point_in_bounds in *.
  assert (N5 : NUM_TARGETER_DATAPTS fmt = 5) by reflexivity.
  rewrite N5 in *. clear N5.
  open_world w. simpl_world.
  destruct Targeter_Test eqn:TT; wp_go.
  - assert (B : out \/ -1 <= idx < 5) by (destruct H as [H|H]; auto).
    clear H.
    destruct (Z.eqb_spec (idx + 1) 5) as [E5|N5]; destruct withNewData; wp_go.
    all: repeat (apply wp_element_intro;
                 [destruct B as [B|B]; [left; exact B | right; cbn; lia]
                 | intros ? _; wp_go]).
    all: match goal with
         | |- if ?c then _ else _ => destruct c eqn:RA
         end.
    all: try (apply andb_true_iff in RA; destruct RA as [_ ->]).
    all: try rewrite wp_dropNow; simpl_world; cbn [Z.eqb Pos.eqb andb Bool.eqb].
    all: recalc_leaf.
  - destruct withNewData; wp_go.
    all: match goal with
         | |- if ?c then _ else _ => destruct c eqn:RA
         end.
    all: try (apply andb_true_iff in RA; destruct RA as [_ ->]).
    all: try rewrite wp_dropNow; simpl_world; cbn [Z.eqb Pos.eqb andb Bool.eqb].
    all: recalc_leaf.
Qed.

(** X10. In the debug build the index of the test data steps through
    0, 1, 2, 3, 4 and back to 0: from -1 (its initial value) or an index
    of the arrays, [recalculateTargettingNow] returns, never reads
    outside the arrays, and leaves the next index. *)
Theorem test_data_point_cycles (w : World fmt) (withNewData : bool) :
  Targeter_Test = true ->
  -1 <= currentTargeterDataPoint (this w) < 5 ->
  exists w' : World fmt,
    recalculateTargettingNow withNewData w = Some (tt, w')
    /\ currentTargeterDataPoint (this w')
       = (currentTargeterDataPoint (this w) + 1) mod 5
    /\ 0 <= currentTargeterDataPoint (this w') < 5.
Proof.
  intros TT B.
  assert (T : test_point_in_bounds w) by (intros _; exact B).
  pose proof (recalculateTargettingNow_frame False withNewData w (or_intror T)) as H.
  apply wp_returns in H. destruct H as ([] & w' & E & _ & _ & I & _).
  rewrite TT in I. specialize (I T).
  exists w'. split; [exact E|]. split; [exact I|].
  rewrite I. apply Z.mod_pos_bound. lia.
Qed.

(** X11. While [autoDrop] is off, [recalculateTargettingNow] leaves the
    drop bay alone: it returns, and the position, the time and the
    altitude of the drop, what was written to the servo and the LED, and
    what was sent to the ground station are as they were, whatever the
    targeter decides. *)
Theorem no_automatic_drop_when_off (w : World fmt) (withNewData : bool) :
  autoDrop (this w) = false ->
  test_point_in_bounds w ->
  exists w' : World fmt,
    recalculateTargettingNow withNewData w = Some (tt, w')
    /\ outputs w' = outputs w /\ XBEE_sent w' = XBEE_sent w
    /\ dropBayServoPos (this w') = dropBayServoPos (this w)
    /\ timeAtDrop (this w') = timeAtDrop (this w)
    /\ altitudeAtDrop (this w') = altitudeAtDrop (this w).
Proof.
  intros A T.
  pose proof (recalculateTargettingNow_frame False withNewData w (or_intror T)) as H.
  apply wp_returns in H. destruct H as ([] & w' & E & _ & _ & _ & Off).
  exists w'. split; [exact E | exact (Off A)].
Qed.

(** X12. Outside the debug build, [recalculateTargettingNow] returns; with
    new data the targeter holds the position, speed and heading of the
    GPS, the altitude of the communicator and the clock, and without it
    is as it was; and the bay is opened, with the altitude and the time
    noted and the message sent, exactly when the decision of the
    targeter for what it then holds is true and [autoDrop] is on. *)
Theorem automatic_drop_on_decision (w : World fmt) (withNewData : bool) :
  Targeter_Test = false ->
  let g := GPS w in
  let k := millis_calls w in
  let t' :=
    if withNewData
    then @with_current (ieee fmt) (of_float fmt (latitude g)) (of_float fmt (longitude g))
           (altitude (this w)) (of_float fmt (speed g)) (of_float fmt (angle g))
           (@of_int (ieee fmt) (ulong (millis_at k))) (targeter w)
    else targeter w in
  exists w' : World fmt,
    recalculateTargettingNow withNewData w = Some (tt, w')
    /\ targeter w' = t'
    /\ if @decision (ieee fmt) L t' && autoDrop (this w)
       then dropBayServoPos (this w') = DROP_BAY_OPEN
            /\ altitudeAtDrop (this w') = altitude (this w)
            /\ timeAtDrop (this w')
               = ulong (millis_at (if withNewData then S (S k) else S k))
            /\ XBEE_sent w' = XBEE_sent w ++ ["*"; "o"; "e"; "e"]%char
            /\ outputs w'
               = outputs w ++ [digitalWrite STATUS_LED_PIN true;
                               writeMicroseconds DROP_BAY_OPEN]
       else dropBayServoPos (this w') = dropBayServoPos (this w)
            /\ altitudeAtDrop (this w') = altitudeAtDrop (this w)
            /\ timeAtDrop (this w') = timeAtDrop (this w)
            /\ XBEE_sent w' = XBEE_sent w
            /\ outputs w' = outputs w.
Proof.
  intros TT g k t'. subst g k t'.
  assert (H : wp False (recalculateTargettingNow withNewData)
                (fun (r : unit) (w' : World fmt) =>
                   exists w'' : World fmt, Some (r, w') = Some (tt, w'')
    /\ targeter w'' =
    (if withNewData
    then @with_current (ieee fmt) (of_float fmt (latitude (GPS w))) (of_float fmt (longitude (GPS w)))
           (altitude (this w)) (of_float fmt (speed (GPS w))) (of_float fmt (angle (GPS w)))
           (@of_int (ieee fmt) (ulong (millis_at (millis_calls w)))) (targeter w)
    else targeter w)
    /\ if @decision (ieee fmt) L (if withNewData
    then @with_current (ieee fmt) (of_float fmt (latitude (GPS w))) (of_float fmt (longitude (GPS w)))
           (altitude (this w)) (of_float fmt (speed (GPS w))) (of_float fmt (angle (GPS w)))
           (@of_int (ieee fmt) (ulong (millis_at (millis_calls w)))) (targeter w)
    else targeter w) && autoDrop (this w)
       then dropBayServoPos (this w'') = DROP_BAY_OPEN
            /\ altitudeAtDrop (this w'') = altitude (this w)
            /\ timeAtDrop (this w'')
               = ulong (millis_at (if withNewData then S (S (millis_calls w)) else S (millis_calls w)))
            /\ XBEE_sent w'' = XBEE_sent w ++ ["*"; "o"; "e"; "e"]%char
            /\ outputs w''
               = outputs w ++ [digitalWrite STATUS_LED_PIN true;
                               writeMicroseconds DROP_BAY_OPEN]
       else dropBayServoPos (this w'') = dropBayServoPos (this w)
            /\ altitudeAtDrop (this w'') = altitudeAtDrop (this w)
            /\ timeAtDrop (this w'') = timeAtDrop (this w)
            /\ XBEE_sent w'' = XBEE_sent w
            /\ outputs w'' = outputs w) w).
  { unfold recalculateTargettingNow. rewrite TT.
    open_world w. simpl_world.
    destruct withNewData; wp_go;
      rewrite ?run_setCurrentData, ?run_recalculate; cbn [fst snd];
      match goal with
      | |- context [@decision ?A ?L0 ?t0] => destruct (@decision A L0 t0)
      end;
      destruct auto; cbn [andb];
      try rewrite wp_dropNow; simpl_world; cbn [Z.eqb Pos.eqb andb Bool.eqb];
      eexists; (split; [reflexivity|]); simpl_world; (split; [reflexivity|]);
      repeat split; reflexivity. }
  unfold wp in H.
  destruct (recalculateTargettingNow withNewData w) as [[r w']|]; [exact H | contradiction].
Qed.

(** X13. The bay is closed in a window of ten seconds.  With the bay open
    since [t0] and the clock at [t0 + d] ([d] below 2^32, the clock
    having wrapped around or not), [checkToCloseDropBay] reads the clock
    once, and closes the bay, with the LED off and the message sent,
    exactly when [closeDropBayTimeout <= d < closeDropBayTimeout + 10000];
    before the window and after it, it leaves the bay open. *)
Theorem drop_bay_closing_window (w : World fmt) (t0 d : Z) :
  0 <= closeDropBayTimeout ->
  closeDropBayTimeout + 10000 <= 32767 ->
  dropBayServoPos (this w) = DROP_BAY_OPEN ->
  timeAtDrop (this w) = ulong t0 ->
  millis_at (millis_calls w) = t0 + d ->
  0 <= d < 2 ^ 32 ->
  exists w' : World fmt,
    checkToCloseDropBay w = Some (tt, w')
    /\ millis_calls w' = S (millis_calls w)
    /\ if (closeDropBayTimeout <=? d) && (d <? closeDropBayTimeout + 10000)
       then dropBayServoPos (this w') = DROP_BAY_CLOSED
            /\ XBEE_sent w' = XBEE_sent w ++ ["*"; "c"; "e"; "e"]%char
            /\ outputs w'
               = outputs w ++ [digitalWrite STATUS_LED_PIN false;
                               writeMicroseconds DROP_BAY_CLOSED]
       else this w' = this w
            /\ XBEE_sent w' = XBEE_sent w
            /\ outputs w' = outputs w.
Proof.
  intros T0 T1 Open At Now Hd.
  assert (E : ulong (ulong (t0 + d) - ulong t0) = d).
  { unfold ulong. rewrite <- Zminus_mod.
    replace (t0 + d - t0) with d by ring. apply Z.mod_small. exact Hd. }
  assert (H : wp False checkToCloseDropBay
                (fun (r : unit) (w' : World fmt) =>
                   exists w'' : World fmt,
                     Some (r, w') = Some (tt, w'')
                     /\ millis_calls w'' = S (millis_calls w)
                     /\ if (closeDropBayTimeout <=? d) && (d <? closeDropBayTimeout + 10000)
                        then dropBayServoPos (this w'') = DROP_BAY_CLOSED
                             /\ XBEE_sent w'' = XBEE_sent w ++ ["*"; "c"; "e"; "e"]%char
                             /\ outputs w''
                                = outputs w ++ [digitalWrite STATUS_LED_PIN false;
                                                writeMicroseconds DROP_BAY_CLOSED]
                        else this w'' = this w
                             /\ XBEE_sent w'' = XBEE_sent w
                             /\ outputs w'' = outputs w) w).
  { unfold checkToCloseDropBay. wp_run. rewrite Open, Z.eqb_refl. wp_run.
    replace (timeAtDrop (this (set_millis_calls (S (millis_calls w)) w)))
      with (ulong t0) by (rewrite <- At; destruct w; reflexivity).
    rewrite Now, E.
    replace (ulong closeDropBayTimeout) with closeDropBayTimeout
      by (symmetry; apply Z.mod_small; lia).
    replace (ulong (closeDropBayTimeout + 10000)) with (closeDropBayTimeout + 10000)
      by (symmetry; apply Z.mod_small; lia).
    rewrite Z.geb_leb.
    destruct ((closeDropBayTimeout <=? d) && (d <? closeDropBayTimeout + 10000)).
    - rewrite wp_dropNow. cbn [Z.eqb andb].
      eexists. split; [reflexivity|]. open_world w. cbn. auto.
    - wp_run. eexists. split; [reflexivity|]. open_world w. cbn. auto. }
  unfold wp in H.
  destruct (checkToCloseDropBay w) as [[r w']|]; [exact H | contradiction].
Qed.

(** *** What the main loop keeps *)

Lemma wp_seq {R S : Type} (out : Prop) (m : stmt fmt R) (k : R -> stmt fmt S)
    (P : R -> World fmt -> Prop) (Q : S -> World fmt -> Prop) (w : World fmt) :
  wp out m P w ->
  (forall r w', P r w' -> wp out (k r) Q w') ->
  wp out (bind m k) Q w.
Proof. intros H K. rewrite wp_bind. eapply wp_conseq; [exact K | exact H]. Qed.

Lemma keeps_ret {R : Type} (P : World fmt -> Prop) (r : R) : keeps P (ret r).
Proof. intros w H. exact H. Qed.

Lemma keeps_bind {R S : Type} (P : World fmt -> Prop) (m : stmt fmt R)
    (k : R -> stmt fmt S) :
  keeps P m -> (forall r, keeps P (k r)) -> keeps P (bind m k).
Proof.
  intros Hm Hk w H. eapply wp_seq; [apply Hm; exact H|].
  intros r w' H'. apply Hk. exact H'.
Qed.

Lemma keeps_when (P : World fmt -> Prop) (c : bool) (m : stmt fmt unit) :
  keeps P m -> keeps P (when c m).
Proof. intros Hm. destruct c; [exact Hm | apply keeps_ret]. Qed.

Lemma keeps_get {R : Type} (P : World fmt -> Prop) (field : Communicator -> R) :
  keeps P (get field).
Proof. intros w H. exact H. Qed.

Lemma keeps_read {R : Type} (P : World fmt -> Prop) (field : World fmt -> R) :
  keeps P (read field).
Proof. intros w H. exact H. Qed.

Lemma keeps_returns {R : Type} (P : World fmt -> Prop) (m : stmt fmt R)
    (w : World fmt) :
  keeps P m -> P w -> exists r w', m w = Some (r, w') /\ P w'.
Proof. intros K H. apply wp_returns. apply K. exact H. Qed.

Lemma in_order_frame (w w' : World fmt) :
  dropBayServoPos (this w') = dropBayServoPos (this w) ->
  outputs w' = outputs w ->
  nmeaBuf (this w') = nmeaBuf (this w) ->
  nmeaBufInd (this w') = nmeaBufInd (this w) ->
  currentTargeterDataPoint (this w') = currentTargeterDataPoint (this w) ->
  in_order w -> in_order w'.
Proof.
  unfold in_order, bay_in_step, buffer_in_bounds, test_point_in_bounds.
  intros -> -> -> -> ->. auto.
Qed.

Lemma keeps_XBEE_write (data : list byte) : keeps (fmt := fmt) in_order (XBEE_write data).
Proof.
  intros w H. rewrite wp_XBEE_write.
  revert H. apply in_order_frame; destruct w; reflexivity.
Qed.

Lemma keeps_sendMessage (message : byte) : keeps (fmt := fmt) in_order (sendMessage message).
Proof.
  intros w H. rewrite wp_sendMessage.
  revert H. apply in_order_frame; destruct w; reflexivity.
Qed.

(** One statement of a sequence. *)
Ltac keeps_step :=
  lazymatch goal with
  | |- keeps _ (bind _ _) => apply keeps_bind; [|intros ?]
  | |- keeps _ (XBEE_write _) => apply keeps_XBEE_write
  | |- keeps _ (sendMessage _) => apply keeps_sendMessage
  | |- keeps _ (get _) => apply keeps_get
  | |- keeps _ (read _) => apply keeps_read
  | |- keeps _ (ret _) => apply keeps_ret
  | |- keeps _ (when _ _) => apply keeps_when
  end.

Lemma keeps_sendData : keeps (fmt := fmt) in_order sendData.
Proof.
  unfold sendData, sendFloat, sendUint16_t, sendUint8_t.
  repeat keeps_step.
Qed.

Lemma wp_and {R : Type} (out : Prop) (m : stmt fmt R)
    (Q1 Q2 : R -> World fmt -> Prop) (w : World fmt) :
  wp out m Q1 w -> wp out m Q2 w -> wp out m (fun r w' => Q1 r w' /\ Q2 r w') w.
Proof. unfold wp. destruct (m w) as [[r w']|]; auto. Qed.

Lemma keeps_dropNow (src state : Z) : keeps (fmt := fmt) in_order (dropNow src state).
Proof.
  intros w (B & U & T).
  assert (K : wp False (dropNow src state)
                (fun _ w' => nmeaBuf (this w') = nmeaBuf (this w)
                             /\ nmeaBufInd (this w') = nmeaBufInd (this w)
                             /\ currentTargeterDataPoint (this w')
                                = currentTargeterDataPoint (this w)) w).
  { rewrite wp_dropNow.
    destruct ((src =? 1) && Bool.eqb (autoDrop (this w)) false && (state =? 1));
      [auto|].
    destruct (state =? 0); open_world w; cbn; auto. }
  eapply wp_conseq; [|exact (wp_and _ _ _ _ _ (dropNow_in_step False src state w B) K)].
  cbv beta. intros _ w' (B' & E1 & E2 & E3).
  unfold in_order, buffer_in_bounds, test_point_in_bounds.
  rewrite E1, E2, E3. auto.
Qed.

Lemma keeps_put (upd : Communicator -> Communicator) :
  (forall c, dropBayServoPos (upd c) = dropBayServoPos c
             /\ nmeaBuf (upd c) = nmeaBuf c
             /\ nmeaBufInd (upd c) = nmeaBufInd c
             /\ currentTargeterDataPoint (upd c) = currentTargeterDataPoint c) ->
  keeps (fmt := fmt) in_order (put upd).
Proof.
  intros E w H. rewrite wp_put. revert H.
  destruct (E (this w)) as (E1 & E2 & E3 & E4).
  apply in_order_frame; destruct w; cbn in *; auto.
Qed.

Lemma keeps_set_XBEE_received (l : list byte) :
  keeps (fmt := fmt) in_order (write (set_XBEE_received l)).
Proof.
  intros w H. rewrite wp_write. revert H.
  apply in_order_frame; destruct w; reflexivity.
Qed.

Lemma keeps_checkToCloseDropBay : keeps (fmt := fmt) in_order checkToCloseDropBay.
Proof.
  unfold checkToCloseDropBay.
  apply keeps_bind; [apply keeps_get | intros pos].
  destruct (pos =? DROP_BAY_OPEN); [|apply keeps_ret].
  apply keeps_bind.
  { intros w H. rewrite wp_millis. revert H.
    apply in_order_frame; destruct w; reflexivity. }
  intros now. apply keeps_bind; [apply keeps_get | intros at_drop].
  match goal with |- keeps _ (if ?c then _ else _) => destruct c end;
    [apply keeps_dropNow | apply keeps_ret].
Qed.

Lemma keeps_recalculateTargettingNow (withNewData : bool) :
  keeps (fmt := fmt) in_order (recalculateTargettingNow withNewData).
Proof.
  intros w (B & U & T).
  eapply wp_conseq;
    [|apply (recalculateTargettingNow_frame False withNewData w (or_intror T))].
  cbv beta. intros _ w' ((E1 & E2 & _) & B' & I & _).
  unfold in_order, buffer_in_bounds, test_point_in_bounds in *.
  rewrite E1, E2. split; [auto|]. split; [exact U|].
  intros TT. pose proof (T TT) as T'. rewrite TT in I. rewrite (I (fun _ => T')).
  assert (N5 : 0 < NUM_TARGETER_DATAPTS fmt) by reflexivity.
  pose proof (Z.mod_pos_bound (currentTargeterDataPoint (this w) + 1) _ N5). lia.
Qed.

Lemma keeps_recieveCommands : keeps (fmt := fmt) in_order recieveCommands.
Proof.
  unfold recieveCommands.
  apply keeps_bind; [apply keeps_read | intros [|c rest]]; [apply keeps_ret|].
  apply keeps_bind; [apply keeps_set_XBEE_received | intros _].
  apply keeps_bind.
  { destruct (Ascii.eqb c INCOME_DROP_OPEN); [apply keeps_dropNow|].
    apply keeps_when, keeps_dropNow. }
  intros _. unfold sendFloat.
  repeat lazymatch goal with
         | |- keeps _ (dropNow _ _) => apply keeps_dropNow
         | |- keeps _ sendData => apply keeps_sendData
         | |- keeps _ (put _) => apply keeps_put; intros []; cbn; auto
         | |- _ => keeps_step
         end.
Qed.

(** *** Sentences from the GPS *)

Lemma store_in_bounds (buf : list byte) (i : Z) (c : byte) :
  0 <= i < Z.of_nat (List.length buf) ->
  store buf i c
  = Some (firstn (Z.to_nat i) buf ++ c :: skipn (S (Z.to_nat i)) buf).
Proof.
  intros H. unfold store.
  destruct (Z.leb_spec 0 i); [|lia].
  destruct (Z.ltb_spec i (Z.of_nat (List.length buf))); [|lia]. reflexivity.
Qed.

Lemma stored_length (buf : list byte) (n : nat) (c : byte) :
  (n < List.length buf)%nat ->
  List.length (firstn n buf ++ c :: skipn (S n) buf) = List.length buf.
Proof.
  intros H. rewrite length_app, length_firstn. cbn [List.length].
  rewrite length_skipn. lia.
Qed.

Lemma stored_nth (buf : list byte) (n : nat) (c : byte) :
  (n < List.length buf)%nat ->
  nth_error (firstn n buf ++ c :: skipn (S n) buf) n = Some c.
Proof.
  intros H. rewrite nth_error_app2; rewrite length_firstn; [|lia].
  replace (n - Nat.min n (List.length buf))%nat with O by lia. reflexivity.
Qed.

Lemma stored_twice (buf : list byte) (n : nat) (c c' : byte) :
  (n < List.length buf)%nat ->
  let buf' := firstn n buf ++ c :: skipn (S n) buf in
  firstn n buf' ++ c' :: skipn (S n) buf' = firstn n buf ++ c' :: skipn (S n) buf.
Proof.
  intros H buf'. subst buf'.
  assert (Ln : List.length (firstn n buf) = n) by (rewrite length_firstn; lia).
  rewrite firstn_app, Ln, Nat.sub_diag, firstn_firstn, Nat.min_id.
  cbn [firstn]. rewrite app_nil_r. f_equal. f_equal.
  rewrite skipn_app, Ln.
  replace (S n - n)%nat with 1%nat by lia.
  rewrite (skipn_all2 (firstn n buf)) by lia. reflexivity.
Qed.

Lemma wp_store_nmeaBuf (out : Prop) (Q : unit -> World fmt -> Prop)
    (w : World fmt) (i : Z) (c : byte) :
  0 <= i < Z.of_nat (List.length (nmeaBuf (this w))) ->
  wp out (store_nmeaBuf i c) Q w
  = Q tt (set_this
            (set_nmeaBuf (firstn (Z.to_nat i) (nmeaBuf (this w))
                          ++ c :: skipn (S (Z.to_nat i)) (nmeaBuf (this w)))) w).
Proof.
  intros H. unfold store_nmeaBuf. rewrite wp_bind, wp_get.
  rewrite (store_in_bounds _ _ c H). rewrite wp_put. reflexivity.
Qed.

(** A turn of the loop on a character that is no line feed: the
    character is stored and the index moves on, back to 0 at the end of
    the buffer. *)
Lemma wp_body_char (out : Prop) (Q : unit -> World fmt -> Prop)
    (w : World fmt) (c : byte) :
  buffer_in_bounds w -> c <> LF ->
  let i := nmeaBufInd (this w) in
  let buf := nmeaBuf (this w) in
  wp out (getSerialDataFromGPS_body c) Q w
  = Q tt (set_this
            (fun o =>
               set_nmeaBufInd (if i + 1 >=? MAXLINELENGTH then 0 else i + 1)
                 (set_nmeaBuf (firstn (Z.to_nat i) buf
                               ++ c :: skipn (S (Z.to_nat i)) buf) o)) w).
Proof.
  intros (Len & Ind) N i buf. subst i buf.
  unfold getSerialDataFromGPS_body.
  rewrite wp_bind, wp_get. cbv beta.
  rewrite wp_bind, wp_store_nmeaBuf by lia.
  open_world w. simpl_world.
  assert (Hn : (Z.to_nat ind < List.length buf)%nat) by lia.
  rewrite wp_bind, wp_get, wp_bind, wp_get. simpl_world.
  rewrite wp_bind, (wp_element _ _ _ _ _ c (stored_nth buf _ c Hn)) by lia.
  apply Ascii.eqb_neq in N. rewrite N.
  wp_go.
  destruct (ind + 1 >=? MAXLINELENGTH); wp_go; reflexivity.
Qed.

(** A turn of the loop on a line feed: the line feed is overwritten by
    NUL, the string in the buffer is parsed, the index is 0 again and the
    targeting is recalculated. *)
Lemma wp_body_LF (out : Prop) (Q : unit -> World fmt -> Prop) (w : World fmt) :
  buffer_in_bounds w ->
  let i := nmeaBufInd (this w) in
  let buf := nmeaBuf (this w) in
  let buf' := firstn (Z.to_nat i) buf ++ NUL :: skipn (S (Z.to_nat i)) buf in
  let r := GPS_parse (c_string buf') (GPS w) in
  wp out (getSerialDataFromGPS_body LF) Q w
  <-> wp out (recalculateTargettingNow true)
      (fun _ w'' =>
         Q tt (if nmeaBufInd (this w'') >=? MAXLINELENGTH
               then set_this (set_nmeaBufInd 0) w'' else w''))
      (set_GPS (snd r)
         (set_this
            (fun o => set_nmeaBufInd 0
                        (set_newParsedData (fst r) (set_nmeaBuf buf' o))) w)).
Proof.
  intros (Len & Ind) i buf buf' r. subst i buf buf' r.
  unfold getSerialDataFromGPS_body.
  rewrite wp_bind, wp_get. cbv beta.
  rewrite wp_bind, wp_store_nmeaBuf by lia.
  open_world w. simpl_world.
  assert (Hn : (Z.to_nat ind < List.length buf)%nat) by lia.
  rewrite wp_bind, wp_get, wp_bind, wp_get. simpl_world.
  rewrite wp_bind, (wp_element _ _ _ _ _ LF (stored_nth buf _ LF Hn)) by lia.
  rewrite wp_bind, wp_put, wp_bind. simpl_world.
  change (Ascii.eqb LF LF) with true. rewrite wp_when.
  rewrite wp_bind, wp_get. simpl_world.
  replace (ind + 1 - 1) with ind by ring.
  rewrite wp_bind, wp_store_nmeaBuf
    by (simpl_world; rewrite (stored_length buf _ LF Hn); lia).
  simpl_world. rewrite (stored_twice buf _ LF NUL Hn).
  rewrite wp_bind, wp_get, wp_bind, wp_read. simpl_world.
  destruct (GPS_parse _ g) as [parsed g'] eqn:P. cbn [fst snd].
  rewrite wp_bind, wp_write, wp_bind, wp_put, wp_bind, wp_put. simpl_world.
  split; apply wp_conseq; intros [] w''; rewrite wp_bind, wp_get, wp_when;
    simpl_world;
    match goal with
    | |- context [?a >=? MAXLINELENGTH] => destruct (a >=? MAXLINELENGTH)
    end; rewrite ?wp_put; simpl_world; auto.
Qed.

Lemma keeps_getSerialDataFromGPS_body (c : byte) :
  keeps (fmt := fmt) in_order (getSerialDataFromGPS_body c).
Proof.
  intros w (B & U & T).
  assert (Hn : (Z.to_nat (nmeaBufInd (this w)) < List.length (nmeaBuf (this w)))%nat)
    by (destruct U as (Len & Ind); unfold MAXLINELENGTH in *; lia).
  destruct (Ascii.eqb_spec c LF) as [->|N].
  - apply (wp_body_LF False _ w U).
    eapply wp_conseq; [|apply keeps_recalculateTargettingNow].
    + cbv beta. intros _ w'' H.
      destruct H as (B'' & U'' & T'').
      destruct (Z.geb_spec (nmeaBufInd (this w'')) MAXLINELENGTH) as [G|G].
      * destruct U'' as (_ & Ind''). lia.
      * exact (conj B'' (conj U'' T'')).
    + destruct U as (Len & Ind).
      open_world w. unfold in_order, bay_in_step, buffer_in_bounds, test_point_in_bounds in *.
      destruct (GPS_parse _ _) as [parsed g']. simpl_world.
      split; [exact B|]. split; [|exact T].
      rewrite (stored_length buf _ NUL Hn). unfold MAXLINELENGTH in *. lia.
  - rewrite (wp_body_char False _ w c U N).
    destruct U as (Len & Ind).
    open_world w. unfold in_order, bay_in_step, buffer_in_bounds, test_point_in_bounds in *.
    simpl_world.
    split; [exact B|]. split; [|exact T].
    rewrite (stored_length buf _ c Hn). split; [exact Len|].
    destruct (Z.geb_spec (ind + 1) MAXLINELENGTH); unfold MAXLINELENGTH in *; lia.
Qed.

Lemma keeps_getSerialDataFromGPS_loop (turns : nat) :
  keeps (fmt := fmt) in_order (getSerialDataFromGPS_loop turns).
Proof.
  induction turns as [|turns IH]; cbn [getSerialDataFromGPS_loop].
  - apply keeps_ret.
  - apply keeps_bind; [apply keeps_read | intros [|c rest]]; [apply keeps_ret|].
    apply keeps_bind.
    { intros w H. rewrite wp_write. revert H.
      apply in_order_frame; destruct w; reflexivity. }
    intros _. apply keeps_bind; [apply keeps_getSerialDataFromGPS_body | intros _].
    exact IH.
Qed.

Lemma keeps_getSerialDataFromGPS : keeps (fmt := fmt) in_order getSerialDataFromGPS.
Proof.
  unfold getSerialDataFromGPS.
  apply keeps_bind; [apply keeps_read | intros waiting].
  apply keeps_getSerialDataFromGPS_loop.
Qed.

(** X14. Every function of the main loop returns and keeps the object in
    order.  From a world where the servo and the LED show the position
    the object holds, the index of the sentence is inside the buffer
    and, in the debug build, the index of the test data is -1 or inside
    the arrays, each of them returns, none reads or writes an array
    outside its bounds, and all that holds again afterwards. *)
Theorem main_loop_keeps_order (w : World fmt) (m : stmt fmt unit)
    (src state : Z) (withNewData : bool) :
  in_order w ->
  In m [dropNow src state; checkToCloseDropBay;
        recalculateTargettingNow withNewData; recieveCommands;
        getSerialDataFromGPS; sendData] ->
  exists w' : World fmt, m w = Some (tt, w') /\ in_order w'.
Proof.
  intros H M.
  assert (K : keeps in_order m).
  { cbn [In] in M.
    destruct M as [<-|[<-|[<-|[<-|[<-|[<-|[]]]]]]].
    - apply keeps_dropNow.
    - apply keeps_checkToCloseDropBay.
    - apply keeps_recalculateTargettingNow.
    - apply keeps_recieveCommands.
    - apply keeps_getSerialDataFromGPS.
    - apply keeps_sendData. }
  destruct (keeps_returns _ _ _ K H) as ([] & w' & E & H').
  exists w'. auto.
Qed.

Lemma c_string_app_NUL (l r : list byte) : c_string (l ++ NUL :: r) = c_string l.
Proof.
  induction l as [|a l IH]; cbn [app c_string].
  - reflexivity.
  - destruct (Ascii.eqb a NUL); [reflexivity | rewrite IH; reflexivity].
Qed.

Lemma stored_firstn (buf : list byte) (n : nat) (c : byte) :
  (n < List.length buf)%nat ->
  firstn (S n) (firstn n buf ++ c :: skipn (S n) buf) = firstn n buf ++ [c].
Proof.
  intros H.
  assert (Ln : List.length (firstn n buf) = n) by (rewrite length_firstn; lia).
  rewrite firstn_app, Ln.
  replace (S n - n)%nat with 1%nat by lia.
  rewrite firstn_all2 by lia. reflexivity.
Qed.

(** The turns of the loop on characters that are no line feed and fit
    into the buffer: they are stored behind what the buffer holds. *)
Lemma loop_chars (chunk : list byte) :
  forall (turns : nat) (tail : list byte) (w : World fmt),
    ~ In LF chunk ->
    buffer_in_bounds w ->
    nmeaBufInd (this w) + Z.of_nat (List.length chunk) < MAXLINELENGTH ->
    GPS_received w = chunk ++ tail ->
    exists buf1 : list byte,
      List.length buf1 = List.length (nmeaBuf (this w))
      /\ firstn (Z.to_nat (nmeaBufInd (this w)) + List.length chunk) buf1
         = firstn (Z.to_nat (nmeaBufInd (this w))) (nmeaBuf (this w)) ++ chunk
      /\ getSerialDataFromGPS_loop (List.length chunk + turns) w
         = getSerialDataFromGPS_loop turns
             (set_GPS_received tail
                (set_this
                   (fun o =>
                      set_nmeaBufInd
                        (nmeaBufInd (this w) + Z.of_nat (List.length chunk))
                        (set_nmeaBuf buf1 o)) w)).
Proof.
  induction chunk as [|c chunk IH]; intros turns tail w N U Fit E.
  - exists (nmeaBuf (this w)). split; [reflexivity|].
    cbn [List.length app Nat.add] in *. rewrite Nat.add_0_r, app_nil_r.
    split; [reflexivity|].
    replace (nmeaBufInd (this w) + Z.of_nat 0) with (nmeaBufInd (this w)) by (cbn; ring).
    rewrite <- E. open_world w. reflexivity.
  - assert (Nc : c <> LF) by (intros ->; apply N; left; reflexivity).
    assert (N' : ~ In LF chunk) by (intros I; apply N; right; exact I).
    destruct U as (Len & Ind).
    assert (Hn : (Z.to_nat (nmeaBufInd (this w)) < List.length (nmeaBuf (this w)))%nat)
      by (unfold MAXLINELENGTH in *; lia).
    cbn [List.length] in Fit.
    pose (w1 := set_this
                  (fun o =>
                     set_nmeaBufInd (nmeaBufInd (this w) + 1)
                       (set_nmeaBuf
                          (firstn (Z.to_nat (nmeaBufInd (this w))) (nmeaBuf (this w))
                           ++ c :: skipn (S (Z.to_nat (nmeaBufInd (this w))))
                                     (nmeaBuf (this w))) o))
                  (set_GPS_received (chunk ++ tail) w)).
    assert (U1 : buffer_in_bounds w1).
    { subst w1. open_world w. unfold buffer_in_bounds. simpl_world.
      rewrite (stored_length buf _ c Hn). unfold MAXLINELENGTH in *. lia. }
    assert (I1 : nmeaBufInd (this w1) = nmeaBufInd (this w) + 1)
      by (subst w1; open_world w; reflexivity).
    assert (B1 : nmeaBuf (this w1)
                 = firstn (Z.to_nat (nmeaBufInd (this w))) (nmeaBuf (this w))
                   ++ c :: skipn (S (Z.to_nat (nmeaBufInd (this w)))) (nmeaBuf (this w)))
      by (subst w1; open_world w; reflexivity).
    assert (E1 : GPS_received w1 = chunk ++ tail)
      by (subst w1; open_world w; reflexivity).
    assert (Fit1 : nmeaBufInd (this w1) + Z.of_nat (List.length chunk) < MAXLINELENGTH)
      by (rewrite I1; lia).
    destruct (IH turns tail w1 N' U1 Fit1 E1) as (buf1 & L1 & F1 & W1).
    exists buf1. split; [|split].
    + rewrite L1, B1. apply stored_length. exact Hn.
    + rewrite I1, B1 in F1.
      replace (Z.to_nat (nmeaBufInd (this w) + 1))
        with (S (Z.to_nat (nmeaBufInd (this w)))) in F1 by lia.
      rewrite (stored_firstn _ _ c Hn), <- app_assoc in F1. cbn [app] in F1.
      cbn [List.length]. rewrite Nat.add_succ_r. exact F1.
    + assert (Bd : getSerialDataFromGPS_body c (set_GPS_received (chunk ++ tail) w)
                   = Some (tt, w1)).
      { apply wp_eq_run. intros Q.
        rewrite (wp_body_char False Q _ c); [| |exact Nc].
        2: { revert Len Ind. unfold buffer_in_bounds. open_world w. simpl_world. auto. }
        replace (nmeaBufInd (this (set_GPS_received (chunk ++ tail) w)))
          with (nmeaBufInd (this w)) by (open_world w; reflexivity).
        replace (nmeaBuf (this (set_GPS_received (chunk ++ tail) w)))
          with (nmeaBuf (this w)) by (open_world w; reflexivity).
        destruct (Z.geb_spec (nmeaBufInd (this w) + 1) MAXLINELENGTH) as [G|G]; [lia|].
        reflexivity. }
      cbn [List.length Nat.add getSerialDataFromGPS_loop].
      cbv beta delta [bind read write]. rewrite E. cbn [app]. cbv beta iota.
      rewrite Bd. rewrite W1. rewrite I1.
      replace (nmeaBufInd (this w) + 1 + Z.of_nat (List.length chunk))
        with (nmeaBufInd (this w) + Z.of_nat (S (List.length chunk))) by lia.
      subst w1. open_world w. reflexivity.
Qed.

(** X15. Part of a sentence is kept for the next call.  Characters with
    no line feed among them that fit into the buffer are all read and
    stored behind what the buffer holds, the index moves past them, and
    nothing is parsed, recalculated, sent or written. *)
Theorem partial_sentence_is_kept (w : World fmt) (chunk : list byte) :
  buffer_in_bounds w ->
  ~ In LF chunk ->
  nmeaBufInd (this w) + Z.of_nat (List.length chunk) < MAXLINELENGTH ->
  GPS_received w = chunk ->
  exists buf1 : list byte,
    getSerialDataFromGPS w
    = Some (tt, set_GPS_received []
                  (set_this
                     (fun o =>
                        set_nmeaBufInd
                          (nmeaBufInd (this w) + Z.of_nat (List.length chunk))
                          (set_nmeaBuf buf1 o)) w))
    /\ List.length buf1 = List.length (nmeaBuf (this w))
    /\ firstn (Z.to_nat (nmeaBufInd (this w)) + List.length chunk) buf1
       = firstn (Z.to_nat (nmeaBufInd (this w))) (nmeaBuf (this w)) ++ chunk.
Proof.
  intros U N Fit E.
  assert (E' : GPS_received w = chunk ++ []) by (rewrite app_nil_r; exact E).
  destruct (loop_chars chunk 0%nat [] w N U Fit E') as (buf1 & L1 & F1 & W1).
  exists buf1. split; [|split; assumption].
  unfold getSerialDataFromGPS. cbv beta delta [bind read]. rewrite E.
  rewrite Nat.add_0_r in W1. rewrite W1. reflexivity.
Qed.

(** X16. A sentence reaches the parser whole.  When the characters
    waiting are the rest of a line that fits into the buffer and then
    the line feed, [getSerialDataFromGPS] returns with the parser called
    once, on what the buffer held before the index followed by that
    rest, up to its first NUL; [newParsedData] is the result of the
    parser, the index is 0 and nothing is left waiting. *)
Theorem sentence_reaches_parser (w : World fmt) (chunk : list byte) :
  buffer_in_bounds w ->
  test_point_in_bounds w ->
  ~ In LF chunk ->
  nmeaBufInd (this w) + Z.of_nat (List.length chunk) < MAXLINELENGTH ->
  GPS_received w = chunk ++ [LF] ->
  let sentence :=
    firstn (Z.to_nat (nmeaBufInd (this w))) (nmeaBuf (this w)) ++ chunk in
  exists w' : World fmt,
    getSerialDataFromGPS w = Some (tt, w')
    /\ (newParsedData (this w'), GPS w') = GPS_parse (c_string sentence) (GPS w)
    /\ nmeaBufInd (this w') = 0
    /\ GPS_received w' = [].
Proof.
  intros U T N Fit E sentence. subst sentence.
  destruct (loop_chars chunk 1%nat [LF] w N U Fit E) as (buf1 & L1 & F1 & W1).
  unfold getSerialDataFromGPS. cbv beta delta [bind read]. rewrite E.
  rewrite length_app. cbn [List.length]. rewrite W1. clear W1.
  set (w1 := set_GPS_received [LF] _).
  assert (A : wp False (getSerialDataFromGPS_loop 1)
                (fun r w' =>
                   exists w'' : World fmt,
                     Some (r, w') = Some (tt, w'')
                     /\ (newParsedData (this w''), GPS w'')
                        = GPS_parse
                            (c_string
                               (firstn (Z.to_nat (nmeaBufInd (this w)))
                                  (nmeaBuf (this w)) ++ chunk)) (GPS w)
                     /\ nmeaBufInd (this w'') = 0
                     /\ GPS_received w'' = []) w1).
  { destruct U as (Len & Ind).
    assert (Lc : (Z.to_nat (nmeaBufInd (this w)) + List.length chunk
                  < List.length buf1)%nat)
      by (unfold MAXLINELENGTH in *; lia).
    cbn [getSerialDataFromGPS_loop].
    rewrite wp_bind, wp_read.
    replace (GPS_received w1) with [LF] by (subst w1; open_world w; reflexivity).
    rewrite wp_bind, wp_write, wp_bind.
    apply wp_body_LF.
    { subst w1. unfold buffer_in_bounds. open_world w. simpl_world.
      unfold MAXLINELENGTH in *. lia. }
    eapply wp_conseq;
      [|apply recalculateTargettingNow_frame; right;
        subst w1; revert T; unfold test_point_in_bounds; open_world w; simpl_world;
        exact (fun T => T)].
    cbv beta. intros _ w'' ((_ & Ei & En & Eg & Er & _) & _).
    rewrite Ei.
    subst w1. open_world w. simpl_world.
    destruct (GPS_parse _ g) as [parsed g'] eqn:P. simpl_world.
    cbv beta iota delta [Z.geb Z.compare MAXLINELENGTH]. rewrite wp_ret.
    eexists. split; [reflexivity|].
    rewrite En, Eg, Er. cbn [fst snd]. repeat split; try assumption.
    rewrite <- P. f_equal.
    replace (Z.to_nat (ind + Z.of_nat (List.length chunk)))
      with (Z.to_nat ind + List.length chunk)%nat by lia.
    rewrite <- F1.
    rewrite c_string_app_NUL. reflexivity. }
  unfold wp in A.
  destruct (getSerialDataFromGPS_loop 1 w1) as [[r w']|]; [exact A | contradiction].
Qed.

(** *** Commands and packets *)

Lemma bytes_le_length (n : nat) (z : Z) : List.length (bytes_le n z) = n.
Proof.
  revert z. induction n as [|n IH]; intros z; cbn [bytes_le List.length].
  - reflexivity.
  - rewrite IH. reflexivity.
Qed.

Lemma wp_sendData (out : Prop) (Q : unit -> World fmt -> Prop) (w : World fmt) :
  wp out sendData Q w
  = Q tt (set_XBEE_sent
            (XBEE_sent w
             ++ ["*"%char; DATA_PACKET]
             ++ bytes_le 4 (float_bits (to_float (altitude (this w))))
             ++ bytes_le 4 (float_bits (speed (GPS w)))
             ++ bytes_le 4 (float_bits (latitude (GPS w)))
             ++ bytes_le 4 (float_bits (longitude (GPS w)))
             ++ bytes_le 4 (float_bits (angle (GPS w)))
             ++ bytes_le 2 (milliseconds (GPS w))
             ++ bytes_le 1 (seconds (GPS w))
             ++ ["e"; "e"]%char) w).
Proof.
  unfold sendData, sendFloat, sendUint16_t, sendUint8_t. wp_run.
  open_world w. simpl_world. rewrite <- !app_assoc. reflexivity.
Qed.

(** X17. A data packet has 27 bytes: [sendData] returns, appends to what
    was sent the two bytes "*p", five floats of four bytes (the altitude
    first, as a [float]), the milliseconds in two bytes and the seconds
    in one, and "ee", and changes nothing else. *)
Theorem data_packet_has_27_bytes (w : World fmt) :
  exists p : list byte,
    sendData w = Some (tt, set_XBEE_sent (XBEE_sent w ++ p) w)
    /\ List.length p = 27%nat
    /\ firstn 2 p = ["*"%char; DATA_PACKET]
    /\ firstn 4 (skipn 2 p) = bytes_le 4 (float_bits (to_float (altitude (this w))))
    /\ firstn 3 (skipn 22 p)
       = bytes_le 2 (milliseconds (GPS w)) ++ bytes_le 1 (seconds (GPS w))
    /\ skipn 25 p = ["e"; "e"]%char.
Proof.
  eexists. split; [apply wp_eq_run; intros Q; apply wp_sendData|].
  cbn [bytes_le app List.length firstn skipn]. repeat split.
Qed.

(** The comparison of two characters that are given. *)
Ltac decide_bytes :=
  repeat match goal with
         | |- context [Ascii.eqb ?a ?b] =>
             let v := eval vm_compute in (Ascii.eqb a b) in
             lazymatch v with
             | true => change (Ascii.eqb a b) with true
             | false => change (Ascii.eqb a b) with false
             end
         end.

(** [recieveCommands] on a byte that is given, or is known to be no
    command. *)
Ltac run_command E :=
  unfold recieveCommands, sendFloat;
  rewrite wp_bind, wp_read, E; rewrite wp_bind, wp_write;
  decide_bytes; cbv iota;
  repeat (first [ rewrite wp_bind | rewrite wp_when | rewrite wp_dropNow
                | rewrite wp_sendData | rewrite wp_put | rewrite wp_get
                | rewrite wp_sendMessage | rewrite wp_XBEE_write
                | rewrite wp_ret ];
          cbv beta iota; cbn [Z.eqb andb]).

Lemma recieveCommands_takes_one (w : World fmt) (c : byte) (rest : list byte) :
  XBEE_received w = c :: rest ->
  wp False recieveCommands (fun _ w' => XBEE_received w' = rest) w.
Proof.
  intros E.
  destruct (Ascii.eqb_spec c INCOME_DROP_OPEN) as [->|N1];
    [run_command E; open_world w; reflexivity|].
  destruct (Ascii.eqb_spec c INCOME_DROP_CLOSE) as [->|N2];
    [run_command E; open_world w; reflexivity|].
  destruct (Ascii.eqb_spec c INCOME_AUTO_ON) as [->|N3];
    [run_command E; open_world w; reflexivity|].
  destruct (Ascii.eqb_spec c INCOME_AUTO_OFF) as [->|N4];
    [run_command E; open_world w; reflexivity|].
  destruct (Ascii.eqb_spec c INCOME_RESET) as [->|N5];
    [run_command E; open_world w; reflexivity|].
  destruct (Ascii.eqb_spec c INCOME_RESTART) as [->|N6];
    [run_command E; open_world w; reflexivity|].
  destruct (Ascii.eqb_spec c INCOME_DROP_ALT) as [->|N7];
    [run_command E; open_world w; reflexivity|].
  apply Ascii.eqb_neq in N1, N2, N3, N4, N5, N6, N7.
  unfold recieveCommands.
  rewrite wp_bind, wp_read, E, wp_bind, wp_write, N1, N2, N3, N4, N5, N6, N7.
  wp_run. open_world w. reflexivity.
Qed.

(** X18. A call of [recieveCommands] takes at most one byte, and a byte
    that is no command is dropped: with nothing waiting the call changes
    nothing, and with a byte other than the seven commands it removes
    the byte and changes nothing else. *)
Theorem unknown_command_is_dropped (w : World fmt) :
  match XBEE_received w with
  | [] => recieveCommands w = Some (tt, w)
  | c :: rest =>
      (exists w' : World fmt,
         recieveCommands w = Some (tt, w') /\ XBEE_received w' = rest)
      /\ (~ In c [INCOME_DROP_OPEN; INCOME_DROP_CLOSE; INCOME_AUTO_ON;
                  INCOME_AUTO_OFF; INCOME_RESET; INCOME_RESTART;
                  INCOME_DROP_ALT] ->
          recieveCommands w = Some (tt, set_XBEE_received rest w))
  end.
Proof.
  destruct (XBEE_received w) as [|c rest] eqn:E.
  - unfold recieveCommands. cbv beta delta [bind read]. rewrite E. reflexivity.
  - split.
    + pose proof (recieveCommands_takes_one w c rest E) as H.
      apply wp_returns in H. destruct H as ([] & w' & R & H).
      exists w'. auto.
    + intros N. cbn [In] in N.
      assert (N1 : Ascii.eqb c INCOME_DROP_OPEN = false)
        by (apply Ascii.eqb_neq; intros ->; tauto).
      assert (N2 : Ascii.eqb c INCOME_DROP_CLOSE = false)
        by (apply Ascii.eqb_neq; intros ->; tauto).
      assert (N3 : Ascii.eqb c INCOME_AUTO_ON = false)
        by (apply Ascii.eqb_neq; intros ->; tauto).
      assert (N4 : Ascii.eqb c INCOME_AUTO_OFF = false)
        by (apply Ascii.eqb_neq; intros ->; tauto).
      assert (N5 : Ascii.eqb c INCOME_RESET = false)
        by (apply Ascii.eqb_neq; intros ->; tauto).
      assert (N6 : Ascii.eqb c INCOME_RESTART = false)
        by (apply Ascii.eqb_neq; intros ->; tauto).
      assert (N7 : Ascii.eqb c INCOME_DROP_ALT = false)
        by (apply Ascii.eqb_neq; intros ->; tauto).
      apply wp_eq_run. intros Q. unfold recieveCommands.
      rewrite wp_bind, wp_read, E, wp_bind, wp_write, N1, N2, N3, N4, N5, N6, N7.
      wp_run. reflexivity.
Qed.

(** X19. The commands of the operator move the bay whatever [autoDrop]
    is.  On 'o' the bay is opened and the altitude and the time are
    noted; on 'c' and on 'q' it is closed, and 'q' sets [restart] after
    a data packet; each time the servo gets the pulse of the new
    position, the LED shows it and the message of the new position is
    the last thing sent. *)
Theorem operator_commands_move_the_bay (w : World fmt) (c : byte)
    (rest : list byte) :
  XBEE_received w = c :: rest ->
  In c [INCOME_DROP_OPEN; INCOME_DROP_CLOSE; INCOME_RESTART] ->
  let open := Ascii.eqb c INCOME_DROP_OPEN in
  exists (w' : World fmt) (sent : list byte),
    recieveCommands w = Some (tt, w')
    /\ dropBayServoPos (this w') = (if open then DROP_BAY_OPEN else DROP_BAY_CLOSED)
    /\ last_pulse (outputs w') = Some (dropBayServoPos (this w'))
    /\ last_level STATUS_LED_PIN (outputs w') = Some open
    /\ XBEE_sent w'
       = sent ++ ["*"%char;
                  if open then MESSAGE_DROP_OPEN else MESSAGE_DROP_CLOSE;
                  "e"%char; "e"%char]
    /\ autoDrop (this w') = autoDrop (this w)
    /\ restart (this w') = (restart (this w) || Ascii.eqb c INCOME_RESTART)%bool
    /\ (if open
        then altitudeAtDrop (this w') = altitude (this w)
             /\ timeAtDrop (this w') = ulong (millis_at (millis_calls w))
        else altitudeAtDrop (this w') = altitudeAtDrop (this w)
             /\ timeAtDrop (this w') = timeAtDrop (this w)).
Proof.
  intros E I open. subst open. cbn [In] in I.
  assert (H : wp False recieveCommands
                (fun (r : unit) (w' : World fmt) =>
                   exists (w'' : World fmt) (sent : list byte),
                     Some (r, w') = Some (tt, w'')
    /\ dropBayServoPos (this w'')
       = (if Ascii.eqb c INCOME_DROP_OPEN then DROP_BAY_OPEN else DROP_BAY_CLOSED)
    /\ last_pulse (outputs w'') = Some (dropBayServoPos (this w''))
    /\ last_level STATUS_LED_PIN (outputs w'') = Some (Ascii.eqb c INCOME_DROP_OPEN)
    /\ XBEE_sent w''
       = sent ++ ["*"%char;
                  if Ascii.eqb c INCOME_DROP_OPEN
                  then MESSAGE_DROP_OPEN else MESSAGE_DROP_CLOSE;
                  "e"%char; "e"%char]
    /\ autoDrop (this w'') = autoDrop (this w)
    /\ restart (this w'') = (restart (this w) || Ascii.eqb c INCOME_RESTART)%bool
    /\ (if Ascii.eqb c INCOME_DROP_OPEN
        then altitudeAtDrop (this w'') = altitude (this w)
             /\ timeAtDrop (this w'') = ulong (millis_at (millis_calls w))
        else altitudeAtDrop (this w'') = altitudeAtDrop (this w)
             /\ timeAtDrop (this w'') = timeAtDrop (this w))) w).
  { destruct I as [<-|[<-|[<-|[]]]]; run_command E; open_world w; simpl_world;
      eexists; eexists; (split; [reflexivity|]); simpl_world;
      rewrite ?last_pulse_app, ?last_level_app; cbn [last_pulse last_level];
      rewrite ?Z.eqb_refl, ?orb_false_r, ?orb_true_r;
      repeat split; reflexivity. }
  unfold wp in H.
  destruct (recieveCommands w) as [[r w']|]; [exact H | contradiction].
Qed.

(** X20. The answer to the request for the altitude of the drop carries
    the altitude of now: on 'g' [recieveCommands] sends "*a", the four
    bytes of [altitude] as a [float] and "ee", whatever
    [altitudeAtDrop] holds, and changes nothing else. *)
Theorem drop_altitude_request_sends_altitude (w : World fmt) (rest : list byte) :
  XBEE_received w = INCOME_DROP_ALT :: rest ->
  recieveCommands w
  = Some (tt, set_XBEE_sent
                (XBEE_sent w ++ ["*"; "a"]%char
                 ++ bytes_le 4 (float_bits (to_float (altitude (this w))))
                 ++ ["e"; "e"]%char)
                (set_XBEE_received rest w)).
Proof.
  intros E. apply wp_eq_run. intros Q. run_command E.
  open_world w. simpl_world. rewrite <- !app_assoc. reflexivity.
Qed.

(** X21. The command 'n' holds back the targeter and the command 'a' lets
    it go.  After 'n' is received and acknowledged with "*dee", a
    recalculation, with new data or without, returns and leaves the bay,
    the servo, the LED and the link as they are, whatever the targeter
    decides; after 'a' [autoDrop] is on and the acknowledgement is
    "*bee". *)
Theorem auto_drop_commands (w : World fmt) (c : byte) (rest : list byte)
    (withNewData : bool) :
  XBEE_received w = c :: rest ->
  In c [INCOME_AUTO_ON; INCOME_AUTO_OFF] ->
  test_point_in_bounds w ->
  let on := Ascii.eqb c INCOME_AUTO_ON in
  exists w1 : World fmt,
    recieveCommands w = Some (tt, w1)
    /\ autoDrop (this w1) = on
    /\ XBEE_sent w1
       = XBEE_sent w ++ ["*"%char; if on then MESSAGE_AUTO_ON else MESSAGE_AUTO_OFF;
                         "e"%char; "e"%char]
    /\ dropBayServoPos (this w1) = dropBayServoPos (this w)
    /\ outputs w1 = outputs w
    /\ exists w2 : World fmt,
         recalculateTargettingNow withNewData w1 = Some (tt, w2)
         /\ (on = false ->
             dropBayServoPos (this w2) = dropBayServoPos (this w)
             /\ outputs w2 = outputs w
             /\ XBEE_sent w2 = XBEE_sent w1).
Proof.
  intros E I T on. subst on. cbn [In] in I.
  assert (H : exists w1 : World fmt,
             recieveCommands w = Some (tt, w1)
             /\ autoDrop (this w1) = Ascii.eqb c INCOME_AUTO_ON
             /\ XBEE_sent w1
                = XBEE_sent w ++ ["*"%char;
                                  if Ascii.eqb c INCOME_AUTO_ON
                                  then MESSAGE_AUTO_ON else MESSAGE_AUTO_OFF;
                                  "e"%char; "e"%char]
             /\ dropBayServoPos (this w1) = dropBayServoPos (this w)
             /\ outputs w1 = outputs w
             /\ test_point_in_bounds w1).
  { destruct I as [<-|[<-|[]]]; eexists;
      (split; [apply wp_eq_run; intros Q; run_command E; reflexivity|]);
      revert T; unfold test_point_in_bounds; open_world w; simpl_world;
      intros T; repeat (split; [reflexivity|]); exact T. }
  destruct H as (w1 & R & A & S1 & P1 & O1 & T1).
  exists w1. repeat (split; [assumption|]).
  pose proof (recalculateTargettingNow_frame False withNewData w1 (or_intror T1)) as K.
  apply wp_returns in K. destruct K as ([] & w2 & R2 & _ & _ & _ & Off).
  exists w2. split; [exact R2|].
  intros N. rewrite N in A. destruct (Off A) as (O2 & S2 & P2 & _).
  rewrite P2, O2, S2, P1, O1. auto.
Qed.

(** *** Start-up *)

Lemma sendCmdAndWaitForOK_run (w : World fmt) (cmd : list byte) :
  sendCmdAndWaitForOK cmd 3000 w
  = Some (answered_OK (XBEE_sent w ++ cmd),
          set_XBEE_received
            (snd (readStringUntil_CR (XBEE_answer (XBEE_sent w ++ cmd) 3000)))
            (set_XBEE_sent (XBEE_sent w ++ cmd) w)).
Proof.
  unfold sendCmdAndWaitForOK, answered_OK.
  cbv beta delta [bind write read XBEE_write]. open_world w. simpl_world.
  destruct (readStringUntil_CR _) as [response left]. cbn [fst snd].
  destruct (endsWith response _); reflexivity.
Qed.

(** What [initXBee] returns and leaves. *)
Lemma initXBee_run (w : World fmt) :
  let sent1 := XBEE_sent w ++ ["+"; "+"; "+"]%char in
  let sent2 := sent1 ++ ["A"; "T"; "A"; "P"; "0"; CR]%char in
  let sent3 := sent2 ++ ["A"; "T"; "C"; "N"; CR]%char in
  let sent := if answered_OK sent1
              then if answered_OK sent2 then sent3 else sent2
              else sent1 in
  initXBee w
  = Some (answered_OK sent1 && answered_OK sent2 && answered_OK sent3,
          set_XBEE_received
            (snd (readStringUntil_CR (XBEE_answer sent 3000)))
            (set_XBEE_sent sent w)).
Proof.
  cbv zeta. unfold initXBee. unfold bind at 1.
  rewrite sendCmdAndWaitForOK_run.
  destruct (answered_OK (XBEE_sent w ++ _)) eqn:A1; cbn [negb andb]; [|reflexivity].
  unfold bind at 1. rewrite sendCmdAndWaitForOK_run.
  replace (XBEE_sent (set_XBEE_received _ (set_XBEE_sent _ w)))
    with (XBEE_sent w ++ ["+"; "+"; "+"]%char) by (open_world w; reflexivity).
  destruct (answered_OK ((XBEE_sent w ++ _) ++ _)) eqn:A2; cbn [negb andb].
  2: { unfold ret. open_world w. reflexivity. }
  unfold bind at 1. rewrite sendCmdAndWaitForOK_run.
  replace (XBEE_sent (set_XBEE_received _ (set_XBEE_sent _ (set_XBEE_received _ _))))
    with ((XBEE_sent w ++ ["+"; "+"; "+"]%char) ++ ["A"; "T"; "A"; "P"; "0"; CR]%char)
    by (open_world w; reflexivity).
  destruct (answered_OK (((XBEE_sent w ++ _) ++ _) ++ _)) eqn:A3; cbn [negb];
    unfold ret; open_world w; reflexivity.
Qed.

(** X22. [initXBee] sends "+++", "ATAP0" and "ATCN" in this order and
    stops at the first that the radio does not answer with a string
    ending in "OK"; it returns true exactly when all three were answered
    so, and changes nothing but the two directions of the link. *)
Theorem initXBee_protocol (w : World fmt) :
  let sent1 := XBEE_sent w ++ ["+"; "+"; "+"]%char in
  let sent2 := sent1 ++ ["A"; "T"; "A"; "P"; "0"; CR]%char in
  let sent3 := sent2 ++ ["A"; "T"; "C"; "N"; CR]%char in
  exists (ok : bool) (w' : World fmt),
    initXBee w = Some (ok, w')
    /\ (ok = true <->
        answered_OK sent1 = true /\ answered_OK sent2 = true
        /\ answered_OK sent3 = true)
    /\ XBEE_sent w'
       = (if answered_OK sent1
          then if answered_OK sent2 then sent3 else sent2
          else sent1)
    /\ set_XBEE_received (XBEE_received w) (set_XBEE_sent (XBEE_sent w) w') = w.
Proof.
  cbv zeta. eexists. eexists. split; [apply initXBee_run|].
  split; [|split].
  - rewrite !andb_true_iff. tauto.
  - open_world w. reflexivity.
  - open_world w. reflexivity.
Qed.

Lemma count_plus_app (l l' : list byte) :
  count_occ ascii_dec (l ++ l') "+"%char
  = (count_occ ascii_dec l "+"%char + count_occ ascii_dec l' "+"%char)%nat.
Proof. apply count_occ_app. Qed.

(** One attempt: the link alone changes, and "+++" is sent once. *)
Lemma initXBee_attempt (w : World fmt) :
  exists (ok : bool) (left delta : list byte),
    initXBee w
    = Some (ok, set_XBEE_received left (set_XBEE_sent (XBEE_sent w ++ delta) w))
    /\ count_occ ascii_dec delta "+"%char = 3%nat
    /\ ((forall sent, answered_OK sent = true) ->
        ok = true
        /\ delta = ["+"; "+"; "+"; "A"; "T"; "A"; "P"; "0"; CR;
                    "A"; "T"; "C"; "N"; CR]%char)
    /\ ((forall sent, answered_OK sent = false) ->
        ok = false /\ delta = ["+"; "+"; "+"]%char).
Proof.
  pose proof (initXBee_run w) as R. cbv zeta in R.
  destruct (answered_OK (XBEE_sent w ++ ["+"; "+"; "+"]%char)) eqn:A1;
    [destruct (answered_OK ((XBEE_sent w ++ ["+"; "+"; "+"]%char)
                            ++ ["A"; "T"; "A"; "P"; "0"; CR]%char)) eqn:A2|].
  - eexists. eexists.
    exists (["+"; "+"; "+"]%char ++ ["A"; "T"; "A"; "P"; "0"; CR]%char
            ++ ["A"; "T"; "C"; "N"; CR]%char).
    rewrite !app_assoc. split; [exact R|]. split; [reflexivity|]. split.
    + intros A. rewrite A. auto.
    + intros A. rewrite A in A1. discriminate A1.
  - eexists. eexists.
    exists (["+"; "+"; "+"]%char ++ ["A"; "T"; "A"; "P"; "0"; CR]%char).
    rewrite !app_assoc. split; [exact R|]. split; [reflexivity|]. split.
    + intros A. rewrite A in A2. discriminate A2.
    + intros A. rewrite A in A1. discriminate A1.
  - eexists. eexists. exists ["+"; "+"; "+"]%char.
    split; [exact R|]. split; [reflexivity|]. split.
    + intros A. rewrite A in A1. discriminate A1.
    + intros A. auto.
Qed.

(** The loop of [initialize], from [numTries] on. *)
Lemma initialize_loop_run (turns : nat) :
  forall (numTries : Z) (w : World fmt),
    0 <= numTries <= 3 ->
    (Z.to_nat (3 - numTries) < turns)%nat ->
    exists (left delta : list byte) (n : nat),
      initialize_loop turns 3 numTries w
      = Some (tt, set_XBEE_received left
                    (set_XBEE_sent (XBEE_sent w ++ delta) w))
      /\ count_occ ascii_dec delta "+"%char = (3 * n)%nat
      /\ (1 <= n <= Z.to_nat (4 - numTries))%nat
      /\ ((forall sent, answered_OK sent = true) ->
          delta = ["+"; "+"; "+"; "A"; "T"; "A"; "P"; "0"; CR;
                   "A"; "T"; "C"; "N"; CR]%char)
      /\ ((forall sent, answered_OK sent = false) ->
          delta = List.concat (repeat ["+"; "+"; "+"]%char (Z.to_nat (4 - numTries)))).
Proof.
  induction turns as [|turns IH]; intros k w Hk Ht; [lia|].
  cbn [initialize_loop]. unfold bind at 1.
  destruct (initXBee_attempt w) as (ok & left & delta & R & C & AllOK & NoOK).
  rewrite R. destruct ok; cbn [negb].
  - exists left, delta, 1%nat. split; [reflexivity|]. split; [exact C|].
    split; [lia|]. split.
    + intros A. apply AllOK, A.
    + intros A. destruct (NoOK A) as (D & _). discriminate D.
  - cbv zeta. destruct (Z.leb_spec (k + 1) 3) as [Le|Gt].
    + destruct (IH (k + 1)
                  (set_XBEE_received left (set_XBEE_sent (XBEE_sent w ++ delta) w)))
        as (left2 & delta2 & n2 & R2 & C2 & N2 & AllOK2 & NoOK2); [lia|lia|].
      exists left2, (delta ++ delta2), (S n2). split; [|split; [|split; [|split]]].
      * rewrite R2. open_world w. simpl_world. rewrite <- app_assoc. reflexivity.
      * rewrite count_plus_app, C, C2. lia.
      * lia.
      * intros A. destruct (AllOK A) as (D & _). discriminate D.
      * intros A. destruct (NoOK A) as (_ & ->). rewrite (NoOK2 A).
        replace (Z.to_nat (4 - k)) with (S (Z.to_nat (4 - (k + 1)))) by lia.
        reflexivity.
    + exists left, delta, 1%nat. split; [reflexivity|]. split; [exact C|].
      split; [lia|]. split.
      * intros A. apply AllOK, A.
      * intros A. destruct (NoOK A) as (_ & ->).
        replace k with 3 by lia. reflexivity.
Qed.

Lemma setupGPS_run (w : World fmt) :
  setupGPS w
  = Some (tt, set_GPS_received []
                (set_GPS_sent
                   (GPS_sent w
                    ++ PMTK_SET_NMEA_OUTPUT_RMCONLY ++ [CR; LF]
                    ++ SET_NMEA_UPDATE_RATE_5HZ ++ [CR; LF]
                    ++ PMTK_API_SET_FIX_CTL_5HZ ++ [CR; LF]
                    ++ ENABLE_SBAB_SATELLITES ++ [CR; LF]
                    ++ ENABLE_USING_WAAS_WITH_SBSB_SATS ++ [CR; LF])
                   (set_GPS (GPS_init (GPS w)) w))).
Proof.
  unfold setupGPS, GPS_println. cbv beta delta [bind read write].
  open_world w. simpl_world. rewrite <- !app_assoc. reflexivity.
Qed.

(** The world [initialize] leaves. *)
Lemma initialize_run (turns : nat) (w : World fmt) :
  (4 <= turns)%nat ->
  exists (left delta : list byte) (n : nat),
    initialize turns w
    = Some (tt,
            set_GPS_received []
              (set_GPS_sent
                 (GPS_sent w
                  ++ PMTK_SET_NMEA_OUTPUT_RMCONLY ++ [CR; LF]
                  ++ SET_NMEA_UPDATE_RATE_5HZ ++ [CR; LF]
                  ++ PMTK_API_SET_FIX_CTL_5HZ ++ [CR; LF]
                  ++ ENABLE_SBAB_SATELLITES ++ [CR; LF]
                  ++ ENABLE_USING_WAAS_WITH_SBSB_SATS ++ [CR; LF])
                 (set_GPS (GPS_init (GPS w))
                    (set_XBEE_received left
                       (set_XBEE_sent (XBEE_sent w ++ delta)
                          (set_outputs
                             (outputs w
                              ++ [pinMode TX_TO_DISCONNECT INPUT;
                                  pinMode RX_TO_DISCONNECT INPUT;
                                  attach DROP_PIN;
                                  writeMicroseconds DROP_BAY_CLOSED])
                             (set_this
                                (fun c =>
                                   set_dropBayServoPos DROP_BAY_CLOSED
                                     (set_timeAtDrop 0
                                        (set_altitudeAtDrop (@of_int (ieee fmt) 0)
                                           (set_pitch (IEEE.SFdec fmt 1 (-1))
                                              (set_roll (IEEE.SFdec fmt 1 (-1))
                                                 (set_altitude (IEEE.SFdec fmt 1 (-1))
                                                    c)))))) w)))))))
    /\ count_occ ascii_dec delta "+"%char = (3 * n)%nat
    /\ (1 <= n <= 4)%nat
    /\ ((forall sent, answered_OK sent = true) ->
        delta = ["+"; "+"; "+"; "A"; "T"; "A"; "P"; "0"; CR;
                 "A"; "T"; "C"; "N"; CR]%char)
    /\ ((forall sent, answered_OK sent = false) ->
        delta = ["+"; "+"; "+"; "+"; "+"; "+"; "+"; "+"; "+"; "+"; "+"; "+"]%char).
Proof.
  intros Ht.
  pose (w0 := set_outputs
                (outputs w
                 ++ [pinMode TX_TO_DISCONNECT INPUT;
                     pinMode RX_TO_DISCONNECT INPUT;
                     attach DROP_PIN;
                     writeMicroseconds DROP_BAY_CLOSED])
                (set_this
                   (fun c =>
                      set_dropBayServoPos DROP_BAY_CLOSED
                        (set_timeAtDrop 0
                           (set_altitudeAtDrop (@of_int (ieee fmt) 0)
                              (set_pitch (IEEE.SFdec fmt 1 (-1))
                                 (set_roll (IEEE.SFdec fmt 1 (-1))
                                    (set_altitude (IEEE.SFdec fmt 1 (-1)) c)))))) w)).
  destruct (initialize_loop_run turns 0 w0)
    as (left & delta & tries & R & C & N & A1 & A0); [lia | lia |].
  exists left, delta, tries.
  split; [|split; [exact C|split; [exact N|split; [exact A1 | exact A0]]]].
  unfold initialize. cbv beta zeta delta [bind output put get read write].
  subst w0. open_world w. simpl_world.
  rewrite <- ?app_assoc. cbn [app]. rewrite <- ?app_assoc in R. cbn [app] in R.
  rewrite R. rewrite setupGPS_run. simpl_world. reflexivity.
Qed.

(** More turns than the loop takes change nothing. *)
Lemma initialize_loop_turns (turns : nat) :
  forall (turns' : nat) (numTries : Z) (w : World fmt),
    (Z.to_nat (3 - numTries) < turns)%nat ->
    (Z.to_nat (3 - numTries) < turns')%nat ->
    initialize_loop turns 3 numTries w = initialize_loop turns' 3 numTries w.
Proof.
  induction turns as [|turns IH]; intros turns' k w Ht Ht'; [lia|].
  destruct turns' as [|turns']; [lia|].
  cbn [initialize_loop]. unfold bind.
  destruct (initXBee w) as [[ok w']|]; [|reflexivity].
  destruct ok; cbn [negb]; [reflexivity|]. cbv zeta.
  destruct (Z.leb_spec (k + 1) 3); [|reflexivity].
  apply IH; lia.
Qed.

(** X23. The radio is tried up to four times.  [initialize] returns,
    and with four turns of its loop or more it leaves the same world:
    it sends "+++" at least once and at most four times, one more than
    [maxTries]; when the radio answers every command with "OK" the three
    commands are sent once, and when it never does "+++" is sent four
    times and nothing else. *)
Theorem radio_is_tried_up_to_four_times (turns : nat) (w : World fmt) :
  (4 <= turns)%nat ->
  exists (w' : World fmt) (delta : list byte) (n : nat),
    initialize turns w = Some (tt, w')
    /\ initialize 4 w = Some (tt, w')
    /\ XBEE_sent w' = XBEE_sent w ++ delta
    /\ count_occ ascii_dec delta "+"%char = (3 * n)%nat
    /\ (1 <= n <= 4)%nat
    /\ ((forall sent, answered_OK sent = true) ->
        delta = ["+"; "+"; "+"; "A"; "T"; "A"; "P"; "0"; CR;
                 "A"; "T"; "C"; "N"; CR]%char)
    /\ ((forall sent, answered_OK sent = false) ->
        delta = ["+"; "+"; "+"; "+"; "+"; "+"; "+"; "+"; "+"; "+"; "+"; "+"]%char).
Proof.
  intros Ht.
  destruct (initialize_run turns w Ht) as (left & delta & tries & R & C & N & A1 & A0).
  eexists. exists delta, tries. split; [exact R|].
  split; [|split; [open_world w; reflexivity | auto]].
  rewrite <- R. unfold initialize.
  cbv beta iota zeta delta [bind output put get read write].
  rewrite (initialize_loop_turns 4 turns 0) by lia. reflexivity.
Qed.

(** X24. [initialize] puts the object in order.  From a world where the
    LED is not on and the indices are as the header sets them,
    [initialize] returns with the bay closed and the servo given that
    pulse, the altitude 0.1, the altitude and the time of the drop 0,
    the GPS initialised and its input emptied, and with all that the
    functions of the main loop keep. *)
Theorem initialize_puts_in_order (turns : nat) (w : World fmt) :
  (4 <= turns)%nat ->
  buffer_in_bounds w ->
  test_point_in_bounds w ->
  last_level STATUS_LED_PIN (outputs w) <> Some true ->
  exists w' : World fmt,
    initialize turns w = Some (tt, w')
    /\ in_order w'
    /\ dropBayServoPos (this w') = DROP_BAY_CLOSED
    /\ last_pulse (outputs w') = Some DROP_BAY_CLOSED
    /\ altitude (this w') = IEEE.SFdec fmt 1 (-1)
    /\ altitudeAtDrop (this w') = @of_int (ieee fmt) 0
    /\ timeAtDrop (this w') = 0
    /\ autoDrop (this w') = autoDrop (this w)
    /\ targeter w' = targeter w
    /\ GPS w' = GPS_init (GPS w)
    /\ GPS_received w' = [].
Proof.
  intros Ht U T Led.
  destruct (initialize_run turns w Ht) as (left & delta & tries & R & _).
  eexists. split; [exact R|].
  revert U T Led. unfold in_order, bay_in_step, buffer_in_bounds, test_point_in_bounds.
  open_world w. simpl_world. intros U T Led.
  rewrite last_pulse_app, last_level_app. cbn [last_pulse last_level].
  repeat split; try reflexivity; try apply U;
    try (match goal with
         | H : Targeter_Test = true |- _ => destruct (T H); assumption
         end).
  - right. reflexivity.
  - destruct (last_level STATUS_LED_PIN o) as [[|]|]; [contradiction | |]; reflexivity.
Qed.

End CommunicatorFacts.

(** *** The theorems at concrete worlds *)

Lemma test_data_point_cycles_witness :
  exists w' : Comm.World Binary64,
    @Comm.recalculateTargettingNow Binary64 Examples.L64 CommExamples.bench true
      CommExamples.started = Some (tt, w')
    /\ Comm.currentTargeterDataPoint (Comm.this w') = 0.
Proof.
  destruct (@test_data_point_cycles Binary64 Examples.L64 CommExamples.bench
              CommExamples.started true) as (w' & E & I & _).
  - reflexivity.
  - vm_compute. split; [discriminate | reflexivity].
  - exists w'. split; [exact E | exact I].
Defined.

Lemma no_automatic_drop_when_off_witness :
  exists w' : Comm.World Binary64,
    @Comm.recalculateTargettingNow Binary64 Examples.L64 CommExamples.flight true
      CommExamples.held = Some (tt, w')
    /\ Comm.outputs w' = [Comm.writeMicroseconds Comm.DROP_BAY_CLOSED].
Proof.
  destruct (@no_automatic_drop_when_off Binary64 Examples.L64 CommExamples.flight
              CommExamples.held true) as (w' & E & O & _).
  - reflexivity.
  - intros T. discriminate T.
  - exists w'. split; [exact E | exact O].
Defined.

Lemma automatic_drop_on_decision_witness :
  exists w' : Comm.World Binary64,
    @Comm.recalculateTargettingNow Binary64 Examples.L64 CommExamples.flight false
      CommExamples.started = Some (tt, w')
    /\ Comm.targeter w' = Examples.targeted.
Proof.
  destruct (@automatic_drop_on_decision Binary64 Examples.L64 CommExamples.flight
              CommExamples.started false) as (w' & E & T & _).
  - reflexivity.
  - exists w'. split; [exact E | exact T].
Defined.

Lemma drop_bay_closing_window_witness :
  exists w' : Comm.World Binary64,
    @Comm.checkToCloseDropBay Binary64 CommExamples.flight CommExamples.opened
    = Some (tt, w')
    /\ Comm.dropBayServoPos (Comm.this w') = Comm.DROP_BAY_CLOSED.
Proof.
  destruct (@drop_bay_closing_window Binary64 CommExamples.flight
              CommExamples.opened 0 12000) as (w' & E & _ & C).
  - vm_compute. intros H. discriminate H.
  - vm_compute. intros H. discriminate H.
  - reflexivity.
  - reflexivity.
  - reflexivity.
  - lia.
  - exists w'. split; [exact E | exact (proj1 C)].
Defined.

Lemma main_loop_keeps_order_witness :
  exists w' : Comm.World Binary64,
    @Comm.getSerialDataFromGPS Binary64 Examples.L64 CommExamples.flight
      (CommExamples.hearing ["$"; "G"; "P"]%char) = Some (tt, w')
    /\ @Comm.in_order Binary64 CommExamples.flight w'.
Proof.
  apply (@main_loop_keeps_order Binary64 Examples.L64 CommExamples.flight
           (CommExamples.hearing ["$"; "G"; "P"]%char) _ 0 0 true).
  - split; [|split].
    + split; [right; reflexivity|]. split; reflexivity.
    + split; [reflexivity | vm_compute; split; [discriminate | reflexivity]].
    + intros T. discriminate T.
  - right. right. right. right. left. reflexivity.
Defined.

Lemma partial_sentence_is_kept_witness :
  exists buf1 : list Comm.byte,
    @Comm.getSerialDataFromGPS Binary64 Examples.L64 CommExamples.flight
      (CommExamples.hearing ["$"; "G"; "P"]%char)
    = Some (tt, Comm.set_GPS_received []
                  (Comm.set_this
                     (fun o => Comm.set_nmeaBufInd 3 (Comm.set_nmeaBuf buf1 o))
                     (CommExamples.hearing ["$"; "G"; "P"]%char)))
    /\ firstn 3 buf1 = ["$"; "G"; "P"]%char.
Proof.
  destruct (@partial_sentence_is_kept Binary64 Examples.L64 CommExamples.flight
              (CommExamples.hearing ["$"; "G"; "P"]%char) ["$"; "G"; "P"]%char)
    as (buf1 & E & _ & P).
  - split; [reflexivity | vm_compute; split; [discriminate | reflexivity]].
  - cbn. intros [H|[H|[H|[]]]]; discriminate H.
  - vm_compute. reflexivity.
  - reflexivity.
  - exists buf1. split; [exact E | exact P].
Defined.

Lemma sentence_reaches_parser_witness :
  exists w' : Comm.World Binary64,
    @Comm.getSerialDataFromGPS Binary64 Examples.L64 CommExamples.flight
      (CommExamples.hearing ["$"; "G"; "P"; Comm.LF]%char) = Some (tt, w')
    /\ Comm.newParsedData (Comm.this w') = true
    /\ Comm.nmeaBufInd (Comm.this w') = 0.
Proof.
  destruct (@sentence_reaches_parser Binary64 Examples.L64 CommExamples.flight
              (CommExamples.hearing ["$"; "G"; "P"; Comm.LF]%char)
              ["$"; "G"; "P"]%char)
    as (w' & E & P & I & _).
  - split; [reflexivity | vm_compute; split; [discriminate | reflexivity]].
  - intros T. discriminate T.
  - cbn. intros [H|[H|[H|[]]]]; discriminate H.
  - vm_compute. reflexivity.
  - reflexivity.
  - exists w'. split; [exact E|]. split; [|exact I].
    exact (f_equal fst P).
Defined.

Lemma operator_commands_move_the_bay_witness :
  exists w' : Comm.World Binary64,
    @Comm.recieveCommands Binary64 CommExamples.flight
      (CommExamples.commanded Comm.INCOME_RESTART) = Some (tt, w')
    /\ Comm.dropBayServoPos (Comm.this w') = Comm.DROP_BAY_CLOSED
    /\ Comm.restart (Comm.this w') = true.
Proof.
  destruct (@operator_commands_move_the_bay Binary64 CommExamples.flight
              (CommExamples.commanded Comm.INCOME_RESTART) Comm.INCOME_RESTART [])
    as (w' & sent & E & P & _ & _ & _ & _ & R & _).
  - reflexivity.
  - right. right. left. reflexivity.
  - exists w'. split; [exact E|]. split; [exact P | exact R].
Defined.

Lemma drop_altitude_request_sends_altitude_witness :
  @Comm.recieveCommands Binary64 CommExamples.flight
    (CommExamples.commanded Comm.INCOME_DROP_ALT)
  = Some (tt, Comm.set_XBEE_sent
                ["*"; "a"; "205"; "204"; "204"; "061"; "e"; "e"]%char
                CommExamples.started).
Proof.
  apply (@drop_altitude_request_sends_altitude Binary64 CommExamples.flight
           (CommExamples.commanded Comm.INCOME_DROP_ALT) []).
  reflexivity.
Defined.

Lemma auto_drop_commands_witness :
  exists w1 : Comm.World Binary64,
    @Comm.recieveCommands Binary64 CommExamples.flight
      (CommExamples.commanded Comm.INCOME_AUTO_OFF) = Some (tt, w1)
    /\ Comm.autoDrop (Comm.this w1) = false.
Proof.
  destruct (@auto_drop_commands Binary64 Examples.L64 CommExamples.flight
              (CommExamples.commanded Comm.INCOME_AUTO_OFF) Comm.INCOME_AUTO_OFF []
              true) as (w1 & E & A & _).
  - reflexivity.
  - right. left. reflexivity.
  - intros T. discriminate T.
  - exists w1. split; [exact E | exact A].
Defined.

Lemma radio_is_tried_up_to_four_times_witness :
  exists w' : Comm.World Binary64,
    @Comm.initialize Binary64 CommExamples.silent 7 CommExamples.power_up
    = Some (tt, w')
    /\ @Comm.initialize Binary64 CommExamples.silent 4 CommExamples.power_up
       = Some (tt, w')
    /\ Comm.XBEE_sent w'
       = ["+"; "+"; "+"; "+"; "+"; "+"; "+"; "+"; "+"; "+"; "+"; "+"]%char.
Proof.
  destruct (@radio_is_tried_up_to_four_times Binary64 CommExamples.silent 7
              CommExamples.power_up)
    as (w' & delta & n & R & R4 & S & _ & _ & _ & Silent).
  - repeat constructor.
  - exists w'. split; [exact R|]. split; [exact R4|].
    rewrite S. rewrite Silent; [reflexivity|].
    intros sent. reflexivity.
Defined.

Lemma initialize_puts_in_order_witness :
  exists w' : Comm.World Binary64,
    @Comm.initialize Binary64 CommExamples.answering 4 CommExamples.power_up
    = Some (tt, w')
    /\ @Comm.in_order Binary64 CommExamples.flight w'.
Proof.
  destruct (@initialize_puts_in_order Binary64 CommExamples.flight
              CommExamples.answering 4 CommExamples.power_up)
    as (w' & R & O & _).
  - repeat constructor.
  - split; [reflexivity | vm_compute; split; [discriminate | reflexivity]].
  - intros T. discriminate T.
  - intros H. discriminate H.
  - exists w'. split; [exact R | exact O].
Defined.
